(** * Roundabout driving simulator: rule engine, physics tick and traffic yield

    A shallow embedding of the simulation core of the roundabout game engine
    (class [RoundaboutGame]): the mission sequencer, the restart command, the
    rule-checking state machine, the per-frame physics integrator and the
    traffic agents with their entry-yield and following model, followed by the
    properties established about them.

    Numbers.  The engine computes with JavaScript numbers.  They are modelled
    as real numbers: [Math.sqrt], [Math.sin], [Math.cos], [Math.pow] and
    [Math.atan2] are the real functions, and rounding, infinities, NaN and the
    sign of zero are not represented.  [Math.random] is modelled by the stream
    of the draws it will return.

    Presentation.  Scene construction, meshes, audio synthesis and indicator
    lights are left out: they read the simulation state and never write it.
    The chase camera and the stationary-horn check keep a state of their own
    beside the simulation state; they are modelled after the simulation
    ([_updateCamera], [_updateHornCheck]), with the speed dial of the
    interface. *)

From Stdlib Require Import Reals Lra Lia ZArith.
From stdpp Require Import base decidable option list gmap strings.

Open Scope R_scope.

(** ** JavaScript number operations over the reals *)

#[global] Instance Rlt_decision (a b : R) : Decision (a < b) := Rlt_dec a b.
#[global] Instance Rle_decision (a b : R) : Decision (a <= b) := Rle_dec a b.
#[global] Instance Rgt_decision (a b : R) : Decision (a > b) := Rgt_dec a b.
#[global] Instance Rge_decision (a b : R) : Decision (a >= b) := Rge_dec a b.
#[global] Instance R_eq_decision : EqDecision R := Req_dec_T.

Module JS.

(** Rounding toward zero, the integer quotient of [%]. *)
Definition trunc (a : R) : Z :=
  if decide (0 <= a) then Int_part a else (- Int_part (- a))%Z.

(** [a % m]: the remainder has the sign of the dividend. *)
Definition rem (a m : R) : R := a - m * IZR (trunc (a / m)).

(** [Math.floor]. *)
Definition floor (a : R) : Z := Int_part a.

(** [Math.round]: the nearest integer, ties toward +infinity. *)
Definition round (a : R) : Z := Int_part (a + 0.5).

(** [Math.atan2 (b, a)], the angle of the point (a, b), in (-PI, PI]. *)
Definition atan2 (b a : R) : R :=
  if decide (0 < a) then atan (b / a)
  else if decide (a < 0) then
    (if decide (0 <= b) then atan (b / a) + PI else atan (b / a) - PI)
  else if decide (0 < b) then PI / 2
  else if decide (b < 0) then - (PI / 2)
  else 0.

(** [Math.pow] for a positive base. *)
Definition pow (b e : R) : R := Rpower b e.

End JS.

Infix "%%" := JS.rem (at level 40, left associativity) : R_scope.

(** ** World constants *)

Definition LANE_W : R := 3.5.
Definition ROAD_W : R := 14.
Definition RB_IN  : R := 12.
Definition RB_MID : R := 17.
Definition RB_OUT : R := 22.
Definition ROAD_L : R := 110.

Definition TWO_PI : R := PI * 2.
Definition SOUTH_ENTRY_ANGLE : R := 3 * PI / 2.

Definition NPC_SPEED   : R := 0.22.
Definition NPC_INNER_R : R := (RB_IN + RB_MID) / 2.
Definition NPC_OUTER_R : R := (RB_MID + RB_OUT) / 2.
Definition ENTRY_ADVANCE : R := 0.4.
Definition EXIT_ADVANCE  : R := 0.4.

Definition MAX_SPEED : R := 0.55.
Definition MAX_REV   : R := 0.18.
Definition ACCEL     : R := 0.009.
Definition BRAKE     : R := 0.018.
Definition FRICTION  : R := 0.965.
Definition MAX_STEER : R := 0.062.

(** ** Data model *)

Module Vector3.
Record t : Type := mk { x : R; y : R; z : R }.
Definition set (a b c : R) (_ : t) : t := mk a b c.
Definition set_x (v : R) (p : t) : t := mk v (y p) (z p).
Definition set_z (v : R) (p : t) : t := mk (x p) (y p) v.
End Vector3.

(** The player's phase tags. *)
Inductive Phase : Type := approaching | on_roundabout | exiting | completed.

(** The four arms; the exits of a mission are named by their arm. *)
Inductive Arm : Type := south | north | east | west.

(** The lane tags: ['outer'], ['inner'], ['either'] and ['match']. *)
Inductive LaneTag : Type := outer | inner | either | match_.

(** The conditions a grace period can require, the arguments of [condOk]. *)
Inductive Req : Type :=
  | left | right | none
  | approach_outer | approach_inner
  | ring_outer | ring_inner
  | signal.

#[global] Instance Phase_eq_dec : EqDecision Phase.
Proof. solve_decision. Defined.
#[global] Instance LaneTag_eq_dec : EqDecision LaneTag.
Proof. solve_decision. Defined.
#[global] Instance Req_eq_dec : EqDecision Req.
Proof. solve_decision. Defined.
#[global] Instance Arm_eq_dec : EqDecision Arm.
Proof. solve_decision. Defined.

(** The player's vehicle, the object [this.car]. *)
Record Car : Type := mkCar {
  pos : Vector3.t;  (* THREE.Vector3 *)
  heading : R;  (* 0 = facing -Z (north) *)
  speed : R;
  steer : R;
  yawRate : R;
  phase : Phase;
  targetExit : option Arm;  (* null before the first assignment *)
  targetExitNum : option nat;  (* 1 | 2 | 3 *)
  exitTravelTarget : R;
  requiredLane : LaneTag;
  requiredRingLane : LaneTag;
  leftIndicator : bool;
  rightIndicator : bool;
  entryAngle : R;
  traveledAngle : R;
  approachLane : LaneTag;
  ringLane : LaneTag;
  graceActive : bool;
  graceTimer : R;
  graceRequired : option Req;  (* null until a grace period starts *)
  failed : bool;
  failReason : option string
}.

Definition set_pos (v : Vector3.t) (c : Car) : Car :=
  mkCar v (heading c) (speed c) (steer c) (yawRate c) (phase c) (targetExit c)
    (targetExitNum c) (exitTravelTarget c) (requiredLane c)
    (requiredRingLane c) (leftIndicator c) (rightIndicator c) (entryAngle c)
    (traveledAngle c) (approachLane c) (ringLane c) (graceActive c)
    (graceTimer c) (graceRequired c) (failed c) (failReason c).
Definition set_heading (v : R) (c : Car) : Car :=
  mkCar (pos c) v (speed c) (steer c) (yawRate c) (phase c) (targetExit c)
    (targetExitNum c) (exitTravelTarget c) (requiredLane c)
    (requiredRingLane c) (leftIndicator c) (rightIndicator c) (entryAngle c)
    (traveledAngle c) (approachLane c) (ringLane c) (graceActive c)
    (graceTimer c) (graceRequired c) (failed c) (failReason c).
Definition set_speed (v : R) (c : Car) : Car :=
  mkCar (pos c) (heading c) v (steer c) (yawRate c) (phase c) (targetExit c)
    (targetExitNum c) (exitTravelTarget c) (requiredLane c)
    (requiredRingLane c) (leftIndicator c) (rightIndicator c) (entryAngle c)
    (traveledAngle c) (approachLane c) (ringLane c) (graceActive c)
    (graceTimer c) (graceRequired c) (failed c) (failReason c).
Definition set_steer (v : R) (c : Car) : Car :=
  mkCar (pos c) (heading c) (speed c) v (yawRate c) (phase c) (targetExit c)
    (targetExitNum c) (exitTravelTarget c) (requiredLane c)
    (requiredRingLane c) (leftIndicator c) (rightIndicator c) (entryAngle c)
    (traveledAngle c) (approachLane c) (ringLane c) (graceActive c)
    (graceTimer c) (graceRequired c) (failed c) (failReason c).
Definition set_yawRate (v : R) (c : Car) : Car :=
  mkCar (pos c) (heading c) (speed c) (steer c) v (phase c) (targetExit c)
    (targetExitNum c) (exitTravelTarget c) (requiredLane c)
    (requiredRingLane c) (leftIndicator c) (rightIndicator c) (entryAngle c)
    (traveledAngle c) (approachLane c) (ringLane c) (graceActive c)
    (graceTimer c) (graceRequired c) (failed c) (failReason c).
Definition set_phase (v : Phase) (c : Car) : Car :=
  mkCar (pos c) (heading c) (speed c) (steer c) (yawRate c) v (targetExit c)
    (targetExitNum c) (exitTravelTarget c) (requiredLane c)
    (requiredRingLane c) (leftIndicator c) (rightIndicator c) (entryAngle c)
    (traveledAngle c) (approachLane c) (ringLane c) (graceActive c)
    (graceTimer c) (graceRequired c) (failed c) (failReason c).
Definition set_targetExit (v : option Arm) (c : Car) : Car :=
  mkCar (pos c) (heading c) (speed c) (steer c) (yawRate c) (phase c) v
    (targetExitNum c) (exitTravelTarget c) (requiredLane c)
    (requiredRingLane c) (leftIndicator c) (rightIndicator c) (entryAngle c)
    (traveledAngle c) (approachLane c) (ringLane c) (graceActive c)
    (graceTimer c) (graceRequired c) (failed c) (failReason c).
Definition set_targetExitNum (v : option nat) (c : Car) : Car :=
  mkCar (pos c) (heading c) (speed c) (steer c) (yawRate c) (phase c)
    (targetExit c) v (exitTravelTarget c) (requiredLane c)
    (requiredRingLane c) (leftIndicator c) (rightIndicator c) (entryAngle c)
    (traveledAngle c) (approachLane c) (ringLane c) (graceActive c)
    (graceTimer c) (graceRequired c) (failed c) (failReason c).
Definition set_exitTravelTarget (v : R) (c : Car) : Car :=
  mkCar (pos c) (heading c) (speed c) (steer c) (yawRate c) (phase c)
    (targetExit c) (targetExitNum c) v (requiredLane c) (requiredRingLane c)
    (leftIndicator c) (rightIndicator c) (entryAngle c) (traveledAngle c)
    (approachLane c) (ringLane c) (graceActive c) (graceTimer c)
    (graceRequired c) (failed c) (failReason c).
Definition set_requiredLane (v : LaneTag) (c : Car) : Car :=
  mkCar (pos c) (heading c) (speed c) (steer c) (yawRate c) (phase c)
    (targetExit c) (targetExitNum c) (exitTravelTarget c) v
    (requiredRingLane c) (leftIndicator c) (rightIndicator c) (entryAngle c)
    (traveledAngle c) (approachLane c) (ringLane c) (graceActive c)
    (graceTimer c) (graceRequired c) (failed c) (failReason c).
Definition set_requiredRingLane (v : LaneTag) (c : Car) : Car :=
  mkCar (pos c) (heading c) (speed c) (steer c) (yawRate c) (phase c)
    (targetExit c) (targetExitNum c) (exitTravelTarget c) (requiredLane c) v
    (leftIndicator c) (rightIndicator c) (entryAngle c) (traveledAngle c)
    (approachLane c) (ringLane c) (graceActive c) (graceTimer c)
    (graceRequired c) (failed c) (failReason c).
Definition set_leftIndicator (v : bool) (c : Car) : Car :=
  mkCar (pos c) (heading c) (speed c) (steer c) (yawRate c) (phase c)
    (targetExit c) (targetExitNum c) (exitTravelTarget c) (requiredLane c)
    (requiredRingLane c) v (rightIndicator c) (entryAngle c) (traveledAngle c)
    (approachLane c) (ringLane c) (graceActive c) (graceTimer c)
    (graceRequired c) (failed c) (failReason c).
Definition set_rightIndicator (v : bool) (c : Car) : Car :=
  mkCar (pos c) (heading c) (speed c) (steer c) (yawRate c) (phase c)
    (targetExit c) (targetExitNum c) (exitTravelTarget c) (requiredLane c)
    (requiredRingLane c) (leftIndicator c) v (entryAngle c) (traveledAngle c)
    (approachLane c) (ringLane c) (graceActive c) (graceTimer c)
    (graceRequired c) (failed c) (failReason c).
Definition set_entryAngle (v : R) (c : Car) : Car :=
  mkCar (pos c) (heading c) (speed c) (steer c) (yawRate c) (phase c)
    (targetExit c) (targetExitNum c) (exitTravelTarget c) (requiredLane c)
    (requiredRingLane c) (leftIndicator c) (rightIndicator c) v
    (traveledAngle c) (approachLane c) (ringLane c) (graceActive c)
    (graceTimer c) (graceRequired c) (failed c) (failReason c).
Definition set_traveledAngle (v : R) (c : Car) : Car :=
  mkCar (pos c) (heading c) (speed c) (steer c) (yawRate c) (phase c)
    (targetExit c) (targetExitNum c) (exitTravelTarget c) (requiredLane c)
    (requiredRingLane c) (leftIndicator c) (rightIndicator c) (entryAngle c) v
    (approachLane c) (ringLane c) (graceActive c) (graceTimer c)
    (graceRequired c) (failed c) (failReason c).
Definition set_approachLane (v : LaneTag) (c : Car) : Car :=
  mkCar (pos c) (heading c) (speed c) (steer c) (yawRate c) (phase c)
    (targetExit c) (targetExitNum c) (exitTravelTarget c) (requiredLane c)
    (requiredRingLane c) (leftIndicator c) (rightIndicator c) (entryAngle c)
    (traveledAngle c) v (ringLane c) (graceActive c) (graceTimer c)
    (graceRequired c) (failed c) (failReason c).
Definition set_ringLane (v : LaneTag) (c : Car) : Car :=
  mkCar (pos c) (heading c) (speed c) (steer c) (yawRate c) (phase c)
    (targetExit c) (targetExitNum c) (exitTravelTarget c) (requiredLane c)
    (requiredRingLane c) (leftIndicator c) (rightIndicator c) (entryAngle c)
    (traveledAngle c) (approachLane c) v (graceActive c) (graceTimer c)
    (graceRequired c) (failed c) (failReason c).
Definition set_graceActive (v : bool) (c : Car) : Car :=
  mkCar (pos c) (heading c) (speed c) (steer c) (yawRate c) (phase c)
    (targetExit c) (targetExitNum c) (exitTravelTarget c) (requiredLane c)
    (requiredRingLane c) (leftIndicator c) (rightIndicator c) (entryAngle c)
    (traveledAngle c) (approachLane c) (ringLane c) v (graceTimer c)
    (graceRequired c) (failed c) (failReason c).
Definition set_graceTimer (v : R) (c : Car) : Car :=
  mkCar (pos c) (heading c) (speed c) (steer c) (yawRate c) (phase c)
    (targetExit c) (targetExitNum c) (exitTravelTarget c) (requiredLane c)
    (requiredRingLane c) (leftIndicator c) (rightIndicator c) (entryAngle c)
    (traveledAngle c) (approachLane c) (ringLane c) (graceActive c) v
    (graceRequired c) (failed c) (failReason c).
Definition set_graceRequired (v : option Req) (c : Car) : Car :=
  mkCar (pos c) (heading c) (speed c) (steer c) (yawRate c) (phase c)
    (targetExit c) (targetExitNum c) (exitTravelTarget c) (requiredLane c)
    (requiredRingLane c) (leftIndicator c) (rightIndicator c) (entryAngle c)
    (traveledAngle c) (approachLane c) (ringLane c) (graceActive c)
    (graceTimer c) v (failed c) (failReason c).
Definition set_failed (v : bool) (c : Car) : Car :=
  mkCar (pos c) (heading c) (speed c) (steer c) (yawRate c) (phase c)
    (targetExit c) (targetExitNum c) (exitTravelTarget c) (requiredLane c)
    (requiredRingLane c) (leftIndicator c) (rightIndicator c) (entryAngle c)
    (traveledAngle c) (approachLane c) (ringLane c) (graceActive c)
    (graceTimer c) (graceRequired c) v (failReason c).
Definition set_failReason (v : option string) (c : Car) : Car :=
  mkCar (pos c) (heading c) (speed c) (steer c) (yawRate c) (phase c)
    (targetExit c) (targetExitNum c) (exitTravelTarget c) (requiredLane c)
    (requiredRingLane c) (leftIndicator c) (rightIndicator c) (entryAngle c)
    (traveledAngle c) (approachLane c) (ringLane c) (graceActive c)
    (graceTimer c) (graceRequired c) (failed c) v.

(** A traffic agent.  Its state tags share the player's phase names, so the
    record and the tags live in a module of their own. *)
Module Npc.

Inductive State : Type :=
  | despawned | approaching | entering_ring | on_roundabout
  | leaving_ring | exiting | debug.

#[global] Instance State_eq_dec : EqDecision State.
Proof. solve_decision. Defined.

Record t : Type := mk {
  position : Vector3.t;  (* mesh.position *)
  state : State;
  respawnTimer : R;
  entryArm : option Arm;
  exitArm : option Arm;
  heading : R;
  ringAngle : R;
  ringRadius : R;
  ringTravelNeeded : R;
  ringTravelDone : R;
  speed : R;
  leftIndicator : bool;
  rightIndicator : bool;
  nearExitSignaled : bool;
  transProgress : R;
  transDuration : R;
  transFromX : R;
  transFromZ : R;
  transFromH : R;
  transToX : R;
  transToZ : R;
  transToH : R
}.

Definition set_position (v : Vector3.t) (n : t) : t :=
  mk v (state n) (respawnTimer n) (entryArm n) (exitArm n) (heading n)
    (ringAngle n) (ringRadius n) (ringTravelNeeded n) (ringTravelDone n)
    (speed n) (leftIndicator n) (rightIndicator n) (nearExitSignaled n)
    (transProgress n) (transDuration n) (transFromX n) (transFromZ n)
    (transFromH n) (transToX n) (transToZ n) (transToH n).
Definition set_state (v : State) (n : t) : t :=
  mk (position n) v (respawnTimer n) (entryArm n) (exitArm n) (heading n)
    (ringAngle n) (ringRadius n) (ringTravelNeeded n) (ringTravelDone n)
    (speed n) (leftIndicator n) (rightIndicator n) (nearExitSignaled n)
    (transProgress n) (transDuration n) (transFromX n) (transFromZ n)
    (transFromH n) (transToX n) (transToZ n) (transToH n).
Definition set_respawnTimer (v : R) (n : t) : t :=
  mk (position n) (state n) v (entryArm n) (exitArm n) (heading n)
    (ringAngle n) (ringRadius n) (ringTravelNeeded n) (ringTravelDone n)
    (speed n) (leftIndicator n) (rightIndicator n) (nearExitSignaled n)
    (transProgress n) (transDuration n) (transFromX n) (transFromZ n)
    (transFromH n) (transToX n) (transToZ n) (transToH n).
Definition set_entryArm (v : option Arm) (n : t) : t :=
  mk (position n) (state n) (respawnTimer n) v (exitArm n) (heading n)
    (ringAngle n) (ringRadius n) (ringTravelNeeded n) (ringTravelDone n)
    (speed n) (leftIndicator n) (rightIndicator n) (nearExitSignaled n)
    (transProgress n) (transDuration n) (transFromX n) (transFromZ n)
    (transFromH n) (transToX n) (transToZ n) (transToH n).
Definition set_exitArm (v : option Arm) (n : t) : t :=
  mk (position n) (state n) (respawnTimer n) (entryArm n) v (heading n)
    (ringAngle n) (ringRadius n) (ringTravelNeeded n) (ringTravelDone n)
    (speed n) (leftIndicator n) (rightIndicator n) (nearExitSignaled n)
    (transProgress n) (transDuration n) (transFromX n) (transFromZ n)
    (transFromH n) (transToX n) (transToZ n) (transToH n).
Definition set_heading (v : R) (n : t) : t :=
  mk (position n) (state n) (respawnTimer n) (entryArm n) (exitArm n) v
    (ringAngle n) (ringRadius n) (ringTravelNeeded n) (ringTravelDone n)
    (speed n) (leftIndicator n) (rightIndicator n) (nearExitSignaled n)
    (transProgress n) (transDuration n) (transFromX n) (transFromZ n)
    (transFromH n) (transToX n) (transToZ n) (transToH n).
Definition set_ringAngle (v : R) (n : t) : t :=
  mk (position n) (state n) (respawnTimer n) (entryArm n) (exitArm n)
    (heading n) v (ringRadius n) (ringTravelNeeded n) (ringTravelDone n)
    (speed n) (leftIndicator n) (rightIndicator n) (nearExitSignaled n)
    (transProgress n) (transDuration n) (transFromX n) (transFromZ n)
    (transFromH n) (transToX n) (transToZ n) (transToH n).
Definition set_ringRadius (v : R) (n : t) : t :=
  mk (position n) (state n) (respawnTimer n) (entryArm n) (exitArm n)
    (heading n) (ringAngle n) v (ringTravelNeeded n) (ringTravelDone n)
    (speed n) (leftIndicator n) (rightIndicator n) (nearExitSignaled n)
    (transProgress n) (transDuration n) (transFromX n) (transFromZ n)
    (transFromH n) (transToX n) (transToZ n) (transToH n).
Definition set_ringTravelNeeded (v : R) (n : t) : t :=
  mk (position n) (state n) (respawnTimer n) (entryArm n) (exitArm n)
    (heading n) (ringAngle n) (ringRadius n) v (ringTravelDone n) (speed n)
    (leftIndicator n) (rightIndicator n) (nearExitSignaled n)
    (transProgress n) (transDuration n) (transFromX n) (transFromZ n)
    (transFromH n) (transToX n) (transToZ n) (transToH n).
Definition set_ringTravelDone (v : R) (n : t) : t :=
  mk (position n) (state n) (respawnTimer n) (entryArm n) (exitArm n)
    (heading n) (ringAngle n) (ringRadius n) (ringTravelNeeded n) v (speed n)
    (leftIndicator n) (rightIndicator n) (nearExitSignaled n)
    (transProgress n) (transDuration n) (transFromX n) (transFromZ n)
    (transFromH n) (transToX n) (transToZ n) (transToH n).
Definition set_speed (v : R) (n : t) : t :=
  mk (position n) (state n) (respawnTimer n) (entryArm n) (exitArm n)
    (heading n) (ringAngle n) (ringRadius n) (ringTravelNeeded n)
    (ringTravelDone n) v (leftIndicator n) (rightIndicator n)
    (nearExitSignaled n) (transProgress n) (transDuration n) (transFromX n)
    (transFromZ n) (transFromH n) (transToX n) (transToZ n) (transToH n).
Definition set_leftIndicator (v : bool) (n : t) : t :=
  mk (position n) (state n) (respawnTimer n) (entryArm n) (exitArm n)
    (heading n) (ringAngle n) (ringRadius n) (ringTravelNeeded n)
    (ringTravelDone n) (speed n) v (rightIndicator n) (nearExitSignaled n)
    (transProgress n) (transDuration n) (transFromX n) (transFromZ n)
    (transFromH n) (transToX n) (transToZ n) (transToH n).
Definition set_rightIndicator (v : bool) (n : t) : t :=
  mk (position n) (state n) (respawnTimer n) (entryArm n) (exitArm n)
    (heading n) (ringAngle n) (ringRadius n) (ringTravelNeeded n)
    (ringTravelDone n) (speed n) (leftIndicator n) v (nearExitSignaled n)
    (transProgress n) (transDuration n) (transFromX n) (transFromZ n)
    (transFromH n) (transToX n) (transToZ n) (transToH n).
Definition set_nearExitSignaled (v : bool) (n : t) : t :=
  mk (position n) (state n) (respawnTimer n) (entryArm n) (exitArm n)
    (heading n) (ringAngle n) (ringRadius n) (ringTravelNeeded n)
    (ringTravelDone n) (speed n) (leftIndicator n) (rightIndicator n) v
    (transProgress n) (transDuration n) (transFromX n) (transFromZ n)
    (transFromH n) (transToX n) (transToZ n) (transToH n).
Definition set_transProgress (v : R) (n : t) : t :=
  mk (position n) (state n) (respawnTimer n) (entryArm n) (exitArm n)
    (heading n) (ringAngle n) (ringRadius n) (ringTravelNeeded n)
    (ringTravelDone n) (speed n) (leftIndicator n) (rightIndicator n)
    (nearExitSignaled n) v (transDuration n) (transFromX n) (transFromZ n)
    (transFromH n) (transToX n) (transToZ n) (transToH n).
Definition set_transDuration (v : R) (n : t) : t :=
  mk (position n) (state n) (respawnTimer n) (entryArm n) (exitArm n)
    (heading n) (ringAngle n) (ringRadius n) (ringTravelNeeded n)
    (ringTravelDone n) (speed n) (leftIndicator n) (rightIndicator n)
    (nearExitSignaled n) (transProgress n) v (transFromX n) (transFromZ n)
    (transFromH n) (transToX n) (transToZ n) (transToH n).
Definition set_transFromX (v : R) (n : t) : t :=
  mk (position n) (state n) (respawnTimer n) (entryArm n) (exitArm n)
    (heading n) (ringAngle n) (ringRadius n) (ringTravelNeeded n)
    (ringTravelDone n) (speed n) (leftIndicator n) (rightIndicator n)
    (nearExitSignaled n) (transProgress n) (transDuration n) v (transFromZ n)
    (transFromH n) (transToX n) (transToZ n) (transToH n).
Definition set_transFromZ (v : R) (n : t) : t :=
  mk (position n) (state n) (respawnTimer n) (entryArm n) (exitArm n)
    (heading n) (ringAngle n) (ringRadius n) (ringTravelNeeded n)
    (ringTravelDone n) (speed n) (leftIndicator n) (rightIndicator n)
    (nearExitSignaled n) (transProgress n) (transDuration n) (transFromX n) v
    (transFromH n) (transToX n) (transToZ n) (transToH n).
Definition set_transFromH (v : R) (n : t) : t :=
  mk (position n) (state n) (respawnTimer n) (entryArm n) (exitArm n)
    (heading n) (ringAngle n) (ringRadius n) (ringTravelNeeded n)
    (ringTravelDone n) (speed n) (leftIndicator n) (rightIndicator n)
    (nearExitSignaled n) (transProgress n) (transDuration n) (transFromX n)
    (transFromZ n) v (transToX n) (transToZ n) (transToH n).
Definition set_transToX (v : R) (n : t) : t :=
  mk (position n) (state n) (respawnTimer n) (entryArm n) (exitArm n)
    (heading n) (ringAngle n) (ringRadius n) (ringTravelNeeded n)
    (ringTravelDone n) (speed n) (leftIndicator n) (rightIndicator n)
    (nearExitSignaled n) (transProgress n) (transDuration n) (transFromX n)
    (transFromZ n) (transFromH n) v (transToZ n) (transToH n).
Definition set_transToZ (v : R) (n : t) : t :=
  mk (position n) (state n) (respawnTimer n) (entryArm n) (exitArm n)
    (heading n) (ringAngle n) (ringRadius n) (ringTravelNeeded n)
    (ringTravelDone n) (speed n) (leftIndicator n) (rightIndicator n)
    (nearExitSignaled n) (transProgress n) (transDuration n) (transFromX n)
    (transFromZ n) (transFromH n) (transToX n) v (transToH n).
Definition set_transToH (v : R) (n : t) : t :=
  mk (position n) (state n) (respawnTimer n) (entryArm n) (exitArm n)
    (heading n) (ringAngle n) (ringRadius n) (ringTravelNeeded n)
    (ringTravelDone n) (speed n) (leftIndicator n) (rightIndicator n)
    (nearExitSignaled n) (transProgress n) (transDuration n) (transFromX n)
    (transFromZ n) (transFromH n) (transToX n) (transToZ n) v.

End Npc.

(** The simulation fields of the engine object. *)
Record Game : Type := mkGame {
  car : Car;
  npcs : list Npc.t;
  keys : gset string;  (* codes of the keys currently held *)
  elapsed : R;
  _blinkTimer : R;
  _blinkOn : bool;
  _prevBlinkOn : bool;
  _prevRingAngle : option R;
  _prevDistFromCenter : option R;
  _checkADone : bool;
  _checkBDone : bool;
  _checkCDone : bool;
  _checkDDone : bool;
  _checkLaneApproachDone : bool;
  _missionIndex : nat;
  _completeTimer : R;
  _preview : bool;
  _indDebug : bool;
  random : nat -> R  (* the draws Math.random() will return, in order *)
}.

Definition set_car (v : Car) (g : Game) : Game :=
  mkGame v (npcs g) (keys g) (elapsed g) (_blinkTimer g) (_blinkOn g)
    (_prevBlinkOn g) (_prevRingAngle g) (_prevDistFromCenter g)
    (_checkADone g) (_checkBDone g) (_checkCDone g) (_checkDDone g)
    (_checkLaneApproachDone g) (_missionIndex g) (_completeTimer g)
    (_preview g) (_indDebug g) (random g).
Definition set_npcs (v : list Npc.t) (g : Game) : Game :=
  mkGame (car g) v (keys g) (elapsed g) (_blinkTimer g) (_blinkOn g)
    (_prevBlinkOn g) (_prevRingAngle g) (_prevDistFromCenter g)
    (_checkADone g) (_checkBDone g) (_checkCDone g) (_checkDDone g)
    (_checkLaneApproachDone g) (_missionIndex g) (_completeTimer g)
    (_preview g) (_indDebug g) (random g).
Definition set_keys (v : gset string) (g : Game) : Game :=
  mkGame (car g) (npcs g) v (elapsed g) (_blinkTimer g) (_blinkOn g)
    (_prevBlinkOn g) (_prevRingAngle g) (_prevDistFromCenter g)
    (_checkADone g) (_checkBDone g) (_checkCDone g) (_checkDDone g)
    (_checkLaneApproachDone g) (_missionIndex g) (_completeTimer g)
    (_preview g) (_indDebug g) (random g).
Definition set_elapsed (v : R) (g : Game) : Game :=
  mkGame (car g) (npcs g) (keys g) v (_blinkTimer g) (_blinkOn g)
    (_prevBlinkOn g) (_prevRingAngle g) (_prevDistFromCenter g)
    (_checkADone g) (_checkBDone g) (_checkCDone g) (_checkDDone g)
    (_checkLaneApproachDone g) (_missionIndex g) (_completeTimer g)
    (_preview g) (_indDebug g) (random g).
Definition set__blinkTimer (v : R) (g : Game) : Game :=
  mkGame (car g) (npcs g) (keys g) (elapsed g) v (_blinkOn g) (_prevBlinkOn g)
    (_prevRingAngle g) (_prevDistFromCenter g) (_checkADone g) (_checkBDone g)
    (_checkCDone g) (_checkDDone g) (_checkLaneApproachDone g)
    (_missionIndex g) (_completeTimer g) (_preview g) (_indDebug g) (random g).
Definition set__blinkOn (v : bool) (g : Game) : Game :=
  mkGame (car g) (npcs g) (keys g) (elapsed g) (_blinkTimer g) v
    (_prevBlinkOn g) (_prevRingAngle g) (_prevDistFromCenter g)
    (_checkADone g) (_checkBDone g) (_checkCDone g) (_checkDDone g)
    (_checkLaneApproachDone g) (_missionIndex g) (_completeTimer g)
    (_preview g) (_indDebug g) (random g).
Definition set__prevBlinkOn (v : bool) (g : Game) : Game :=
  mkGame (car g) (npcs g) (keys g) (elapsed g) (_blinkTimer g) (_blinkOn g) v
    (_prevRingAngle g) (_prevDistFromCenter g) (_checkADone g) (_checkBDone g)
    (_checkCDone g) (_checkDDone g) (_checkLaneApproachDone g)
    (_missionIndex g) (_completeTimer g) (_preview g) (_indDebug g) (random g).
Definition set__prevRingAngle (v : option R) (g : Game) : Game :=
  mkGame (car g) (npcs g) (keys g) (elapsed g) (_blinkTimer g) (_blinkOn g)
    (_prevBlinkOn g) v (_prevDistFromCenter g) (_checkADone g) (_checkBDone g)
    (_checkCDone g) (_checkDDone g) (_checkLaneApproachDone g)
    (_missionIndex g) (_completeTimer g) (_preview g) (_indDebug g) (random g).
Definition set__prevDistFromCenter (v : option R) (g : Game) : Game :=
  mkGame (car g) (npcs g) (keys g) (elapsed g) (_blinkTimer g) (_blinkOn g)
    (_prevBlinkOn g) (_prevRingAngle g) v (_checkADone g) (_checkBDone g)
    (_checkCDone g) (_checkDDone g) (_checkLaneApproachDone g)
    (_missionIndex g) (_completeTimer g) (_preview g) (_indDebug g) (random g).
Definition set__checkADone (v : bool) (g : Game) : Game :=
  mkGame (car g) (npcs g) (keys g) (elapsed g) (_blinkTimer g) (_blinkOn g)
    (_prevBlinkOn g) (_prevRingAngle g) (_prevDistFromCenter g) v
    (_checkBDone g) (_checkCDone g) (_checkDDone g) (_checkLaneApproachDone g)
    (_missionIndex g) (_completeTimer g) (_preview g) (_indDebug g) (random g).
Definition set__checkBDone (v : bool) (g : Game) : Game :=
  mkGame (car g) (npcs g) (keys g) (elapsed g) (_blinkTimer g) (_blinkOn g)
    (_prevBlinkOn g) (_prevRingAngle g) (_prevDistFromCenter g)
    (_checkADone g) v (_checkCDone g) (_checkDDone g)
    (_checkLaneApproachDone g) (_missionIndex g) (_completeTimer g)
    (_preview g) (_indDebug g) (random g).
Definition set__checkCDone (v : bool) (g : Game) : Game :=
  mkGame (car g) (npcs g) (keys g) (elapsed g) (_blinkTimer g) (_blinkOn g)
    (_prevBlinkOn g) (_prevRingAngle g) (_prevDistFromCenter g)
    (_checkADone g) (_checkBDone g) v (_checkDDone g)
    (_checkLaneApproachDone g) (_missionIndex g) (_completeTimer g)
    (_preview g) (_indDebug g) (random g).
Definition set__checkDDone (v : bool) (g : Game) : Game :=
  mkGame (car g) (npcs g) (keys g) (elapsed g) (_blinkTimer g) (_blinkOn g)
    (_prevBlinkOn g) (_prevRingAngle g) (_prevDistFromCenter g)
    (_checkADone g) (_checkBDone g) (_checkCDone g) v
    (_checkLaneApproachDone g) (_missionIndex g) (_completeTimer g)
    (_preview g) (_indDebug g) (random g).
Definition set__checkLaneApproachDone (v : bool) (g : Game) : Game :=
  mkGame (car g) (npcs g) (keys g) (elapsed g) (_blinkTimer g) (_blinkOn g)
    (_prevBlinkOn g) (_prevRingAngle g) (_prevDistFromCenter g)
    (_checkADone g) (_checkBDone g) (_checkCDone g) (_checkDDone g) v
    (_missionIndex g) (_completeTimer g) (_preview g) (_indDebug g) (random g).
Definition set__missionIndex (v : nat) (g : Game) : Game :=
  mkGame (car g) (npcs g) (keys g) (elapsed g) (_blinkTimer g) (_blinkOn g)
    (_prevBlinkOn g) (_prevRingAngle g) (_prevDistFromCenter g)
    (_checkADone g) (_checkBDone g) (_checkCDone g) (_checkDDone g)
    (_checkLaneApproachDone g) v (_completeTimer g) (_preview g) (_indDebug g)
    (random g).
Definition set__completeTimer (v : R) (g : Game) : Game :=
  mkGame (car g) (npcs g) (keys g) (elapsed g) (_blinkTimer g) (_blinkOn g)
    (_prevBlinkOn g) (_prevRingAngle g) (_prevDistFromCenter g)
    (_checkADone g) (_checkBDone g) (_checkCDone g) (_checkDDone g)
    (_checkLaneApproachDone g) (_missionIndex g) v (_preview g) (_indDebug g)
    (random g).
Definition set__preview (v : bool) (g : Game) : Game :=
  mkGame (car g) (npcs g) (keys g) (elapsed g) (_blinkTimer g) (_blinkOn g)
    (_prevBlinkOn g) (_prevRingAngle g) (_prevDistFromCenter g)
    (_checkADone g) (_checkBDone g) (_checkCDone g) (_checkDDone g)
    (_checkLaneApproachDone g) (_missionIndex g) (_completeTimer g) v
    (_indDebug g) (random g).
Definition set__indDebug (v : bool) (g : Game) : Game :=
  mkGame (car g) (npcs g) (keys g) (elapsed g) (_blinkTimer g) (_blinkOn g)
    (_prevBlinkOn g) (_prevRingAngle g) (_prevDistFromCenter g)
    (_checkADone g) (_checkBDone g) (_checkCDone g) (_checkDDone g)
    (_checkLaneApproachDone g) (_missionIndex g) (_completeTimer g)
    (_preview g) v (random g).
Definition set_random (v : nat -> R) (g : Game) : Game :=
  mkGame (car g) (npcs g) (keys g) (elapsed g) (_blinkTimer g) (_blinkOn g)
    (_prevBlinkOn g) (_prevRingAngle g) (_prevDistFromCenter g)
    (_checkADone g) (_checkBDone g) (_checkCDone g) (_checkDDone g)
    (_checkLaneApproachDone g) (_missionIndex g) (_completeTimer g)
    (_preview g) (_indDebug g) v.

(** ** Mission sequencer *)

Module Exit.
Record t : Type := mk {
  name : Arm;
  num : nat;
  travelAngle : R;
  requiredLane : LaneTag;
  requiredRingLane : LaneTag
}.
End Exit.

(** 1st exit = west (left turn), 2nd = north (straight), 3rd = east (right
    turn); the player always enters from the south. *)
Definition EXITS : list Exit.t :=
  [ Exit.mk west  1 (PI / 2)     outer  outer;
    Exit.mk north 2 PI           either match_;
    Exit.mk east  3 (3 * PI / 2) inner  inner ].

(** Indicator required at the entry checkpoint, per exit number. *)
Definition ENTRY_IND (n : option nat) : option Req :=
  match n with
  | Some 1%nat => Some left
  | Some 2%nat => Some none
  | Some 3%nat => Some right
  | _ => None
  end.

(** [_assignMission]: copy the entry at [_missionIndex % EXITS.length] into
    the car and clear the checkpoint flags.  The index is below the length,
    so the lookup always succeeds ([EXITS_lookup_mod]). *)
Definition _assignMission (g : Game) : Game :=
  match EXITS !! (_missionIndex g mod length EXITS)%nat with
  | None => g
  | Some exit =>
    let c := car g in
    let c := set_targetExit (Some (Exit.name exit)) c in
    let c := set_targetExitNum (Some (Exit.num exit)) c in
    let c := set_exitTravelTarget (Exit.travelAngle exit) c in
    let c := set_requiredLane (Exit.requiredLane exit) c in
    let c := set_requiredRingLane (Exit.requiredRingLane exit) c in
    let g := set_car c g in
    let g := set__checkADone false g in
    let g := set__checkBDone false g in
    let g := set__checkCDone false g in
    let g := set__checkDDone false g in
    let g := set__checkLaneApproachDone false g in
    g
  end.

(** [restart]: full reset of the player and of the per-attempt engine fields;
    [_missionIndex] is not written. *)
Definition restart (g : Game) : Game :=
  let c := car g in
  let c := set_pos (Vector3.set (- LANE_W * 1.5) 0 (RB_OUT + ROAD_L * 0.55) (pos c)) c in
  let c := set_heading 0 c in
  let c := set_speed 0 c in
  let c := set_steer 0 c in
  let c := set_yawRate 0 c in
  let c := set_phase approaching c in
  let c := set_leftIndicator false c in
  let c := set_rightIndicator false c in
  let c := set_entryAngle SOUTH_ENTRY_ANGLE c in
  let c := set_traveledAngle 0 c in
  let c := set_approachLane outer c in
  let c := set_ringLane outer c in
  let c := set_graceActive false c in
  let c := set_graceTimer 0 c in
  let c := set_graceRequired None c in
  let c := set_failed false c in
  let c := set_failReason None c in
  let g := set_car c g in
  let g := set__prevRingAngle None g in
  let g := set__prevDistFromCenter None g in
  let g := set__completeTimer 0 g in
  _assignMission g.

(** [nextMission]: advance to the next mission after a successful exit. *)
Definition nextMission (g : Game) : Game :=
  restart (set__missionIndex (S (_missionIndex g)) g).

(** [startGame]: leave the preview and begin gameplay. *)
Definition startGame (g : Game) : Game := set__preview false g.

(** [_toggleIndicator]: Q = left, E = right; mutually exclusive. *)
Definition _toggleIndicator (side : Req) (g : Game) : Game :=
  let c := car g in
  let c :=
    if decide (side = left) then
      set_rightIndicator false (set_leftIndicator (negb (leftIndicator c)) c)
    else
      set_leftIndicator false (set_rightIndicator (negb (rightIndicator c)) c) in
  set_car c g.

(** The car literal of the constructor. *)
Definition initial_car : Car :=
  {| pos := Vector3.mk (- LANE_W * 1.5) 0 (RB_OUT + ROAD_L * 0.55);
     heading := 0; speed := 0; steer := 0; yawRate := 0;
     phase := approaching;
     targetExit := None; targetExitNum := None; exitTravelTarget := 0;
     requiredLane := outer; requiredRingLane := outer;
     leftIndicator := false; rightIndicator := false;
     entryAngle := SOUTH_ENTRY_ANGLE; traveledAngle := 0;
     approachLane := outer; ringLane := outer;
     graceActive := false; graceTimer := 0; graceRequired := None;
     failed := false; failReason := None |}.

(** The agent literal of [_buildNPCs], for the agent of index [i]. *)
Definition initial_npc (i : nat) : Npc.t :=
  {| Npc.position := Vector3.mk 0 0 0;
     Npc.state := Npc.despawned;
     Npc.respawnTimer := INR i * 2.5;
     Npc.entryArm := None; Npc.exitArm := None;
     Npc.heading := 0; Npc.ringAngle := 0; Npc.ringRadius := NPC_OUTER_R;
     Npc.ringTravelNeeded := 0; Npc.ringTravelDone := 0;
     Npc.speed := NPC_SPEED;
     Npc.leftIndicator := false; Npc.rightIndicator := false;
     Npc.nearExitSignaled := false;
     Npc.transProgress := 0; Npc.transDuration := 0.5;
     Npc.transFromX := 0; Npc.transFromZ := 0; Npc.transFromH := 0;
     Npc.transToX := 0; Npc.transToZ := 0; Npc.transToH := 0 |}.

(** The simulation state the constructor leaves: the field initialisers,
    then [_assignMission], then the five despawned agents of [_buildNPCs]. *)
Definition new_game (rnd : nat -> R) : Game :=
  let g :=
    {| car := initial_car; npcs := []; keys := ∅;
       elapsed := 0; _blinkTimer := 0; _blinkOn := false; _prevBlinkOn := false;
       _prevRingAngle := None; _prevDistFromCenter := None;
       _checkADone := false; _checkBDone := false; _checkCDone := false;
       _checkDDone := false; _checkLaneApproachDone := false;
       _missionIndex := 0; _completeTimer := 0;
       _preview := true; _indDebug := false;
       random := rnd |} in
  let g := _assignMission g in
  set_npcs (map initial_npc (seq 0 5)) g.

(** ** Rule engine: [_updateStateMachine] *)

(** Apply a mutation of [this.car]. *)
Definition upd_car (f : Car -> Car) (g : Game) : Game := set_car (f (car g)) g.

(** [Math.sqrt(car.pos.x * car.pos.x + car.pos.z * car.pos.z)]. *)
Definition distFromCenter (p : Vector3.t) : R :=
  sqrt (Vector3.x p * Vector3.x p + Vector3.z p * Vector3.z p).

Definition ARM_OVERLAP : R := 1.5.

(** The [onRoad] test: the ring, then the south, north, east and west arms. *)
Definition onRoad (p : Vector3.t) (dist : R) : bool :=
  let x := Vector3.x p in
  let z := Vector3.z p in
  (bool_decide (dist > RB_IN) && bool_decide (dist < RB_OUT))
  || (bool_decide (Rabs x < ROAD_W / 2) && bool_decide (z > RB_OUT - ARM_OVERLAP)
      && bool_decide (z < RB_OUT + ROAD_L))
  || (bool_decide (Rabs x < ROAD_W / 2) && bool_decide (z < - RB_OUT + ARM_OVERLAP)
      && bool_decide (z > - (RB_OUT + ROAD_L)))
  || (bool_decide (Rabs z < ROAD_W / 2) && bool_decide (x > RB_OUT - ARM_OVERLAP)
      && bool_decide (x < RB_OUT + ROAD_L))
  || (bool_decide (Rabs z < ROAD_W / 2) && bool_decide (x < - RB_OUT + ARM_OVERLAP)
      && bool_decide (x > - (RB_OUT + ROAD_L))).

Definition REASON_ISLAND : string :=
  "You drove into the centre island. Stay focused next time!".
Definition REASON_GRASS : string :=
  "That's grass, not asphalt. Stay on the road.".
Definition REASON_CRASH : string :=
  "You crashed into the traffic. Stay focused next time!".
Definition REASON_SIGNAL : string :=
  "No signal? Other drivers can't read your mind.".
Definition REASON_LANE : string :=
  "You didn't move into the correct lane in time.".

(** The collision loop: the first active agent closer than 3.5 units. *)
Fixpoint collision (p : Vector3.t) (l : list Npc.t) : bool :=
  match l with
  | [] => false
  | npc :: rest =>
    if decide (Npc.state npc = Npc.despawned) then collision p rest
    else
      let dx := Vector3.x p - Vector3.x (Npc.position npc) in
      let dz := Vector3.z p - Vector3.z (Npc.position npc) in
      if decide (dx * dx + dz * dz < 3.5 * 3.5) then true
      else collision p rest
  end.

(** The universal condition checker; an unknown requirement is satisfied. *)
Definition condOk (c : Car) (dist : R) (req : option Req) : bool :=
  match req with
  | Some left => leftIndicator c
  | Some right => rightIndicator c
  | Some none => negb (leftIndicator c) && negb (rightIndicator c)
  | Some approach_outer => bool_decide (Vector3.x (pos c) < - LANE_W)
  | Some approach_inner =>
      bool_decide (Vector3.x (pos c) >= - LANE_W) && bool_decide (Vector3.x (pos c) < 0)
  | Some ring_outer => bool_decide (dist > RB_MID)
  | Some ring_inner => bool_decide (dist < RB_MID)
  | Some signal => leftIndicator c || rightIndicator c
  | None => true
  end.

(** [indViolations.includes(car.graceRequired)]. *)
Definition isIndViolation (req : option Req) : bool :=
  bool_decide (req ∈ [Some left; Some right; Some none]).

(** The grace countdown.  The boolean is [true] when the function returns
    from inside the block (the grace period expired). *)
Definition graceCountdown (dt dist : R) (c : Car) : Car * bool :=
  if graceActive c then
    let c := set_graceTimer (graceTimer c - dt) c in
    if condOk c dist (graceRequired c) then (set_graceActive false c, false)
    else if decide (graceTimer c <= 0) then
      let c := set_failed true c in
      let c := set_graceActive false c in
      let c := set_failReason
                 (Some (if isIndViolation (graceRequired c)
                        then REASON_SIGNAL else REASON_LANE)) c in
      (c, true)
    else (c, false)
  else (c, false).

(** [startGrace]: start a grace period only if none is already active. *)
Definition startGrace (req : option Req) (duration : R) (c : Car) : Car :=
  if negb (graceActive c) then
    let c := set_graceActive true c in
    let c := set_graceTimer duration c in
    let c := set_graceRequired req c in
    c
  else c.

(** The default duration of [startGrace]. *)
Definition GRACE_DEFAULT : R := 3.0.

(** [((raw % TWO_PI) + TWO_PI) % TWO_PI] for [raw = Math.atan2(-z, x)]:
    the player's ring angle. *)
Definition playerRingAngle (p : Vector3.t) : R :=
  let raw := JS.atan2 (- Vector3.z p) (Vector3.x p) in
  ((raw %% TWO_PI) + TWO_PI) %% TWO_PI.

(** Phase [approaching]. *)
Definition phaseApproaching (dist : R) (g : Game) : Game :=
  let x := Vector3.x (pos (car g)) in
  let g := upd_car (set_approachLane (if decide (x < - LANE_W) then outer else inner)) g in
  (* lane-approach check, within 20 units of the give-way line *)
  let g :=
    if negb (_checkLaneApproachDone g) && bool_decide (dist < RB_OUT + 20) then
      let g := set__checkLaneApproachDone true g in
      let inOuter := bool_decide (x < - LANE_W) in
      let g :=
        if bool_decide (targetExitNum (car g) = Some 1%nat) && negb inOuter
        then upd_car (startGrace (Some approach_outer) 4.0) g else g in
      let g :=
        if bool_decide (targetExitNum (car g) = Some 3%nat) && inOuter
        then upd_car (startGrace (Some approach_inner) 4.0) g else g in
      g
    else g in
  (* check (a): entry indicator, and entry onto the ring *)
  if decide (dist <= RB_OUT + 1) then
    let g :=
      if negb (_checkADone g) then
        let g := set__checkADone true g in
        if negb (condOk (car g) dist (ENTRY_IND (targetExitNum (car g))))
        then upd_car (startGrace (ENTRY_IND (targetExitNum (car g))) GRACE_DEFAULT) g
        else g
      else g in
    let g := upd_car (set_phase on_roundabout) g in
    let g := set__prevRingAngle (Some (playerRingAngle (pos (car g)))) g in
    let g := upd_car (set_traveledAngle 0) g in
    let g := set__prevDistFromCenter (Some dist) g in
    g
  else g.

(** The accumulation of [traveledAngle]: the delta of the ring angle is
    unwrapped into [-PI, PI] and subtracted (clockwise travel decreases the
    angle). *)
Definition accumulate (prev : option R) (norm traveled : R) : R :=
  match prev with
  | Some p =>
    let d := norm - p in
    let d := if decide (d < - PI) then d + TWO_PI else d in
    let d := if decide (d > PI) then d - TWO_PI else d in
    traveled - d
  | None => traveled
  end.

Definition trackRingAngle (g : Game) : Game :=
  let norm := playerRingAngle (pos (car g)) in
  let g := upd_car (fun c =>
             set_traveledAngle (accumulate (_prevRingAngle g) norm (traveledAngle c)) c) g in
  set__prevRingAngle (Some norm) g.

(** Check (b): 12 o'clock, the 3rd exit must still signal right. *)
Definition checkB (dist : R) (g : Game) : Game :=
  if negb (_checkBDone g) && bool_decide (traveledAngle (car g) >= PI - 0.1) then
    let g := set__checkBDone true g in
    if bool_decide (targetExitNum (car g) = Some 3%nat)
       && negb (condOk (car g) dist (Some right))
    then upd_car (startGrace (Some right) GRACE_DEFAULT) g else g
  else g.

(** Check (d): exit 2, left indicator required after passing exit 1. *)
Definition checkD (dist : R) (g : Game) : Game :=
  if negb (_checkDDone g) && bool_decide (targetExitNum (car g) = Some 2%nat)
     && bool_decide (traveledAngle (car g) >= PI / 2) then
    let g := set__checkDDone true g in
    if negb (condOk (car g) dist (Some left))
    then upd_car (startGrace (Some left) GRACE_DEFAULT) g else g
  else g.

(** Check (c): near the exit, every exit needs the left indicator. *)
Definition checkC (dist : R) (g : Game) : Game :=
  if negb (_checkCDone g)
     && bool_decide (traveledAngle (car g) >= exitTravelTarget (car g) - 0.7) then
    let g := set__checkCDone true g in
    if negb (condOk (car g) dist (Some left))
    then upd_car (startGrace (Some left) GRACE_DEFAULT) g else g
  else g.

(** The continuous ring-lane check. *)
Definition ringLaneCheck (dist : R) (g : Game) : Game :=
  let c := car g in
  let needOuterRing :=
    if decide (targetExitNum c = Some 1%nat) then true
    else if decide (targetExitNum c = Some 2%nat) then bool_decide (approachLane c = outer)
    else bool_decide (traveledAngle c >= exitTravelTarget c - 0.7) in
  if negb (eqb needOuterRing (bool_decide (dist > RB_MID))) then
    upd_car (startGrace (Some (if needOuterRing then ring_outer else ring_inner)) 3.0) g
  else g.

(** The lane-change indicator check. *)
Definition laneChangeCheck (dist : R) (g : Game) : Game :=
  let g :=
    match _prevDistFromCenter g with
    | Some prev =>
      let radialDelta := Rabs (dist - prev) in
      if bool_decide (radialDelta > 0.5) && negb (leftIndicator (car g))
         && negb (rightIndicator (car g))
      then upd_car (startGrace (Some signal) 2.0) g else g
    | None => g
    end in
  set__prevDistFromCenter (Some dist) g.

Definition onExitArm (c : Car) : bool :=
  let x := Vector3.x (pos c) in
  let z := Vector3.z (pos c) in
  (bool_decide (targetExit c = Some west) && bool_decide (x < - RB_OUT)
   && bool_decide (Rabs z < ROAD_W / 2))
  || (bool_decide (targetExit c = Some north) && bool_decide (z < - RB_OUT)
      && bool_decide (Rabs x < ROAD_W / 2))
  || (bool_decide (targetExit c = Some east) && bool_decide (x > RB_OUT)
      && bool_decide (Rabs z < ROAD_W / 2)).

(** The transition to [exiting]: by angle, or physically on the exit arm. *)
Definition exitTransition (g : Game) : Game :=
  let arm := onExitArm (car g) in
  let g := if arm then upd_car (set_graceActive false) g else g in
  if bool_decide (traveledAngle (car g) >= exitTravelTarget (car g) - 0.15) || arm
  then upd_car (set_phase exiting) g else g.

(** Phase [on_roundabout]. *)
Definition phaseOnRoundabout (dist : R) (g : Game) : Game :=
  let g := upd_car (set_ringLane (if decide (dist < RB_MID) then inner else outer)) g in
  let g := trackRingAngle g in
  let g := checkB dist g in
  let g := checkD dist g in
  let g := checkC dist g in
  let g := ringLaneCheck dist g in
  let g := laneChangeCheck dist g in
  exitTransition g.

(** Phase [exiting]. *)
Definition phaseExiting (dist : R) (g : Game) : Game :=
  if decide (dist >= RB_OUT + 8) then
    let g := upd_car (set_phase completed) g in
    set__completeTimer 2.0 g
  else g.

Definition _updateStateMachine (dt : R) (g : Game) : Game :=
  let c := car g in
  if failed c || bool_decide (phase c = completed) then g else
  let dist := distFromCenter (pos c) in
  if negb (onRoad (pos c) dist) then
    let c := set_failed true c in
    let c := set_failReason
               (Some (if decide (dist < RB_IN) then REASON_ISLAND else REASON_GRASS)) c in
    set_car c g
  else if collision (pos c) (npcs g) then
    let c := set_failed true c in
    let c := set_failReason (Some REASON_CRASH) c in
    set_car c g
  else
    let '(c, returned) := graceCountdown dt dist c in
    let g := set_car c g in
    if returned then g
    else
      match phase c with
      | approaching => phaseApproaching dist g
      | on_roundabout => phaseOnRoundabout dist g
      | exiting => phaseExiting dist g
      | completed => g
      end.

(** ** Traffic engine *)

Definition ARM_NAMES : list Arm := [south; north; east; west].

(** The entries of [ARM_CFG] that the simulation reads. *)
Module ArmCfg.
Record t : Type := mk {
  ringAngle : R;
  approachHeading : R;
  departHeading : R;
  approachLanePos : bool -> R * R;
  despawnCheck : Vector3.t -> bool
}.
End ArmCfg.

Definition ARM_CFG (arm : Arm) : ArmCfg.t :=
  match arm with
  | south =>
    ArmCfg.mk PI 0 PI
      (fun o => (if o then - LANE_W * 1.5 else - LANE_W * 0.5, RB_OUT + ROAD_L * 0.65))
      (fun p => bool_decide (Vector3.z p > RB_OUT + ROAD_L * 0.6))
  | north =>
    ArmCfg.mk 0 PI 0
      (fun o => (if o then LANE_W * 1.5 else LANE_W * 0.5, - (RB_OUT + ROAD_L * 0.65)))
      (fun p => bool_decide (Vector3.z p < - (RB_OUT + ROAD_L * 0.6)))
  | east =>
    ArmCfg.mk (PI / 2) (- PI / 2) (PI / 2)
      (fun o => (RB_OUT + ROAD_L * 0.65, if o then LANE_W * 1.5 else LANE_W * 0.5))
      (fun p => bool_decide (Vector3.x p > RB_OUT + ROAD_L * 0.6))
  | west =>
    ArmCfg.mk (3 * PI / 2) (PI / 2) (- PI / 2)
      (fun o => (- (RB_OUT + ROAD_L * 0.65), if o then - LANE_W * 1.5 else - LANE_W * 0.5))
      (fun p => bool_decide (Vector3.x p < - (RB_OUT + ROAD_L * 0.6)))
  end.

(** [((Math.atan2(x, -z) % TWO_PI) + TWO_PI) % TWO_PI]: the ring angle of the
    traffic convention, x = r sin(theta), z = - r cos(theta). *)
Definition trafficRingAngle (x z : R) : R :=
  ((JS.atan2 x (- z) %% TWO_PI) + TWO_PI) %% TWO_PI.

Module RingPoint.
Record t : Type := mk { x : R; z : R; ringAngle : R; tangentH : R }.
End RingPoint.

(** [_ringIntersect]: where the lane of an arm meets the ring of radius [r]. *)
Definition _ringIntersect (arm : Arm) (r : R) (isOuter isEntry : bool) : RingPoint.t :=
  let w := if isOuter then LANE_W * 1.5 else LANE_W * 0.5 in
  let h := sqrt (r * r - w * w) in
  let '(x, z) :=
    match arm with
    | south => (if isEntry then - w else w, h)
    | north => (if isEntry then w else - w, - h)
    | east  => (h, if isEntry then w else - w)
    | west  => (- h, if isEntry then - w else w)
    end in
  let ringAngle := trafficRingAngle x z in
  let tangentH := JS.atan2 (cos ringAngle) (- sin ringAngle) in
  RingPoint.mk x z ringAngle tangentH.

(** One call of [Math.random]: the head of the stream and the rest. *)
Definition draw (rnd : nat -> R) : R * (nat -> R) := (rnd 0%nat, fun n => rnd (S n)).

(** [a[Math.floor(Math.random() * a.length)]]; a draw lies in [0, 1), so the
    index is within the array, and the default is never returned. *)
Definition pick (l : list Arm) (r : R) : Arm :=
  nth (Z.to_nat (JS.floor (r * INR (length l)))) l south.

(** [_spawnNPC]: a random entry and exit, the lane that the manoeuvre
    requires, and the agent placed at the spawn point of its lane. *)
Definition _spawnNPC (npc : Npc.t) (rnd : nat -> R) : Npc.t * (nat -> R) :=
  let '(r1, rnd) := draw rnd in
  let entryName := pick ARM_NAMES r1 in
  let exitCands := filter (fun a => a <> entryName) ARM_NAMES in
  let '(r2, rnd) := draw rnd in
  let exitName := pick exitCands r2 in
  let entryCfg := ARM_CFG entryName in
  let npc := Npc.set_entryArm (Some entryName) npc in
  let npc := Npc.set_exitArm (Some exitName) npc in
  let npc := Npc.set_heading (ArmCfg.approachHeading entryCfg) npc in
  let tempEntry := _ringIntersect entryName NPC_OUTER_R true true in
  let tempExit := _ringIntersect exitName NPC_OUTER_R true false in
  let tempAdv := (RingPoint.ringAngle tempEntry + ENTRY_ADVANCE + TWO_PI) %% TWO_PI in
  let tempAdvX := (RingPoint.ringAngle tempExit - EXIT_ADVANCE + TWO_PI) %% TWO_PI in
  let approxTravel := (tempAdvX - tempAdv + TWO_PI) %% TWO_PI in
  let approxTravel := if decide (approxTravel < 0.2) then approxTravel + TWO_PI else approxTravel in
  let '(isOuter, rnd) :=
    if decide (approxTravel < PI * 0.65) then (true, rnd)
    else if decide (approxTravel > PI * 1.35) then (false, rnd)
    else let '(r3, rnd) := draw rnd in (bool_decide (r3 < 0.5), rnd) in
  let npc := Npc.set_ringRadius (if isOuter then NPC_OUTER_R else NPC_INNER_R) npc in
  let entryInt := _ringIntersect entryName (Npc.ringRadius npc) isOuter true in
  let exitInt := _ringIntersect exitName (Npc.ringRadius npc) isOuter false in
  let advEntryAngle := (RingPoint.ringAngle entryInt + ENTRY_ADVANCE + TWO_PI) %% TWO_PI in
  let advExitAngle := (RingPoint.ringAngle exitInt - EXIT_ADVANCE + TWO_PI) %% TWO_PI in
  let npc := Npc.set_ringTravelNeeded ((advExitAngle - advEntryAngle + TWO_PI) %% TWO_PI) npc in
  let npc :=
    if decide (Npc.ringTravelNeeded npc < 0.2)
    then Npc.set_ringTravelNeeded (Npc.ringTravelNeeded npc + TWO_PI) npc else npc in
  let npc := Npc.set_ringTravelDone 0 npc in
  let npc := Npc.set_state Npc.approaching npc in
  let npc := Npc.set_leftIndicator (bool_decide (approxTravel < PI * 0.65)) npc in
  let npc := Npc.set_rightIndicator (bool_decide (approxTravel > PI * 1.35)) npc in
  let npc := Npc.set_nearExitSignaled false npc in
  let '(sx, sz) := ArmCfg.approachLanePos entryCfg isOuter in
  let npc := Npc.set_position (Vector3.set sx 0 sz (Npc.position npc)) npc in
  (npc, rnd).

(** [_arcSpeedScale]: the 0..1 speed scale of a transition arc, from the
    distance to the player. *)
Definition _arcSpeedScale (c : Car) (npcPos : Vector3.t) : R :=
  if failed c then 1 else
  let SLOW_START := 10 in
  let STOP_DIST := 4 in
  let dx := Vector3.x (pos c) - Vector3.x npcPos in
  let dz := Vector3.z (pos c) - Vector3.z npcPos in
  let d := sqrt (dx * dx + dz * dz) in
  if decide (d >= SLOW_START) then 1
  else if decide (d <= STOP_DIST) then 0
  else (d - STOP_DIST) / (SLOW_START - STOP_DIST).

(** The angular gap, clockwise-before the entry point, of a ring position. *)
Definition yieldGap (entryAngle angle : R) : R :=
  (entryAngle - angle + TWO_PI) %% TWO_PI.

(** The loop of the entry yield over the other agents: [true] when the loop
    returns 0.  [i] is the index of the yielding agent, [j] the index of the
    head of [l]. *)
Fixpoint yieldToAgents (i : nat) (entryInt : RingPoint.t) (j : nat) (l : list Npc.t) : bool :=
  match l with
  | [] => false
  | other :: rest =>
    if decide (j = i) then yieldToAgents i entryInt (S j) rest
    else if bool_decide (Npc.state other = Npc.despawned)
            || bool_decide (Npc.state other = Npc.approaching)
    then yieldToAgents i entryInt (S j) rest
    else
      let ox := Vector3.x (Npc.position other) in
      let oz := Vector3.z (Npc.position other) in
      if decide (Npc.state other = Npc.on_roundabout) then
        let otherAngle := trafficRingAngle ox oz in
        let gap := yieldGap (RingPoint.ringAngle entryInt) otherAngle in
        if decide (gap < 0.9) then true
        else yieldToAgents i entryInt (S j) rest
      else
        let dx := ox - RingPoint.x entryInt in
        let dz := oz - RingPoint.z entryInt in
        if decide (dx * dx + dz * dz < 10 * 10) then true
        else yieldToAgents i entryInt (S j) rest
  end.

(** The roundabout entry yield of [_npcFollowSpeed]: [true] when the function
    returns 0 from inside the block.  An agent that is approaching was
    spawned, so its entry arm is set. *)
Definition entryYield (g : Game) (i : nat) (npc : Npc.t) : bool :=
  if decide (Npc.state npc = Npc.approaching) then
    let p := Npc.position npc in
    let dist := sqrt (Vector3.x p * Vector3.x p + Vector3.z p * Vector3.z p) in
    if decide (dist < RB_OUT + 14) then
      match Npc.entryArm npc with
      | None => false
      | Some arm =>
        let isOuter := bool_decide (Npc.ringRadius npc = NPC_OUTER_R) in
        let entryInt := _ringIntersect arm (Npc.ringRadius npc) isOuter true in
        let entryAngle := RingPoint.ringAngle entryInt in
        if negb (failed (car g)) && bool_decide (phase (car g) = on_roundabout)
           && bool_decide
                (yieldGap entryAngle
                   (trafficRingAngle (Vector3.x (pos (car g))) (Vector3.z (pos (car g)))) < 0.9)
        then true
        else yieldToAgents i entryInt 0 (npcs g)
      end
    else false
  else false.

(** The positions of the other active agents, in array order. *)
Fixpoint otherPositions (i j : nat) (l : list Npc.t) : list Vector3.t :=
  match l with
  | [] => []
  | other :: rest =>
    if bool_decide (j = i) || bool_decide (Npc.state other = Npc.despawned)
    then otherPositions i (S j) rest
    else Npc.position other :: otherPositions i (S j) rest
  end.

(** The scan for the closest obstacle ahead; [None] is [Infinity]. *)
Definition closestAhead (npc : Npc.t) (dirX dirZ : R) (obstacles : list Vector3.t) : option R :=
  let LOOK_AHEAD := 12 in
  let LANE_HALF := 2.2 in
  fold_left
    (fun closestFwd obs =>
       let dx := Vector3.x obs - Vector3.x (Npc.position npc) in
       let dz := Vector3.z obs - Vector3.z (Npc.position npc) in
       let fwd := dx * dirX + dz * dirZ in
       let lat := Rabs (dx * dirZ - dz * dirX) in
       if bool_decide (fwd > 0) && bool_decide (fwd < LOOK_AHEAD) && bool_decide (lat < LANE_HALF)
       then Some (match closestFwd with Some m => Rmin m fwd | None => fwd end)
       else closestFwd)
    obstacles None.

(** [_npcFollowSpeed]: the speed of the agent of index [i], given the
    obstacles directly ahead and the traffic to yield to. *)
Definition _npcFollowSpeed (g : Game) (i : nat) (npc : Npc.t) : R :=
  let LOOK_AHEAD := 12 in
  let STOP_DIST := 4 in
  if entryYield g i npc then 0 else
  let '(dirX, dirZ) :=
    if decide (Npc.state npc = Npc.on_roundabout)
    then (cos (Npc.ringAngle npc), sin (Npc.ringAngle npc))
    else (sin (Npc.heading npc), - cos (Npc.heading npc)) in
  let obstacles :=
    (if negb (failed (car g)) then [pos (car g)] else [])
    ++ otherPositions i 0 (npcs g) in
  match closestAhead npc dirX dirZ obstacles with
  | None => NPC_SPEED
  | Some closestFwd =>
    if decide (closestFwd <= STOP_DIST) then 0
    else NPC_SPEED * (closestFwd - STOP_DIST) / (LOOK_AHEAD - STOP_DIST)
  end.

(** The squared norm under the square roots of the arc functions:
    [(tx - fx) ** 2 + (tz - fz) ** 2]. *)
Definition sq (a : R) : R := a * a.

(** [bezierArcLen]: the length of the blend curve, sampled on 12 segments. *)
Definition bezierArcLen (fx fz fh tx tz th : R) : R :=
  let d := sqrt (sq (tx - fx) + sq (tz - fz)) in
  let sc := d / 3 in
  let p1x := fx + sin fh * sc in
  let p1z := fz - cos fh * sc in
  let p2x := tx - sin th * sc in
  let p2z := tz + cos th * sc in
  let '(len, _, _) :=
    fold_left
      (fun '(len, px, pz) i =>
         let t := INR i / 12 in
         let mt := 1 - t in
         let x := mt*mt*mt*fx + 3*mt*mt*t*p1x + 3*mt*t*t*p2x + t*t*t*tx in
         let z := mt*mt*mt*fz + 3*mt*mt*t*p1z + 3*mt*t*t*p2z + t*t*t*tz in
         (len + sqrt (sq (x - px) + sq (z - pz)), x, z))
      (seq 1 12) (0, fx, fz) in
  len.

Module ArcPoint.
Record t : Type := mk { x : R; z : R; h : R }.
End ArcPoint.

(** [bezierArc]: the point and heading of the blend curve at parameter [t]. *)
Definition bezierArc (fx fz fh tx tz th t : R) : ArcPoint.t :=
  let d := sqrt (sq (tx - fx) + sq (tz - fz)) in
  let sc := d / 3 in
  let p1x := fx + sin fh * sc in
  let p1z := fz - cos fh * sc in
  let p2x := tx - sin th * sc in
  let p2z := tz + cos th * sc in
  let mt := 1 - t in
  let x := mt*mt*mt*fx + 3*mt*mt*t*p1x + 3*mt*t*t*p2x + t*t*t*tx in
  let z := mt*mt*mt*fz + 3*mt*mt*t*p1z + 3*mt*t*t*p2z + t*t*t*tz in
  let bx := 3*mt*mt*(p1x-fx) + 6*mt*t*(p2x-p1x) + 3*t*t*(tx-p2x) in
  let bz := 3*mt*mt*(p1z-fz) + 6*mt*t*(p2z-p1z) + 3*t*t*(tz-p2z) in
  let h := if decide (bx*bx + bz*bz > 0.000001) then JS.atan2 bx (- bz)
           else if decide (t < 0.5) then fh else th in
  ArcPoint.mk x z h.

(** The arc from the agent's transition start to its transition target. *)
Definition transArc (npc : Npc.t) : ArcPoint.t :=
  bezierArc (Npc.transFromX npc) (Npc.transFromZ npc) (Npc.transFromH npc)
            (Npc.transToX npc) (Npc.transToZ npc) (Npc.transToH npc)
            (Npc.transProgress npc).

Definition transLen (npc : Npc.t) : R :=
  bezierArcLen (Npc.transFromX npc) (Npc.transFromZ npc) (Npc.transFromH npc)
               (Npc.transToX npc) (Npc.transToZ npc) (Npc.transToH npc).

Definition upd_position (f : Vector3.t -> Vector3.t) (npc : Npc.t) : Npc.t :=
  Npc.set_position (f (Npc.position npc)) npc.

(** The straight move of the approaching and exiting states. *)
Definition moveStraight (dtScale : R) (npc : Npc.t) : Npc.t :=
  let npc := upd_position (fun p =>
      Vector3.set_x (Vector3.x p + sin (Npc.heading npc) * Npc.speed npc * dtScale) p) npc in
  upd_position (fun p =>
      Vector3.set_z (Vector3.z p - cos (Npc.heading npc) * Npc.speed npc * dtScale) p) npc.

(** The progress of a transition arc, slowed near the player, and the pose
    on the arc. *)
Definition advanceArc (dt : R) (c : Car) (npc : Npc.t) : Npc.t :=
  let npc := Npc.set_transProgress
      (Rmin (Npc.transProgress npc
             + dt / Npc.transDuration npc * _arcSpeedScale c (Npc.position npc)) 1) npc in
  let arc := transArc npc in
  let npc := upd_position (Vector3.set_x (ArcPoint.x arc)) npc in
  let npc := upd_position (Vector3.set_z (ArcPoint.z arc)) npc in
  Npc.set_heading (ArcPoint.h arc) npc.

(** The end of a transition arc: the agent is put on its target pose. *)
Definition snapToTarget (npc : Npc.t) : Npc.t :=
  let npc := upd_position (Vector3.set_x (Npc.transToX npc)) npc in
  let npc := upd_position (Vector3.set_z (Npc.transToZ npc)) npc in
  Npc.set_heading (Npc.transToH npc) npc.

(** State [approaching] of an agent. *)
Definition npcApproaching (dtScale : R) (npc : Npc.t) : Npc.t :=
  let npc := moveStraight dtScale npc in
  let p := Npc.position npc in
  let dist := sqrt (Vector3.x p * Vector3.x p + Vector3.z p * Vector3.z p) in
  if decide (dist <= RB_OUT + 6) then
    match Npc.entryArm npc with
    | None => npc
    | Some arm =>
      let isOuter := bool_decide (Npc.ringRadius npc = NPC_OUTER_R) in
      let entryInt := _ringIntersect arm (Npc.ringRadius npc) isOuter true in
      let advEntryAng := (RingPoint.ringAngle entryInt + ENTRY_ADVANCE + PI * 2) %% (PI * 2) in
      let advEntryX := Npc.ringRadius npc * sin advEntryAng in
      let advEntryZ := - Npc.ringRadius npc * cos advEntryAng in
      let advEntryH := JS.atan2 (cos advEntryAng) (- sin advEntryAng) in
      let npc := Npc.set_ringAngle advEntryAng npc in
      let npc := Npc.set_transFromX (Vector3.x p) npc in
      let npc := Npc.set_transFromZ (Vector3.z p) npc in
      let npc := Npc.set_transFromH (Npc.heading npc) npc in
      let npc := Npc.set_transToX advEntryX npc in
      let npc := Npc.set_transToZ advEntryZ npc in
      let npc := Npc.set_transToH advEntryH npc in
      let npc := Npc.set_transDuration (transLen npc / (NPC_SPEED * 60)) npc in
      let npc := Npc.set_transProgress 0 npc in
      Npc.set_state Npc.entering_ring npc
    end
  else npc.

(** State [entering_ring]. *)
Definition npcEnteringRing (dt : R) (c : Car) (npc : Npc.t) : Npc.t :=
  let npc := advanceArc dt c npc in
  if decide (Npc.transProgress npc >= 1) then
    let npc := snapToTarget npc in
    let npc := Npc.set_ringTravelDone 0 npc in
    Npc.set_state Npc.on_roundabout npc
  else npc.

(** State [on_roundabout] of an agent. *)
Definition npcOnRoundabout (dtScale : R) (npc : Npc.t) : Npc.t :=
  let dtheta := Npc.speed npc * dtScale / Npc.ringRadius npc in
  let npc := Npc.set_ringAngle ((Npc.ringAngle npc + dtheta) %% TWO_PI) npc in
  let npc := Npc.set_ringTravelDone (Npc.ringTravelDone npc + dtheta) npc in
  let npc := upd_position (Vector3.set_x (Npc.ringRadius npc * sin (Npc.ringAngle npc))) npc in
  let npc := upd_position (Vector3.set_z (- Npc.ringRadius npc * cos (Npc.ringAngle npc))) npc in
  let npc :=
    if negb (Npc.nearExitSignaled npc)
       && bool_decide (Npc.ringTravelDone npc >= Npc.ringTravelNeeded npc - 0.7) then
      let npc := Npc.set_nearExitSignaled true npc in
      let npc := Npc.set_leftIndicator true npc in
      Npc.set_rightIndicator false npc
    else npc in
  if decide (Npc.ringTravelDone npc >= Npc.ringTravelNeeded npc) then
    match Npc.exitArm npc with
    | None => npc
    | Some arm =>
      let isOuter := bool_decide (Npc.ringRadius npc = NPC_OUTER_R) in
      let exitInt := _ringIntersect arm (Npc.ringRadius npc) isOuter false in
      let exitCfg := ARM_CFG arm in
      let fromH := JS.atan2 (cos (Npc.ringAngle npc)) (- sin (Npc.ringAngle npc)) in
      let npc := Npc.set_transFromX (Vector3.x (Npc.position npc)) npc in
      let npc := Npc.set_transFromZ (Vector3.z (Npc.position npc)) npc in
      let npc := Npc.set_transFromH fromH npc in
      let npc := Npc.set_transToX
          (RingPoint.x exitInt + sin (ArmCfg.departHeading exitCfg) * 8) npc in
      let npc := Npc.set_transToZ
          (RingPoint.z exitInt - cos (ArmCfg.departHeading exitCfg) * 8) npc in
      let npc := Npc.set_transToH (ArmCfg.departHeading exitCfg) npc in
      let npc := Npc.set_transDuration (transLen npc / (NPC_SPEED * 60)) npc in
      let npc := Npc.set_transProgress 0 npc in
      Npc.set_state Npc.leaving_ring npc
    end
  else npc.

(** State [leaving_ring]. *)
Definition npcLeavingRing (dt : R) (c : Car) (npc : Npc.t) : Npc.t :=
  let npc := advanceArc dt c npc in
  if decide (Npc.transProgress npc >= 1) then
    let npc := snapToTarget npc in
    let npc := Npc.set_leftIndicator false npc in
    let npc := Npc.set_rightIndicator false npc in
    Npc.set_state Npc.exiting npc
  else npc.

(** State [exiting] of an agent; the cooldown is drawn on despawn. *)
Definition npcExiting (dtScale : R) (npc : Npc.t) (rnd : nat -> R) : Npc.t * (nat -> R) :=
  let npc := moveStraight dtScale npc in
  match Npc.exitArm npc with
  | None => (npc, rnd)
  | Some arm =>
    if ArmCfg.despawnCheck (ARM_CFG arm) (Npc.position npc) then
      let npc := Npc.set_state Npc.despawned npc in
      let '(r, rnd) := draw rnd in
      (Npc.set_respawnTimer (3 + r * 3) npc, rnd)
    else (npc, rnd)
  end.

(** The body of the [forEach] of [_updateNPCs] for the agent of index [i].
    The agents are updated in place, in array order: an agent reads the poses
    that the agents before it already wrote in this tick. *)
Definition updateNPC (dt dtScale : R) (g : Game) (i : nat) : Game :=
  match npcs g !! i with
  | None => g
  | Some npc =>
    if decide (Npc.state npc = Npc.despawned) then
      let npc := Npc.set_respawnTimer (Npc.respawnTimer npc - dt) npc in
      let '(npc, rnd) :=
        if decide (Npc.respawnTimer npc <= 0) then _spawnNPC npc (random g)
        else (npc, random g) in
      set_random rnd (set_npcs (<[i := npc]> (npcs g)) g)
    else
      let npc :=
        if bool_decide (Npc.state npc = Npc.approaching)
           || bool_decide (Npc.state npc = Npc.on_roundabout)
           || bool_decide (Npc.state npc = Npc.exiting)
        then Npc.set_speed (_npcFollowSpeed g i npc) npc else npc in
      let '(npc, rnd) :=
        match Npc.state npc with
        | Npc.approaching => (npcApproaching dtScale npc, random g)
        | Npc.entering_ring => (npcEnteringRing dt (car g) npc, random g)
        | Npc.on_roundabout => (npcOnRoundabout dtScale npc, random g)
        | Npc.leaving_ring => (npcLeavingRing dt (car g) npc, random g)
        | Npc.exiting => npcExiting dtScale npc (random g)
        | _ => (npc, random g)
        end in
      set_random rnd (set_npcs (<[i := npc]> (npcs g)) g)
  end.

Definition _updateNPCs (dt dtScale : R) (g : Game) : Game :=
  fold_left (updateNPC dt dtScale) (seq 0 (length (npcs g))) g.

(** ** The frame update: [_update] *)

(** The snapshot handed to [onHUD]. *)
Module Hud.
Record t : Type := mk {
  speed : Z;
  speedRatio : R;
  gear : string;
  steer : R;
  phase : Phase;
  showComplete : bool;
  targetExit : option Arm;
  targetExitNum : option nat;
  requiredLane : LaneTag;
  leftIndicator : bool;
  rightIndicator : bool;
  approachLane : LaneTag;
  ringLane : LaneTag;
  graceActive : bool;
  graceTimer : R;
  graceRequired : option Req;
  failed : bool;
  failReason : option string;
  missionIndex : nat
}.
End Hud.

Definition hasKey (code : string) (g : Game) : bool := bool_decide (code ∈ keys g).

(** The tick duration: the clock delta capped to 100 ms. *)
Definition tickDt (delta : R) : R := Rmin delta 0.1.

(** The steering and speed inputs, the speed clamp and the snap to zero. *)
Definition integrateControls (dtScale : R) (g : Game) : Game :=
  let g :=
    if hasKey "ArrowLeft" g then
      upd_car (fun c => set_steer (Rmax (steer c - 0.13 * dtScale) (-1)) c) g
    else if hasKey "ArrowRight" g then
      upd_car (fun c => set_steer (Rmin (steer c + 0.13 * dtScale) 1) c) g
    else upd_car (fun c => set_steer (steer c * JS.pow 0.88 dtScale) c) g in
  let g :=
    if hasKey "ArrowUp" g then
      upd_car (fun c => set_speed (speed c + ACCEL * dtScale) c) g
    else if hasKey "ArrowDown" g then
      upd_car (fun c => set_speed
                 (if decide (speed c > 0.01) then speed c - BRAKE * dtScale
                  else speed c - ACCEL * 0.5 * dtScale) c) g
    else upd_car (fun c => set_speed (speed c * JS.pow FRICTION dtScale) c) g in
  let g := upd_car (fun c => set_speed (Rmax (- MAX_REV) (Rmin MAX_SPEED (speed c))) c) g in
  if decide (Rabs (speed (car g)) < 0.0005) then upd_car (set_speed 0) g else g.

(** The yaw smoothing and the integration of heading and position. *)
Definition integratePose (dtScale : R) (g : Game) : Game :=
  let c := car g in
  let spd := Rabs (speed c) in
  let sFactor := Rmin (spd / MAX_SPEED * 2 + 0.3) 1 * (1 - spd / MAX_SPEED * 0.2) in
  let targetYaw :=
    MAX_STEER * steer c * sFactor * (if decide (speed c >= 0) then 1 else -1) in
  let c := set_yawRate (yawRate c + (targetYaw - yawRate c) * Rmin (0.2 * dtScale) 1) c in
  let c := set_heading (heading c + yawRate c * dtScale) c in
  let c := set_pos (Vector3.set_x
             (Vector3.x (pos c) + sin (heading c) * speed c * dtScale) (pos c)) c in
  let c := set_pos (Vector3.set_z
             (Vector3.z (pos c) + - cos (heading c) * speed c * dtScale) (pos c)) c in
  set_car c g.

(** The indicator blink clock: 1.5 Hz. *)
Definition blink (dt : R) (g : Game) : Game :=
  let g := set__prevBlinkOn (_blinkOn g) g in
  let g := set__blinkTimer (_blinkTimer g + dt) g in
  set__blinkOn (bool_decide (Z.rem (JS.floor (_blinkTimer g * 3)) 2 = 0%Z)) g.

Definition hudSnapshot (spd : R) (g : Game) : Hud.t :=
  let c := car g in
  {| Hud.speed := JS.round (spd / MAX_SPEED * 80);
     Hud.speedRatio := spd / MAX_SPEED;
     Hud.gear := if decide (speed c >= 0) then "D" else "R";
     Hud.steer := steer c;
     Hud.phase := phase c;
     Hud.showComplete := bool_decide (_completeTimer g > 0);
     Hud.targetExit := targetExit c;
     Hud.targetExitNum := targetExitNum c;
     Hud.requiredLane := requiredLane c;
     Hud.leftIndicator := leftIndicator c;
     Hud.rightIndicator := rightIndicator c;
     Hud.approachLane := approachLane c;
     Hud.ringLane := ringLane c;
     Hud.graceActive := graceActive c;
     Hud.graceTimer := graceTimer c;
     Hud.graceRequired := graceRequired c;
     Hud.failed := failed c;
     Hud.failReason := failReason c;
     Hud.missionIndex := _missionIndex g |}.

(** The simulation part of [_update]: player physics, blink clock, traffic,
    rule engine, in the order of the source.  The second component is the
    local [spd] that the snapshot reads. *)
Definition simulate (dt dtScale : R) (g : Game) : Game * R :=
  let g := integrateControls dtScale g in
  let spd := Rabs (speed (car g)) in
  let g := integratePose dtScale g in
  let g := blink dt g in
  let g := _updateNPCs dt dtScale g in
  let g := _updateStateMachine dt g in
  (g, spd).

(** The complete-mission countdown and the snapshot that end [_update]:
    when the countdown runs out the mission index advances, the game is
    reset and no snapshot is emitted. *)
Definition completeCountdown (dt spd : R) (g : Game) : Game * option Hud.t :=
  if decide (_completeTimer g > 0) then
    let g := set__completeTimer (_completeTimer g - dt) g in
    if decide (_completeTimer g <= 0) then
      let g := set__completeTimer 0 g in
      let g := set__missionIndex (S (_missionIndex g)) g in
      (restart g, None)
    else (g, Some (hudSnapshot spd g))
  else (g, Some (hudSnapshot spd g)).

(** [_update], for the clock delta [delta] of this frame: the new state and
    the snapshot emitted, if any. *)
Definition _update (delta : R) (g : Game) : Game * option Hud.t :=
  let dt := tickDt delta in
  let dtScale := dt * 60 in
  let g := set_elapsed (elapsed g + dt * 1000) g in
  if _preview g then (g, None)
  else if _indDebug g then (set__blinkTimer (_blinkTimer g + dt) g, None)
  else
    let '(g, spd) := simulate dt dtScale g in
    completeCountdown dt spd g.

(** ** Input handlers and the indicator debug mode *)

(** The [keydown] handler: ignored during the preview; Q and E toggle the
    indicators. *)
Definition _onKeyDown (code : string) (g : Game) : Game :=
  if _preview g then g
  else
    let g := set_keys ({[ code ]} ∪ keys g) g in
    let g := if decide (code = "KeyQ") then _toggleIndicator left g else g in
    if decide (code = "KeyE") then _toggleIndicator right g else g.

(** The [keyup] handler. *)
Definition _onKeyUp (code : string) (g : Game) : Game :=
  if negb (_preview g) then set_keys (keys g ∖ {[ code ]}) g else g.

(** [setIndDebugMode]: the player is frozen on the south arm and the agents
    are parked; on leaving the mode every agent is despawned with a fresh
    cooldown. *)
Definition setIndDebugMode (on : bool) (g : Game) : Game :=
  let g := set__indDebug on g in
  if on then
    let g := upd_car (fun c =>
               let c := set_speed 0 c in
               let c := set_yawRate 0 c in
               let c := set_heading 0 c in
               set_pos (Vector3.set 0 0 72 (pos c)) c) g in
    set_npcs (map (Npc.set_state Npc.debug) (npcs g)) g
  else
    let '(l, rnd) :=
      fold_left
        (fun '(acc, rnd) npc =>
           let npc := Npc.set_state Npc.despawned npc in
           let '(r, rnd) := draw rnd in
           (acc ++ [Npc.set_respawnTimer (2 + r * 3) npc], rnd))
        (npcs g) ([], random g) in
    set_random rnd (set_npcs l g).

(** * Specification vocabulary *)

(** ** Angles and rides *)

(** The mathematical residue modulo 2 PI, in [0, 2 PI). *)
Definition mod2pi (a : R) : R := a - TWO_PI * IZR (Int_part (a / TWO_PI)).

(** The point of the circle of radius [r] at the player's ring angle
    [theta]: the angle is atan2(-z, x), so x = r cos(theta) and
    z = - r sin(theta). *)
Definition onCircle (r theta : R) : Vector3.t :=
  Vector3.mk (r * cos theta) 0 (- (r * sin theta)).

(** The positions of a car that rides the circle of radius [r] clockwise,
    from the angle [theta0], by [omega] per tick, for [n] ticks. *)
Definition circleRide (r theta0 omega : R) (n : nat) : list Vector3.t :=
  (fun k => onCircle r (theta0 - INR (S k) * omega)) <$> seq 0 n.

(** The angle tracker run over the successive positions of the car. *)
Definition ride (g : Game) (ps : list Vector3.t) : Game :=
  fold_left (fun g p => trackRingAngle (upd_car (set_pos p) g)) ps g.

(** The positions of a car that starts at the ring angle [theta0] and turns
    clockwise by [omega] on every tick. *)
Definition constantClockwise (theta0 omega : R) (ps : list Vector3.t) : Prop :=
  forall (k : nat) (p : Vector3.t),
    ps !! k = Some p -> playerRingAngle p = mod2pi (theta0 - INR (S k) * omega).

(** The ring tracker holds a normalised angle. *)
Definition trackerNormalised (g : Game) : Prop :=
  forall p : R, _prevRingAngle g = Some p -> 0 <= p < TWO_PI.

(** The completion countdown runs only in the [completed] phase of a
    player who has not failed. *)
Definition countdownSound (g : Game) : Prop :=
  0 < _completeTimer g -> phase (car g) = completed /\ failed (car g) = false.

(** ** Views of the state *)

(** The driving fields, which the rule engine never writes: [g'] has
    them as [g] has. *)
Record SameDrive (g g' : Game) : Prop := {
  sd_pos : pos (car g') = pos (car g);
  sd_heading : heading (car g') = heading (car g);
  sd_speed : speed (car g') = speed (car g);
  sd_steer : steer (car g') = steer (car g);
  sd_yawRate : yawRate (car g') = yawRate (car g);
  sd_targetExit : targetExit (car g') = targetExit (car g);
  sd_targetExitNum : targetExitNum (car g') = targetExitNum (car g);
  sd_exitTravelTarget : exitTravelTarget (car g') = exitTravelTarget (car g);
  sd_requiredLane : requiredLane (car g') = requiredLane (car g);
  sd_requiredRingLane : requiredRingLane (car g') = requiredRingLane (car g);
  sd_leftIndicator : leftIndicator (car g') = leftIndicator (car g);
  sd_rightIndicator : rightIndicator (car g') = rightIndicator (car g);
  sd_entryAngle : entryAngle (car g') = entryAngle (car g);
  sd_npcs : npcs g' = npcs g;
  sd_keys : keys g' = keys g;
  sd_elapsed : elapsed g' = elapsed g;
  sd_blinkTimer : _blinkTimer g' = _blinkTimer g;
  sd_blinkOn : _blinkOn g' = _blinkOn g;
  sd_prevBlinkOn : _prevBlinkOn g' = _prevBlinkOn g;
  sd_missionIndex : _missionIndex g' = _missionIndex g;
  sd_preview : _preview g' = _preview g;
  sd_indDebug : _indDebug g' = _indDebug g;
  sd_random : random g' = random g
}.

(** The verdict (failed flag and reason) and the traveled angle. *)
Definition SameTravel (g g' : Game) : Prop :=
  failed (car g') = failed (car g)
  /\ failReason (car g') = failReason (car g)
  /\ traveledAngle (car g') = traveledAngle (car g).

(** The mission fields of the car and the mission index. *)
Record SameMission (g g' : Game) : Prop := {
  sm_targetExit : targetExit (car g') = targetExit (car g);
  sm_targetExitNum : targetExitNum (car g') = targetExitNum (car g);
  sm_exitTravelTarget : exitTravelTarget (car g') = exitTravelTarget (car g);
  sm_requiredLane : requiredLane (car g') = requiredLane (car g);
  sm_requiredRingLane : requiredRingLane (car g') = requiredRingLane (car g);
  sm_missionIndex : _missionIndex g' = _missionIndex g
}.

(** The grace record of the car: one pending violation at most. *)
Definition graceOf (c : Car) : bool * R * option Req :=
  (graceActive c, graceTimer c, graceRequired c).

(** The three one-shot checkpoint flags of the ring phase. *)
Definition ringChecks (g : Game) : bool * bool * bool :=
  (_checkBDone g, _checkDDone g, _checkCDone g).

(** The state of the rule engine: what [_updateStateMachine] and the
    completion countdown may write. *)
Definition ruleState (g : Game) :=
  (phase (car g), traveledAngle (car g), approachLane (car g), ringLane (car g),
   graceOf (car g), failed (car g), failReason (car g),
   _prevRingAngle g, _prevDistFromCenter g,
   (_checkADone g, _checkBDone g, _checkCDone g, _checkDDone g, _checkLaneApproachDone g),
   _completeTimer g, _missionIndex g).

(** The physics of a frame: controls, then pose, on the capped duration. *)
Definition physics (delta : R) (g : Game) : Game :=
  let dt := tickDt delta in
  integratePose (dt * 60)
    (integrateControls (dt * 60) (set_elapsed (elapsed g + dt * 1000) g)).

(** ** Missions and histories *)

(** The entry of the exit list that the mission index designates. *)
Definition activeMission (g : Game) : option Exit.t :=
  EXITS !! (_missionIndex g mod length EXITS)%nat.

(** The car carries the mission [e]. *)
Definition carries (c : Car) (e : Exit.t) : Prop :=
  targetExit c = Some (Exit.name e)
  /\ targetExitNum c = Some (Exit.num e)
  /\ exitTravelTarget c = Exit.travelAngle e
  /\ requiredLane c = Exit.requiredLane e
  /\ requiredRingLane c = Exit.requiredRingLane e.

(** The mission that the car carries is the active one. *)
Definition missionSynced (g : Game) : Prop :=
  exists e : Exit.t, activeMission g = Some e /\ carries (car g) e.

(** The car of the constructor, carrying the mission [e]. *)
Definition freshCar (e : Exit.t) : Car :=
  set_requiredRingLane (Exit.requiredRingLane e)
    (set_requiredLane (Exit.requiredLane e)
       (set_exitTravelTarget (Exit.travelAngle e)
          (set_targetExitNum (Some (Exit.num e))
             (set_targetExit (Some (Exit.name e)) initial_car)))).

(** What happens to the engine: animation frames, key events and the
    commands of the interface. *)
Inductive Command : Type :=
  | Frame (delta : R)
  | KeyDown (code : string)
  | KeyUp (code : string)
  | StartGame
  | RestartGame
  | NextMission
  | IndDebugMode (on : bool).

Definition perform (g : Game) (cmd : Command) : Game :=
  match cmd with
  | Frame delta => (_update delta g).1
  | KeyDown code => _onKeyDown code g
  | KeyUp code => _onKeyUp code g
  | StartGame => startGame g
  | RestartGame => restart g
  | NextMission => nextMission g
  | IndDebugMode on => setIndDebugMode on g
  end.

(** The state after a history of commands, from the constructor's state. *)
Definition run (rnd : nat -> R) (cmds : list Command) : Game :=
  fold_left perform cmds (new_game rnd).

(** The commands that leave the attempt running: frames, key events and
    the start of the game, but no restart, mission advance or debug mode. *)
Definition keepsAttempt (cmd : Command) : Prop :=
  match cmd with
  | Frame _ | KeyDown _ | KeyUp _ | StartGame => True
  | RestartGame | NextMission | IndDebugMode _ => False
  end.

(** ** Attempts *)

(** What happens inside one attempt: the simulation part of a frame (a frame
    whose completion countdown does not run out is nothing else) and the key
    events.  Restarts and mission advances begin a new attempt. *)
Inductive AttemptEvent : Type :=
  | Sim (delta : R)
  | Down (code : string)
  | Up (code : string).

Definition attemptStep (g : Game) (ev : AttemptEvent) : Game :=
  match ev with
  | Sim delta =>
    let dt := tickDt delta in
    (simulate dt (dt * 60) (set_elapsed (elapsed g + dt * 1000) g)).1
  | Down code => _onKeyDown code g
  | Up code => _onKeyUp code g
  end.

(** The states that an attempt goes through. *)
Fixpoint attemptTrace (g : Game) (evs : list AttemptEvent) : list Game :=
  match evs with
  | [] => [g]
  | ev :: evs => g :: attemptTrace (attemptStep g ev) evs
  end.

(** The number of steps of a trace in which a flag goes from unset to set. *)
Fixpoint firings (flag : Game -> bool) (tr : list Game) : nat :=
  match tr with
  | g :: rest =>
    match rest with
    | g' :: _ => (if negb (flag g) && flag g' then 1 else 0) + firings flag rest
    | [] => 0
    end
  | [] => 0
  end.

(** ** Mission advances *)

(** The frame [delta], run on [g], is one in which the completion countdown
    runs out: the frame is live (no preview, no debug mode), and the
    countdown that the simulation of the frame leaves is positive and at most
    the tick duration, so that [_completeTimer -= dt] brings it to 0 or
    below. *)
Definition countdownEnds (delta : R) (g : Game) : bool :=
  negb (_preview g) && negb (_indDebug g)
  && (let dt := tickDt delta in
      let g1 := (simulate dt (dt * 60) (set_elapsed (elapsed g + dt * 1000) g)).1 in
      bool_decide (0 < _completeTimer g1 /\ _completeTimer g1 <= dt)).

(** The number of frames of a history, run from [g], in which the completion
    countdown runs out: the completed missions of the history. *)
Fixpoint completions (g : Game) (cmds : list Command) : nat :=
  match cmds with
  | [] => 0
  | cmd :: rest =>
    (match cmd with
     | Frame delta => if countdownEnds delta g then 1 else 0
     | _ => 0
     end + completions (perform g cmd) rest)%nat
  end.

(** The number of [nextMission] commands of a history. *)
Fixpoint nextMissions (cmds : list Command) : nat :=
  match cmds with
  | [] => 0
  | NextMission :: rest => S (nextMissions rest)
  | _ :: rest => nextMissions rest
  end.

(** ** Checkpoints *)

(** The three one-shot checkpoints of the ring phase: (b) the 12-o'clock
    check, (d) the check after the first exit, (c) the near-exit check; each
    with its flag, its block of the rule engine, its test on the traveled
    angle [t] (for (d) also on the mission), and the indicator that it asks
    for. *)
Inductive Checkpoint : Type := cpB | cpD | cpC.

Definition cpDone (cp : Checkpoint) (g : Game) : bool :=
  match cp with
  | cpB => _checkBDone g
  | cpD => _checkDDone g
  | cpC => _checkCDone g
  end.

Definition cpBlock (cp : Checkpoint) : R -> Game -> Game :=
  match cp with
  | cpB => checkB
  | cpD => checkD
  | cpC => checkC
  end.

Definition cpReached (cp : Checkpoint) (c : Car) (t : R) : bool :=
  match cp with
  | cpB => bool_decide (t >= PI - 0.1)
  | cpD => bool_decide (targetExitNum c = Some 2%nat) && bool_decide (t >= PI / 2)
  | cpC => bool_decide (t >= exitTravelTarget c - 0.7)
  end.

Definition cpRequired (cp : Checkpoint) : Req :=
  match cp with
  | cpB => right
  | cpD | cpC => left
  end.

(** The checkpoint finds its indicator missing; (b) asks only the driver
    bound for the 3rd exit. *)
Definition cpMissing (cp : Checkpoint) (c : Car) : bool :=
  match cp with
  | cpB => bool_decide (targetExitNum c = Some 3%nat) && negb (rightIndicator c)
  | cpD | cpC => negb (leftIndicator c)
  end.

(** ** The drivable surface *)

(** The drivable surface, in coordinates.  The ring annulus lies between the
    island radius and the kerb radius; an arm is a rectangle as wide as the
    road that starts [ARM_OVERLAP] inside the kerb radius and ends at the far
    end of the road.  [inArm along across] takes the coordinate along the
    arm, from the centre outward, and the coordinate across it. *)
Definition inAnnulus (p : Vector3.t) : Prop :=
  RB_IN * RB_IN < Vector3.x p * Vector3.x p + Vector3.z p * Vector3.z p < RB_OUT * RB_OUT.

Definition inArm (along across : R) : Prop :=
  Rabs across < ROAD_W / 2 /\ RB_OUT - ARM_OVERLAP < along < RB_OUT + ROAD_L.

Definition drivable (p : Vector3.t) : Prop :=
  inAnnulus p
  \/ inArm (Vector3.z p) (Vector3.x p)
  \/ inArm (- Vector3.z p) (Vector3.x p)
  \/ inArm (Vector3.x p) (Vector3.z p)
  \/ inArm (- Vector3.x p) (Vector3.z p).

(** The reasons of an off-road failure. *)
Definition offRoadReason (r : option string) : Prop :=
  r = Some REASON_ISLAND \/ r = Some REASON_GRASS.

(** ** Scenes *)

(** A player who has just failed at the start line, game started, with the
    accelerator key held. *)
Definition failedDriver : Game :=
  set_keys {[ "ArrowUp" ]}
    (upd_car (set_failed true) (startGame (new_game (fun _ => 0)))).

(** A player who has completed the mission on the west arm and, while the
    completion countdown runs, has left the road sideways: 40 units west of
    the centre and 10 units off the axis of the arm, whose half width is 7. *)
Definition completedOffRoad : Game :=
  set__completeTimer 1.5
    (upd_car (fun c => set_phase completed (set_pos (Vector3.mk (-40) 0 10) c))
       (startGame (new_game (fun _ => 0)))).

(** A scene for the entry yield: an agent waiting on the south approach,
    8 units before the ring, and an agent on the ring exactly at the point
    where the waiting agent's lane meets the outer ring lane. *)
Definition southEntry : RingPoint.t := _ringIntersect south NPC_OUTER_R true true.

Definition waitingAgent : Npc.t :=
  Npc.set_position (Vector3.mk (-5.25) 0 30)
    (Npc.set_entryArm (Some south)
       (Npc.set_state Npc.approaching (initial_npc 0))).

Definition circulatingAgent : Npc.t :=
  Npc.set_position (Vector3.mk (RingPoint.x southEntry) 0 (RingPoint.z southEntry))
    (Npc.set_state Npc.on_roundabout (initial_npc 1)).

Definition yieldScene : Game :=
  set_npcs [waitingAgent; circulatingAgent] (new_game (fun _ => 0)).

(** * Presentation state driven by the simulation *)

(** ** The stationary horn check: [_updateHornCheck] *)

(** The two timers of the horn check, [_stationaryTimer] and
    [_hornCooldown]; the constructor sets both to 0 and [restart] does not
    write them. *)
Module Horn.
Record t : Type := mk { _stationaryTimer : R; _hornCooldown : R }.
Definition initial : t := mk 0 0.
End Horn.

(** The predicate of the first [some]: an active agent between 1 and 35
    units away, at least 2 units behind the player and, off the ring, in the
    player's lane and heading the same way. *)
Definition npcBehind (c : Car) (npc : Npc.t) : bool :=
  let onRoundabout := bool_decide (phase c = on_roundabout) in
  let sinH := sin (heading c) in
  let cosH := cos (heading c) in
  if decide (Npc.state npc = Npc.despawned) then false else
  let dx := Vector3.x (Npc.position npc) - Vector3.x (pos c) in
  let dz := Vector3.z (Npc.position npc) - Vector3.z (pos c) in
  let dist := sqrt (dx * dx + dz * dz) in
  if bool_decide (dist > 35) || bool_decide (dist < 1) then false else
  let dot := dx * (- sinH) + dz * cosH in
  if decide (dot < 2) then false else
  if negb onRoundabout then
    let lat := Rabs (dx * (- cosH) - dz * sinH) in
    if decide (lat > 1.2) then false else
    let headingDiff :=
      Rabs (JS.atan2 (sin (Npc.heading npc - heading c))
                     (cos (Npc.heading npc - heading c))) in
    if decide (headingDiff >= 1.2) then false else true
  else true.

(** The predicate of the second [some]: an active agent within 20 units and
    more than 3 units ahead of the player. *)
Definition npcAhead (c : Car) (npc : Npc.t) : bool :=
  let sinH := sin (heading c) in
  let cosH := cos (heading c) in
  if decide (Npc.state npc = Npc.despawned) then false else
  let dx := Vector3.x (Npc.position npc) - Vector3.x (pos c) in
  let dz := Vector3.z (Npc.position npc) - Vector3.z (pos c) in
  let dist := sqrt (dx * dx + dz * dz) in
  if decide (dist > 20) then false else
  let dot := dx * sinH + dz * (- cosH) in
  bool_decide (dot > 3).

(** [_updateHornCheck]: the new timers, and whether [_playHorn] is called. *)
Definition _updateHornCheck (dt : R) (g : Game) (h : Horn.t) : Horn.t * bool :=
  let c := car g in
  if failed c || bool_decide (phase c = completed) then (h, false) else
  let moving := bool_decide (Rabs (speed c) > 0.02) in
  if moving then (Horn.mk 0 0, false) else
  let h := Horn.mk (Horn._stationaryTimer h + dt) (Horn._hornCooldown h) in
  if decide (Horn._hornCooldown h > 0) then
    (Horn.mk (Horn._stationaryTimer h) (Horn._hornCooldown h - dt), false)
  else if decide (Horn._stationaryTimer h < 3) then (h, false)
  else if negb (existsb (npcBehind c) (npcs g)) then (h, false)
  else
    let pathClear := negb (existsb (npcAhead c) (npcs g)) in
    if negb pathClear then (h, false)
    else (Horn.mk (Horn._stationaryTimer h) 3, true).

(** The horn check over successive frames: each frame brings its tick
    duration and the simulation state that the check reads. *)
Definition hornRun (h : Horn.t) (frames : list (R * Game)) : Horn.t :=
  fold_left (fun h '(dt, g) => (_updateHornCheck dt g h).1) frames h.

(** The time that a list of frames lasts. *)
Definition duration (frames : list (R * Game)) : R :=
  fold_right (fun '(dt, _) acc => dt + acc) 0 frames.

(** ** The chase camera: [_updateCamera] *)

(** The object [_camCfg]. *)
Module CamCfg.
Record t : Type := mk { back : R; h : R; lookY : R; lookFwd : R; fov : R }.
(** The literal of the constructor. *)
Definition initial : t := mk 12 6 1.5 3 65.
End CamCfg.

(** What the camera code writes: the lagged follow position [_camLag], the
    camera position, the point given to [lookAt] and the field of view. *)
Module Camera.
Record t : Type := mk {
  _camLag : Vector3.t;
  position : Vector3.t;
  lookAt : Vector3.t;
  fov : R
}.
Definition set__camLag (v : Vector3.t) (cam : t) : t :=
  mk v (position cam) (lookAt cam) (fov cam).
Definition set_position (v : Vector3.t) (cam : t) : t :=
  mk (_camLag cam) v (lookAt cam) (fov cam).
Definition set_lookAt (v : Vector3.t) (cam : t) : t :=
  mk (_camLag cam) (position cam) v (fov cam).
Definition set_fov (v : R) (cam : t) : t :=
  mk (_camLag cam) (position cam) (lookAt cam) v.
End Camera.

(** [_updateCamera]: the lag position closes a fraction [1 - 0.9 ^ dtScale]
    of its distance to the point [back] units behind the car. *)
Definition _updateCamera (dtScale : R) (c : Car) (cfg : CamCfg.t) (cam : Camera.t) : Camera.t :=
  let fwdX := sin (heading c) in
  let fwdZ := - cos (heading c) in
  let tx := Vector3.x (pos c) - fwdX * CamCfg.back cfg in
  let tz := Vector3.z (pos c) - fwdZ * CamCfg.back cfg in
  let camAlpha := 1 - JS.pow 0.9 dtScale in
  let cam := Camera.set__camLag
      (Vector3.set_x (Vector3.x (Camera._camLag cam)
                      + (tx - Vector3.x (Camera._camLag cam)) * camAlpha)
         (Camera._camLag cam)) cam in
  let cam := Camera.set__camLag
      (Vector3.set_z (Vector3.z (Camera._camLag cam)
                      + (tz - Vector3.z (Camera._camLag cam)) * camAlpha)
         (Camera._camLag cam)) cam in
  let cam := Camera.set_position
      (Vector3.set (Vector3.x (Camera._camLag cam)) (CamCfg.h cfg)
                   (Vector3.z (Camera._camLag cam)) (Camera.position cam)) cam in
  let cam := Camera.set_lookAt
      (Vector3.mk (Vector3.x (pos c) + fwdX * CamCfg.lookFwd cfg) (CamCfg.lookY cfg)
                  (Vector3.z (pos c) + fwdZ * CamCfg.lookFwd cfg)) cam in
  Camera.set_fov (CamCfg.fov cfg + Rabs (speed c) / MAX_SPEED * 8) cam.

(** The camera part of [startGame]: the lag position is put directly behind
    the car. *)
Definition startGame_camLag (c : Car) (cfg : CamCfg.t) (cam : Camera.t) : Camera.t :=
  Camera.set__camLag
    (Vector3.set (Vector3.x (pos c) - sin (heading c) * CamCfg.back cfg) 0
                 (Vector3.z (pos c) + cos (heading c) * CamCfg.back cfg)
                 (Camera._camLag cam)) cam.

(** ** The speed dial of the interface *)

(** [renderSpeedo]: the dial has 20 segments, of which the first
    [Math.round(ratio * n)] are lit. *)
Definition speedoSegments : Z := 20.

Definition speedoLit (hud : Hud.t) : Z :=
  JS.round (Hud.speedRatio hud * IZR speedoSegments).

(** * Further vocabulary *)

(** Every draw of [Math.random] lies in [0, 1). *)
Definition unitDraws (rnd : nat -> R) : Prop := forall n : nat, 0 <= rnd n < 1.

(** The frames of a history have non-negative clock deltas. *)
Definition forwardClock (cmd : Command) : Prop :=
  match cmd with
  | Frame delta => 0 <= delta
  | _ => True
  end.

(** Frames and key events: what can reach the engine before the player
    starts the game. *)
Definition frameOrKey (cmd : Command) : Prop :=
  match cmd with
  | Frame _ | KeyDown _ | KeyUp _ => True
  | _ => False
  end.

(** The order of the phases of an attempt. *)
Definition phaseRank (p : Phase) : nat :=
  match p with
  | approaching => 0
  | on_roundabout => 1
  | exiting => 2
  | completed => 3
  end.

(** The squared distance between two points of the ground plane. *)
Definition dist2 (p q : Vector3.t) : R :=
  sq (Vector3.x p - Vector3.x q) + sq (Vector3.z p - Vector3.z q).

(** An agent that the collision loop considers: any state but despawned. *)
Definition activeAgent (npc : Npc.t) : Prop := Npc.state npc <> Npc.despawned.

(** The lateral offset of a lane centre from the axis of its arm. *)
Definition laneOffset (isOuter : bool) : R :=
  if isOuter then LANE_W * 1.5 else LANE_W * 0.5.

(** The coordinate of a point along an arm, from the centre outward. *)
Definition alongArm (arm : Arm) (p : Vector3.t) : R :=
  match arm with
  | south => Vector3.z p
  | north => - Vector3.z p
  | east => Vector3.x p
  | west => - Vector3.x p
  end.

(** The messages of the fail overlay. *)
Definition failMessages : list string :=
  [REASON_ISLAND; REASON_GRASS; REASON_CRASH; REASON_SIGNAL; REASON_LANE].

(** The verdict of the car is coherent: a failed player has one of the
    messages, a player who has not failed has none. *)
Definition verdictSound (c : Car) : Prop :=
  (failed c = true /\ exists m : string, failReason c = Some m /\ m ∈ failMessages)
  \/ (failed c = false /\ failReason c = None).

(** What every agent keeps: a speed between 0 and the cruising speed, and
    the radius of one of the two ring lanes. *)
Definition agentSound (npc : Npc.t) : Prop :=
  0 <= Npc.speed npc <= NPC_SPEED
  /\ (Npc.ringRadius npc = NPC_OUTER_R \/ Npc.ringRadius npc = NPC_INNER_R).

(** A scene for the horn: the player stopped at the start line for 3
    seconds, and an agent 10 units behind it in the same lane, heading the
    same way. *)
Definition tailgater : Npc.t :=
  Npc.set_position (Vector3.mk (-5.25) 0 92.5)
    (Npc.set_state Npc.approaching (initial_npc 0)).

Definition hornScene : Game :=
  set_npcs [tailgater] (startGame (new_game (fun _ => 0))).

Definition waited : Horn.t := Horn.mk 3 0.

(** * Properties *)

(** The large functions are unfolded on request only. *)
#[global] Arguments simulate : simpl never.
#[global] Arguments _updateStateMachine : simpl never.
#[global] Arguments _updateNPCs : simpl never.
#[global] Arguments restart : simpl never.
#[global] Arguments _update : simpl never.
#[global] Strategy 100 [simulate _updateStateMachine _updateNPCs restart _update].

(** ** Numbers and angles *)

Section Numbers.

Lemma PI_bounds : 3 < PI <= 4.
Proof. split; [pose proof PI2_3_2; lra | exact PI_4]. Qed.

Lemma TWO_PI_bounds : 6 < TWO_PI <= 8.
Proof. unfold TWO_PI. pose proof PI_bounds. lra. Qed.

Lemma trunc_zero (a : R) : -1 < a < 1 -> JS.trunc a = 0%Z.
Proof.
  intros [Hlo Hhi]. unfold JS.trunc. case_decide.
  - symmetry. apply Int_part_spec. simpl. lra.
  - replace (Int_part (- a)) with 0%Z; [reflexivity|].
    apply Int_part_spec. simpl. lra.
Qed.

Lemma trunc_one (a : R) : 1 <= a < 2 -> JS.trunc a = 1%Z.
Proof.
  intros [Hlo Hhi]. unfold JS.trunc. case_decide; [|lra].
  symmetry. apply Int_part_spec. simpl. lra.
Qed.

Lemma quotient_bounds (a m lo hi : R) :
  0 < m -> lo * m <= a < hi * m -> lo <= a / m < hi.
Proof.
  intros Hm [Hlo Hhi]. unfold Rdiv. split.
  - apply Rmult_le_reg_r with m; [exact Hm|].
    rewrite Rmult_assoc, Rinv_l by lra. lra.
  - apply Rmult_lt_reg_r with m; [exact Hm|].
    rewrite Rmult_assoc, Rinv_l by lra. lra.
Qed.

Lemma quotient_bounds_strict (a m lo hi : R) :
  0 < m -> lo * m < a < hi * m -> lo < a / m < hi.
Proof.
  intros Hm [Hlo Hhi]. unfold Rdiv. split.
  - apply Rmult_lt_reg_r with m; [exact Hm|].
    rewrite Rmult_assoc, Rinv_l by lra. lra.
  - apply Rmult_lt_reg_r with m; [exact Hm|].
    rewrite Rmult_assoc, Rinv_l by lra. lra.
Qed.

(** A dividend strictly between [-m] and [m] is its own remainder. *)
Lemma rem_small (a m : R) : 0 < m -> - m < a < m -> a %% m = a.
Proof.
  intros Hm Ha. unfold JS.rem. rewrite trunc_zero.
  - simpl. lra.
  - apply quotient_bounds_strict; [exact Hm | lra].
Qed.

(** A dividend in [[m, 2m)] loses one [m]. *)
Lemma rem_once (a m : R) : 0 < m -> m <= a < 2 * m -> a %% m = a - m.
Proof.
  intros Hm Ha. unfold JS.rem. rewrite trunc_one.
  - simpl. lra.
  - apply quotient_bounds; [exact Hm | lra].
Qed.

Lemma atan_nonpos (t : R) : t <= 0 -> atan t <= 0.
Proof.
  intros [Hlt | ->]; [|rewrite atan_0; lra].
  pose proof (atan_increasing _ _ Hlt) as H. rewrite atan_0 in H. lra.
Qed.

Lemma atan_pos (t : R) : 0 < t -> 0 < atan t.
Proof. intros Hlt. pose proof (atan_increasing _ _ Hlt) as H. rewrite atan_0 in H. lra. Qed.

(** [Math.atan2] returns an angle in (-PI, PI]. *)
Lemma atan2_range (b a : R) : - PI < JS.atan2 b a <= PI.
Proof.
  pose proof PI_bounds as HPI. unfold JS.atan2.
  repeat case_decide; try lra.
  - pose proof (atan_bound (b / a)). lra.
  - pose proof (atan_bound (b / a)).
    assert (b / a <= 0) as Hq.
    { unfold Rdiv. replace 0 with (b * 0) by lra.
      apply Rmult_le_compat_l; [lra|].
      left. apply Rinv_lt_0_compat. lra. }
    pose proof (atan_nonpos _ Hq). lra.
  - pose proof (atan_bound (b / a)).
    assert (0 < b / a) as Hq.
    { unfold Rdiv. replace (b * / a) with ((- b) * (- / a)) by lra.
      apply Rmult_lt_0_compat; [lra|].
      pose proof (Rinv_lt_0_compat a). lra. }
    pose proof (atan_pos _ Hq). lra.
Qed.

(** The normalisation [((raw % TWO_PI) + TWO_PI) % TWO_PI] of an angle of
    (-PI, PI]: negative angles gain a full turn. *)
Lemma normalise_angle (raw : R) :
  - PI < raw <= PI ->
  ((raw %% TWO_PI) + TWO_PI) %% TWO_PI = if decide (raw < 0) then raw + TWO_PI else raw.
Proof.
  intros Hraw. pose proof PI_bounds as HPI. pose proof TWO_PI_bounds as H2.
  assert (TWO_PI = 2 * PI) as E by (unfold TWO_PI; lra).
  rewrite (rem_small raw) by lra.
  case_decide.
  - apply rem_small; lra.
  - rewrite rem_once by lra. lra.
Qed.

Lemma normalise_range (raw : R) :
  - PI < raw <= PI -> 0 <= ((raw %% TWO_PI) + TWO_PI) %% TWO_PI < TWO_PI.
Proof.
  intros Hraw. rewrite normalise_angle by exact Hraw.
  assert (TWO_PI = 2 * PI) as E by (unfold TWO_PI; lra).
  pose proof PI_bounds. case_decide; lra.
Qed.

(** Ring angles are normalised to [0, 2 PI), in both conventions. *)
Lemma playerRingAngle_range (p : Vector3.t) : 0 <= playerRingAngle p < TWO_PI.
Proof. apply normalise_range, atan2_range. Qed.

Lemma trafficRingAngle_range (x z : R) : 0 <= trafficRingAngle x z < TWO_PI.
Proof. apply normalise_range, atan2_range. Qed.

Lemma mod2pi_range (a : R) : 0 <= mod2pi a < TWO_PI.
Proof.
  pose proof TWO_PI_bounds as H2. unfold mod2pi.
  destruct (base_Int_part (a / TWO_PI)) as [Hle Hgt].
  assert (a = a / TWO_PI * TWO_PI) as E by (field; lra).
  revert Hle Hgt E. generalize (a / TWO_PI). intros q.
  generalize (IZR (Int_part q)). intros k Hle Hgt ->. split; nra.
Qed.

Lemma mod2pi_unique (a r : R) (k : Z) :
  0 <= r < TWO_PI -> a = r + TWO_PI * IZR k -> mod2pi a = r.
Proof.
  intros Hr ->. pose proof TWO_PI_bounds as H2. unfold mod2pi.
  replace (Int_part ((r + TWO_PI * IZR k) / TWO_PI)) with k; [lra|].
  apply Int_part_spec.
  replace ((r + TWO_PI * IZR k) / TWO_PI) with (r / TWO_PI + IZR k) by (field; lra).
  pose proof (quotient_bounds r TWO_PI 0 1). lra.
Qed.

(** On normalised angles the gap [(e - a + TWO_PI) % TWO_PI] of the source
    is the residue of [e - a] modulo 2 PI. *)
Lemma yieldGap_mod2pi (e a : R) :
  0 <= e < TWO_PI -> 0 <= a < TWO_PI -> yieldGap e a = mod2pi (e - a).
Proof.
  intros He Ha. pose proof TWO_PI_bounds as H2. unfold yieldGap.
  destruct (decide (a <= e)).
  - rewrite rem_once by lra. symmetry. apply (mod2pi_unique _ _ 0); simpl; lra.
  - rewrite rem_small by lra. symmetry. apply (mod2pi_unique _ _ (-1)); simpl; lra.
Qed.

Lemma mod2pi_decomp (a : R) : exists k : Z, a = mod2pi a + TWO_PI * IZR k.
Proof. exists (Int_part (a / TWO_PI)). unfold mod2pi. lra. Qed.

Lemma mod2pi_shift (a s : R) : mod2pi (mod2pi a - s) = mod2pi (a - s).
Proof.
  destruct (mod2pi_decomp a) as [k1 E1].
  destruct (mod2pi_decomp (mod2pi a - s)) as [k2 E2].
  symmetry. apply (mod2pi_unique _ _ (k1 + k2)); [apply mod2pi_range|].
  rewrite plus_IZR. lra.
Qed.

End Numbers.

(** ** [Math.atan2] on a circle *)

Lemma tan_shift_PI (x : R) : cos x <> 0 -> tan (x + PI) = tan x.
Proof.
  intros Hc. unfold tan. rewrite neg_sin, neg_cos. field. exact Hc.
Qed.

Lemma polar_quotient (r theta : R) :
  0 < r -> cos theta <> 0 -> r * sin theta / (r * cos theta) = tan theta.
Proof. intros Hr Hc. unfold tan. field. split; [exact Hc | lra]. Qed.

(** [Math.atan2] recovers the angle of a point given in polar form. *)
Lemma atan2_polar (r theta : R) :
  0 < r -> - PI < theta <= PI -> JS.atan2 (r * sin theta) (r * cos theta) = theta.
Proof.
  intros Hr [Hlo Hhi]. pose proof PI_bounds as HPI.
  destruct (Rtotal_order theta (- (PI / 2))) as [Hlt | [-> | Hgt]].
  - (* third quadrant *)
    assert (0 < cos (theta + PI)) as Hc by (apply cos_gt_0; lra).
    rewrite neg_cos in Hc.
    assert (sin theta < 0) as Hs by (apply sin_lt_0_var; lra).
    unfold JS.atan2.
    rewrite decide_False by nra. rewrite decide_True by nra.
    rewrite decide_False by nra.
    rewrite polar_quotient by lra.
    rewrite <- tan_shift_PI by lra. rewrite atan_tan by lra. lra.
  - rewrite cos_neg, sin_neg, cos_PI2, sin_PI2. unfold JS.atan2.
    rewrite decide_False by lra. rewrite decide_False by lra.
    rewrite decide_False by lra. rewrite decide_True by lra. reflexivity.
  - destruct (Rtotal_order theta (PI / 2)) as [Hlt | [-> | Hgt2]].
    + (* right half plane *)
      assert (0 < cos theta) as Hc by (apply cos_gt_0; lra).
      unfold JS.atan2. rewrite decide_True by nra.
      rewrite polar_quotient by lra. apply atan_tan. lra.
    + rewrite cos_PI2, sin_PI2. unfold JS.atan2.
      rewrite decide_False by lra. rewrite decide_False by lra.
      rewrite decide_True by lra. reflexivity.
    + (* second quadrant *)
      assert (cos theta < 0) as Hc by (apply cos_lt_0; lra).
      assert (0 <= sin theta) as Hs by (apply sin_ge_0; lra).
      unfold JS.atan2.
      rewrite decide_False by nra. rewrite decide_True by nra.
      rewrite decide_True by nra.
      rewrite polar_quotient by lra.
      assert (cos (theta - PI) <> 0) as Hc'.
      { pose proof (neg_cos (theta - PI)) as E.
        replace (theta - PI + PI) with theta in E by lra. lra. }
      pose proof (tan_shift_PI (theta - PI) Hc') as E.
      replace (theta - PI + PI) with theta in E by lra.
      rewrite E. rewrite atan_tan by lra. lra.
Qed.

(** Sine and cosine do not see whole turns. *)
Lemma trig_turns (x : R) (k : Z) :
  cos (x + TWO_PI * IZR k) = cos x /\ sin (x + TWO_PI * IZR k) = sin x.
Proof.
  unfold TWO_PI. destruct (Z_le_gt_dec 0 k) as [Hk | Hk].
  - rewrite <- (Z2Nat.id k) by exact Hk. rewrite <- INR_IZR_INZ.
    replace (x + PI * 2 * INR (Z.to_nat k)) with (x + 2 * INR (Z.to_nat k) * PI) by lra.
    split; [apply cos_period | apply sin_period].
  - assert (k = (- Z.of_nat (Z.to_nat (- k)))%Z) as -> by lia.
    rewrite opp_IZR, <- INR_IZR_INZ.
    set (y := x + PI * 2 * - INR (Z.to_nat (- k))).
    replace x with (y + 2 * INR (Z.to_nat (- k)) * PI) by (unfold y; lra).
    split; [by rewrite cos_period | by rewrite sin_period].
Qed.

(** The player's ring angle of a point of a circle is its angle, reduced
    modulo 2 PI. *)
Lemma playerRingAngle_onCircle (r theta : R) :
  0 < r -> playerRingAngle (onCircle r theta) = mod2pi theta.
Proof.
  intros Hr. pose proof PI_bounds as HPI.
  assert (TWO_PI = 2 * PI) as E2 by (unfold TWO_PI; lra).
  destruct (mod2pi_decomp theta) as [k Hk].
  pose proof (mod2pi_range theta) as Hm.
  destruct (trig_turns (mod2pi theta) k) as [Hc Hs]. rewrite <- Hk in Hc, Hs.
  unfold playerRingAngle, onCircle. cbn [Vector3.x Vector3.z].
  rewrite Ropp_involutive, Hc, Hs.
  destruct (decide (mod2pi theta <= PI)) as [Hle | Hgt].
  - rewrite atan2_polar by lra. rewrite normalise_angle by lra.
    rewrite decide_False by lra. reflexivity.
  - destruct (trig_turns (mod2pi theta - TWO_PI) 1) as [Hc1 Hs1].
    replace (mod2pi theta - TWO_PI + TWO_PI * 1) with (mod2pi theta) in Hc1, Hs1 by lra.
    rewrite Hc1, Hs1.
    rewrite atan2_polar by lra. rewrite normalise_angle by lra.
    rewrite decide_True by lra. lra.
Qed.

(** ** Frame properties of the rule engine *)

Lemma SameDrive_refl g : SameDrive g g.
Proof. by constructor. Qed.

Lemma SameDrive_trans g1 g2 g3 : SameDrive g1 g2 -> SameDrive g2 g3 -> SameDrive g1 g3.
Proof. intros [] []. constructor; congruence. Qed.

Ltac unfold_blocks :=
  unfold phaseApproaching, phaseOnRoundabout, phaseExiting, exitTransition,
    laneChangeCheck, ringLaneCheck, checkC, checkD, checkB, trackRingAngle,
    graceCountdown, startGrace, upd_car.

Ltac split_cases :=
  repeat match goal with
         | |- context [if ?b then _ else _] => destruct b
         | |- context [match ?o with Some _ => _ | None => _ end] => destruct o
         end.

(** Every block of the rule engine leaves the driving fields alone. *)
Ltac frame_block := intros; unfold_blocks; split_cases; by constructor.

Lemma checkB_drive dist g : SameDrive g (checkB dist g).
Proof. frame_block. Qed.
Lemma checkD_drive dist g : SameDrive g (checkD dist g).
Proof. frame_block. Qed.
Lemma checkC_drive dist g : SameDrive g (checkC dist g).
Proof. frame_block. Qed.
Lemma ringLaneCheck_drive dist g : SameDrive g (ringLaneCheck dist g).
Proof. frame_block. Qed.
Lemma laneChangeCheck_drive dist g : SameDrive g (laneChangeCheck dist g).
Proof. frame_block. Qed.
Lemma exitTransition_drive g : SameDrive g (exitTransition g).
Proof. frame_block. Qed.
Lemma trackRingAngle_drive g : SameDrive g (trackRingAngle g).
Proof. frame_block. Qed.
Lemma phaseApproaching_drive dist g : SameDrive g (phaseApproaching dist g).
Proof. frame_block. Qed.
Lemma phaseExiting_drive dist g : SameDrive g (phaseExiting dist g).
Proof. frame_block. Qed.

Lemma phaseOnRoundabout_drive dist g : SameDrive g (phaseOnRoundabout dist g).
Proof.
  unfold phaseOnRoundabout.
  repeat (eapply SameDrive_trans;
          [|first [apply exitTransition_drive | apply laneChangeCheck_drive
                  | apply ringLaneCheck_drive | apply checkC_drive
                  | apply checkD_drive | apply checkB_drive
                  | apply trackRingAngle_drive]]).
  by constructor.
Qed.

Lemma graceCountdown_drive dt dist g :
  SameDrive g (set_car (graceCountdown dt dist (car g)).1 g).
Proof. frame_block. Qed.

Lemma _updateStateMachine_drive dt g : SameDrive g (_updateStateMachine dt g).
Proof.
  unfold _updateStateMachine.
  destruct (failed (car g) || bool_decide (phase (car g) = completed));
    [apply SameDrive_refl|].
  destruct (negb (onRoad _ _)); [by constructor|].
  destruct (collision _ _); [by constructor|].
  pose proof (graceCountdown_drive dt (distFromCenter (pos (car g))) g) as Hg.
  destruct (graceCountdown _ _ _) as [c returned]. simpl in Hg.
  destruct returned; [exact Hg|].
  eapply SameDrive_trans; [exact Hg|].
  destruct (phase c);
    [apply phaseApproaching_drive | apply phaseOnRoundabout_drive
    | apply phaseExiting_drive | apply SameDrive_refl].
Qed.

Lemma SameTravel_trans g1 g2 g3 : SameTravel g1 g2 -> SameTravel g2 g3 -> SameTravel g1 g3.
Proof. unfold SameTravel. intuition congruence. Qed.

Ltac travel_block := intros; unfold_blocks; split_cases; by repeat split.

Lemma checkB_travel dist g : SameTravel g (checkB dist g).
Proof. travel_block. Qed.
Lemma checkD_travel dist g : SameTravel g (checkD dist g).
Proof. travel_block. Qed.
Lemma checkC_travel dist g : SameTravel g (checkC dist g).
Proof. travel_block. Qed.
Lemma ringLaneCheck_travel dist g : SameTravel g (ringLaneCheck dist g).
Proof. travel_block. Qed.
Lemma laneChangeCheck_travel dist g : SameTravel g (laneChangeCheck dist g).
Proof. travel_block. Qed.
Lemma exitTransition_travel g : SameTravel g (exitTransition g).
Proof. travel_block. Qed.

(** After the tracker, the ring phase only evaluates checks. *)
Lemma phaseOnRoundabout_travel dist g :
  SameTravel
    (trackRingAngle (upd_car (set_ringLane (if decide (dist < RB_MID) then inner else outer)) g))
    (phaseOnRoundabout dist g).
Proof.
  unfold phaseOnRoundabout.
  repeat (eapply SameTravel_trans;
          [|first [apply exitTransition_travel | apply laneChangeCheck_travel
                  | apply ringLaneCheck_travel | apply checkC_travel
                  | apply checkD_travel | apply checkB_travel]]).
  by repeat split.
Qed.

(** ** Ring-angle accumulation (C1) *)

(** A clockwise move by [s], less than half a turn, from the normalised
    angle [prev] ends on [prev - s] or, across the wrap, on
    [prev - s + 2 PI]. *)
Lemma clockwise_residue (prev s : R) :
  0 <= prev < TWO_PI -> 0 <= s < PI ->
  mod2pi (prev - s) = if decide (s <= prev) then prev - s else prev - s + TWO_PI.
Proof.
  intros Hp Hs. assert (TWO_PI = 2 * PI) as E by (unfold TWO_PI; lra).
  case_decide.
  - apply (mod2pi_unique _ _ 0); simpl; lra.
  - apply (mod2pi_unique _ _ (-1)); simpl; lra.
Qed.

(** The accumulator adds exactly the clockwise move, wrap or no wrap. *)
Lemma accumulate_clockwise (prev s t : R) :
  0 <= prev < TWO_PI -> 0 <= s < PI ->
  accumulate (Some prev) (mod2pi (prev - s)) t = t + s.
Proof.
  intros Hp Hs. rewrite clockwise_residue by assumption.
  assert (TWO_PI = 2 * PI) as E by (unfold TWO_PI; lra).
  unfold accumulate. repeat case_decide; lra.
Qed.

Lemma trackRingAngle_traveled (g : Game) :
  traveledAngle (car (trackRingAngle g))
  = accumulate (_prevRingAngle g) (playerRingAngle (pos (car g))) (traveledAngle (car g)).
Proof. reflexivity. Qed.

Lemma trackRingAngle_prev (g : Game) :
  _prevRingAngle (trackRingAngle g) = Some (playerRingAngle (pos (car g))).
Proof. reflexivity. Qed.

(** One tracked tick of a clockwise move adds the move. *)
Lemma trackRingAngle_clockwise (g : Game) (prev s : R) :
  _prevRingAngle g = Some prev -> 0 <= prev < TWO_PI -> 0 <= s < PI ->
  playerRingAngle (pos (car g)) = mod2pi (prev - s) ->
  traveledAngle (car (trackRingAngle g)) = traveledAngle (car g) + s.
Proof.
  intros Hprev Hp Hs Hnorm.
  rewrite trackRingAngle_traveled, Hprev, Hnorm.
  by apply accumulate_clockwise.
Qed.

(** A ride at constant clockwise angular speed accumulates the speed on
    every tick. *)
Lemma ride_constant (omega : R) (ps : list Vector3.t) :
  0 <= omega < PI ->
  forall (g : Game) (theta0 : R),
    _prevRingAngle g = Some (mod2pi theta0) ->
    constantClockwise theta0 omega ps ->
    traveledAngle (car (ride g ps)) = traveledAngle (car g) + INR (length ps) * omega.
Proof.
  intros Hw. induction ps as [|p ps IH]; intros g theta0 Hprev Hps.
  - simpl. lra.
  - change (ride g (p :: ps)) with (ride (trackRingAngle (upd_car (set_pos p) g)) ps).
    assert (playerRingAngle p = mod2pi (theta0 - omega)) as Hp.
    { rewrite (Hps 0%nat p eq_refl). f_equal. simpl. lra. }
    rewrite (IH _ (theta0 - omega)).
    + rewrite (trackRingAngle_clockwise _ (mod2pi theta0) omega);
        [ | exact Hprev | apply mod2pi_range | exact Hw
          | simpl; rewrite mod2pi_shift; exact Hp ].
      change (length (p :: ps)) with (S (length ps)). rewrite S_INR. simpl. lra.
    + rewrite trackRingAngle_prev. simpl. by rewrite Hp.
    + intros k q Hk. rewrite (Hps (S k) q Hk). f_equal.
      rewrite (S_INR (S k)). lra.
Qed.

(** In the ring phase a tick that is not stopped by a failure runs the
    tracker, and nothing after the tracker writes the traveled angle. *)
Lemma _updateStateMachine_on_ring (dt : R) (g : Game) :
  phase (car g) = on_roundabout ->
  let g' := _updateStateMachine dt g in
  (traveledAngle (car g') = traveledAngle (car g) /\ failed (car g') = true)
  \/ (traveledAngle (car g')
      = accumulate (_prevRingAngle g) (playerRingAngle (pos (car g))) (traveledAngle (car g))
      /\ failed (car g') = false).
Proof.
  intros Hphase. simpl. unfold _updateStateMachine.
  destruct (failed (car g)) eqn:Hfailed; [left; by split|].
  rewrite Hphase. simpl.
  destruct (negb (onRoad _ _)); [left; by split|].
  destruct (collision _ _); [left; by split|].
  set (dist := distFromCenter (pos (car g))).
  destruct (graceCountdown dt dist (car g)) as [c returned] eqn:Hgc.
  assert (phase c = on_roundabout /\ traveledAngle c = traveledAngle (car g)
          /\ pos c = pos (car g)
          /\ failed c = returned) as (Hph & Htr & Hpos & Hfl).
  { revert Hgc. unfold graceCountdown.
    destruct (graceActive (car g)); [|intros [= <- <-]; by repeat split].
    destruct (condOk _ _ _); [intros [= <- <-]; by repeat split|].
    case_decide; intros [= <- <-]; by repeat split. }
  destruct returned.
  - left. simpl. by split.
  - right. rewrite Hph.
    destruct (phaseOnRoundabout_travel dist (set_car c g)) as (Hf & _ & Ht).
    rewrite Ht, Hf. rewrite trackRingAngle_traveled. simpl.
    rewrite Htr, Hpos. by split.
Qed.

(** The positions of a ride on a circle are a constant clockwise ride. *)
Lemma circleRide_constant (r theta0 omega : R) (n : nat) :
  0 < r -> constantClockwise theta0 omega (circleRide r theta0 omega n).
Proof.
  intros Hr k p Hk. unfold circleRide in Hk.
  rewrite list_lookup_fmap in Hk.
  destruct (seq 0 n !! k) as [k'|] eqn:Hseq; [|discriminate].
  apply lookup_seq in Hseq as [-> _]. injection Hk as <-.
  by apply playerRingAngle_onCircle.
Qed.

(** C1. Ring-angle accumulation.  First part: on a tick of the ring phase in
    which the car has moved clockwise by [s] (less than half a turn) since the
    previous tick, so that its ring angle atan2(-z, x) went from [prev] to
    [prev - s] modulo 2 PI, the traveled angle does not decrease, and it grows
    by exactly [s] unless the tick ends in a failure.  Second part: the
    tracker run over [n] ticks of a clockwise ride at the constant angular
    speed [omega], with [n * omega = 2 PI], one full revolution, has added
    2 PI to the traveled angle, and after each of the ticks the traveled
    angle is larger than before it.  Third part: this is the case of a car
    that rides a circle of any radius around the centre, clockwise, by
    [omega] per tick. *)
Theorem traveledAngle_clockwise :
  (forall (dt : R) (g : Game) (prev s : R),
     phase (car g) = on_roundabout ->
     _prevRingAngle g = Some prev -> 0 <= prev < TWO_PI -> 0 <= s < PI ->
     playerRingAngle (pos (car g)) = mod2pi (prev - s) ->
     traveledAngle (car g) <= traveledAngle (car (_updateStateMachine dt g))
     /\ (failed (car (_updateStateMachine dt g)) = false ->
         traveledAngle (car (_updateStateMachine dt g)) = traveledAngle (car g) + s))
  /\ (forall (g : Game) (theta0 omega : R) (ps : list Vector3.t),
        0 < omega < PI ->
        INR (length ps) * omega = TWO_PI ->
        _prevRingAngle g = Some (mod2pi theta0) ->
        constantClockwise theta0 omega ps ->
        traveledAngle (car (ride g ps)) = traveledAngle (car g) + TWO_PI
        /\ (forall k : nat, (k < length ps)%nat ->
              traveledAngle (car (ride g (take k ps)))
              < traveledAngle (car (ride g (take (S k) ps)))))
  /\ (forall (g : Game) (r theta0 omega : R) (n : nat),
        0 < r -> 0 < omega < PI -> INR n * omega = TWO_PI ->
        _prevRingAngle g = Some (mod2pi theta0) ->
        traveledAngle (car (ride g (circleRide r theta0 omega n)))
        = traveledAngle (car g) + TWO_PI).
Proof.
  assert (forall (g : Game) (theta0 omega : R) (ps : list Vector3.t),
            0 < omega < PI ->
            _prevRingAngle g = Some (mod2pi theta0) ->
            constantClockwise theta0 omega ps ->
            forall k, (k <= length ps)%nat ->
              traveledAngle (car (ride g (take k ps)))
              = traveledAngle (car g) + INR k * omega) as Hk.
  { intros g theta0 omega ps Hw Hprev Hps k Hle.
    rewrite (ride_constant omega (take k ps)) with (theta0 := theta0);
      [ | lra | exact Hprev | ].
    - rewrite length_take, Nat.min_l by exact Hle. done.
    - intros j p Hj. apply Hps. rewrite lookup_take_Some in Hj. tauto. }
  split; [|split].
  - intros dt g prev s Hphase Hprev Hp Hs Hnorm.
    destruct (_updateStateMachine_on_ring dt g Hphase) as [[Ht Hf] | [Ht Hf]].
    + split; [lra | congruence].
    + rewrite Ht, Hprev, Hnorm, accumulate_clockwise by assumption.
      split; [lra | done].
  - intros g theta0 omega ps Hw Hn Hprev Hps.
    specialize (Hk g theta0 omega ps Hw Hprev Hps).
    split.
    + rewrite <- Hn, <- (Hk (length ps)) by lia. by rewrite firstn_all.
    + intros k Hlt. rewrite !Hk by lia. rewrite S_INR. lra.
  - intros g r theta0 omega n Hr Hw Hn Hprev.
    pose proof (circleRide_constant r theta0 omega n Hr) as Hps.
    assert (length (circleRide r theta0 omega n) = n) as Hlen.
    { unfold circleRide. by rewrite length_fmap, length_seq. }
    specialize (Hk g theta0 omega _ Hw Hprev Hps n).
    rewrite Hlen in Hk. specialize (Hk (le_n n)).
    rewrite <- Hlen in Hk at 1. rewrite firstn_all in Hk. lra.
Qed.

(** The player's ring angle at the four compass points of a circle. *)
Lemma playerRingAngle_east (r y : R) : 0 < r -> playerRingAngle (Vector3.mk r y 0) = 0.
Proof.
  intros Hr. unfold playerRingAngle. simpl.
  assert (JS.atan2 (- 0) r = 0) as ->.
  { unfold JS.atan2. case_decide; [|lra].
    replace (- 0 / r) with 0 by (field; lra). apply atan_0. }
  pose proof PI_bounds. rewrite normalise_angle by lra. case_decide; lra.
Qed.

Lemma playerRingAngle_north (y z : R) : z < 0 -> playerRingAngle (Vector3.mk 0 y z) = PI / 2.
Proof.
  intros Hz. unfold playerRingAngle. simpl.
  assert (JS.atan2 (- z) 0 = PI / 2) as ->.
  { unfold JS.atan2. repeat case_decide; lra. }
  pose proof PI_bounds. rewrite normalise_angle by lra. case_decide; lra.
Qed.

Lemma playerRingAngle_west (x y : R) : x < 0 -> playerRingAngle (Vector3.mk x y 0) = PI.
Proof.
  intros Hx. unfold playerRingAngle. simpl.
  assert (JS.atan2 (- 0) x = PI) as ->.
  { unfold JS.atan2. repeat case_decide; try lra.
    replace (- 0 / x) with 0 by (field; lra). rewrite atan_0. lra. }
  pose proof PI_bounds. rewrite normalise_angle by lra. case_decide; lra.
Qed.

Lemma playerRingAngle_south (r y : R) : 0 < r -> playerRingAngle (Vector3.mk 0 y r) = 3 * PI / 2.
Proof.
  intros Hr. unfold playerRingAngle. simpl.
  assert (JS.atan2 (- r) 0 = - (PI / 2)) as ->.
  { unfold JS.atan2. repeat case_decide; lra. }
  pose proof PI_bounds. rewrite normalise_angle by lra.
  unfold TWO_PI. case_decide; lra.
Qed.

Lemma traveledAngle_clockwise_witness :
  (let g := set__prevRingAngle (Some 0.5)
              (upd_car (fun c => set_phase on_roundabout (set_pos (Vector3.mk 18 0 0) c))
                       (new_game (fun _ => 0))) in
   traveledAngle (car g) <= traveledAngle (car (_updateStateMachine 0.016 g)))
  /\ (let g := set__prevRingAngle (Some 0) (new_game (fun _ => 0)) in
      let ps := [Vector3.mk 0 0 17; Vector3.mk (- 17) 0 0;
                 Vector3.mk 0 0 (- 17); Vector3.mk 17 0 0] in
      traveledAngle (car (ride g ps)) = traveledAngle (car g) + TWO_PI).
Proof.
  pose proof PI_bounds as HPI. pose proof TWO_PI_bounds as H2.
  assert (TWO_PI = 2 * PI) as E by (unfold TWO_PI; lra).
  destruct traveledAngle_clockwise as (Hstep & Hrev & _). split.
  - apply (Hstep 0.016 _ 0.5 0.5).
    + reflexivity.
    + reflexivity.
    + lra.
    + lra.
    + simpl. rewrite playerRingAngle_east by lra. symmetry.
      apply (mod2pi_unique _ _ 0); simpl; lra.
  - refine (proj1 (Hrev _ 0 (PI / 2) _ _ _ _ _)).
    + lra.
    + simpl. lra.
    + simpl. f_equal. symmetry. apply (mod2pi_unique _ _ 0); simpl; lra.
    + intros k p Hk.
      destruct k as [|[|[|[|k]]]]; simpl in Hk; try discriminate;
        injection Hk as <-; simpl.
      * rewrite playerRingAngle_south by lra. symmetry.
        apply (mod2pi_unique _ _ (-1)); simpl; lra.
      * rewrite playerRingAngle_west by lra. symmetry.
        apply (mod2pi_unique _ _ (-1)); simpl; lra.
      * rewrite playerRingAngle_north by lra. symmetry.
        apply (mod2pi_unique _ _ (-1)); simpl; lra.
      * rewrite playerRingAngle_east by lra. symmetry.
        apply (mod2pi_unique _ _ (-1)); simpl; lra.
Defined.

(** ** Frame properties of the traffic engine and of the physics *)

(** The traffic update writes the agents and the random stream only. *)
Lemma updateNPC_shape (dt dtScale : R) (g : Game) (i : nat) :
  exists l rnd, updateNPC dt dtScale g i = set_random rnd (set_npcs l g).
Proof.
  unfold updateNPC. destruct (npcs g !! i) as [npc|].
  - case_decide.
    + destruct (if decide (_ <= 0) then _ else _) as [npc' rnd']. by eexists _, _.
    + destruct (match Npc.state _ with Npc.despawned => _ | _ => _ end) as [npc' rnd'].
      by eexists _, _.
  - exists (npcs g), (random g). by destruct g.
Qed.

Lemma _updateNPCs_shape (dt dtScale : R) (g : Game) :
  exists l rnd, _updateNPCs dt dtScale g = set_random rnd (set_npcs l g).
Proof.
  unfold _updateNPCs. generalize (seq 0 (length (npcs g))). intros ixs.
  assert (exists l rnd, g = set_random rnd (set_npcs l g)) as H
      by (exists (npcs g), (random g); by destruct g).
  revert H. generalize g at 1 3 as g0. induction ixs as [|i ixs IH]; intros g0 H.
  - exact H.
  - simpl. apply IH. destruct H as (l & rnd & ->).
    destruct (updateNPC_shape dt dtScale (set_random rnd (set_npcs l g)) i) as (l' & rnd' & ->).
    by exists l', rnd'.
Qed.

Lemma _updateNPCs_car (dt dtScale : R) (g : Game) : car (_updateNPCs dt dtScale g) = car g.
Proof. destruct (_updateNPCs_shape dt dtScale g) as (l & rnd & ->). done. Qed.

Lemma _updateNPCs_mission (dt dtScale : R) (g : Game) : SameMission g (_updateNPCs dt dtScale g).
Proof. destruct (_updateNPCs_shape dt dtScale g) as (l & rnd & ->). by constructor. Qed.

Lemma SameMission_trans g1 g2 g3 : SameMission g1 g2 -> SameMission g2 g3 -> SameMission g1 g3.
Proof. intros [] []. constructor; congruence. Qed.

Lemma SameDrive_mission g g' : SameDrive g g' -> SameMission g g'.
Proof. intros []. by constructor. Qed.

Lemma integrateControls_mission s g : SameMission g (integrateControls s g).
Proof. unfold integrateControls, upd_car. split_cases; by constructor. Qed.

Lemma integratePose_mission s g : SameMission g (integratePose s g).
Proof. by constructor. Qed.

Lemma blink_mission dt g : SameMission g (blink dt g).
Proof. by constructor. Qed.

Lemma simulate_mission (dt dtScale : R) (g : Game) : SameMission g (simulate dt dtScale g).1.
Proof.
  unfold simulate. simpl.
  eapply SameMission_trans; [apply integrateControls_mission|].
  eapply SameMission_trans; [apply integratePose_mission|].
  eapply SameMission_trans; [apply blink_mission|].
  eapply SameMission_trans; [apply _updateNPCs_mission|].
  apply SameDrive_mission, _updateStateMachine_drive.
Qed.

(** ** Mission sequencer and restart (C7, C8) *)

Lemma EXITS_length : length EXITS = 3%nat.
Proof. reflexivity. Qed.

(** The lookup of [_assignMission] never misses. *)
Lemma EXITS_lookup_mod (i : nat) : is_Some (EXITS !! (i mod length EXITS)%nat).
Proof. apply lookup_lt_is_Some. apply Nat.mod_upper_bound. by rewrite EXITS_length. Qed.

Lemma activeMission_is_Some (g : Game) : is_Some (activeMission g).
Proof. apply EXITS_lookup_mod. Qed.

Lemma _assignMission_spec (g : Game) (e : Exit.t) :
  activeMission g = Some e ->
  carries (car (_assignMission g)) e
  /\ _missionIndex (_assignMission g) = _missionIndex g.
Proof.
  unfold activeMission, _assignMission. intros ->. by repeat split.
Qed.

Lemma restart_car (g : Game) (e : Exit.t) :
  activeMission g = Some e -> car (restart g) = freshCar e.
Proof.
  unfold activeMission, restart, _assignMission. simpl. intros ->. reflexivity.
Qed.

Lemma restart_missionIndex (g : Game) : _missionIndex (restart g) = _missionIndex g.
Proof.
  unfold restart, _assignMission. simpl. by destruct (EXITS !! _).
Qed.

Lemma restart_synced (g : Game) : missionSynced (restart g).
Proof.
  destruct (activeMission_is_Some g) as [e He]. exists e. split.
  - unfold activeMission. by rewrite restart_missionIndex.
  - rewrite (restart_car g e He). by repeat split.
Qed.

Lemma SameMission_synced g g' : SameMission g g' -> missionSynced g -> missionSynced g'.
Proof.
  intros [] (e & He & Hc). exists e. unfold activeMission, carries in *.
  destruct Hc as (? & ? & ? & ? & ?). repeat split; congruence.
Qed.

(** A frame outside the preview and the debug mode is the simulation
    followed by the completion countdown. *)
Lemma _update_live (delta : R) (g : Game) :
  _preview g = false -> _indDebug g = false ->
  let dt := tickDt delta in
  let g0 := set_elapsed (elapsed g + dt * 1000) g in
  _update delta g
  = completeCountdown dt (simulate dt (dt * 60) g0).2 (simulate dt (dt * 60) g0).1.
Proof.
  intros Hp Hd. cbv zeta. unfold _update. cbv zeta.
  change (_preview (set_elapsed _ g)) with (_preview g).
  change (_indDebug (set_elapsed _ g)) with (_indDebug g).
  rewrite Hp, Hd. by destruct (simulate _ _ _).
Qed.

Lemma _update_preview (delta : R) (g : Game) :
  _preview g = true ->
  _update delta g = (set_elapsed (elapsed g + tickDt delta * 1000) g, None).
Proof.
  intros Hp. unfold _update. cbv zeta.
  change (_preview (set_elapsed _ g)) with (_preview g). by rewrite Hp.
Qed.

Lemma _update_debug (delta : R) (g : Game) :
  _preview g = false -> _indDebug g = true ->
  _update delta g
  = (set__blinkTimer (_blinkTimer g + tickDt delta)
       (set_elapsed (elapsed g + tickDt delta * 1000) g), None).
Proof.
  intros Hp Hd. unfold _update. cbv zeta.
  change (_preview (set_elapsed _ g)) with (_preview g).
  change (_indDebug (set_elapsed _ g)) with (_indDebug g).
  by rewrite Hp, Hd.
Qed.

Lemma completeCountdown_synced (dt spd : R) (g : Game) :
  missionSynced g -> missionSynced (completeCountdown dt spd g).1.
Proof.
  intros Hs. unfold completeCountdown.
  case_decide; [|exact Hs].
  case_decide; [apply restart_synced | exact Hs].
Qed.

Lemma _update_synced (delta : R) (g : Game) : missionSynced g -> missionSynced (_update delta g).1.
Proof.
  intros Hs.
  destruct (_preview g) eqn:Hp; [by rewrite _update_preview|].
  destruct (_indDebug g) eqn:Hd; [by rewrite _update_debug|].
  rewrite _update_live by assumption.
  apply completeCountdown_synced.
  eapply SameMission_synced; [apply simulate_mission|]. exact Hs.
Qed.

Lemma perform_synced (g : Game) (cmd : Command) : missionSynced g -> missionSynced (perform g cmd).
Proof.
  intros Hs. destruct cmd as [delta|code|code| | | |on]; simpl.
  - by apply _update_synced.
  - unfold _onKeyDown, _toggleIndicator. apply (SameMission_synced g); [|exact Hs].
    split_cases; by constructor.
  - unfold _onKeyUp. destruct (negb _); exact Hs.
  - exact Hs.
  - apply restart_synced.
  - apply restart_synced.
  - apply (SameMission_synced g); [|exact Hs].
    unfold setIndDebugMode. destruct on; [by constructor|].
    destruct (fold_left _ _ _) as [l rnd]. by constructor.
Qed.

Lemma new_game_synced (rnd : nat -> R) : missionSynced (new_game rnd).
Proof. eexists. split; [reflexivity|]. by repeat split. Qed.

Lemma run_synced (rnd : nat -> R) (cmds : list Command) : missionSynced (run rnd cmds).
Proof.
  unfold run. generalize (new_game_synced rnd). generalize (new_game rnd).
  induction cmds as [|cmd cmds IH]; intros g Hs; [exact Hs|].
  simpl. apply IH. by apply perform_synced.
Qed.

Lemma activeMission_period (g g' : Game) :
  _missionIndex g' = (_missionIndex g + 3)%nat -> activeMission g' = activeMission g.
Proof.
  unfold activeMission. intros ->. rewrite EXITS_length.
  replace (_missionIndex g + 3)%nat with (_missionIndex g + 1 * 3)%nat by lia.
  by rewrite Nat.Div0.mod_add.
Qed.

Lemma nextMission_index (g : Game) : _missionIndex (nextMission g) = S (_missionIndex g).
Proof. unfold nextMission. by rewrite restart_missionIndex. Qed.

Lemma set__completeTimer_twice (a b : R) (g : Game) :
  set__completeTimer a (set__completeTimer b g) = set__completeTimer a g.
Proof. reflexivity. Qed.

Lemma restart_after_countdown (t : R) (g : Game) :
  restart (set__missionIndex
             (S (_missionIndex (set__completeTimer 0 (set__completeTimer t g))))
             (set__completeTimer 0 (set__completeTimer t g)))
  = nextMission (set__completeTimer 0 g).
Proof. rewrite set__completeTimer_twice. unfold nextMission. reflexivity. Qed.

(** The frame in which the completion countdown runs out advances the
    mission; every other frame keeps the index. *)
Lemma completeCountdown_missionIndex (dt spd : R) (g : Game) :
  (0 < _completeTimer g <= dt
   /\ (completeCountdown dt spd g).1 = nextMission (set__completeTimer 0 g))
  \/ (~ 0 < _completeTimer g <= dt
      /\ _missionIndex (completeCountdown dt spd g).1 = _missionIndex g).
Proof.
  unfold completeCountdown. case_decide.
  - case_decide as Hle; cbn [_completeTimer set__completeTimer] in Hle.
    + left. split; [lra|]. cbn [fst]. apply restart_after_countdown.
    + right. split; [lra|]. reflexivity.
  - right. split; [lra|]. reflexivity.
Qed.

Lemma new_game_missionIndex (rnd : nat -> R) : _missionIndex (new_game rnd) = 0%nat.
Proof. reflexivity. Qed.

Lemma _update_advances (delta : R) (g : Game) :
  _missionIndex (_update delta g).1 = _missionIndex g
  \/ (exists g1, (_update delta g).1 = nextMission g1
                 /\ _missionIndex g1 = _missionIndex g).
Proof.
  destruct (_preview g) eqn:Hp; [left; by rewrite _update_preview|].
  destruct (_indDebug g) eqn:Hd; [left; by rewrite _update_debug|].
  rewrite _update_live by assumption. cbv zeta.
  set (g0 := set_elapsed _ g).
  pose proof (simulate_mission (tickDt delta) (tickDt delta * 60) g0) as [_ _ _ _ _ Hm].
  change (_missionIndex g0) with (_missionIndex g) in Hm.
  revert Hm. generalize (simulate (tickDt delta) (tickDt delta * 60) g0).
  intros [g1 spd] Hm. cbn [fst snd] in *.
  destruct (completeCountdown_missionIndex (tickDt delta) spd g1) as [[_ H] | [_ H]].
  - right. exists (set__completeTimer 0 g1). split; [exact H|]. exact Hm.
  - left. rewrite H. exact Hm.
Qed.

Lemma _assignMission_engine (g : Game) :
  (_checkADone (_assignMission g) = false
   /\ _checkBDone (_assignMission g) = false
   /\ _checkCDone (_assignMission g) = false
   /\ _checkDDone (_assignMission g) = false
   /\ _checkLaneApproachDone (_assignMission g) = false)
  /\ _prevRingAngle (_assignMission g) = _prevRingAngle g
  /\ _prevDistFromCenter (_assignMission g) = _prevDistFromCenter g
  /\ _completeTimer (_assignMission g) = _completeTimer g
  /\ npcs (_assignMission g) = npcs g
  /\ keys (_assignMission g) = keys g
  /\ random (_assignMission g) = random g.
Proof.
  unfold _assignMission.
  destruct (EXITS_lookup_mod (_missionIndex g)) as [e ->]. by repeat split.
Qed.

Lemma restart_engine (g : Game) :
  _prevRingAngle (restart g) = None
  /\ _prevDistFromCenter (restart g) = None
  /\ _completeTimer (restart g) = 0
  /\ _checkADone (restart g) = false
  /\ _checkBDone (restart g) = false
  /\ _checkCDone (restart g) = false
  /\ _checkDDone (restart g) = false
  /\ _checkLaneApproachDone (restart g) = false.
Proof.
  unfold restart. cbv zeta.
  match goal with |- context [_assignMission ?g'] =>
    destruct (_assignMission_engine g') as ((-> & -> & -> & -> & ->) & -> & -> & -> & _)
  end.
  by repeat split.
Qed.

Lemma restart_world (g : Game) :
  npcs (restart g) = npcs g /\ keys (restart g) = keys g
  /\ random (restart g) = random g.
Proof.
  unfold restart. cbv zeta.
  match goal with |- context [_assignMission ?g'] =>
    destruct (_assignMission_engine g') as (_ & _ & _ & _ & -> & -> & ->)
  end.
  by repeat split.
Qed.

Lemma new_game_car (rnd : nat -> R) :
  exists e, EXITS !! 0%nat = Some e /\ car (new_game rnd) = freshCar e.
Proof. eexists. split; reflexivity. Qed.

Lemma new_game_engine (rnd : nat -> R) :
  _prevRingAngle (new_game rnd) = None
  /\ _prevDistFromCenter (new_game rnd) = None
  /\ _completeTimer (new_game rnd) = 0
  /\ _checkADone (new_game rnd) = false
  /\ _checkBDone (new_game rnd) = false
  /\ _checkCDone (new_game rnd) = false
  /\ _checkDDone (new_game rnd) = false
  /\ _checkLaneApproachDone (new_game rnd) = false.
Proof. by repeat split. Qed.

(** C8. The frame effect of [restart].  The car after a restart is the car
    of the constructor carrying the active mission: the start position
    (-5.25, 0, 82.5), which is the centre of the outer approach lane of the
    south arm, heading, speed, steering and yaw rate 0, phase [approaching],
    both indicators off, traveled angle 0, lanes reset, no grace period
    (timer 0, no requirement), not failed and no reason.  The ring trackers,
    the completion countdown and the five checkpoint flags are reset to the
    constructor's values.  The mission index, hence the active mission, is
    the one before the restart, and the traffic, the keys held and the
    random stream are not touched. *)
Theorem restart_resets (g : Game) :
  let c := car (restart g) in
  (exists e : Exit.t, activeMission g = Some e /\ c = freshCar e)
  /\ (forall rnd : nat -> R,
        exists e0 : Exit.t, activeMission (new_game rnd) = Some e0
                            /\ car (new_game rnd) = freshCar e0)
  /\ (pos c = Vector3.mk (-5.25) 0 82.5
      /\ Vector3.x (pos c) = (ArmCfg.approachLanePos (ARM_CFG south) true).1
      /\ RB_OUT < Vector3.z (pos c) < RB_OUT + ROAD_L)
  /\ (heading c = 0 /\ speed c = 0 /\ steer c = 0 /\ yawRate c = 0)
  /\ phase c = approaching
  /\ (leftIndicator c = false /\ rightIndicator c = false)
  /\ (entryAngle c = SOUTH_ENTRY_ANGLE /\ traveledAngle c = 0)
  /\ (approachLane c = outer /\ ringLane c = outer)
  /\ (graceActive c = false /\ graceTimer c = 0 /\ graceRequired c = None)
  /\ (failed c = false /\ failReason c = None)
  /\ (_prevRingAngle (restart g) = None /\ _prevDistFromCenter (restart g) = None
      /\ _completeTimer (restart g) = 0)
  /\ (_checkADone (restart g) = false /\ _checkBDone (restart g) = false
      /\ _checkCDone (restart g) = false /\ _checkDDone (restart g) = false
      /\ _checkLaneApproachDone (restart g) = false)
  /\ _missionIndex (restart g) = _missionIndex g
  /\ activeMission (restart g) = activeMission g
  /\ (npcs (restart g) = npcs g /\ keys (restart g) = keys g
      /\ random (restart g) = random g).
Proof.
  cbv zeta. destruct (activeMission_is_Some g) as [e He].
  rewrite (restart_car g e He).
  destruct (restart_engine g) as (? & ? & ? & ? & ? & ? & ? & ?).
  destruct (restart_world g) as (? & ? & ?).
  split; [by exists e|].
  split.
  { intros rnd. destruct (new_game_car rnd) as (e0 & Hfirst & Hc). exists e0.
    split; [|exact Hc]. unfold activeMission. by rewrite new_game_missionIndex. }
  split.
  { cbn. unfold LANE_W, RB_OUT, ROAD_L. repeat split; try lra.
    f_equal; lra. }
  split; [by repeat split|].
  split; [done|].
  split; [by repeat split|].
  split; [by repeat split|].
  split; [by repeat split|].
  split; [by repeat split|].
  split; [by repeat split|].
  split; [by repeat split|].
  split; [by repeat split|].
  split; [apply restart_missionIndex|].
  split; [unfold activeMission; by rewrite restart_missionIndex|].
  by repeat split.
Qed.

(** ** Grace period (C3) *)

(** [startGrace] does nothing while a grace period is active. *)
Lemma startGrace_active (req : option Req) (duration : R) (c : Car) :
  graceActive c = true -> startGrace req duration c = c.
Proof. unfold startGrace. by intros ->. Qed.

Lemma startGrace_inactive (req : option Req) (duration : R) (c : Car) :
  graceActive c = false -> graceOf (startGrace req duration c) = (true, duration, req).
Proof. unfold startGrace, graceOf. by intros ->. Qed.

Lemma upd_car_startGrace_active (req : option Req) (duration : R) (g : Game) :
  graceActive (car g) = true -> graceOf (car (upd_car (startGrace req duration) g)) = graceOf (car g).
Proof. intros H. unfold upd_car. cbn. by rewrite startGrace_active. Qed.

(** A block of the rule engine that runs while a grace period is active
    leaves the grace record as it is. *)
Ltac grace_step Hact := cbn; rewrite ?Hact; cbn.

Ltac grace_block :=
  intros Hact; unfold graceOf in *; unfold_blocks; grace_step Hact;
  repeat (match goal with
          | |- context [if ?b then _ else _] =>
            lazymatch b with
            | context [graceActive] => fail
            | _ => destruct b
            end
          | |- context [match ?o with Some _ => _ | None => _ end] => destruct o
          end; grace_step Hact);
  rewrite ?Hact; reflexivity.

Lemma checkB_grace dist g :
  graceActive (car g) = true -> graceOf (car (checkB dist g)) = graceOf (car g).
Proof. grace_block. Qed.
Lemma checkD_grace dist g :
  graceActive (car g) = true -> graceOf (car (checkD dist g)) = graceOf (car g).
Proof. grace_block. Qed.
Lemma checkC_grace dist g :
  graceActive (car g) = true -> graceOf (car (checkC dist g)) = graceOf (car g).
Proof. grace_block. Qed.
Lemma ringLaneCheck_grace dist g :
  graceActive (car g) = true -> graceOf (car (ringLaneCheck dist g)) = graceOf (car g).
Proof. grace_block. Qed.
Lemma laneChangeCheck_grace dist g :
  graceActive (car g) = true -> graceOf (car (laneChangeCheck dist g)) = graceOf (car g).
Proof. grace_block. Qed.
Lemma trackRingAngle_grace g : graceOf (car (trackRingAngle g)) = graceOf (car g).
Proof. reflexivity. Qed.
Lemma phaseApproaching_grace dist g :
  graceActive (car g) = true -> graceOf (car (phaseApproaching dist g)) = graceOf (car g).
Proof. grace_block. Qed.
Lemma phaseExiting_grace dist g : graceOf (car (phaseExiting dist g)) = graceOf (car g).
Proof. unfold phaseExiting. by case_decide. Qed.

(** The exit transition may end the grace period, never restart it. *)
Lemma exitTransition_grace g :
  graceTimer (car (exitTransition g)) = graceTimer (car g)
  /\ graceRequired (car (exitTransition g)) = graceRequired (car g).
Proof. unfold_blocks. split_cases; by split. Qed.

Lemma graceOf_active (c c' : Car) :
  graceOf c' = graceOf c -> graceActive c = true -> graceActive c' = true.
Proof. unfold graceOf. intros [= -> _ _]. done. Qed.

Lemma graceOf_fields (c c' : Car) :
  graceOf c' = graceOf c ->
  graceTimer c' = graceTimer c /\ graceRequired c' = graceRequired c.
Proof. unfold graceOf. intros [= _ -> ->]. done. Qed.

Lemma phaseOnRoundabout_grace dist g :
  graceActive (car g) = true ->
  graceTimer (car (phaseOnRoundabout dist g)) = graceTimer (car g)
  /\ graceRequired (car (phaseOnRoundabout dist g)) = graceRequired (car g).
Proof.
  intros Hact. unfold phaseOnRoundabout.
  set (g1 := trackRingAngle _).
  assert (graceOf (car g1) = graceOf (car g)) as E1 by reflexivity.
  pose proof (graceOf_active _ _ E1 Hact) as A1.
  pose proof (checkB_grace dist g1 A1) as E2.
  pose proof (graceOf_active _ _ E2 A1) as A2.
  pose proof (checkD_grace dist _ A2) as E3.
  pose proof (graceOf_active _ _ E3 A2) as A3.
  pose proof (checkC_grace dist _ A3) as E4.
  pose proof (graceOf_active _ _ E4 A3) as A4.
  pose proof (ringLaneCheck_grace dist _ A4) as E5.
  pose proof (graceOf_active _ _ E5 A4) as A5.
  pose proof (laneChangeCheck_grace dist _ A5) as E6.
  destruct (exitTransition_grace
              (laneChangeCheck dist (ringLaneCheck dist (checkC dist (checkD dist (checkB dist g1))))))
    as [Ht Hr].
  rewrite Ht, Hr.
  assert (graceOf (car (laneChangeCheck dist
            (ringLaneCheck dist (checkC dist (checkD dist (checkB dist g1))))))
          = graceOf (car g)) as E by congruence.
  by apply graceOf_fields in E.
Qed.

(** C3. Grace-period idempotence.  The car has one grace record (active
    flag, remaining time, required correction), so at most one grace period
    is active at a time.  While it is active, a call of [startGrace], for
    any violation and any duration, changes nothing.  And over a whole tick
    of the rule engine that starts with an active grace period, either the
    player has corrected (the required condition holds, which ends that
    grace period), or the required correction after the tick is the one
    before it and the remaining time was only counted down by the tick
    duration (or not touched, when the tick stops before the countdown): no
    violation detected in the tick has replaced it. *)
Theorem grace_period_idempotent (dt : R) (g : Game) (req : option Req) (duration : R) :
  graceActive (car g) = true ->
  startGrace req duration (car g) = car g
  /\ (condOk (car g) (distFromCenter (pos (car g))) (graceRequired (car g)) = true
      \/ (graceRequired (car (_updateStateMachine dt g)) = graceRequired (car g)
          /\ (graceTimer (car (_updateStateMachine dt g)) = graceTimer (car g) - dt
              \/ graceTimer (car (_updateStateMachine dt g)) = graceTimer (car g)))).
Proof.
  intros Hact. split; [by apply startGrace_active|].
  destruct (condOk (car g) _ _) eqn:Hok; [by left|]. right.
  unfold _updateStateMachine.
  destruct (failed (car g) || bool_decide (phase (car g) = completed)); [by auto|].
  destruct (negb (onRoad _ _)); [by auto|].
  destruct (collision _ _); [by auto|].
  unfold graceCountdown. rewrite Hact.
  change (condOk (set_graceTimer (graceTimer (car g) - dt) (car g))
            (distFromCenter (pos (car g)))
            (graceRequired (set_graceTimer (graceTimer (car g) - dt) (car g))))
    with (condOk (car g) (distFromCenter (pos (car g))) (graceRequired (car g))).
  rewrite Hok.
  case_decide; [by auto|].
  set (c1 := set_graceTimer _ (car g)).
  set (g1 := set_car c1 g).
  assert (graceActive (car g1) = true) as A1 by exact Hact.
  change (phase c1) with (phase (car g)).
  destruct (phase (car g)).
  - pose proof (phaseApproaching_grace (distFromCenter (pos (car g))) g1 A1) as E.
    apply graceOf_fields in E as [Et Er]. rewrite Et, Er. by auto.
  - destruct (phaseOnRoundabout_grace (distFromCenter (pos (car g))) g1 A1) as [Et Er].
    rewrite Et, Er. by auto.
  - pose proof (phaseExiting_grace (distFromCenter (pos (car g))) g1) as E.
    apply graceOf_fields in E as [Et Er]. rewrite Et, Er. by auto.
  - by auto.
Qed.

Lemma grace_period_idempotent_witness :
  let c := set_graceRequired (Some left)
             (set_graceTimer 3 (set_graceActive true initial_car)) in
  let g := upd_car (fun _ => c) (new_game (fun _ => 0)) in
  startGrace (Some ring_outer) 3 (car g) = car g
  /\ (condOk (car g) (distFromCenter (pos (car g))) (graceRequired (car g)) = true
      \/ (graceRequired (car (_updateStateMachine 0.016 g)) = graceRequired (car g)
          /\ (graceTimer (car (_updateStateMachine 0.016 g)) = graceTimer (car g) - 0.016
              \/ graceTimer (car (_updateStateMachine 0.016 g)) = graceTimer (car g)))).
Proof.
  intros c g. apply (grace_period_idempotent 0.016 g (Some ring_outer) 3).
  reflexivity.
Defined.

(** ** Off-road failure (C4) *)

Lemma distFromCenter_gt (p : Vector3.t) (r : R) :
  0 <= r ->
  r < distFromCenter p <-> r * r < Vector3.x p * Vector3.x p + Vector3.z p * Vector3.z p.
Proof.
  intros Hr. unfold distFromCenter.
  set (s := Vector3.x p * Vector3.x p + Vector3.z p * Vector3.z p).
  assert (0 <= s) as Hs by (unfold s; nra).
  pose proof (sqrt_pos s) as Hp. pose proof (sqrt_sqrt s Hs) as Hq.
  split; intros H; nra.
Qed.

Lemma distFromCenter_lt (p : Vector3.t) (r : R) :
  0 <= r ->
  distFromCenter p < r <-> Vector3.x p * Vector3.x p + Vector3.z p * Vector3.z p < r * r.
Proof.
  intros Hr. unfold distFromCenter.
  set (s := Vector3.x p * Vector3.x p + Vector3.z p * Vector3.z p).
  assert (0 <= s) as Hs by (unfold s; nra).
  pose proof (sqrt_pos s) as Hp. pose proof (sqrt_sqrt s Hs) as Hq.
  split; intros H; nra.
Qed.

(** The [onRoad] test of the source decides the drivable surface. *)
Lemma onRoad_drivable (p : Vector3.t) :
  onRoad p (distFromCenter p) = true <-> drivable p.
Proof.
  unfold onRoad, drivable, inAnnulus, inArm. cbv zeta.
  rewrite !orb_true_iff, !andb_true_iff, !bool_decide_eq_true.
  pose proof (distFromCenter_gt p RB_IN) as Hin.
  pose proof (distFromCenter_lt p RB_OUT) as Hout.
  unfold RB_IN, RB_OUT, ROAD_W, ROAD_L, ARM_OVERLAP in *.
  assert (0 <= 12) as H12 by lra. assert (0 <= 22) as H22 by lra.
  specialize (Hin H12). specialize (Hout H22).
  unfold Rgt. intuition lra.
Qed.

(** The seam between the ring and the arms has no gap: the whole strip of
    the north-south road outside the island is drivable, and so is the strip
    of the east-west road. *)
Lemma seam_closed_north_south (p : Vector3.t) :
  Rabs (Vector3.x p) < ROAD_W / 2 ->
  RB_IN < distFromCenter p ->
  Rabs (Vector3.z p) < RB_OUT + ROAD_L ->
  drivable p.
Proof.
  intros Hx Hin Hz. apply (distFromCenter_gt p RB_IN) in Hin; [|unfold RB_IN; lra].
  unfold drivable, inAnnulus, inArm, RB_IN, RB_OUT, ROAD_W, ROAD_L, ARM_OVERLAP in *.
  revert Hx Hz. unfold Rabs.
  destruct (Rcase_abs (Vector3.x p)), (Rcase_abs (Vector3.z p)); intros Hx Hz.
  all: destruct (Rlt_dec (Vector3.x p * Vector3.x p + Vector3.z p * Vector3.z p) (22 * 22));
    [left; lra|].
  all: right.
  1, 3: right; left; split; [assumption | split; nra].
  1, 2: left; split; [assumption | split; nra].
Qed.

Lemma seam_closed_east_west (p : Vector3.t) :
  Rabs (Vector3.z p) < ROAD_W / 2 ->
  RB_IN < distFromCenter p ->
  Rabs (Vector3.x p) < RB_OUT + ROAD_L ->
  drivable p.
Proof.
  intros Hz Hin Hx. apply (distFromCenter_gt p RB_IN) in Hin; [|unfold RB_IN; lra].
  unfold drivable, inAnnulus, inArm, RB_IN, RB_OUT, ROAD_W, ROAD_L, ARM_OVERLAP in *.
  revert Hx Hz. unfold Rabs.
  destruct (Rcase_abs (Vector3.x p)), (Rcase_abs (Vector3.z p)); intros Hx Hz.
  all: destruct (Rlt_dec (Vector3.x p * Vector3.x p + Vector3.z p * Vector3.z p) (22 * 22));
    [left; lra|].
  all: right; right; right.
  1, 2: right; split; [assumption | split; nra].
  1, 2: left; split; [assumption | split; nra].
Qed.

Lemma phaseApproaching_verdict dist g :
  failed (car (phaseApproaching dist g)) = failed (car g)
  /\ failReason (car (phaseApproaching dist g)) = failReason (car g).
Proof. unfold_blocks. split_cases; by split. Qed.

Lemma phaseExiting_verdict dist g :
  failed (car (phaseExiting dist g)) = failed (car g)
  /\ failReason (car (phaseExiting dist g)) = failReason (car g).
Proof. unfold_blocks. split_cases; by split. Qed.

Lemma phaseOnRoundabout_verdict dist g :
  failed (car (phaseOnRoundabout dist g)) = failed (car g)
  /\ failReason (car (phaseOnRoundabout dist g)) = failReason (car g).
Proof.
  destruct (phaseOnRoundabout_travel dist g) as (Hf & Hr & _).
  rewrite Hf, Hr. by split.
Qed.

(** The verdict of the grace countdown: it fails the car exactly when it
    returns, and then with a grace reason. *)
Lemma graceCountdown_verdict (dt dist : R) (c : Car) :
  failed c = false ->
  let '(c', returned) := graceCountdown dt dist c in
  failed c' = returned
  /\ (returned = true ->
      failReason c' = Some REASON_SIGNAL \/ failReason c' = Some REASON_LANE)
  /\ phase c' = phase c /\ pos c' = pos c.
Proof.
  intros Hf. unfold graceCountdown.
  destruct (graceActive c); [|by repeat split].
  destruct (condOk _ _ _); [by repeat split|].
  case_decide; [|by repeat split].
  repeat split. intros _. cbn. destruct (isIndViolation _); by auto.
Qed.

Lemma not_offRoad_crash : ~ offRoadReason (Some REASON_CRASH).
Proof. intros [H | H]; discriminate H. Qed.
Lemma not_offRoad_signal : ~ offRoadReason (Some REASON_SIGNAL).
Proof. intros [H | H]; discriminate H. Qed.
Lemma not_offRoad_lane : ~ offRoadReason (Some REASON_LANE).
Proof. intros [H | H]; discriminate H. Qed.

(** In the phase [completed] a tick of the rule engine does nothing. *)
Lemma completed_tick_idle (dt : R) (g : Game) :
  phase (car g) = completed -> _updateStateMachine dt g = g.
Proof.
  intros H. unfold _updateStateMachine. rewrite H.
  rewrite (bool_decide_eq_true_2 _ eq_refl). by rewrite orb_true_r.
Qed.

(** C4, amended.  Off-road failure, for a tick of the rule engine on a
    player who has not failed.  In the phases approaching, on_roundabout and
    exiting alike: when the position is outside the drivable surface (the
    ring annulus and the four arm rectangles, each extended inward by the
    overlap), the tick sets [failed] with an off-road reason, the island
    reason inside the island radius and the grass reason elsewhere, and
    leaves the phase alone; when the position is inside the drivable
    surface, a failure set by the tick never carries an off-road reason.  In
    the phase completed the rule engine is skipped: the tick changes
    nothing, wherever the player is. *)
Theorem offroad_failure (dt : R) (g : Game) :
  failed (car g) = false ->
  (phase (car g) <> completed ->
   (~ drivable (pos (car g)) ->
      failed (car (_updateStateMachine dt g)) = true
      /\ offRoadReason (failReason (car (_updateStateMachine dt g)))
      /\ failReason (car (_updateStateMachine dt g))
         = Some (if decide (distFromCenter (pos (car g)) < RB_IN)
                 then REASON_ISLAND else REASON_GRASS)
      /\ phase (car (_updateStateMachine dt g)) = phase (car g))
   /\ (drivable (pos (car g)) ->
       failed (car (_updateStateMachine dt g)) = true ->
       ~ offRoadReason (failReason (car (_updateStateMachine dt g)))))
  /\ (phase (car g) = completed -> _updateStateMachine dt g = g).
Proof.
  intros Hf. split; [|apply completed_tick_idle].
  intros Hph. unfold _updateStateMachine. rewrite Hf.
  rewrite bool_decide_eq_false_2 by exact Hph. cbn [orb].
  pose proof (onRoad_drivable (pos (car g))) as Hroad.
  destruct (onRoad _ _) eqn:Hon; cbn [negb].
  - split; [intros Hn; exfalso; apply Hn, Hroad; reflexivity|].
    intros _.
    destruct (collision _ _); [intros _; exact not_offRoad_crash|].
    pose proof (graceCountdown_verdict dt (distFromCenter (pos (car g))) (car g) Hf) as Hgc.
    destruct (graceCountdown _ _ _) as [c returned].
    destruct Hgc as (Hfc & Hreason & Hphase & _).
    destruct returned.
    + intros _. cbn. destruct (Hreason eq_refl) as [-> | ->];
        [exact not_offRoad_signal | exact not_offRoad_lane].
    + set (g1 := set_car c g). intros Hfail. exfalso. revert Hfail.
      destruct (phase c).
      * destruct (phaseApproaching_verdict (distFromCenter (pos (car g))) g1) as [-> _].
        cbn. by rewrite Hfc.
      * destruct (phaseOnRoundabout_verdict (distFromCenter (pos (car g))) g1) as [-> _].
        cbn. by rewrite Hfc.
      * destruct (phaseExiting_verdict (distFromCenter (pos (car g))) g1) as [-> _].
        cbn. by rewrite Hfc.
      * cbn. by rewrite Hfc.
  - split; [|intros Hd; apply Hroad in Hd; discriminate Hd].
    intros _. cbn. split; [done|]. split; [|done].
    unfold offRoadReason. case_decide; by auto.
Qed.

Lemma origin_not_drivable : ~ drivable (Vector3.mk 0 0 0).
Proof.
  unfold drivable, inAnnulus, inArm, RB_IN, RB_OUT, ROAD_W, ROAD_L, ARM_OVERLAP. cbn.
  intros [H | [H | [H | [H | H]]]]; lra.
Qed.

Lemma offroad_failure_witness :
  let g := upd_car (set_pos (Vector3.mk 0 0 0)) (new_game (fun _ => 0)) in
  failed (car (_updateStateMachine 0.016 g)) = true
  /\ offRoadReason (failReason (car (_updateStateMachine 0.016 g))).
Proof.
  intros g.
  destruct (offroad_failure 0.016 g) as [Hrun _]; [reflexivity|].
  destruct Hrun as [Hoff _]; [discriminate|].
  destruct (Hoff origin_not_drivable) as (H1 & H2 & _).
  split; assumption.
Defined.

(** ** One-shot checkpoints (C6) *)

Ltac flags_block := intros; unfold ringChecks; unfold_blocks; split_cases; reflexivity.

Lemma checkB_flags dist g :
  ringChecks (checkB dist g)
  = (_checkBDone g || bool_decide (traveledAngle (car g) >= PI - 0.1),
     _checkDDone g, _checkCDone g).
Proof.
  unfold ringChecks, checkB.
  destruct (_checkBDone g) eqn:HB; cbn [negb andb orb]; [by rewrite HB|].
  case_bool_decide; cbn [andb]; [|by rewrite HB].
  unfold upd_car. split_cases; reflexivity.
Qed.

Lemma checkD_flags dist g :
  ringChecks (checkD dist g)
  = (_checkBDone g,
     _checkDDone g || (bool_decide (targetExitNum (car g) = Some 2%nat)
                       && bool_decide (traveledAngle (car g) >= PI / 2)),
     _checkCDone g).
Proof.
  unfold ringChecks, checkD.
  destruct (_checkDDone g) eqn:HD; cbn [negb andb orb]; [by rewrite HD|].
  destruct (bool_decide (targetExitNum (car g) = Some 2%nat)); cbn [andb]; [|by rewrite HD].
  case_bool_decide; [|by rewrite HD].
  unfold upd_car. split_cases; reflexivity.
Qed.

Lemma checkC_flags dist g :
  ringChecks (checkC dist g)
  = (_checkBDone g, _checkDDone g,
     _checkCDone g
     || bool_decide (traveledAngle (car g) >= exitTravelTarget (car g) - 0.7)).
Proof.
  unfold ringChecks, checkC.
  destruct (_checkCDone g) eqn:HC; cbn [negb andb orb]; [by rewrite HC|].
  case_bool_decide; cbn [andb]; [|by rewrite HC].
  unfold upd_car. split_cases; reflexivity.
Qed.

Lemma ringLaneCheck_flags dist g : ringChecks (ringLaneCheck dist g) = ringChecks g.
Proof. flags_block. Qed.
Lemma laneChangeCheck_flags dist g : ringChecks (laneChangeCheck dist g) = ringChecks g.
Proof. flags_block. Qed.
Lemma exitTransition_flags g : ringChecks (exitTransition g) = ringChecks g.
Proof. flags_block. Qed.
Lemma phaseApproaching_flags dist g : ringChecks (phaseApproaching dist g) = ringChecks g.
Proof. flags_block. Qed.
Lemma phaseExiting_flags dist g : ringChecks (phaseExiting dist g) = ringChecks g.
Proof. flags_block. Qed.

(** The thresholds of the three checkpoints, as tests on a state. *)
Lemma phaseOnRoundabout_flags dist g :
  let g' := phaseOnRoundabout dist g in
  ringChecks g'
  = (_checkBDone g || bool_decide (traveledAngle (car g') >= PI - 0.1),
     _checkDDone g || (bool_decide (targetExitNum (car g) = Some 2%nat)
                       && bool_decide (traveledAngle (car g') >= PI / 2)),
     _checkCDone g
     || bool_decide (traveledAngle (car g') >= exitTravelTarget (car g) - 0.7)).
Proof.
  cbv zeta.
  destruct (phaseOnRoundabout_travel dist g) as (_ & _ & ->).
  unfold phaseOnRoundabout.
  set (g1 := trackRingAngle _).
  rewrite exitTransition_flags, laneChangeCheck_flags, ringLaneCheck_flags.
  rewrite checkC_flags.
  destruct (checkD_travel dist (checkB dist g1)) as (_ & _ & ->).
  destruct (checkD_drive dist (checkB dist g1)) as [_ _ _ _ _ _ _ -> _ _ _ _ _ _ _ _ _ _ _ _ _ _ _].
  pose proof (checkD_flags dist (checkB dist g1)) as HD.
  unfold ringChecks in HD. injection HD as -> -> ->.
  destruct (checkB_travel dist g1) as (_ & _ & ->).
  destruct (checkB_drive dist g1) as [_ _ _ _ _ _ -> -> _ _ _ _ _ _ _ _ _ _ _ _ _ _ _].
  pose proof (checkB_flags dist g1) as HB.
  unfold ringChecks in HB. injection HB as -> -> ->.
  reflexivity.
Qed.

(** A tick of the rule engine on the three ring checkpoints: in the ring
    phase, when the tick is not stopped by a failure, each flag is set iff it
    was set or its threshold is reached or passed; in every other tick the
    flags are not written. *)
Lemma _updateStateMachine_ringChecks (dt : R) (g : Game) :
  let g' := _updateStateMachine dt g in
  (phase (car g) = on_roundabout /\ failed (car g') = false
   /\ ringChecks g'
      = (_checkBDone g || bool_decide (traveledAngle (car g') >= PI - 0.1),
         _checkDDone g || (bool_decide (targetExitNum (car g) = Some 2%nat)
                           && bool_decide (traveledAngle (car g') >= PI / 2)),
         _checkCDone g
         || bool_decide (traveledAngle (car g') >= exitTravelTarget (car g) - 0.7)))
  \/ ((phase (car g) <> on_roundabout \/ failed (car g') = true)
      /\ ringChecks g' = ringChecks g).
Proof.
  cbv zeta. unfold _updateStateMachine.
  destruct (failed (car g)) eqn:Hf; cbn [orb]; [right; by auto|].
  case_bool_decide as Hc; [right; split; [left; congruence | done]|].
  destruct (negb (onRoad _ _)); [right; by auto|].
  destruct (collision _ _); [right; by auto|].
  set (dist := distFromCenter (pos (car g))).
  pose proof (graceCountdown_verdict dt dist (car g) Hf) as Hgc.
  assert (forall c, targetExitNum (graceCountdown dt dist c).1 = targetExitNum c
                    /\ exitTravelTarget (graceCountdown dt dist c).1 = exitTravelTarget c)
    as Hmis.
  { intros c. unfold graceCountdown. split_cases; by split. }
  specialize (Hmis (car g)).
  destruct (graceCountdown dt dist (car g)) as [c returned].
  destruct Hgc as (Hfc & _ & Hphase & _). destruct Hmis as [Hnum Htarget]. cbn in Hnum, Htarget.
  destruct returned; [right; by auto|].
  set (g1 := set_car c g). rewrite Hphase.
  destruct (phase (car g)) eqn:Hph.
  - right. split; [by left|]. by rewrite phaseApproaching_flags.
  - left. split; [done|].
    destruct (phaseOnRoundabout_verdict dist g1) as [-> _].
    split; [exact Hfc|].
    rewrite (phaseOnRoundabout_flags dist g1). cbn. by rewrite Hnum, Htarget.
  - right. split; [by left|]. by rewrite phaseExiting_flags.
  - done.
Qed.

(** No step of an attempt clears a checkpoint flag. *)
Lemma simulate_ringChecks_pre (dt dtScale : R) (g : Game) :
  ringChecks (_updateNPCs dt dtScale (blink dt (integratePose dtScale (integrateControls dtScale g))))
  = ringChecks g.
Proof.
  destruct (_updateNPCs_shape dt dtScale
              (blink dt (integratePose dtScale (integrateControls dtScale g))))
    as (l & rnd & ->).
  unfold integrateControls, upd_car. split_cases; reflexivity.
Qed.


Lemma attemptStep_ringChecks (g : Game) (ev : AttemptEvent) :
  (_checkBDone g = true -> _checkBDone (attemptStep g ev) = true)
  /\ (_checkDDone g = true -> _checkDDone (attemptStep g ev) = true)
  /\ (_checkCDone g = true -> _checkCDone (attemptStep g ev) = true).
Proof.
  destruct ev as [delta | code | code]; cbn [attemptStep].
  - cbv zeta. unfold simulate. cbn [fst].
    set (dt := tickDt delta).
    pose proof (simulate_ringChecks_pre dt (dt * 60) (set_elapsed (elapsed g + dt * 1000) g)) as Hpre.
    change (ringChecks (set_elapsed (elapsed g + dt * 1000) g)) with (ringChecks g) in Hpre.
    revert Hpre.
    generalize (_updateNPCs dt (dt * 60)
                  (blink dt (integratePose (dt * 60)
                     (integrateControls (dt * 60) (set_elapsed (elapsed g + dt * 1000) g))))).
    intros g1 Hpre.
    destruct (_updateStateMachine_ringChecks dt g1) as [(_ & _ & H) | [_ H]];
      revert H Hpre; generalize (_updateStateMachine dt g1); intros g2;
      unfold ringChecks; intros [= -> -> ->] [= -> -> ->]; repeat split; try done;
      intros ->; reflexivity.
  - unfold _onKeyDown, _toggleIndicator, upd_car. split_cases; by repeat split.
  - unfold _onKeyUp. split_cases; by repeat split.
Qed.

Section OneShot.

Variable flag : Game -> bool.
Hypothesis kept :
  forall (g : Game) (ev : AttemptEvent), flag g = true -> flag (attemptStep g ev) = true.

Lemma attemptTrace_head (g : Game) (evs : list AttemptEvent) :
  exists rest, attemptTrace g evs = g :: rest.
Proof. destruct evs; by eexists. Qed.

(** Once the flag is set, it never fires again. *)
Lemma firings_set (evs : list AttemptEvent) :
  forall g : Game, flag g = true -> firings flag (attemptTrace g evs) = 0%nat.
Proof.
  induction evs as [|ev evs IH]; intros g Hg; [reflexivity|].
  cbn [attemptTrace].
  destruct (attemptTrace_head (attemptStep g ev) evs) as [rest E].
  pose proof (IH _ (kept g ev Hg)) as Hrest. rewrite E in Hrest |- *.
  cbn [firings] in Hrest |- *. rewrite Hg. cbn. exact Hrest.
Qed.

(** Along an attempt the flag fires at most once. *)
Lemma firings_once (evs : list AttemptEvent) :
  forall g : Game, (firings flag (attemptTrace g evs) <= 1)%nat.
Proof.
  induction evs as [|ev evs IH]; intros g; [cbn; lia|].
  cbn [attemptTrace].
  destruct (attemptTrace_head (attemptStep g ev) evs) as [rest E].
  pose proof (IH (attemptStep g ev)) as Hrest.
  pose proof (firings_set evs (attemptStep g ev)) as Hset.
  rewrite E in Hrest, Hset |- *. cbn [firings] in Hrest, Hset |- *.
  destruct (flag g); cbn [negb andb]; [exact Hrest|].
  destruct (flag (attemptStep g ev)); [|exact Hrest].
  rewrite Hset by reflexivity. lia.
Qed.

Lemma flag_kept (evs : list AttemptEvent) :
  forall g : Game, flag g = true -> flag (fold_left attemptStep evs g) = true.
Proof.
  induction evs as [|ev evs IH]; intros g Hg; [exact Hg|].
  cbn [fold_left]. apply IH, kept, Hg.
Qed.

(** Along an attempt the flag fires exactly once if it is unset at the start
    and set at the end, and not at all otherwise. *)
Lemma firings_exact (evs : list AttemptEvent) :
  forall g : Game,
    firings flag (attemptTrace g evs)
    = (if negb (flag g) && flag (fold_left attemptStep evs g) then 1 else 0)%nat.
Proof.
  induction evs as [|ev evs IH]; intros g.
  - cbn. by destruct (flag g).
  - cbn [attemptTrace fold_left].
    destruct (attemptTrace_head (attemptStep g ev) evs) as [rest E].
    pose proof (IH (attemptStep g ev)) as Hrest.
    rewrite E in Hrest |- *. cbn [firings] in Hrest |- *. rewrite Hrest.
    destruct (flag g) eqn:Hg; cbn [negb andb].
    + by rewrite (kept g ev Hg).
    + destruct (flag (attemptStep g ev)) eqn:Hg1; cbn [negb andb]; [|reflexivity].
      by rewrite (flag_kept evs _ Hg1).
Qed.

End OneShot.

(** A tick that starts on the road, clear of the traffic, without a grace
    period, does not fail. *)
Lemma _updateStateMachine_survives (dt : R) (g : Game) :
  failed (car g) = false ->
  onRoad (pos (car g)) (distFromCenter (pos (car g))) = true ->
  collision (pos (car g)) (npcs g) = false ->
  graceActive (car g) = false ->
  failed (car (_updateStateMachine dt g)) = false.
Proof.
  intros Hf Hroad Hcol Hgrace. unfold _updateStateMachine.
  rewrite Hf. cbn [orb]. case_bool_decide; [exact Hf|].
  rewrite Hroad, Hcol. cbn [negb]. unfold graceCountdown. rewrite Hgrace.
  destruct (phase (car g)).
  - destruct (phaseApproaching_verdict (distFromCenter (pos (car g))) (set_car (car g) g))
      as [-> _]. exact Hf.
  - destruct (phaseOnRoundabout_verdict (distFromCenter (pos (car g))) (set_car (car g) g))
      as [-> _]. exact Hf.
  - destruct (phaseExiting_verdict (distFromCenter (pos (car g))) (set_car (car g) g))
      as [-> _]. exact Hf.
  - exact Hf.
Qed.

(** *** What a checkpoint does when it fires *)

(** The block of a checkpoint: nothing once its flag is set, nothing before
    the threshold; otherwise the flag is set and the indicator is evaluated,
    a missing indicator asking for a grace period. *)
Lemma cpBlock_spec (cp : Checkpoint) (dist : R) (h : Game) :
  let reached := cpReached cp (car h) (traveledAngle (car h)) in
  (cpDone cp h = true -> cpBlock cp dist h = h)
  /\ (reached = false -> cpBlock cp dist h = h)
  /\ (cpDone cp h = false -> reached = true ->
      cpDone cp (cpBlock cp dist h) = true
      /\ car (cpBlock cp dist h)
         = if cpMissing cp (car h)
           then startGrace (Some (cpRequired cp)) GRACE_DEFAULT (car h)
           else car h).
Proof.
  cbv zeta. destruct cp; cbn [cpDone cpBlock cpReached cpMissing cpRequired].
  - unfold checkB. split; [by intros ->|]. split.
    + intros ->. by rewrite andb_false_r.
    + intros -> ->. cbn [negb andb]. cbv zeta. unfold upd_car.
      cbn [car set__checkBDone condOk].
      destruct (bool_decide _ && negb _); by split.
  - unfold checkD. split; [by intros ->|]. split.
    + intros H. rewrite <- andb_assoc, H. by rewrite andb_false_r.
    + intros -> H. cbn [negb andb]. rewrite H. cbv zeta. unfold upd_car.
      cbn [car set__checkDDone condOk].
      destruct (negb _); by split.
  - unfold checkC. split; [by intros ->|]. split.
    + intros ->. by rewrite andb_false_r.
    + intros -> ->. cbn [negb andb]. cbv zeta. unfold upd_car.
      cbn [car set__checkCDone condOk].
      destruct (negb _); by split.
Qed.

(** The grace record after the block of a checkpoint: a grace period for
    its indicator is opened exactly when no grace period is active, the flag
    is unset, the threshold is reached and the indicator is missing. *)
Lemma cpBlock_opens (cp : Checkpoint) (dist : R) (h : Game) :
  graceOf (car (cpBlock cp dist h))
  = if negb (graceActive (car h))
       && (negb (cpDone cp h) && cpReached cp (car h) (traveledAngle (car h))
           && cpMissing cp (car h))
    then (true, GRACE_DEFAULT, Some (cpRequired cp))
    else graceOf (car h).
Proof.
  destruct (cpBlock_spec cp dist h) as (Hdone & Hnot & Hfire). cbv zeta in *.
  destruct (cpDone cp h) eqn:Hd.
  { rewrite (Hdone eq_refl). cbn [negb andb]. by rewrite andb_false_r. }
  destruct (cpReached cp (car h) (traveledAngle (car h))) eqn:Hr.
  2:{ rewrite (Hnot eq_refl). cbn [negb andb]. by rewrite andb_false_r. }
  destruct (Hfire eq_refl eq_refl) as [_ ->]. cbn [negb andb].
  destruct (cpMissing cp (car h)); [|by rewrite andb_false_r].
  rewrite andb_true_r.
  destruct (graceActive (car h)) eqn:Ha; cbn [negb].
  - by rewrite startGrace_active.
  - by apply startGrace_inactive.
Qed.

(** The block of a checkpoint writes no flag but its own. *)
Lemma cpBlock_others (cp cp' : Checkpoint) (dist : R) (h : Game) :
  cp' <> cp -> cpDone cp' (cpBlock cp dist h) = cpDone cp' h.
Proof.
  intros Hne.
  pose proof (checkB_flags dist h) as HB. pose proof (checkD_flags dist h) as HD.
  pose proof (checkC_flags dist h) as HC. unfold ringChecks in HB, HD, HC.
  destruct cp, cp'; try congruence; cbn [cpDone cpBlock];
    first [by injection HB | by injection HD | by injection HC].
Qed.

(** What the tests of a checkpoint read is among the driving fields. *)
Lemma cp_drive (cp : Checkpoint) (g g' : Game) :
  SameDrive g g' ->
  cpMissing cp (car g') = cpMissing cp (car g)
  /\ (forall t : R, cpReached cp (car g') t = cpReached cp (car g) t)
  /\ onExitArm (car g') = onExitArm (car g).
Proof.
  intros Hsd. unfold cpMissing, cpReached, onExitArm.
  rewrite (sd_targetExitNum _ _ Hsd), (sd_exitTravelTarget _ _ Hsd),
    (sd_leftIndicator _ _ Hsd), (sd_rightIndicator _ _ Hsd),
    (sd_targetExit _ _ Hsd), (sd_pos _ _ Hsd).
  by repeat split.
Qed.

Lemma cpBlock_drive (cp : Checkpoint) (dist : R) (h : Game) :
  SameDrive h (cpBlock cp dist h).
Proof.
  destruct cp; [apply checkB_drive | apply checkD_drive | apply checkC_drive].
Qed.

Lemma cpBlock_travel (cp : Checkpoint) (dist : R) (h : Game) :
  traveledAngle (car (cpBlock cp dist h)) = traveledAngle (car h).
Proof.
  destruct cp; cbn [cpBlock];
    [destruct (checkB_travel dist h) as (_ & _ & H)
    |destruct (checkD_travel dist h) as (_ & _ & H)
    |destruct (checkC_travel dist h) as (_ & _ & H)]; exact H.
Qed.

(** The continuous checks open no indicator grace period: the ring-lane
    check asks for a ring lane, the lane-change check for a signal. *)
Lemma ringLaneCheck_opens (dist : R) (h : Game) :
  graceOf (car (ringLaneCheck dist h)) = graceOf (car h)
  \/ (graceActive (car h) = false
      /\ exists r : Req,
           (r = ring_outer \/ r = ring_inner)
           /\ graceOf (car (ringLaneCheck dist h)) = (true, 3.0, Some r)).
Proof.
  unfold ringLaneCheck. cbv zeta.
  destruct (negb (eqb _ _)); [|by left].
  destruct (graceActive (car h)) eqn:Ha.
  - left. by apply upd_car_startGrace_active.
  - right. split; [reflexivity|]. unfold upd_car. cbn [car set_car].
    match goal with
    | |- context [startGrace (Some (if ?b then _ else _))] => destruct b
    end; eexists; (split; [|by apply startGrace_inactive]); by auto.
Qed.

Lemma laneChangeCheck_opens (dist : R) (h : Game) :
  graceOf (car (laneChangeCheck dist h)) = graceOf (car h)
  \/ (graceActive (car h) = false
      /\ graceOf (car (laneChangeCheck dist h)) = (true, 2.0, Some signal)).
Proof.
  unfold laneChangeCheck. cbv zeta.
  destruct (_prevDistFromCenter h); [|by left].
  destruct (bool_decide _ && negb _ && negb _); [|by left].
  destruct (graceActive (car h)) eqn:Ha.
  - left. cbn [car set__prevDistFromCenter]. by apply upd_car_startGrace_active.
  - right. split; [reflexivity|]. unfold upd_car.
    cbn [car set_car set__prevDistFromCenter]. by apply startGrace_inactive.
Qed.

Lemma exitTransition_active (h : Game) :
  graceActive (car (exitTransition h))
  = if onExitArm (car h) then false else graceActive (car h).
Proof. unfold exitTransition, upd_car. cbv zeta. split_cases; reflexivity. Qed.

(** One checkpoint inside the ring phase, seen from the state [g0] that
    entered the phase: [h] is the state that reaches the block. *)
Lemma cp_step (cp : Checkpoint) (dist t : R) (g0 h : Game) :
  SameDrive g0 h -> cpDone cp h = cpDone cp g0 -> traveledAngle (car h) = t ->
  graceOf (car (cpBlock cp dist h))
  = (if negb (graceActive (car h))
        && (negb (cpDone cp g0) && cpReached cp (car g0) t && cpMissing cp (car g0))
     then (true, GRACE_DEFAULT, Some (cpRequired cp))
     else graceOf (car h))
  /\ SameDrive g0 (cpBlock cp dist h)
  /\ traveledAngle (car (cpBlock cp dist h)) = t
  /\ (forall cp' : Checkpoint,
        cp' <> cp -> cpDone cp' (cpBlock cp dist h) = cpDone cp' h).
Proof.
  intros Hsd Hdone Ht.
  destruct (cp_drive cp _ _ Hsd) as (Hmiss & Hreach & _).
  split; [|split; [|split]].
  - rewrite cpBlock_opens, Hdone, Hmiss, Hreach, Ht. reflexivity.
  - eapply SameDrive_trans; [exact Hsd | apply cpBlock_drive].
  - by rewrite cpBlock_travel.
  - intros cp' Hne. by apply cpBlock_others.
Qed.

(** The grace record that the ring phase leaves, from a state without an
    active grace period: a checkpoint that fires with its indicator missing
    opens the grace period for that indicator, the first of (b), (d), (c)
    winning; the exit arm then ends it; and without such a checkpoint an
    active grace period can only come from the continuous checks. *)
Lemma phaseOnRoundabout_checkpoints (dist : R) (g0 : Game) :
  graceActive (car g0) = false ->
  let g' := phaseOnRoundabout dist g0 in
  let opens cp :=
    negb (cpDone cp g0) && cpReached cp (car g0) (traveledAngle (car g'))
    && cpMissing cp (car g0) in
  (opens cpB || opens cpD || opens cpC = true ->
   graceRequired (car g') = Some (if opens cpB then right else left)
   /\ graceTimer (car g') = GRACE_DEFAULT
   /\ graceActive (car g') = negb (onExitArm (car g0)))
  /\ (opens cpB || opens cpD || opens cpC = false ->
      graceActive (car g') = true ->
      graceRequired (car g') ∈ [Some ring_outer; Some ring_inner; Some signal]).
Proof.
  intros Hgr. cbv zeta.
  destruct (phaseOnRoundabout_travel dist g0) as (_ & _ & Ht). rewrite Ht. clear Ht.
  unfold phaseOnRoundabout.
  set (g1 := trackRingAngle _).
  assert (SameDrive g0 g1) as Hd1.
  { eapply SameDrive_trans; [|apply trackRingAngle_drive]. by constructor. }
  assert (forall cp, cpDone cp g1 = cpDone cp g0) as Hf1 by (by intros []).
  assert (graceOf (car g1) = graceOf (car g0)) as Hg1 by reflexivity.
  set (t := traveledAngle (car g1)).
  assert (traveledAngle (car g1) = t) as Ht1 by reflexivity.
  clearbody g1 t.
  set (oB := negb (cpDone cpB g0) && cpReached cpB (car g0) t && cpMissing cpB (car g0)).
  set (oD := negb (cpDone cpD g0) && cpReached cpD (car g0) t && cpMissing cpD (car g0)).
  set (oC := negb (cpDone cpC g0) && cpReached cpC (car g0) t && cpMissing cpC (car g0)).
  (* (b) *)
  destruct (cp_step cpB dist t g0 g1 Hd1 (Hf1 cpB) Ht1) as (HgB & HdB & HtB & HfB).
  fold oB in HgB. cbn [cpBlock cpRequired] in HgB, HdB, HtB, HfB.
  assert (cpDone cpD (checkB dist g1) = cpDone cpD g0) as HfBD
    by (rewrite (HfB cpD) by discriminate; apply Hf1).
  assert (cpDone cpC (checkB dist g1) = cpDone cpC g0) as HfBC
    by (rewrite (HfB cpC) by discriminate; apply Hf1).
  assert (graceActive (car g1) = false) as Ha1.
  { unfold graceOf in Hg1. injection Hg1 as -> _ _. exact Hgr. }
  rewrite Ha1 in HgB. cbn [negb andb] in HgB.
  assert (graceOf (car g1) = (false, graceTimer (car g0), graceRequired (car g0))) as Hg1'.
  { rewrite Hg1. unfold graceOf. by rewrite Hgr. }
  rewrite Hg1' in HgB. clear Hg1 Hg1' Ha1 HfB Hf1 Hd1 Ht1.
  revert HgB HdB HtB HfBD HfBC. generalize (checkB dist g1). clear g1.
  intros hB HgB HdB HtB HfBD HfBC.
  (* (d) *)
  destruct (cp_step cpD dist t g0 hB HdB HfBD HtB) as (HgD & HdD & HtD & HfD).
  fold oD in HgD. cbn [cpBlock cpRequired] in HgD, HdD, HtD, HfD.
  assert (cpDone cpC (checkD dist hB) = cpDone cpC g0) as HfDC
    by (rewrite (HfD cpC) by discriminate; exact HfBC).
  clear HfD HfBD HfBC HdB HtB.
  revert HgD HdD HtD HfDC. generalize (checkD dist hB). intros hD HgD HdD HtD HfDC.
  (* (c) *)
  destruct (cp_step cpC dist t g0 hD HdD HfDC HtD) as (HgC & HdC & HtC & _).
  fold oC in HgC. cbn [cpBlock cpRequired] in HgC, HdC, HtC.
  clear HfDC HdD HtD.
  revert HgC HdC HtC. generalize (checkC dist hD). intros hC HgC HdC HtC.
  (* the continuous checks and the exit transition *)
  pose proof (ringLaneCheck_opens dist hC) as HL.
  pose proof (ringLaneCheck_grace dist hC) as HLk.
  pose proof (ringLaneCheck_drive dist hC) as HdL.
  revert HL HLk HdL. generalize (ringLaneCheck dist hC). intros hL HL HLk HdL.
  pose proof (laneChangeCheck_opens dist hL) as HS.
  pose proof (laneChangeCheck_grace dist hL) as HSk.
  pose proof (laneChangeCheck_drive dist hL) as HdS.
  revert HS HSk HdS. generalize (laneChangeCheck dist hL). intros hS HS HSk HdS.
  destruct (exitTransition_grace hS) as [HEt HEr].
  pose proof (exitTransition_active hS) as HEa.
  assert (onExitArm (car hS) = onExitArm (car g0)) as Harm.
  { apply (cp_drive cpB). eapply SameDrive_trans; [exact HdC|].
    eapply SameDrive_trans; [exact HdL | exact HdS]. }
  rewrite Harm in HEa. rewrite HEt, HEr, HEa. clear HEt HEr HEa Harm HdC HdL HdS HtC.
  unfold graceOf in *.
  split.
  - intros Hopen.
    assert (graceActive (car hC) = true
            /\ graceTimer (car hC) = GRACE_DEFAULT
            /\ graceRequired (car hC) = Some (if oB then right else left)) as (Ha & Htm & Hrq).
    { destruct oB; cbn [negb andb orb] in *.
      - injection HgB as HaB HtB HrB. rewrite HaB in HgD. cbn [negb andb] in HgD.
        injection HgD as HaD HtD HrD. rewrite HaD in HgC. cbn [negb andb] in HgC.
        injection HgC as HaC HtC HrC. repeat split; congruence.
      - injection HgB as HaB HtB HrB. rewrite HaB in HgD. cbn [negb andb] in HgD.
        destruct oD; cbn [negb andb orb] in *.
        + injection HgD as HaD HtD HrD. rewrite HaD in HgC. cbn [negb andb] in HgC.
          injection HgC as HaC HtC HrC. repeat split; congruence.
        + injection HgD as HaD HtD HrD. rewrite HaD in HgC. cbn [negb andb] in HgC.
          rewrite Hopen in HgC. injection HgC as HaC HtC HrC. repeat split; congruence. }
    specialize (HLk Ha). injection HLk as HaL HtL HrL.
    rewrite Ha in HaL. specialize (HSk HaL). injection HSk as HaS HtS HrS.
    rewrite HtS, HrS, HtL, HrL, HaS, HaL, Htm, Hrq.
    split; [reflexivity|]. split; [reflexivity|]. by destruct (onExitArm (car g0)).
  - intros Hnone Hact.
    apply orb_false_elim in Hnone as [Hnone HoC].
    apply orb_false_elim in Hnone as [HoB HoD].
    rewrite HoB in HgB. injection HgB as HaB HtB HrB.
    rewrite HaB, HoD in HgD. cbn [negb andb] in HgD. injection HgD as HaD HtD HrD.
    rewrite HaD, HoC in HgC. cbn [negb andb] in HgC. injection HgC as HaC HtC HrC.
    destruct (onExitArm (car g0)); [discriminate Hact|].
    destruct HS as [HS | [HaL HS]].
    + injection HS as HaS HtS HrS. rewrite HrS.
      destruct HL as [HL | (_ & r & Hr & HL)].
      * injection HL as HaL _ _. congruence.
      * injection HL as _ _ ->. rewrite !elem_of_cons. destruct Hr as [-> | ->]; by auto.
    + injection HS as _ _ ->. rewrite !elem_of_cons. by auto.
Qed.

(** A ring tick that starts on the road, clear of the traffic and without a
    grace period is the ring phase on the state as it is. *)
Lemma ring_tick_unfold (dt : R) (g : Game) :
  failed (car g) = false -> phase (car g) = on_roundabout ->
  onRoad (pos (car g)) (distFromCenter (pos (car g))) = true ->
  collision (pos (car g)) (npcs g) = false ->
  graceActive (car g) = false ->
  _updateStateMachine dt g
  = phaseOnRoundabout (distFromCenter (pos (car g))) (set_car (car g) g).
Proof.
  intros Hf Hph Hroad Hcol Hgr. unfold _updateStateMachine.
  rewrite Hf. cbn [orb]. rewrite bool_decide_eq_false_2 by congruence.
  rewrite Hroad, Hcol. cbn [negb]. unfold graceCountdown. rewrite Hgr.
  by rewrite Hph.
Qed.

(** C6. One-shot checkpoints.  The three checkpoints of the ring phase are
      (b) the 12-o'clock check, threshold PI - 0.1, which asks the driver
          bound for the 3rd exit for the right indicator;
      (d) the check after the first exit, for the straight exit (exit 2),
          threshold PI / 2, which asks for the left indicator;
      (c) the near-exit check, threshold exitTravelTarget - 0.7, which asks
          for the left indicator.
    A checkpoint fires when its block of the rule engine runs its body: the
    flag is set and the indicator is evaluated, a missing indicator asking
    for a grace period of 3 seconds.
    First part, the block: once the flag is set the block changes nothing
    (no double firing); before the threshold it changes nothing; with the
    flag unset and the traveled angle on or past the threshold (a comparison
    with >=, so an angle that jumped past it counts) it sets the flag and
    evaluates the indicator.
    Second part, a tick of the ring phase that starts on the road, clear of
    the traffic and without a grace period: a checkpoint fires in it iff its
    flag was unset and the traveled angle as updated by this tick has
    reached or passed the threshold; its flag is then set; if a checkpoint
    fires with its indicator missing, the tick leaves the grace period of 3
    seconds for that indicator (the first of (b), (d), (c)), which only
    being on the exit arm ends; if none does, a grace period active after
    the tick is one of the continuous checks (ring lane or signal), never
    one for an indicator of a checkpoint.
    Third part: in any tick of the ring phase that is not stopped by a
    failure, a flag is set after the tick iff it was set before or the
    threshold is reached or passed.  Fourth part: every other tick leaves
    the flags as they are.  Fifth and sixth parts: over any sequence of
    simulation steps and key events of one attempt, each flag goes from
    unset to set at most once, and exactly once when it is unset at the
    start and set at the end; so each checkpoint fires at most once per
    attempt, and once if it is reached. *)
Theorem checkpoints_one_shot :
  (forall (cp : Checkpoint) (dist : R) (h : Game),
     let reached := cpReached cp (car h) (traveledAngle (car h)) in
     (cpDone cp h = true -> cpBlock cp dist h = h)
     /\ (reached = false -> cpBlock cp dist h = h)
     /\ (cpDone cp h = false -> reached = true ->
         cpDone cp (cpBlock cp dist h) = true
         /\ car (cpBlock cp dist h)
            = if cpMissing cp (car h)
              then startGrace (Some (cpRequired cp)) GRACE_DEFAULT (car h)
              else car h))
  /\ (forall (dt : R) (g : Game),
        failed (car g) = false -> phase (car g) = on_roundabout ->
        onRoad (pos (car g)) (distFromCenter (pos (car g))) = true ->
        collision (pos (car g)) (npcs g) = false ->
        graceActive (car g) = false ->
        let g' := _updateStateMachine dt g in
        let fires cp :=
          negb (cpDone cp g) && cpReached cp (car g) (traveledAngle (car g')) in
        let opens cp := fires cp && cpMissing cp (car g) in
        (forall cp : Checkpoint, cpDone cp g' = cpDone cp g || fires cp)
        /\ (opens cpB || opens cpD || opens cpC = true ->
            graceRequired (car g') = Some (if opens cpB then right else left)
            /\ graceTimer (car g') = GRACE_DEFAULT
            /\ graceActive (car g') = negb (onExitArm (car g)))
        /\ (opens cpB || opens cpD || opens cpC = false ->
            graceActive (car g') = true ->
            graceRequired (car g') ∈ [Some ring_outer; Some ring_inner; Some signal]))
  /\ (forall (dt : R) (g : Game),
        phase (car g) = on_roundabout ->
        failed (car (_updateStateMachine dt g)) = false ->
        let g' := _updateStateMachine dt g in
        _checkBDone g' = _checkBDone g || bool_decide (traveledAngle (car g') >= PI - 0.1)
        /\ _checkDDone g'
           = _checkDDone g || (bool_decide (targetExitNum (car g) = Some 2%nat)
                               && bool_decide (traveledAngle (car g') >= PI / 2))
        /\ _checkCDone g'
           = _checkCDone g
             || bool_decide (traveledAngle (car g') >= exitTravelTarget (car g) - 0.7))
  /\ (forall (dt : R) (g : Game),
        phase (car g) <> on_roundabout \/ failed (car (_updateStateMachine dt g)) = true ->
        ringChecks (_updateStateMachine dt g) = ringChecks g)
  /\ (forall (g : Game) (evs : list AttemptEvent),
        (firings _checkBDone (attemptTrace g evs) <= 1)%nat
        /\ (firings _checkDDone (attemptTrace g evs) <= 1)%nat
        /\ (firings _checkCDone (attemptTrace g evs) <= 1)%nat)
  /\ (forall (cp : Checkpoint) (g : Game) (evs : list AttemptEvent),
        firings (cpDone cp) (attemptTrace g evs)
        = (if negb (cpDone cp g) && cpDone cp (fold_left attemptStep evs g)
           then 1 else 0)%nat).
Proof.
  split; [exact cpBlock_spec|].
  split; [|split; [|split]].
  - intros dt g Hf Hph Hroad Hcol Hgr. cbv zeta.
    pose proof (_updateStateMachine_survives dt g Hf Hroad Hcol Hgr) as Hlive.
    split.
    + destruct (_updateStateMachine_ringChecks dt g) as [(_ & _ & H) | [[Hn | Hn] _]];
        [|congruence|congruence].
      revert H. generalize (_updateStateMachine dt g). intros g'.
      unfold ringChecks. intros [= HB HD HC].
      intros []; cbn [cpDone cpReached].
      * rewrite HB. by destruct (_checkBDone g).
      * rewrite HD. by destruct (_checkDDone g).
      * rewrite HC. by destruct (_checkCDone g).
    + rewrite (ring_tick_unfold dt g Hf Hph Hroad Hcol Hgr).
      pose proof (phaseOnRoundabout_checkpoints (distFromCenter (pos (car g)))
                    (set_car (car g) g) Hgr) as Hcp.
      cbv zeta in Hcp. exact Hcp.
  - intros dt g Hph Hf. cbv zeta.
    destruct (_updateStateMachine_ringChecks dt g) as [(_ & _ & H) | [[Hn | Hn] _]];
      [|congruence|congruence].
    revert H. generalize (_updateStateMachine dt g). intros g'.
    unfold ringChecks. by intros [= -> -> ->].
  - intros dt g Hcase.
    destruct (_updateStateMachine_ringChecks dt g) as [(Hph & Hf & _) | [_ H]]; [|exact H].
    destruct Hcase; congruence.
  - split.
    + intros g evs.
      split; [|split]; apply firings_once; intros g0 ev; apply attemptStep_ringChecks.
    + intros cp g evs. apply firings_exact. intros g0 ev.
      destruct cp; cbn [cpDone]; apply attemptStep_ringChecks.
Qed.

Lemma checkpoints_one_shot_witness :
  let g := set__prevRingAngle (Some 0)
             (upd_car (fun c => set_traveledAngle (PI - 0.1)
                                  (set_phase on_roundabout (set_pos (Vector3.mk 18 0 0) c)))
                      (new_game (fun _ => 0))) in
  (_checkBDone (_updateStateMachine 0.016 g) = true
   /\ _checkCDone (_updateStateMachine 0.016 g) = true
   /\ graceRequired (car (_updateStateMachine 0.016 g)) = Some left
   /\ graceTimer (car (_updateStateMachine 0.016 g)) = GRACE_DEFAULT
   /\ graceActive (car (_updateStateMachine 0.016 g)) = true)
  /\ checkC 18 (_updateStateMachine 0.016 g) = _updateStateMachine 0.016 g
  /\ ringChecks (_updateStateMachine 0.016 (new_game (fun _ => 0)))
     = ringChecks (new_game (fun _ => 0)).
Proof.
  intros g. destruct checkpoints_one_shot as (Hblock & Htick & _ & Hkeep & _ & _).
  assert (onRoad (pos (car g)) (distFromCenter (pos (car g))) = true) as Hroad.
  { apply onRoad_drivable. left. unfold inAnnulus, RB_IN, RB_OUT. cbn. lra. }
  assert (failed (car (_updateStateMachine 0.016 g)) = false) as Hf.
  { apply _updateStateMachine_survives; [reflexivity | exact Hroad | reflexivity | reflexivity]. }
  assert (traveledAngle (car (_updateStateMachine 0.016 g)) = PI - 0.1) as Ht.
  { destruct (_updateStateMachine_on_ring 0.016 g eq_refl) as [[_ Hx] | [Ht _]];
      [congruence|].
    rewrite Ht.
    change (pos (car g)) with (Vector3.mk 18 0 0).
    change (_prevRingAngle g) with (Some 0).
    change (traveledAngle (car g)) with (PI - 0.1).
    rewrite playerRingAngle_east by lra.
    pose proof PI_bounds. unfold accumulate, TWO_PI. repeat case_decide; lra. }
  destruct (Htick 0.016 g eq_refl eq_refl Hroad eq_refl eq_refl) as (Hflags & Hopen & _).
  cbv zeta in Hflags, Hopen. rewrite Ht in Hflags, Hopen.
  assert (cpReached cpB (car g) (PI - 0.1) = true) as HrB.
  { apply bool_decide_eq_true_2. lra. }
  assert (cpReached cpC (car g) (PI - 0.1) = true) as HrC.
  { apply bool_decide_eq_true_2.
    change (exitTravelTarget (car g)) with (PI / 2). pose proof PI_bounds. lra. }
  assert (cpDone cpC (_updateStateMachine 0.016 g) = true) as HC.
  { rewrite (Hflags cpC), HrC. reflexivity. }
  split; [|split].
  - split; [|split].
    + pose proof (Hflags cpB) as HB. rewrite HrB in HB. exact HB.
    + exact HC.
    + rewrite HrC in Hopen.
      change (cpDone cpC g) with false in Hopen.
      change (cpMissing cpC (car g)) with true in Hopen.
      change (cpMissing cpB (car g)) with false in Hopen.
      rewrite ?andb_false_r in Hopen. cbn [negb andb orb] in Hopen.
      rewrite ?orb_true_r in Hopen.
      destruct (Hopen eq_refl) as (H1 & H2 & H3).
      split; [exact H1|]. split; [exact H2|]. rewrite H3.
      unfold onExitArm. change (pos (car g)) with (Vector3.mk 18 0 0).
      change (targetExit (car g)) with (Some west). cbn [Vector3.x Vector3.z].
      rewrite (bool_decide_eq_false_2 (18 < - RB_OUT)) by (unfold RB_OUT; lra).
      reflexivity.
  - destruct (Hblock cpC 18 (_updateStateMachine 0.016 g)) as (Hdone & _).
    apply Hdone, HC.
  - apply Hkeep. left. discriminate.
Defined.

(** ** The physics integrator *)

(** The speed that the controls leave is clamped and snapped. *)
Lemma integrateControls_speed (dtScale : R) (g : Game) :
  let v := speed (car (integrateControls dtScale g)) in
  -0.18 <= v <= 0.55 /\ (Rabs v < 0.0005 -> v = 0).
Proof.
  cbv zeta. unfold integrateControls. cbv zeta.
  match goal with
  | |- context [if decide (Rabs (speed (car ?g1)) < 0.0005) then _ else _] =>
    assert (-0.18 <= speed (car g1) <= 0.55) as Hclamp
  end.
  { unfold upd_car. cbn [car set_car speed set_speed]. unfold MAX_REV, MAX_SPEED.
    split.
    - etransitivity; [|apply Rmax_l]. lra.
    - apply Rmax_lub; [lra | apply Rmin_l]. }
  revert Hclamp.
  match goal with
  | |- context [if decide (Rabs (speed (car ?g1)) < 0.0005) then _ else _] =>
    generalize g1
  end.
  intros g1 Hclamp. case_decide as Hsnap.
  - cbn. rewrite Rabs_R0. split; [lra | done].
  - split; [exact Hclamp | intros H; contradiction].
Qed.

(** The rule-engine state and the world are not written by the controls. *)
Lemma integrateControls_rule (dtScale : R) (g : Game) :
  ruleState (integrateControls dtScale g) = ruleState g
  /\ npcs (integrateControls dtScale g) = npcs g
  /\ random (integrateControls dtScale g) = random g
  /\ keys (integrateControls dtScale g) = keys g.
Proof. unfold integrateControls, upd_car. split_cases; by repeat split. Qed.

Lemma integratePose_rule (dtScale : R) (g : Game) :
  ruleState (integratePose dtScale g) = ruleState g
  /\ speed (car (integratePose dtScale g)) = speed (car g)
  /\ npcs (integratePose dtScale g) = npcs g.
Proof. by repeat split. Qed.

Lemma blink_car (dt : R) (g : Game) : car (blink dt g) = car g.
Proof. reflexivity. Qed.

Lemma blink_rule (dt : R) (g : Game) :
  ruleState (blink dt g) = ruleState g
  /\ _preview (blink dt g) = _preview g /\ _indDebug (blink dt g) = _indDebug g.
Proof. by repeat split. Qed.

Lemma physics_rule (delta : R) (g : Game) : ruleState (physics delta g) = ruleState g.
Proof.
  unfold physics. cbv zeta.
  destruct (integratePose_rule (tickDt delta * 60)
              (integrateControls (tickDt delta * 60)
                 (set_elapsed (elapsed g + tickDt delta * 1000) g))) as (-> & _).
  by destruct (integrateControls_rule (tickDt delta * 60)
                 (set_elapsed (elapsed g + tickDt delta * 1000) g)) as (-> & _).
Qed.

Lemma physics_speed (delta : R) (g : Game) :
  let v := speed (car (physics delta g)) in
  -0.18 <= v <= 0.55 /\ (Rabs v < 0.0005 -> v = 0).
Proof.
  cbv zeta. unfold physics. cbv zeta.
  destruct (integratePose_rule (tickDt delta * 60)
              (integrateControls (tickDt delta * 60)
                 (set_elapsed (elapsed g + tickDt delta * 1000) g))) as (_ & -> & _).
  apply integrateControls_speed.
Qed.

(** The simulation of a frame, stage by stage. *)
Lemma simulate_stages (delta : R) (g : Game) :
  let dt := tickDt delta in
  simulate dt (dt * 60) (set_elapsed (elapsed g + dt * 1000) g)
  = (_updateStateMachine dt (_updateNPCs dt (dt * 60) (blink dt (physics delta g))),
     Rabs (speed (car (integrateControls (dt * 60)
                         (set_elapsed (elapsed g + dt * 1000) g))))).
Proof. reflexivity. Qed.

(** The car that enters the rule engine is the car that the physics left. *)
Lemma traffic_car (delta : R) (g : Game) :
  car (_updateNPCs (tickDt delta) (tickDt delta * 60) (blink (tickDt delta) (physics delta g)))
  = car (physics delta g).
Proof. by rewrite _updateNPCs_car. Qed.

Lemma simulate_speed (delta : R) (g : Game) :
  let dt := tickDt delta in
  let '(g1, spd) := simulate dt (dt * 60) (set_elapsed (elapsed g + dt * 1000) g) in
  speed (car g1) = speed (car (physics delta g))
  /\ spd = Rabs (speed (car (physics delta g))).
Proof.
  cbv zeta. rewrite simulate_stages. cbv zeta.
  destruct (_updateStateMachine_drive (tickDt delta)
              (_updateNPCs (tickDt delta) (tickDt delta * 60)
                 (blink (tickDt delta) (physics delta g)))) as [_ _ Hs _ _ _ _ _ _ _ _ _ _ _ _ _ _ _ _ _ _ _ _].
  rewrite Hs, traffic_car. split; reflexivity.
Qed.

Lemma restart_speed (g : Game) : speed (car (restart g)) = 0.
Proof. destruct (activeMission_is_Some g) as [e He]. by rewrite (restart_car g e He). Qed.

(** ** Speed clamp (C10) *)

(** C10. After every frame that runs the physics (no preview, no debug
    mode), for any keys held and any previous state, the player's speed lies
    in [-MAX_REV, MAX_SPEED] = [-0.18, 0.55], and a speed of magnitude below
    0.0005 is exactly 0.  The snapshot of the frame, when one is emitted,
    reports the ratio |speed| / MAX_SPEED, which lies in [0, 1], and the gear
    D for a speed >= 0 and R otherwise, both of the speed of the state after
    the frame. *)
Theorem speed_clamped (delta : R) (g : Game) :
  _preview g = false -> _indDebug g = false ->
  let g' := (_update delta g).1 in
  (- MAX_REV <= speed (car g') <= MAX_SPEED
   /\ -0.18 <= speed (car g') <= 0.55)
  /\ (Rabs (speed (car g')) < 0.0005 -> speed (car g') = 0)
  /\ (forall hud : Hud.t,
        (_update delta g).2 = Some hud ->
        Hud.speedRatio hud = Rabs (speed (car g')) / MAX_SPEED
        /\ 0 <= Hud.speedRatio hud <= 1
        /\ Hud.gear hud = if decide (speed (car g') >= 0) then "D" else "R").
Proof.
  intros Hp Hd. cbv zeta. rewrite _update_live by assumption. cbv zeta.
  pose proof (simulate_speed delta g) as Hsim. cbv zeta in Hsim.
  destruct (simulate _ _ _) as [g1 spd]. destruct Hsim as [Hs ->]. cbn [fst snd].
  pose proof (physics_speed delta g) as [Hrange Hsnap]. cbv zeta in Hrange, Hsnap.
  rewrite <- Hs in Hrange, Hsnap |- *.
  assert (forall v : R, -0.18 <= v <= 0.55 -> 0 <= Rabs v / MAX_SPEED <= 1) as Hratio.
  { intros v Hv. unfold MAX_SPEED. unfold Rabs. destruct (Rcase_abs v); lra. }
  unfold MAX_REV. unfold completeCountdown.
  case_decide.
  - case_decide.
    + cbn [fst snd]. rewrite restart_speed, Rabs_R0.
      split; [unfold MAX_SPEED; lra|]. split; [done|]. intros hud Hh. discriminate Hh.
    + cbn [fst snd]. change (speed (car (set__completeTimer _ g1))) with (speed (car g1)).
      split; [unfold MAX_SPEED; lra|]. split; [exact Hsnap|].
      intros hud [= <-]. cbn. split; [reflexivity|]. split; [|reflexivity].
      apply Hratio, Hrange.
  - cbn [fst snd].
    split; [unfold MAX_SPEED; lra|]. split; [exact Hsnap|].
    intros hud [= <-]. cbn. split; [reflexivity|]. split; [|reflexivity].
    apply Hratio, Hrange.
Qed.

Lemma speed_clamped_witness :
  let g := startGame (new_game (fun _ => 0)) in
  -0.18 <= speed (car (_update 0.016 g).1) <= 0.55.
Proof.
  intros g.
  destruct (speed_clamped 0.016 g) as ((_ & H) & _); [reflexivity | reflexivity | exact H].
Defined.

(** ** After a failure (C2) *)

(** The rule engine returns at once for a failed player. *)
Lemma _updateStateMachine_failed (dt : R) (g : Game) :
  failed (car g) = true -> _updateStateMachine dt g = g.
Proof. intros Hf. unfold _updateStateMachine. by rewrite Hf. Qed.

Lemma _updateNPCs_rule (dt dtScale : R) (g : Game) :
  ruleState (_updateNPCs dt dtScale g) = ruleState g
  /\ _preview (_updateNPCs dt dtScale g) = _preview g
  /\ _indDebug (_updateNPCs dt dtScale g) = _indDebug g
  /\ keys (_updateNPCs dt dtScale g) = keys g.
Proof. destruct (_updateNPCs_shape dt dtScale g) as (l & rnd & ->). by repeat split. Qed.

Lemma ruleState_failed (g g' : Game) :
  ruleState g' = ruleState g -> failed (car g') = failed (car g).
Proof. intros H. by apply (f_equal (fun s => s.1.1.1.1.1.1.2)) in H. Qed.

Lemma ruleState_completeTimer (g g' : Game) :
  ruleState g' = ruleState g -> _completeTimer g' = _completeTimer g.
Proof. intros H. by apply (f_equal (fun s => s.1.2)) in H. Qed.

Lemma physics_modes (delta : R) (g : Game) :
  _preview (physics delta g) = _preview g /\ _indDebug (physics delta g) = _indDebug g.
Proof.
  unfold physics. cbv zeta. unfold integrateControls, upd_car. split_cases; by split.
Qed.

(** The frame of a failed player: physics, blink clock and traffic. *)
Lemma failed_frame (delta : R) (g : Game) :
  failed (car g) = true -> _preview g = false -> _indDebug g = false ->
  _completeTimer g <= 0 ->
  (_update delta g).1
  = _updateNPCs (tickDt delta) (tickDt delta * 60) (blink (tickDt delta) (physics delta g))
  /\ ruleState (_update delta g).1 = ruleState g
  /\ _preview (_update delta g).1 = false /\ _indDebug (_update delta g).1 = false.
Proof.
  intros Hf Hp Hd Ht.
  rewrite _update_live by assumption. cbv zeta. rewrite simulate_stages. cbv zeta.
  cbn [fst snd].
  destruct (_updateNPCs_rule (tickDt delta) (tickDt delta * 60)
              (blink (tickDt delta) (physics delta g))) as (Hrule & Hpv & Hdb & _).
  destruct (blink_rule (tickDt delta) (physics delta g)) as (Hb1 & Hb2 & Hb3).
  rewrite Hb1 in Hrule. rewrite Hb2 in Hpv. rewrite Hb3 in Hdb.
  rewrite physics_rule in Hrule.
  destruct (physics_modes delta g) as [Hpv' Hdb'].
  rewrite Hpv', Hp in Hpv. rewrite Hdb', Hd in Hdb.
  revert Hrule Hpv Hdb.
  generalize (_updateNPCs (tickDt delta) (tickDt delta * 60)
                (blink (tickDt delta) (physics delta g))).
  intros g1 Hrule Hpv Hdb.
  pose proof (ruleState_failed _ _ Hrule) as Hf1. rewrite Hf in Hf1.
  pose proof (ruleState_completeTimer _ _ Hrule) as Ht1.
  rewrite (_updateStateMachine_failed _ g1 Hf1).
  unfold completeCountdown. case_decide; [lra|]. cbn [fst].
  by repeat split.
Qed.

(** Key events and the start of the game do not write the rule-engine
    state. *)
Lemma keepsAttempt_rule (g : Game) (cmd : Command) :
  keepsAttempt cmd ->
  failed (car g) = true -> _preview g = false -> _indDebug g = false ->
  _completeTimer g <= 0 ->
  ruleState (perform g cmd) = ruleState g
  /\ _preview (perform g cmd) = false /\ _indDebug (perform g cmd) = false.
Proof.
  intros Hk Hf Hp Hd Ht. destruct cmd as [delta|code|code| | | |on]; try done.
  - cbn [perform]. by destruct (failed_frame delta g Hf Hp Hd Ht) as (_ & ? & ? & ?).
  - cbn [perform]. unfold _onKeyDown, _toggleIndicator, upd_car. rewrite Hp.
    split_cases; by repeat split.
  - cbn [perform]. unfold _onKeyUp. rewrite Hp. by repeat split.
Qed.

Lemma failed_stays (cmds : list Command) :
  Forall keepsAttempt cmds ->
  forall g : Game,
    failed (car g) = true -> _preview g = false -> _indDebug g = false ->
    _completeTimer g <= 0 ->
    ruleState (fold_left perform cmds g) = ruleState g.
Proof.
  induction 1 as [|cmd cmds Hk _ IH]; intros g Hf Hp Hd Ht; [reflexivity|].
  cbn [fold_left].
  destruct (keepsAttempt_rule g cmd Hk Hf Hp Hd Ht) as (Hrule & Hp' & Hd').
  rewrite IH; [exact Hrule | | exact Hp' | exact Hd' | ].
  - by rewrite (ruleState_failed _ _ Hrule).
  - by rewrite (ruleState_completeTimer _ _ Hrule).
Qed.

(** C2, as the code has it.  Once the player has failed, a frame is the
    physics, the blink clock and the traffic update and nothing else: the
    rule engine returns at once and the completion countdown is idle.  The
    state of the rule engine (phase, traveled angle, lanes, grace record,
    failed flag and reason, ring trackers, checkpoint flags, countdown,
    mission index) is therefore the one before the frame, and it stays so
    over any sequence of frames and key events, until a restart.  The
    physics integrator is not stopped: the car after the frame is the car
    that the integrator produced from the keys held.  The traffic agents are
    updated as in any other frame. *)
Theorem failed_player_rules_stop (delta : R) (g : Game) :
  failed (car g) = true -> _preview g = false -> _indDebug g = false ->
  _completeTimer g <= 0 ->
  let dt := tickDt delta in
  let g' := (_update delta g).1 in
  g' = _updateNPCs dt (dt * 60) (blink dt (physics delta g))
  /\ ruleState g' = ruleState g
  /\ car g' = car (physics delta g)
  /\ (failed (car g') = true /\ _preview g' = false /\ _indDebug g' = false
      /\ _completeTimer g' <= 0)
  /\ (forall cmds : list Command,
        Forall keepsAttempt cmds ->
        ruleState (fold_left perform cmds g) = ruleState g).
Proof.
  intros Hf Hp Hd Ht. cbv zeta.
  destruct (failed_frame delta g Hf Hp Hd Ht) as (Hframe & Hrule & Hpv & Hdb).
  split; [exact Hframe|]. split; [exact Hrule|].
  split; [rewrite Hframe; apply traffic_car|].
  rewrite (ruleState_failed _ _ Hrule), (ruleState_completeTimer _ _ Hrule).
  split; [by repeat split|].
  intros cmds Hk. by apply failed_stays.
Qed.

Lemma failed_player_rules_stop_witness :
  ruleState (_update (1 / 60) failedDriver).1 = ruleState failedDriver
  /\ car (_update (1 / 60) failedDriver).1 = car (physics (1 / 60) failedDriver).
Proof.
  destruct (failed_player_rules_stop (1 / 60) failedDriver) as (_ & H1 & H2 & _);
    [reflexivity | reflexivity | reflexivity | cbn; lra | ].
  split; assumption.
Defined.

Lemma tickDt_60fps : tickDt (1 / 60) = 1 / 60.
Proof. unfold tickDt. apply Rmin_left. lra. Qed.

Lemma failedDriver_keys (v : R) :
  hasKey "ArrowLeft" (set_elapsed v failedDriver) = false
  /\ hasKey "ArrowRight" (set_elapsed v failedDriver) = false
  /\ hasKey "ArrowUp" (set_elapsed v failedDriver) = true.
Proof.
  unfold hasKey.
  change (keys (set_elapsed v failedDriver)) with ({[ "ArrowUp" ]} : gset string).
  repeat split.
Qed.

(** With only the accelerator held, the controls add [ACCEL] per reference
    tick to the speed and let the steering decay. *)
Lemma integrateControls_accelerating (dtScale : R) (g : Game) :
  hasKey "ArrowLeft" g = false -> hasKey "ArrowRight" g = false ->
  hasKey "ArrowUp" g = true ->
  let v := Rmax (- MAX_REV) (Rmin MAX_SPEED (speed (car g) + ACCEL * dtScale)) in
  car (integrateControls dtScale g)
  = set_speed (if decide (Rabs v < 0.0005) then 0 else v)
      (set_steer (steer (car g) * JS.pow 0.88 dtScale) (car g)).
Proof.
  intros Hl Hr Hu. cbv zeta. unfold integrateControls. rewrite Hl, Hr. cbv zeta.
  change (hasKey "ArrowUp" (upd_car _ g)) with (hasKey "ArrowUp" g). rewrite Hu.
  unfold upd_car. cbn [car set_car speed set_speed set_steer].
  case_decide; reflexivity.
Qed.

(** What the integrator does to the failed driver in a frame of 1/60 s. *)
Lemma physics_failedDriver :
  speed (car (physics (1 / 60) failedDriver)) = 0.009
  /\ Vector3.z (pos (car (physics (1 / 60) failedDriver))) = 82.491.
Proof.
  unfold physics. cbv zeta. rewrite tickDt_60fps.
  replace (1 / 60 * 60) with 1 by lra.
  destruct (failedDriver_keys (elapsed failedDriver + 1 / 60 * 1000)) as (Hl & Hr & Hu).
  revert Hl Hr Hu.
  set (g0 := set_elapsed _ failedDriver). intros Hl Hr Hu.
  pose proof (integrateControls_accelerating 1 g0 Hl Hr Hu) as Hc. cbv zeta in Hc.
  change (speed (car g0)) with 0 in Hc. change (steer (car g0)) with 0 in Hc.
  assert (Rmax (- MAX_REV) (Rmin MAX_SPEED (0 + ACCEL * 1)) = 0.009) as Hv.
  { unfold MAX_REV, MAX_SPEED, ACCEL.
    rewrite Rmin_right by lra. rewrite Rmax_right by lra. lra. }
  rewrite Hv in Hc.
  rewrite decide_False in Hc by (rewrite Rabs_right; lra).
  unfold integratePose. cbv zeta. rewrite Hc.
  cbn [car set_car speed set_speed steer set_steer yawRate set_yawRate heading
       set_heading pos set_pos Vector3.z Vector3.x Vector3.set_x Vector3.set_z].
  split; [reflexivity|].
  change (yawRate (car g0)) with 0. change (heading (car g0)) with 0.
  change (Vector3.z (pos (car g0))) with (RB_OUT + ROAD_L * 0.55).
  match goal with
  | |- context [cos ?h] => replace h with 0 by ring
  end.
  rewrite cos_0. unfold RB_OUT, ROAD_L. lra.
Qed.

(** C2, as the claim states it, fails: the failed driver holds the
    accelerator, and one frame later the integrator has raised the speed from
    0 to 0.009 and moved the car from z = 82.5 to z = 82.491. *)
Lemma failed_player_still_driven :
  failed (car failedDriver) = true
  /\ (speed (car failedDriver) = 0
      /\ speed (car (_update (1 / 60) failedDriver).1) = 0.009
      /\ speed (car (_update (1 / 60) failedDriver).1) <> speed (car failedDriver))
  /\ (Vector3.z (pos (car failedDriver)) = 82.5
      /\ Vector3.z (pos (car (_update (1 / 60) failedDriver).1)) = 82.491
      /\ pos (car (_update (1 / 60) failedDriver).1) <> pos (car failedDriver)).
Proof.
  destruct (failed_frame (1 / 60) failedDriver) as (Hframe & _);
    [reflexivity | reflexivity | reflexivity | cbn; lra |].
  rewrite Hframe, traffic_car.
  destruct physics_failedDriver as [Hs Hz]. rewrite Hs, Hz.
  assert (Vector3.z (pos (car failedDriver)) = 82.5) as Hz0.
  { cbn. unfold RB_OUT, ROAD_L. lra. }
  split; [reflexivity|]. split.
  - split; [reflexivity|]. split; [reflexivity|].
    change (speed (car failedDriver)) with 0. lra.
  - split; [exact Hz0|]. split; [reflexivity|].
    intros Heq. apply (f_equal Vector3.z) in Heq. rewrite Hz, Hz0 in Heq. lra.
Qed.

(** ** The traffic update, agent by agent *)

(** The update of the agent [j] replaces the agent [j] and no other. *)
Lemma updateNPC_npcs (dt dtScale : R) (g : Game) (j : nat) :
  exists x : Npc.t, npcs (updateNPC dt dtScale g j) = <[j := x]> (npcs g).
Proof.
  unfold updateNPC. destruct (npcs g !! j) as [npc|] eqn:Hj.
  - case_decide.
    + destruct (if decide (_ <= 0) then _ else _) as [npc' rnd']. by eexists.
    + destruct (match Npc.state _ with Npc.despawned => _ | _ => _ end) as [npc' rnd'].
      by eexists.
  - exists (initial_npc 0). rewrite list_insert_ge; [done|].
    by apply lookup_ge_None.
Qed.

Lemma updateNPC_other (dt dtScale : R) (g : Game) (i j : nat) :
  j <> i -> npcs (updateNPC dt dtScale g j) !! i = npcs g !! i.
Proof.
  intros Hne. destruct (updateNPC_npcs dt dtScale g j) as [x ->].
  by apply list_lookup_insert_ne.
Qed.

Lemma fold_updateNPC_other (dt dtScale : R) (i : nat) (ixs : list nat) :
  forall g : Game,
    i ∉ ixs -> npcs (fold_left (updateNPC dt dtScale) ixs g) !! i = npcs g !! i.
Proof.
  induction ixs as [|j ixs IH]; intros g Hni; [reflexivity|].
  cbn [fold_left]. rewrite IH by (intros H; apply Hni; by right).
  apply updateNPC_other. intros ->. apply Hni. by left.
Qed.

(** A despawned agent whose cooldown outlasts the tick only counts down. *)
Lemma updateNPC_cooling (dt dtScale : R) (g : Game) (i : nat) (npc : Npc.t) :
  npcs g !! i = Some npc -> Npc.state npc = Npc.despawned ->
  dt < Npc.respawnTimer npc ->
  npcs (updateNPC dt dtScale g i) !! i
  = Some (Npc.set_respawnTimer (Npc.respawnTimer npc - dt) npc).
Proof.
  intros Hi Hs Ht. unfold updateNPC. rewrite Hi.
  rewrite decide_True by exact Hs.
  rewrite decide_False by (cbn; lra).
  cbn [npcs set_npcs set_random].
  apply list_lookup_insert_eq. by apply lookup_lt_Some in Hi.
Qed.

Lemma fold_updateNPC_cooling (dt dtScale : R) (i : nat) (npc : Npc.t) (ixs : list nat) :
  Npc.state npc = Npc.despawned -> dt < Npc.respawnTimer npc ->
  NoDup ixs -> i ∈ ixs ->
  forall g : Game,
    npcs g !! i = Some npc ->
    npcs (fold_left (updateNPC dt dtScale) ixs g) !! i
    = Some (Npc.set_respawnTimer (Npc.respawnTimer npc - dt) npc).
Proof.
  intros Hs Ht. induction ixs as [|j ixs IH]; intros Hnd Hin g Hi.
  - by apply elem_of_nil in Hin.
  - apply NoDup_cons in Hnd as [Hnj Hnd]. cbn [fold_left].
    destruct (decide (j = i)) as [-> | Hne].
    + rewrite fold_updateNPC_other by exact Hnj.
      by apply updateNPC_cooling.
    + apply IH; [exact Hnd | | ].
      * apply elem_of_cons in Hin as [-> | Hin]; [done | exact Hin].
      * by rewrite updateNPC_other.
Qed.

Lemma _updateNPCs_cooling (dt dtScale : R) (g : Game) (i : nat) (npc : Npc.t) :
  npcs g !! i = Some npc -> Npc.state npc = Npc.despawned ->
  dt < Npc.respawnTimer npc ->
  npcs (_updateNPCs dt dtScale g) !! i
  = Some (Npc.set_respawnTimer (Npc.respawnTimer npc - dt) npc).
Proof.
  intros Hi Hs Ht. unfold _updateNPCs.
  apply fold_updateNPC_cooling; try assumption.
  - apply NoDup_seq.
  - apply elem_of_seq. apply lookup_lt_Some in Hi. lia.
Qed.

(** ** Tick duration (C9) *)

Lemma tickDt_cap (delta : R) : tickDt delta <= 0.1.
Proof. apply Rmin_r. Qed.

Lemma tickDt_idem (delta : R) : tickDt (tickDt delta) = tickDt delta.
Proof. unfold tickDt. apply Rmin_left, Rmin_r. Qed.

Ltac timer_block := intros; unfold_blocks; split_cases; reflexivity.

Lemma checkB_completeTimer dist g : _completeTimer (checkB dist g) = _completeTimer g.
Proof. timer_block. Qed.
Lemma checkD_completeTimer dist g : _completeTimer (checkD dist g) = _completeTimer g.
Proof. timer_block. Qed.
Lemma checkC_completeTimer dist g : _completeTimer (checkC dist g) = _completeTimer g.
Proof. timer_block. Qed.
Lemma ringLaneCheck_completeTimer dist g :
  _completeTimer (ringLaneCheck dist g) = _completeTimer g.
Proof. timer_block. Qed.
Lemma laneChangeCheck_completeTimer dist g :
  _completeTimer (laneChangeCheck dist g) = _completeTimer g.
Proof. timer_block. Qed.
Lemma exitTransition_completeTimer g : _completeTimer (exitTransition g) = _completeTimer g.
Proof. timer_block. Qed.
Lemma phaseApproaching_completeTimer dist g :
  _completeTimer (phaseApproaching dist g) = _completeTimer g.
Proof. timer_block. Qed.

Lemma phaseOnRoundabout_completeTimer dist g :
  _completeTimer (phaseOnRoundabout dist g) = _completeTimer g.
Proof.
  unfold phaseOnRoundabout.
  rewrite exitTransition_completeTimer, laneChangeCheck_completeTimer,
    ringLaneCheck_completeTimer, checkC_completeTimer, checkD_completeTimer,
    checkB_completeTimer.
  reflexivity.
Qed.

(** The rule engine writes the completion countdown only to start it. *)
Lemma _updateStateMachine_completeTimer (dt : R) (g : Game) :
  _completeTimer (_updateStateMachine dt g) = _completeTimer g
  \/ _completeTimer (_updateStateMachine dt g) = 2.0.
Proof.
  unfold _updateStateMachine.
  destruct (failed (car g) || bool_decide (phase (car g) = completed)); [by left|].
  destruct (negb (onRoad _ _)); [by left|].
  destruct (collision _ _); [by left|].
  destruct (graceCountdown _ _ _) as [c returned].
  destruct returned; [by left|].
  destruct (phase c).
  - left. by rewrite phaseApproaching_completeTimer.
  - left. by rewrite phaseOnRoundabout_completeTimer.
  - unfold phaseExiting. case_decide; [by right | by left].
  - by left.
Qed.

(** A grace period with more than the tick duration left does not expire in
    the tick: a failure set by the tick is an off-road failure or a
    collision. *)
Lemma _updateStateMachine_grace_holds (dt : R) (g : Game) :
  failed (car g) = false ->
  (graceActive (car g) = true -> dt < graceTimer (car g)) ->
  failReason (car (_updateStateMachine dt g)) = failReason (car g)
  \/ offRoadReason (failReason (car (_updateStateMachine dt g)))
  \/ failReason (car (_updateStateMachine dt g)) = Some REASON_CRASH.
Proof.
  intros Hf Ht. unfold _updateStateMachine. rewrite Hf. cbn [orb].
  case_bool_decide; [by left|].
  destruct (negb (onRoad _ _)).
  { right. left. cbn. unfold offRoadReason. case_decide; by auto. }
  destruct (collision _ _); [by right; right|].
  left. set (dist := distFromCenter (pos (car g))).
  assert (exists c, graceCountdown dt dist (car g) = (c, false)
                    /\ failReason c = failReason (car g)) as (c & -> & <-).
  { unfold graceCountdown. destruct (graceActive (car g)); [|by eexists].
    specialize (Ht eq_refl).
    destruct (condOk _ _ _); [by eexists|].
    rewrite decide_False by (cbn; lra). by eexists. }
  destruct (phase c).
  - by destruct (phaseApproaching_verdict dist (set_car c g)) as [_ ->].
  - by destruct (phaseOnRoundabout_verdict dist (set_car c g)) as [_ ->].
  - by destruct (phaseExiting_verdict dist (set_car c g)) as [_ ->].
  - reflexivity.
Qed.

Lemma ruleState_fields (g g' : Game) :
  ruleState g' = ruleState g ->
  failed (car g') = failed (car g)
  /\ failReason (car g') = failReason (car g)
  /\ graceActive (car g') = graceActive (car g)
  /\ graceTimer (car g') = graceTimer (car g)
  /\ _completeTimer g' = _completeTimer g
  /\ _missionIndex g' = _missionIndex g.
Proof.
  intros H. repeat split.
  - by apply (f_equal (fun s => s.1.1.1.1.1.1.2)) in H.
  - by apply (f_equal (fun s => s.1.1.1.1.1.2)) in H.
  - by apply (f_equal (fun s => s.1.1.1.1.1.1.1.2.1.1)) in H.
  - by apply (f_equal (fun s => s.1.1.1.1.1.1.1.2.1.2)) in H.
  - by apply (f_equal (fun s => s.1.2)) in H.
  - by apply (f_equal (fun s => s.2)) in H.
Qed.

(** The state that enters the rule engine in a frame. *)
Lemma traffic_rule (delta : R) (g : Game) :
  ruleState (_updateNPCs (tickDt delta) (tickDt delta * 60)
               (blink (tickDt delta) (physics delta g)))
  = ruleState g.
Proof.
  destruct (_updateNPCs_rule (tickDt delta) (tickDt delta * 60)
              (blink (tickDt delta) (physics delta g))) as (-> & _).
  destruct (blink_rule (tickDt delta) (physics delta g)) as (-> & _).
  apply physics_rule.
Qed.

Lemma physics_npcs (delta : R) (g : Game) : npcs (physics delta g) = npcs g.
Proof.
  unfold physics. cbv zeta.
  destruct (integratePose_rule (tickDt delta * 60)
              (integrateControls (tickDt delta * 60)
                 (set_elapsed (elapsed g + tickDt delta * 1000) g))) as (_ & _ & ->).
  by destruct (integrateControls_rule (tickDt delta * 60)
                 (set_elapsed (elapsed g + tickDt delta * 1000) g)) as (_ & -> & _).
Qed.

Lemma completeCountdown_frame (dt spd : R) (g : Game) :
  npcs (completeCountdown dt spd g).1 = npcs g
  /\ (failReason (car (completeCountdown dt spd g).1) = failReason (car g)
      \/ failReason (car (completeCountdown dt spd g).1) = None).
Proof.
  unfold completeCountdown. case_decide; [|by auto].
  case_decide; [|by auto]. cbn [fst].
  destruct (restart_world (set__missionIndex
              (S (_missionIndex (set__completeTimer 0
                    (set__completeTimer (_completeTimer g - dt) g))))
              (set__completeTimer 0 (set__completeTimer (_completeTimer g - dt) g))))
    as (-> & _).
  split; [reflexivity|]. right.
  match goal with |- context [restart ?g0] =>
    destruct (activeMission_is_Some g0) as [e He]; by rewrite (restart_car g0 e He)
  end.
Qed.

(** C9. Tick-duration cap.  The duration used by a frame is the clock delta
    capped to 0.1 s: it never exceeds 0.1, it is the delta itself up to 0.1,
    and a frame after any longer gap is the frame after a gap of exactly its
    capped duration, so the integrator and the timers never see more.  A
    timer with more than 0.1 s left is therefore not consumed by one frame,
    however long the real gap: a grace period does not expire (a failure
    reason set in the frame is not a grace reason), the completion countdown
    does not run out (the mission index stays and the countdown is still
    positive), and a despawned agent stays despawned with its cooldown
    lowered by the capped duration only. *)
Theorem tick_duration_capped (delta : R) (g : Game) :
  (tickDt delta <= 0.1
   /\ (delta <= 0.1 -> tickDt delta = delta)
   /\ (0.1 <= delta -> tickDt delta = 0.1))
  /\ _update delta g = _update (tickDt delta) g
  /\ (_preview g = false -> _indDebug g = false ->
      (failed (car g) = false -> failReason (car g) = None ->
       (graceActive (car g) = true -> 0.1 < graceTimer (car g)) ->
       failReason (car (_update delta g).1) <> Some REASON_SIGNAL
       /\ failReason (car (_update delta g).1) <> Some REASON_LANE)
      /\ (0.1 < _completeTimer g ->
          _missionIndex (_update delta g).1 = _missionIndex g
          /\ 0 < _completeTimer (_update delta g).1
          /\ (_completeTimer (_update delta g).1 = _completeTimer g - tickDt delta
              \/ _completeTimer (_update delta g).1 = 2.0 - tickDt delta))
      /\ (forall (i : nat) (npc : Npc.t),
            npcs g !! i = Some npc -> Npc.state npc = Npc.despawned ->
            0.1 < Npc.respawnTimer npc ->
            npcs (_update delta g).1 !! i
            = Some (Npc.set_respawnTimer (Npc.respawnTimer npc - tickDt delta) npc))).
Proof.
  pose proof (tickDt_cap delta) as Hcap.
  split.
  { split; [exact Hcap|]. unfold tickDt.
    split; intros H; [by apply Rmin_left | by apply Rmin_right]. }
  split.
  { unfold _update. by rewrite tickDt_idem. }
  intros Hp Hd. rewrite _update_live by assumption. cbv zeta.
  rewrite simulate_stages. cbv zeta. cbn [fst snd].
  pose proof (traffic_rule delta g) as Hrule.
  assert (forall i npc, npcs g !! i = Some npc -> Npc.state npc = Npc.despawned ->
            0.1 < Npc.respawnTimer npc ->
            npcs (_updateNPCs (tickDt delta) (tickDt delta * 60)
                    (blink (tickDt delta) (physics delta g))) !! i
            = Some (Npc.set_respawnTimer (Npc.respawnTimer npc - tickDt delta) npc))
    as Hcool.
  { intros i npc Hi Hs Ht. apply _updateNPCs_cooling; [|exact Hs|lra].
    change (npcs (blink (tickDt delta) (physics delta g))) with (npcs (physics delta g)).
    by rewrite physics_npcs. }
  revert Hrule Hcool.
  generalize (_updateNPCs (tickDt delta) (tickDt delta * 60)
                (blink (tickDt delta) (physics delta g))).
  intros g1 Hrule Hcool.
  apply ruleState_fields in Hrule as (Hf1 & Hr1 & Ha1 & Ht1 & Hc1 & Hm1).
  pose proof (_updateStateMachine_drive (tickDt delta) g1) as Hdrive.
  pose proof (_updateStateMachine_completeTimer (tickDt delta) g1) as Hct.
  pose proof (_updateStateMachine_grace_holds (tickDt delta) g1) as Hgrace.
  revert Hdrive Hct Hgrace.
  generalize (_updateStateMachine (tickDt delta) g1). intros g2 Hdrive Hct Hgrace.
  generalize (Rabs (speed (car (integrateControls (tickDt delta * 60)
                (set_elapsed (elapsed g + tickDt delta * 1000) g))))). intros spd.
  destruct (completeCountdown_frame (tickDt delta) spd g2) as [Hn Hreason].
  split; [|split].
  - intros Hf Hnone Hlong.
    rewrite Hf1, Hr1, Ha1, Ht1 in Hgrace.
    assert (graceActive (car g) = true -> tickDt delta < graceTimer (car g)) as Hlong'.
    { intros Ha. specialize (Hlong Ha). lra. }
    specialize (Hgrace Hf Hlong'). rewrite Hnone in Hgrace.
    assert (failReason (car g2) <> Some REASON_SIGNAL
            /\ failReason (car g2) <> Some REASON_LANE) as [H1 H2].
    { destruct Hgrace as [-> | [[-> | ->] | ->]]; split; discriminate. }
    destruct Hreason as [-> | ->]; [by split | split; discriminate].
  - intros Hlong.
    assert (0.1 < _completeTimer g2) as Hlong2.
    { destruct Hct as [-> | ->]; lra. }
    unfold completeCountdown.
    rewrite decide_True by lra. rewrite decide_False by (cbn; lra). cbn [fst].
    change (_missionIndex (set__completeTimer _ g2)) with (_missionIndex g2).
    change (_completeTimer (set__completeTimer (_completeTimer g2 - tickDt delta) g2))
      with (_completeTimer g2 - tickDt delta).
    destruct Hdrive as [_ _ _ _ _ _ _ _ _ _ _ _ _ _ _ _ _ _ _ Hm2 _ _ _].
    split; [congruence|]. split; [lra|].
    destruct Hct as [-> | ->]; [left | right]; lra.
  - intros i npc Hi Hs Ht. rewrite Hn.
    destruct Hdrive as [_ _ _ _ _ _ _ _ _ _ _ _ _ Hn2 _ _ _ _ _ _ _ _ _].
    rewrite Hn2. by apply Hcool.
Qed.

Lemma tick_duration_capped_witness :
  let g := startGame (new_game (fun _ => 0)) in
  tickDt 5 = 0.1
  /\ npcs (_update 5 g).1 !! 1%nat
     = Some (Npc.set_respawnTimer (Npc.respawnTimer (initial_npc 1) - tickDt 5)
               (initial_npc 1)).
Proof.
  intros g.
  destruct (tick_duration_capped 5 g) as ((_ & _ & Hcap) & _ & Htimers).
  split; [apply Hcap; lra|].
  destruct (Htimers eq_refl eq_refl) as (_ & _ & Hnpc).
  apply (Hnpc 1%nat (initial_npc 1)); [reflexivity | reflexivity | cbn; lra].
Defined.

(** ** The ring tracker holds a normalised angle *)

Ltac tracker_block := intros; unfold_blocks; split_cases; reflexivity.

Lemma checkB_tracker dist g : _prevRingAngle (checkB dist g) = _prevRingAngle g.
Proof. tracker_block. Qed.
Lemma checkD_tracker dist g : _prevRingAngle (checkD dist g) = _prevRingAngle g.
Proof. tracker_block. Qed.
Lemma checkC_tracker dist g : _prevRingAngle (checkC dist g) = _prevRingAngle g.
Proof. tracker_block. Qed.
Lemma ringLaneCheck_tracker dist g : _prevRingAngle (ringLaneCheck dist g) = _prevRingAngle g.
Proof. tracker_block. Qed.
Lemma laneChangeCheck_tracker dist g :
  _prevRingAngle (laneChangeCheck dist g) = _prevRingAngle g.
Proof. tracker_block. Qed.
Lemma exitTransition_tracker g : _prevRingAngle (exitTransition g) = _prevRingAngle g.
Proof. tracker_block. Qed.
Lemma phaseExiting_tracker dist g : _prevRingAngle (phaseExiting dist g) = _prevRingAngle g.
Proof. tracker_block. Qed.

Lemma phaseApproaching_tracker dist g :
  _prevRingAngle (phaseApproaching dist g) = _prevRingAngle g
  \/ _prevRingAngle (phaseApproaching dist g) = Some (playerRingAngle (pos (car g))).
Proof. unfold_blocks. split_cases; by auto. Qed.

Lemma phaseOnRoundabout_tracker dist g :
  _prevRingAngle (phaseOnRoundabout dist g) = Some (playerRingAngle (pos (car g))).
Proof.
  unfold phaseOnRoundabout.
  rewrite exitTransition_tracker, laneChangeCheck_tracker, ringLaneCheck_tracker,
    checkC_tracker, checkD_tracker, checkB_tracker.
  reflexivity.
Qed.

Lemma _updateStateMachine_tracker (dt : R) (g : Game) :
  trackerNormalised g -> trackerNormalised (_updateStateMachine dt g).
Proof.
  intros Hn. unfold _updateStateMachine.
  destruct (failed (car g) || bool_decide (phase (car g) = completed)); [exact Hn|].
  destruct (negb (onRoad _ _)); [exact Hn|].
  destruct (collision _ _); [exact Hn|].
  destruct (graceCountdown _ _ _) as [c returned].
  destruct returned; [exact Hn|].
  set (g1 := set_car c g). intros p.
  destruct (phase c).
  - destruct (phaseApproaching_tracker (distFromCenter (pos (car g))) g1) as [-> | ->].
    + apply Hn.
    + intros [= <-]. apply playerRingAngle_range.
  - rewrite phaseOnRoundabout_tracker. intros [= <-]. apply playerRingAngle_range.
  - rewrite phaseExiting_tracker. apply Hn.
  - apply Hn.
Qed.

Lemma ruleState_tracker (g g' : Game) :
  ruleState g' = ruleState g -> _prevRingAngle g' = _prevRingAngle g.
Proof. intros H. by apply (f_equal (fun s => s.1.1.1.1.2)) in H. Qed.

Lemma _update_tracker (delta : R) (g : Game) :
  trackerNormalised g -> trackerNormalised (_update delta g).1.
Proof.
  intros Hn.
  destruct (_preview g) eqn:Hp; [by rewrite _update_preview|].
  destruct (_indDebug g) eqn:Hd; [by rewrite _update_debug|].
  rewrite _update_live by assumption. cbv zeta. rewrite simulate_stages. cbv zeta.
  cbn [fst snd].
  pose proof (ruleState_tracker _ _ (traffic_rule delta g)) as Hrule.
  revert Hrule.
  generalize (_updateNPCs (tickDt delta) (tickDt delta * 60)
                (blink (tickDt delta) (physics delta g))).
  intros g1 Hrule.
  assert (trackerNormalised g1) as H1 by (intros p; rewrite Hrule; apply Hn).
  apply (_updateStateMachine_tracker (tickDt delta)) in H1. revert H1.
  generalize (_updateStateMachine (tickDt delta) g1). intros g2 H2.
  generalize (Rabs (speed (car (integrateControls (tickDt delta * 60)
                (set_elapsed (elapsed g + tickDt delta * 1000) g))))). intros spd.
  unfold completeCountdown. case_decide; [|exact H2].
  case_decide; [|exact H2]. cbn [fst]. intros p.
  match goal with |- context [restart ?g0] =>
    destruct (restart_engine g0) as (-> & _)
  end.
  discriminate.
Qed.

(** After any history of frames, key events and commands, the angle that
    the ring tracker holds lies in [0, 2 PI). *)
Lemma tracker_always_normalised (rnd : nat -> R) (cmds : list Command) :
  trackerNormalised (run rnd cmds).
Proof.
  unfold run.
  assert (trackerNormalised (new_game rnd)) as H0 by (intros p; discriminate).
  revert H0. generalize (new_game rnd).
  induction cmds as [|cmd cmds IH]; intros g Hg; [exact Hg|].
  cbn [fold_left]. apply IH.
  destruct cmd as [delta|code|code| | | |on]; cbn [perform].
  - by apply _update_tracker.
  - unfold _onKeyDown, _toggleIndicator, upd_car. split_cases; exact Hg.
  - unfold _onKeyUp. split_cases; exact Hg.
  - exact Hg.
  - intros p. destruct (restart_engine g) as (-> & _). discriminate.
  - intros p. unfold nextMission.
    match goal with |- context [restart ?g0] =>
      destruct (restart_engine g0) as (-> & _)
    end.
    discriminate.
  - unfold setIndDebugMode. destruct on; [exact Hg|].
    destruct (fold_left _ _ _) as [l rnd']. exact Hg.
Qed.

(** ** The completion countdown runs only after a completion *)

Lemma ruleState_countdown (g g' : Game) :
  ruleState g' = ruleState g -> countdownSound g -> countdownSound g'.
Proof.
  intros H Hs. unfold countdownSound.
  destruct (ruleState_fields _ _ H) as (-> & _ & _ & _ & -> & _).
  apply (f_equal (fun s => s.1.1.1.1.1.1.1.1.1.1.1)) in H.
  unfold ruleState in H. cbn [fst] in H. by rewrite H.
Qed.

Lemma _updateStateMachine_countdown (dt : R) (g : Game) :
  countdownSound g -> countdownSound (_updateStateMachine dt g).
Proof.
  intros Hs. unfold _updateStateMachine.
  destruct (failed (car g)) eqn:Hf; cbn [orb]; [exact Hs|].
  case_bool_decide as Hc; [exact Hs|].
  assert (_completeTimer g <= 0) as Hidle.
  { destruct (Rle_dec (_completeTimer g) 0) as [|Hn]; [assumption|].
    destruct Hs as [Hph _]; [lra | contradiction]. }
  destruct (negb (onRoad _ _)); [intros H; cbn in H; lra|].
  destruct (collision _ _); [intros H; cbn in H; lra|].
  set (dist := distFromCenter (pos (car g))).
  pose proof (graceCountdown_verdict dt dist (car g) Hf) as Hgc.
  destruct (graceCountdown dt dist (car g)) as [c returned].
  destruct Hgc as (Hfc & _ & _ & _).
  destruct returned; [intros H; cbn in H; lra|].
  set (g1 := set_car c g).
  destruct (phase c).
  - intros H. rewrite phaseApproaching_completeTimer in H. cbn in H. lra.
  - intros H. rewrite phaseOnRoundabout_completeTimer in H. cbn in H. lra.
  - unfold phaseExiting. case_decide as Hout.
    + intros _. cbn. by split.
    + intros H. cbn in H. lra.
  - intros H. cbn in H. lra.
Qed.

Lemma _update_countdown (delta : R) (g : Game) :
  countdownSound g -> countdownSound (_update delta g).1.
Proof.
  intros Hs.
  destruct (_preview g) eqn:Hp; [by rewrite _update_preview|].
  destruct (_indDebug g) eqn:Hd; [by rewrite _update_debug|].
  rewrite _update_live by assumption. cbv zeta. rewrite simulate_stages. cbv zeta.
  cbn [fst snd].
  pose proof (ruleState_countdown _ _ (traffic_rule delta g) Hs) as H1.
  revert H1.
  generalize (_updateNPCs (tickDt delta) (tickDt delta * 60)
                (blink (tickDt delta) (physics delta g))).
  intros g1 H1.
  apply (_updateStateMachine_countdown (tickDt delta)) in H1. revert H1.
  generalize (_updateStateMachine (tickDt delta) g1). intros g2 H2.
  generalize (Rabs (speed (car (integrateControls (tickDt delta * 60)
                (set_elapsed (elapsed g + tickDt delta * 1000) g))))). intros spd.
  unfold completeCountdown. case_decide as Hpos; [|exact H2].
  case_decide as Hend; cbn [fst].
  - intros H.
    match type of H with context [restart ?g0] =>
      destruct (restart_engine g0) as (_ & _ & E & _)
    end.
    rewrite E in H. lra.
  - intros _. apply H2. lra.
Qed.

(** The invariant holds after any history. *)
Lemma run_countdownSound (rnd : nat -> R) (cmds : list Command) :
  countdownSound (run rnd cmds).
Proof.
  unfold run.
  assert (countdownSound (new_game rnd)) as H0 by (intros H; cbn in H; lra).
  revert H0. generalize (new_game rnd).
  induction cmds as [|cmd cmds IH]; intros g Hg; [exact Hg|].
  cbn [fold_left]. apply IH.
  destruct cmd as [delta|code|code| | | |on]; cbn [perform].
  - by apply _update_countdown.
  - unfold _onKeyDown, _toggleIndicator, upd_car. split_cases; exact Hg.
  - unfold _onKeyUp. split_cases; exact Hg.
  - exact Hg.
  - intros H. destruct (restart_engine g) as (_ & _ & E & _). rewrite E in H. lra.
  - intros H. unfold nextMission in H.
    match type of H with context [restart ?g0] =>
      destruct (restart_engine g0) as (_ & _ & E & _)
    end.
    rewrite E in H. lra.
  - unfold setIndDebugMode. destruct on.
    + exact Hg.
    + destruct (fold_left _ _ _) as [l rnd']. exact Hg.
Qed.

(** After any history, a failed player has no completion countdown
    running. *)
Lemma failed_countdown_idle (rnd : nat -> R) (cmds : list Command) :
  failed (car (run rnd cmds)) = true -> _completeTimer (run rnd cmds) <= 0.
Proof.
  pose proof (run_countdownSound rnd cmds) as Hs.
  intros Hf. destruct (Rle_dec (_completeTimer (run rnd cmds)) 0) as [|Hn]; [assumption|].
  destruct Hs as [_ Hnf]; [lra | congruence].
Qed.

(** ** The completed phase and the rule engine (C4) *)

Lemma ruleState_phase_eq (g g' : Game) :
  ruleState g' = ruleState g -> phase (car g') = phase (car g).
Proof.
  intros H. apply (f_equal (fun s => s.1.1.1.1.1.1.1.1.1.1.1)) in H. exact H.
Qed.

(** The state that the simulation of a frame leaves, for a player in the
    phase [completed]: the rule state is untouched. *)
Lemma completed_simulation (delta : R) (g : Game) :
  phase (car g) = completed ->
  let dt := tickDt delta in
  ruleState (simulate dt (dt * 60) (set_elapsed (elapsed g + dt * 1000) g)).1 = ruleState g.
Proof.
  intros Hph. cbv zeta. rewrite simulate_stages. cbv zeta. cbn [fst].
  pose proof (traffic_rule delta g) as Hr.
  rewrite completed_tick_idle; [exact Hr|].
  rewrite (ruleState_phase_eq _ _ Hr). exact Hph.
Qed.

Lemma completedOffRoad_not_drivable : ~ drivable (pos (car completedOffRoad)).
Proof.
  change (pos (car completedOffRoad)) with (Vector3.mk (-40) 0 10).
  unfold drivable, inAnnulus, inArm, RB_IN, RB_OUT, ROAD_W, ROAD_L, ARM_OVERLAP. cbn.
  intros [H | [H | [H | [H | H]]]].
  - lra.
  - destruct H as [H _]. rewrite Rabs_left in H; lra.
  - destruct H as [H _]. rewrite Rabs_left in H; lra.
  - lra.
  - destruct H as [H _]. rewrite Rabs_right in H; lra.
Qed.

(** C4, as the claim states it, fails in the phase [completed], which the
    specification does not count as terminal: the player who has completed
    the mission and has left the road, at (-40, 0, 10), is outside the
    drivable surface, yet a tick of the rule engine changes nothing, and a
    whole frame leaves the player completed and not failed, with no fail
    reason, while the completion countdown goes on. *)
Lemma completed_player_off_road :
  (failed (car completedOffRoad) = false
   /\ phase (car completedOffRoad) = completed
   /\ pos (car completedOffRoad) = Vector3.mk (-40) 0 10)
  /\ (~ drivable (pos (car completedOffRoad))
      /\ onRoad (pos (car completedOffRoad)) (distFromCenter (pos (car completedOffRoad)))
         = false)
  /\ (_updateStateMachine (1 / 60) completedOffRoad = completedOffRoad
      /\ failed (car (_updateStateMachine (1 / 60) completedOffRoad)) = false
      /\ failReason (car (_updateStateMachine (1 / 60) completedOffRoad)) = None)
  /\ (failed (car (_update (1 / 60) completedOffRoad).1) = false
      /\ failReason (car (_update (1 / 60) completedOffRoad).1) = None
      /\ phase (car (_update (1 / 60) completedOffRoad).1) = completed).
Proof.
  split; [by repeat split|].
  split.
  { split; [exact completedOffRoad_not_drivable|].
    pose proof (onRoad_drivable (pos (car completedOffRoad))) as Hroad.
    destruct (onRoad _ _); [|reflexivity].
    exfalso. apply completedOffRoad_not_drivable, Hroad. reflexivity. }
  split.
  { rewrite (completed_tick_idle (1 / 60) completedOffRoad eq_refl). by repeat split. }
  rewrite _update_live by reflexivity. cbv zeta.
  pose proof (completed_simulation (1 / 60) completedOffRoad eq_refl) as Hr.
  cbv zeta in Hr. revert Hr.
  generalize (simulate (tickDt (1 / 60)) (tickDt (1 / 60) * 60)
                (set_elapsed (elapsed completedOffRoad + tickDt (1 / 60) * 1000)
                   completedOffRoad)).
  intros [g1 spd] Hr. cbn [fst snd] in *.
  pose proof (ruleState_phase_eq _ _ Hr) as Hph.
  destruct (ruleState_fields _ _ Hr) as (Hf & Hfr & _ & _ & Ht & _).
  change (phase (car completedOffRoad)) with completed in Hph.
  change (failed (car completedOffRoad)) with false in Hf.
  change (failReason (car completedOffRoad)) with (@None string) in Hfr.
  change (_completeTimer completedOffRoad) with 1.5 in Ht.
  unfold completeCountdown. rewrite Ht, tickDt_60fps.
  rewrite decide_True by lra. cbn [_completeTimer set__completeTimer].
  rewrite decide_False by lra. cbn [fst].
  by repeat split.
Qed.

(** ** Mission cycling (C7) *)

(** A live frame whose countdown does not run out keeps the index; one whose
    countdown runs out is the mission advance on the state that the
    simulation left. *)
Lemma _update_countdownEnds (delta : R) (g : Game) :
  (countdownEnds delta g = true
   /\ exists g1 : Game,
        (_update delta g).1 = nextMission g1 /\ _missionIndex g1 = _missionIndex g)
  \/ (countdownEnds delta g = false
      /\ _missionIndex (_update delta g).1 = _missionIndex g).
Proof.
  unfold countdownEnds.
  destruct (_preview g) eqn:Hp; [right; by rewrite _update_preview|].
  destruct (_indDebug g) eqn:Hd; [right; by rewrite _update_debug|].
  rewrite _update_live by assumption. cbv zeta. cbn [negb andb].
  set (g0 := set_elapsed _ g).
  pose proof (simulate_mission (tickDt delta) (tickDt delta * 60) g0) as Hsm.
  pose proof (sm_missionIndex _ _ Hsm) as Hm.
  change (_missionIndex g0) with (_missionIndex g) in Hm.
  revert Hm. clear Hsm. generalize (simulate (tickDt delta) (tickDt delta * 60) g0).
  intros [g1 spd] Hm. cbn [fst snd] in *.
  destruct (completeCountdown_missionIndex (tickDt delta) spd g1) as [[Hin H] | [Hout H]].
  - left. rewrite bool_decide_eq_true_2 by exact Hin. split; [reflexivity|].
    exists (set__completeTimer 0 g1). split; [exact H | exact Hm].
  - right. rewrite bool_decide_eq_false_2 by exact Hout. split; [reflexivity|].
    by rewrite H.
Qed.

Lemma _update_index (delta : R) (g : Game) :
  _missionIndex (_update delta g).1
  = (_missionIndex g + if countdownEnds delta g then 1 else 0)%nat.
Proof.
  destruct (_update_countdownEnds delta g) as [[-> (g1 & -> & <-)] | [-> ->]].
  - rewrite nextMission_index. lia.
  - lia.
Qed.

Lemma perform_index (g : Game) (cmd : Command) :
  _missionIndex (perform g cmd)
  = (_missionIndex g + completions g [cmd] + nextMissions [cmd])%nat.
Proof.
  destruct cmd as [delta|code|code| | | |on]; cbn [perform completions nextMissions].
  - rewrite _update_index. lia.
  - replace (_missionIndex (_onKeyDown code g)) with (_missionIndex g); [lia|].
    unfold _onKeyDown, _toggleIndicator. split_cases; reflexivity.
  - replace (_missionIndex (_onKeyUp code g)) with (_missionIndex g); [lia|].
    unfold _onKeyUp. split_cases; reflexivity.
  - cbn. lia.
  - rewrite restart_missionIndex. lia.
  - rewrite nextMission_index. lia.
  - replace (_missionIndex (setIndDebugMode on g)) with (_missionIndex g); [lia|].
    unfold setIndDebugMode. destruct on; [reflexivity|].
    cbv zeta. by destruct (fold_left _ _ _).
Qed.

(** The index after a history: one more for every frame in which the
    completion countdown ran out and for every [nextMission] command. *)
Lemma history_index (cmds : list Command) :
  forall g : Game,
    _missionIndex (fold_left perform cmds g)
    = (_missionIndex g + completions g cmds + nextMissions cmds)%nat.
Proof.
  induction cmds as [|cmd cmds IH]; intros g; [cbn; lia|].
  cbn [fold_left]. rewrite IH, perform_index.
  destruct cmd; cbn [completions nextMissions]; lia.
Qed.

Lemma perform_synced_from (cmds : list Command) :
  forall g : Game, missionSynced g -> missionSynced (fold_left perform cmds g).
Proof.
  induction cmds as [|cmd cmds IH]; intros g Hs; [exact Hs|].
  cbn [fold_left]. apply IH. by apply perform_synced.
Qed.

Lemma activeMission_index (g g' : Game) (k : nat) :
  _missionIndex g' = (_missionIndex g + 3 * k)%nat -> activeMission g' = activeMission g.
Proof.
  unfold activeMission. intros ->. rewrite EXITS_length.
  replace (_missionIndex g + 3 * k)%nat with (_missionIndex g + k * 3)%nat by lia.
  by rewrite Nat.Div0.mod_add.
Qed.

(** In play, the countdown that runs out in a frame is the one of a
    completed mission: it was running before the frame. *)
Lemma countdownEnds_running (delta : R) (g : Game) :
  countdownEnds delta g = true -> 0 < _completeTimer g.
Proof.
  unfold countdownEnds. intros H.
  apply andb_prop in H as [_ H]. cbv zeta in H. apply bool_decide_eq_true in H.
  rewrite simulate_stages in H. cbv zeta in H. cbn [fst] in H.
  pose proof (ruleState_completeTimer _ _ (traffic_rule delta g)) as Ht.
  revert H Ht.
  generalize (_updateNPCs (tickDt delta) (tickDt delta * 60)
                (blink (tickDt delta) (physics delta g))).
  intros g1 H Ht.
  pose proof (tickDt_cap delta).
  destruct (_updateStateMachine_completeTimer (tickDt delta) g1) as [E | E];
    rewrite E in H; lra.
Qed.

Lemma completed_countdownEnds (delta : R) (g : Game) :
  _preview g = false -> _indDebug g = false -> phase (car g) = completed ->
  countdownEnds delta g
  = bool_decide (0 < _completeTimer g /\ _completeTimer g <= tickDt delta).
Proof.
  intros Hp Hd Hph. unfold countdownEnds. rewrite Hp, Hd. cbn [negb andb]. cbv zeta.
  by rewrite (ruleState_completeTimer _ _ (completed_simulation delta g Hph)).
Qed.

Lemma completed_countdown_runs (delta : R) (g : Game) :
  _preview g = false -> _indDebug g = false -> phase (car g) = completed ->
  0 < _completeTimer g -> tickDt delta < _completeTimer g ->
  _completeTimer (_update delta g).1 = _completeTimer g - tickDt delta
  /\ phase (car (_update delta g).1) = completed
  /\ _missionIndex (_update delta g).1 = _missionIndex g.
Proof.
  intros Hp Hd Hph Hpos Hlt. rewrite _update_live by assumption. cbv zeta.
  pose proof (completed_simulation delta g Hph) as Hr. cbv zeta in Hr. revert Hr.
  generalize (simulate (tickDt delta) (tickDt delta * 60)
                (set_elapsed (elapsed g + tickDt delta * 1000) g)).
  intros [g1 spd] Hr. cbn [fst snd] in *.
  pose proof (ruleState_phase_eq _ _ Hr) as Hph1. rewrite Hph in Hph1.
  destruct (ruleState_fields _ _ Hr) as (_ & _ & _ & _ & Ht & Hm).
  unfold completeCountdown. rewrite Ht. cbn [_completeTimer set__completeTimer].
  rewrite decide_True by lra. rewrite decide_False by lra. cbn [fst].
  by repeat split.
Qed.

(** C7. Mission cycling.  The exit list has 3 entries, and after any
    history of frames, key events and commands the car carries the entry of
    the exit list at index [_missionIndex mod 3].  A mission is completed
    when the completion countdown, set on reaching the phase [completed],
    runs out in a frame ([countdownEnds]): for a live frame of a completed
    player with a running countdown this is the frame whose tick duration
    reaches the remaining time, earlier frames only count it down; and in a
    state of play a countdown can run out only in the phase [completed] of a
    player who has not failed.  A frame adds one to the index exactly when
    the countdown runs out in it, and is then the mission advance: the reset
    game carries the next entry of the list.  Over a history the index grows
    by the number of completed missions (and of [nextMission] commands), so
    three of them bring the active mission back to where it was, and from
    the constructor's state, whose active mission is the first entry, back
    to the first entry. *)
Theorem mission_cycling :
  length EXITS = 3%nat
  /\ (forall (rnd : nat -> R) (cmds : list Command), missionSynced (run rnd cmds))
  /\ (forall (delta : R) (g : Game),
        _missionIndex (_update delta g).1
        = (_missionIndex g + if countdownEnds delta g then 1 else 0)%nat)
  /\ (forall (delta : R) (g : Game),
        countdownEnds delta g = true ->
        (exists g1 : Game,
           (_update delta g).1 = nextMission g1 /\ _missionIndex g1 = _missionIndex g)
        /\ activeMission (_update delta g).1 = EXITS !! (S (_missionIndex g) mod 3)%nat
        /\ missionSynced (_update delta g).1
        /\ phase (car (_update delta g).1) = approaching)
  /\ (forall (delta : R) (g : Game),
        _preview g = false -> _indDebug g = false ->
        phase (car g) = completed -> 0 < _completeTimer g ->
        (_completeTimer g <= tickDt delta -> countdownEnds delta g = true)
        /\ (tickDt delta < _completeTimer g ->
            countdownEnds delta g = false
            /\ _completeTimer (_update delta g).1 = _completeTimer g - tickDt delta
            /\ phase (car (_update delta g).1) = completed))
  /\ (forall (rnd : nat -> R) (cmds : list Command) (delta : R),
        countdownEnds delta (run rnd cmds) = true ->
        phase (car (run rnd cmds)) = completed /\ failed (car (run rnd cmds)) = false)
  /\ (forall (g : Game) (cmds : list Command),
        _missionIndex (fold_left perform cmds g)
        = (_missionIndex g + completions g cmds + nextMissions cmds)%nat)
  /\ (forall (g : Game) (cmds : list Command),
        (completions g cmds + nextMissions cmds = 3)%nat ->
        activeMission (fold_left perform cmds g) = activeMission g)
  /\ (forall (rnd : nat -> R) (cmds : list Command),
        activeMission (new_game rnd) = EXITS !! 0%nat
        /\ ((completions (new_game rnd) cmds + nextMissions cmds = 3)%nat ->
            exists e : Exit.t,
              EXITS !! 0%nat = Some e /\ activeMission (run rnd cmds) = Some e
              /\ carries (car (run rnd cmds)) e))
  /\ (forall g : Game, _missionIndex (nextMission g) = S (_missionIndex g))
  /\ (forall g : Game,
        activeMission (nextMission (nextMission (nextMission g))) = activeMission g).
Proof.
  assert (forall g cmds, (completions g cmds + nextMissions cmds = 3)%nat ->
            activeMission (fold_left perform cmds g) = activeMission g) as H3.
  { intros g cmds Hn. apply (activeMission_index _ _ 1). rewrite history_index. lia. }
  assert (forall rnd, activeMission (new_game rnd) = EXITS !! 0%nat) as H0.
  { intros rnd. unfold activeMission. by rewrite new_game_missionIndex. }
  split; [exact EXITS_length|].
  split; [exact run_synced|].
  split; [exact _update_index|].
  split.
  { intros delta g Hends.
    destruct (_update_countdownEnds delta g) as [[_ (g1 & E & Hm)] | [Hno _]];
      [|congruence].
    split; [by exists g1|]. rewrite E.
    split; [|split].
    - unfold activeMission. by rewrite nextMission_index, Hm, EXITS_length.
    - apply restart_synced.
    - unfold nextMission.
      destruct (activeMission_is_Some (set__missionIndex (S (_missionIndex g1)) g1))
        as [e He].
      by rewrite (restart_car _ e He). }
  split.
  { intros delta g Hp Hd Hph Hpos.
    rewrite (completed_countdownEnds delta g Hp Hd Hph). split.
    - intros Hle. apply bool_decide_eq_true_2. by split.
    - intros Hlt. split; [apply bool_decide_eq_false_2; lra|].
      destruct (completed_countdown_runs delta g Hp Hd Hph Hpos Hlt) as (Ht & Hc & _).
      by split. }
  split.
  { intros rnd cmds delta Hends.
    apply (run_countdownSound rnd cmds), (countdownEnds_running delta), Hends. }
  split; [intros g cmds; apply history_index|].
  split; [exact H3|].
  split.
  { intros rnd cmds. split; [apply H0|]. intros Hn.
    destruct (run_synced rnd cmds) as (e & He & Hc).
    exists e. split; [|by split].
    rewrite <- He. unfold run. rewrite (H3 _ _ Hn). symmetry. apply H0. }
  split; [exact nextMission_index|].
  intros g. apply activeMission_period. rewrite !nextMission_index. lia.
Qed.

Lemma mission_cycling_witness :
  let g := set__completeTimer 0.05
             (upd_car (set_phase completed) (startGame (new_game (fun _ => 0)))) in
  countdownEnds 1 g = true
  /\ _missionIndex (_update 1 g).1 = 1%nat
  /\ activeMission (_update 1 g).1 = EXITS !! 1%nat
  /\ phase (car (_update 1 g).1) = approaching.
Proof.
  intros g.
  destruct mission_cycling as (_ & _ & Hidx & Hadv & Hcomp & _).
  assert (countdownEnds 1 g = true) as Hends.
  { destruct (Hcomp 1 g eq_refl eq_refl eq_refl) as [H _].
    - change (_completeTimer g) with 0.05. lra.
    - apply H. change (_completeTimer g) with 0.05.
      unfold tickDt. rewrite Rmin_right; lra. }
  split; [exact Hends|].
  destruct (Hadv 1 g Hends) as (_ & Hact & _ & Hph).
  split; [|split; [exact Hact | exact Hph]].
  rewrite Hidx, Hends. reflexivity.
Defined.

(** ** Entry yield (C5) *)

(** The yield loop returns 0 as soon as the array holds, at an index other
    than the agent's own, an agent on the ring within the gap. *)
Lemma yieldToAgents_on_ring (i : nat) (entryInt : RingPoint.t) (l : list Npc.t) :
  forall (start k : nat) (other : Npc.t),
    l !! k = Some other -> (start + k)%nat <> i ->
    Npc.state other = Npc.on_roundabout ->
    yieldGap (RingPoint.ringAngle entryInt)
      (trafficRingAngle (Vector3.x (Npc.position other)) (Vector3.z (Npc.position other)))
    < 0.9 ->
    yieldToAgents i entryInt start l = true.
Proof.
  induction l as [|head rest IH]; intros start k other Hk Hne Hs Hgap; [done|].
  destruct k as [|k].
  - injection Hk as ->. cbn [yieldToAgents].
    rewrite decide_False by lia. rewrite Hs. cbn [orb].
    rewrite !bool_decide_eq_false_2 by discriminate. cbn [orb].
    rewrite decide_True by reflexivity. cbv zeta.
    by rewrite decide_True by exact Hgap.
  - cbn [yieldToAgents].
    assert (yieldToAgents i entryInt (S start) rest = true) as Hrest.
    { apply (IH (S start) k other); [exact Hk | lia | exact Hs | exact Hgap]. }
    rewrite Hrest. by split_cases.
Qed.

Lemma _ringIntersect_angle_range (arm : Arm) (r : R) (isOuter isEntry : bool) :
  0 <= RingPoint.ringAngle (_ringIntersect arm r isOuter isEntry) < TWO_PI.
Proof.
  unfold _ringIntersect. cbv zeta.
  destruct arm, isEntry; cbn [RingPoint.ringAngle]; apply trafficRingAngle_range.
Qed.

Lemma npcApproaching_speed (dtScale : R) (npc : Npc.t) :
  Npc.speed (npcApproaching dtScale npc) = Npc.speed npc.
Proof.
  unfold npcApproaching. cbv zeta. case_decide; [|reflexivity].
  by destruct (Npc.entryArm _).
Qed.

(** C5. Entry yield.  Take the agent at index [i], approaching, spawned (its
    entry arm is set), and inside the entry zone (closer to the ring centre
    than RB_OUT + 14).  Its entry angle is the ring angle at which its lane
    meets its ring lane.  If some other agent of the array is on the ring
    at a ring position whose gap before the entry angle,
    (entryAngle - otherAngle) mod 2 PI, is below 0.9, or if the player is not
    failed, on the ring, and within that same gap, then the follow speed
    computed for the agent is exactly 0, and so is the speed of the agent
    after its update in that tick. *)
Theorem entry_yield (dt dtScale : R) (g : Game) (i : nat) (npc : Npc.t) (arm : Arm) :
  npcs g !! i = Some npc ->
  Npc.state npc = Npc.approaching ->
  Npc.entryArm npc = Some arm ->
  sqrt (Vector3.x (Npc.position npc) * Vector3.x (Npc.position npc)
        + Vector3.z (Npc.position npc) * Vector3.z (Npc.position npc)) < RB_OUT + 14 ->
  let entryAngle :=
    RingPoint.ringAngle
      (_ringIntersect arm (Npc.ringRadius npc)
         (bool_decide (Npc.ringRadius npc = NPC_OUTER_R)) true) in
  (exists (j : nat) (other : Npc.t),
      j <> i /\ npcs g !! j = Some other
      /\ Npc.state other = Npc.on_roundabout
      /\ mod2pi (entryAngle
                 - trafficRingAngle (Vector3.x (Npc.position other))
                     (Vector3.z (Npc.position other))) < 0.9)
  \/ (failed (car g) = false /\ phase (car g) = on_roundabout
      /\ mod2pi (entryAngle
                 - trafficRingAngle (Vector3.x (pos (car g))) (Vector3.z (pos (car g))))
         < 0.9) ->
  _npcFollowSpeed g i npc = 0
  /\ exists npc' : Npc.t,
       npcs (updateNPC dt dtScale g i) !! i = Some npc' /\ Npc.speed npc' = 0.
Proof.
  intros Hi Hstate Harm Hdist entryAngle Hyield.
  assert (entryYield g i npc = true) as Hey.
  { unfold entryYield. rewrite decide_True by exact Hstate. cbv zeta.
    rewrite decide_True by exact Hdist. rewrite Harm.
    fold entryAngle.
    destruct Hyield as [(j & other & Hne & Hj & Hs & Hgap) | (Hf & Hph & Hgap)].
    - destruct (_ && _ && _); [reflexivity|].
      apply (yieldToAgents_on_ring i _ (npcs g) 0 j other); [exact Hj | exact Hne | exact Hs|].
      rewrite yieldGap_mod2pi;
        [exact Hgap | apply _ringIntersect_angle_range | apply trafficRingAngle_range].
    - rewrite Hf, Hph. cbn [negb andb].
      rewrite bool_decide_eq_true_2 by reflexivity. cbn [andb].
      rewrite bool_decide_eq_true_2; [reflexivity|].
      rewrite yieldGap_mod2pi;
        [exact Hgap | apply _ringIntersect_angle_range | apply trafficRingAngle_range]. }
  assert (_npcFollowSpeed g i npc = 0) as Hzero.
  { unfold _npcFollowSpeed. cbv zeta. by rewrite Hey. }
  split; [exact Hzero|].
  unfold updateNPC. rewrite Hi.
  rewrite decide_False by (rewrite Hstate; discriminate).
  rewrite Hstate. rewrite bool_decide_eq_true_2 by reflexivity. cbn [orb].
  rewrite Hzero.
  change (Npc.state (Npc.set_speed 0 npc)) with (Npc.state npc). rewrite Hstate.
  eexists. split.
  - cbn [npcs set_npcs set_random]. apply list_lookup_insert_eq.
    by apply lookup_lt_Some in Hi.
  - by rewrite npcApproaching_speed.
Qed.

Lemma mod2pi_0 : mod2pi 0 = 0.
Proof. pose proof TWO_PI_bounds. apply (mod2pi_unique _ _ 0); simpl; lra. Qed.

Lemma entry_yield_witness :
  _npcFollowSpeed yieldScene 0 waitingAgent = 0.
Proof.
  refine (proj1 (entry_yield 0.016 0.96 yieldScene 0 waitingAgent south
                   eq_refl eq_refl eq_refl _ _)).
  - apply (distFromCenter_lt (Vector3.mk (-5.25) 0 30) (RB_OUT + 14)).
    + unfold RB_OUT. lra.
    + unfold RB_OUT. cbn. lra.
  - left. exists 1%nat, circulatingAgent.
    split; [discriminate|]. split; [reflexivity|]. split; [reflexivity|].
    change (Npc.ringRadius waitingAgent) with NPC_OUTER_R.
    rewrite bool_decide_eq_true_2 by reflexivity.
    change (Vector3.x (Npc.position circulatingAgent)) with (RingPoint.x southEntry).
    change (Vector3.z (Npc.position circulatingAgent)) with (RingPoint.z southEntry).
    match goal with
    | |- mod2pi (?a - ?b) < _ => replace (a - b) with 0
    end.
    + rewrite mod2pi_0. lra.
    + unfold southEntry, _ringIntersect. cbn. lra.
Defined.

(** * Further properties of the engine *)

(** ** The shape of a frame *)

(** The car after a frame: the car as it was (preview and debug mode), the
    car that the rule engine leaves after the physics of the frame, or the
    car of a restart (the completion countdown ran out). *)
Lemma frame_car (delta : R) (g : Game) :
  ((_preview g = true \/ _indDebug g = true) /\ car (_update delta g).1 = car g)
  \/ (_preview g = false /\ _indDebug g = false
      /\ exists g1, car g1 = car (physics delta g)
                    /\ car (_update delta g).1 = car (_updateStateMachine (tickDt delta) g1))
  \/ (exists g3, (_update delta g).1 = restart g3).
Proof.
  destruct (_preview g) eqn:Hp.
  { left. split; [by left|]. by rewrite _update_preview. }
  destruct (_indDebug g) eqn:Hd.
  { left. split; [by right|]. by rewrite _update_debug. }
  rewrite _update_live by assumption. cbv zeta. rewrite simulate_stages. cbv zeta.
  cbn [fst snd].
  pose proof (traffic_car delta g) as Hcar. revert Hcar.
  generalize (_updateNPCs (tickDt delta) (tickDt delta * 60)
                (blink (tickDt delta) (physics delta g))).
  intros g1 Hcar.
  generalize (Rabs (speed (car (integrateControls (tickDt delta * 60)
                (set_elapsed (elapsed g + tickDt delta * 1000) g))))). intros spd.
  revert Hcar. generalize (physics delta g). intros gp Hcar.
  unfold completeCountdown. case_decide as Hpos.
  - case_decide as Hend; cbn [fst].
    + right. right. eexists. reflexivity.
    + right. left. do 2 (split; [reflexivity|]). exists g1. by repeat split.
  - right. left. do 2 (split; [reflexivity|]). exists g1. by repeat split.
Qed.

(** The physics of a frame writes the pose, the speed and the steering of
    the car, and nothing else of it. *)
Lemma integrateControls_indicators (s : R) (g : Game) :
  leftIndicator (car (integrateControls s g)) = leftIndicator (car g)
  /\ rightIndicator (car (integrateControls s g)) = rightIndicator (car g).
Proof. unfold integrateControls, upd_car. split_cases; by split. Qed.

Lemma physics_indicators (delta : R) (g : Game) :
  leftIndicator (car (physics delta g)) = leftIndicator (car g)
  /\ rightIndicator (car (physics delta g)) = rightIndicator (car g).
Proof.
  unfold physics. cbv zeta.
  change (car g) with (car (set_elapsed (elapsed g + tickDt delta * 1000) g)).
  generalize (set_elapsed (elapsed g + tickDt delta * 1000) g).
  generalize (tickDt delta * 60). intros s g0.
  destruct (integrateControls_indicators s g0) as [<- <-].
  by split.
Qed.

(** ** The indicators of the player are mutually exclusive *)

Lemma _toggleIndicator_exclusive (side : Req) (g : Game) :
  leftIndicator (car (_toggleIndicator side g))
  && rightIndicator (car (_toggleIndicator side g)) = false.
Proof.
  unfold _toggleIndicator. cbv zeta. case_decide; cbn.
  - apply andb_false_r.
  - reflexivity.
Qed.

Lemma restart_indicators (g : Game) :
  leftIndicator (car (restart g)) = false /\ rightIndicator (car (restart g)) = false.
Proof.
  destruct (activeMission_is_Some g) as [e He].
  rewrite (restart_car g e He). by split.
Qed.

Lemma _update_exclusive (delta : R) (g : Game) :
  leftIndicator (car g) && rightIndicator (car g) = false ->
  leftIndicator (car (_update delta g).1) && rightIndicator (car (_update delta g).1) = false.
Proof.
  intros Hg.
  destruct (frame_car delta g) as [[_ ->]|[(_ & _ & g1 & Hcar & ->)|[g3 ->]]].
  - exact Hg.
  - pose proof (_updateStateMachine_drive (tickDt delta) g1) as Hsd.
    rewrite (sd_leftIndicator _ _ Hsd), (sd_rightIndicator _ _ Hsd), Hcar.
    by destruct (physics_indicators delta g) as [-> ->].
  - by destruct (restart_indicators g3) as [-> ->].
Qed.

(** X1.  After any history of frames, key events and commands, the player
    never has both indicators on: Q and E toggle one side and switch the
    other off, and nothing else switches an indicator on. *)
Theorem indicators_never_both (rnd : nat -> R) (cmds : list Command) :
  leftIndicator (car (run rnd cmds)) && rightIndicator (car (run rnd cmds)) = false.
Proof.
  unfold run.
  assert (leftIndicator (car (new_game rnd)) && rightIndicator (car (new_game rnd)) = false)
    as H0 by reflexivity.
  revert H0. generalize (new_game rnd).
  induction cmds as [|cmd cmds IH]; intros g Hg; [exact Hg|].
  cbn [fold_left]. apply IH.
  destruct cmd as [delta|code|code| | | |on]; cbn [perform].
  - by apply _update_exclusive.
  - unfold _onKeyDown. destruct (_preview g); [exact Hg|]. cbv zeta.
    case_decide as HQ; case_decide as HE.
    + apply _toggleIndicator_exclusive.
    + apply _toggleIndicator_exclusive.
    + apply _toggleIndicator_exclusive.
    + exact Hg.
  - unfold _onKeyUp. by destruct (negb (_preview g)).
  - exact Hg.
  - by destruct (restart_indicators g) as [-> ->].
  - unfold nextMission.
    by destruct (restart_indicators (set__missionIndex (S (_missionIndex g)) g)) as [-> ->].
  - unfold setIndDebugMode. destruct on.
    + exact Hg.
    + cbv zeta. destruct (fold_left _ _ _) as [l rnd']. exact Hg.
Qed.

(** ** The preview ignores every input *)

Lemma set_elapsed_same (g : Game) : set_elapsed (elapsed g) g = g.
Proof. by destruct g. Qed.

(** X2.  Until the player starts the game the engine is in its preview:
    frames only advance the wall clock [elapsed], and key events are
    dropped, so the state is the constructor's up to that clock. *)
Theorem preview_ignores_input (rnd : nat -> R) (cmds : list Command) :
  Forall frameOrKey cmds ->
  exists t : R, run rnd cmds = set_elapsed t (new_game rnd).
Proof.
  unfold run. intros Hcmds.
  assert (_preview (new_game rnd) = true) as Hp by reflexivity.
  revert Hp. generalize (new_game rnd).
  induction Hcmds as [|cmd cmds Hcmd _ IH]; intros g Hp.
  - exists (elapsed g). cbn. by rewrite set_elapsed_same.
  - cbn [fold_left].
    destruct cmd as [delta|code|code| | | |on]; try done; cbn [perform].
    + rewrite _update_preview by assumption. cbn [fst].
      destruct (IH (set_elapsed (elapsed g + tickDt delta * 1000) g) Hp) as [t ->].
      by exists t.
    + unfold _onKeyDown. rewrite Hp. by apply IH.
    + unfold _onKeyUp. rewrite Hp. by apply IH.
Qed.

Lemma preview_ignores_input_witness :
  exists t : R,
    run (fun _ => 0) [Frame 0.016; KeyDown "ArrowUp"; Frame 0.016; KeyUp "ArrowUp"]
    = set_elapsed t (new_game (fun _ => 0)).
Proof. apply preview_ignores_input. repeat constructor. Defined.

(** ** The set of held keys *)

Lemma _onKeyDown_keys (code : string) (g : Game) :
  _preview g = false ->
  keys (_onKeyDown code g) = {[ code ]} ∪ keys g
  /\ _preview (_onKeyDown code g) = false.
Proof.
  intros Hp. unfold _onKeyDown. rewrite Hp. cbv zeta.
  unfold _toggleIndicator. cbv zeta. repeat case_decide; by split.
Qed.

(** X3.  Once the game is started, a key is held from its [keydown] to its
    [keyup]; pressing and releasing it leaves the other keys as they
    were. *)
Theorem key_press_release (code other : string) (g : Game) :
  _preview g = false ->
  hasKey code (_onKeyDown code g) = true
  /\ hasKey code (_onKeyUp code (_onKeyDown code g)) = false
  /\ (other <> code ->
      hasKey other (_onKeyDown code g) = hasKey other g
      /\ hasKey other (_onKeyUp code (_onKeyDown code g)) = hasKey other g).
Proof.
  intros Hp. destruct (_onKeyDown_keys code g Hp) as [Hk Hp'].
  unfold hasKey, _onKeyUp. rewrite Hp'. cbn [negb keys set_keys]. rewrite Hk.
  split; [|split; [|intros Hne; split]].
  - apply bool_decide_eq_true, elem_of_union. left. by apply elem_of_singleton.
  - apply bool_decide_eq_false. rewrite elem_of_difference, elem_of_singleton. tauto.
  - apply bool_decide_ext. rewrite elem_of_union, elem_of_singleton. tauto.
  - apply bool_decide_ext.
    rewrite elem_of_difference, elem_of_union, elem_of_singleton. tauto.
Qed.

Lemma key_press_release_witness :
  let g := startGame (new_game (fun _ => 0)) in
  hasKey "ArrowUp" (_onKeyDown "ArrowUp" g) = true
  /\ hasKey "ArrowUp" (_onKeyUp "ArrowUp" (_onKeyDown "ArrowUp" g)) = false.
Proof.
  intros g.
  destruct (key_press_release "ArrowUp" "ArrowDown" g eq_refl) as (H1 & H2 & _).
  by split.
Defined.

(** ** The steering input stays in [-1, 1] *)

(** [Math.pow (b, e)] for a base in (0, 1) and a non-negative exponent. *)
Lemma pow_decay (b e : R) : 0 < b < 1 -> 0 <= e -> 0 < JS.pow b e <= 1.
Proof.
  intros Hb He. unfold JS.pow, Rpower. split; [apply exp_pos|].
  assert (ln b < 0) as Hln.
  { rewrite <- ln_1. apply ln_increasing; lra. }
  destruct (Req_dec e 0) as [->|Hne].
  - rewrite Rmult_0_l, exp_0. lra.
  - left. rewrite <- exp_0. apply exp_increasing. nra.
Qed.

Lemma tickDt_nonneg (delta : R) : 0 <= delta -> 0 <= tickDt delta * 60.
Proof. intros H. unfold tickDt, Rmin. destruct (Rle_dec delta 0.1); lra. Qed.

Lemma integrateControls_steer (s : R) (g : Game) :
  0 <= s -> -1 <= steer (car g) <= 1 ->
  -1 <= steer (car (integrateControls s g)) <= 1.
Proof.
  intros Hs Hg. pose proof (pow_decay 0.88 s ltac:(lra) Hs) as Hpow.
  unfold integrateControls, upd_car. split_cases; cbn;
    unfold Rmax, Rmin; repeat destruct (Rle_dec _ _); nra.
Qed.

Lemma physics_steer (delta : R) (g : Game) :
  steer (car (physics delta g))
  = steer (car (integrateControls (tickDt delta * 60)
                  (set_elapsed (elapsed g + tickDt delta * 1000) g))).
Proof. reflexivity. Qed.

Lemma restart_pose (g : Game) :
  steer (car (restart g)) = 0 /\ speed (car (restart g)) = 0
  /\ heading (car (restart g)) = 0 /\ yawRate (car (restart g)) = 0
  /\ pos (car (restart g)) = Vector3.mk (- LANE_W * 1.5) 0 (RB_OUT + ROAD_L * 0.55).
Proof.
  destruct (activeMission_is_Some g) as [e He].
  rewrite (restart_car g e He). by repeat split.
Qed.

Lemma _update_steer (delta : R) (g : Game) :
  0 <= delta -> -1 <= steer (car g) <= 1 -> -1 <= steer (car (_update delta g).1) <= 1.
Proof.
  intros Hd Hg.
  destruct (frame_car delta g) as [[_ ->]|[(_ & _ & g1 & Hcar & ->)|[g3 ->]]].
  - exact Hg.
  - pose proof (_updateStateMachine_drive (tickDt delta) g1) as Hsd.
    rewrite (sd_steer _ _ Hsd), Hcar, physics_steer.
    apply integrateControls_steer; [by apply tickDt_nonneg | exact Hg].
  - destruct (restart_pose g3) as (-> & _). lra.
Qed.

(** X4.  With a clock that does not run backwards, the steering input of
    the player stays in [-1, 1] through any history: the arrow keys move
    it by 0.13 per frame at 60 fps up to the stop, and it decays by 0.88
    per frame when released. *)
Theorem steer_bounded (rnd : nat -> R) (cmds : list Command) :
  Forall forwardClock cmds -> -1 <= steer (car (run rnd cmds)) <= 1.
Proof.
  unfold run. intros Hcmds.
  assert (-1 <= steer (car (new_game rnd)) <= 1) as H0 by (cbn; lra).
  revert H0. generalize (new_game rnd).
  induction Hcmds as [|cmd cmds Hcmd _ IH]; intros g Hg; [exact Hg|].
  cbn [fold_left]. apply IH.
  destruct cmd as [delta|code|code| | | |on]; cbn [perform].
  - by apply _update_steer.
  - unfold _onKeyDown, _toggleIndicator. destruct (_preview g); [exact Hg|].
    cbv zeta. repeat case_decide; exact Hg.
  - unfold _onKeyUp. by destruct (negb (_preview g)).
  - exact Hg.
  - destruct (restart_pose g) as (-> & _). lra.
  - unfold nextMission.
    destruct (restart_pose (set__missionIndex (S (_missionIndex g)) g)) as (-> & _). lra.
  - unfold setIndDebugMode. destruct on.
    + exact Hg.
    + cbv zeta. destruct (fold_left _ _ _) as [l rnd']. exact Hg.
Qed.

Lemma steer_bounded_witness :
  -1 <= steer (car (run (fun _ => 0)
                      [StartGame; KeyDown "ArrowLeft"; Frame 0.016; Frame 0.016])) <= 1.
Proof. apply steer_bounded. repeat constructor; cbn; lra. Defined.

(** ** The move of the player in a frame *)

(** The pose integration moves the car along its new heading by its speed
    times the frame scale. *)
Lemma integratePose_move (s : R) (g : Game) :
  let c' := car (integratePose s g) in
  Vector3.x (pos c') = Vector3.x (pos (car g)) + sin (heading c') * speed c' * s
  /\ Vector3.z (pos c') = Vector3.z (pos (car g)) + - cos (heading c') * speed c' * s.
Proof. by split. Qed.

Lemma physics_move (delta : R) (g : Game) :
  let c' := car (physics delta g) in
  Vector3.x (pos c') = Vector3.x (pos (car g)) + sin (heading c') * speed c' * (tickDt delta * 60)
  /\ Vector3.z (pos c')
     = Vector3.z (pos (car g)) + - cos (heading c') * speed c' * (tickDt delta * 60).
Proof.
  unfold physics. cbv zeta.
  change (pos (car g))
    with (pos (car (set_elapsed (elapsed g + tickDt delta * 1000) g))).
  generalize (set_elapsed (elapsed g + tickDt delta * 1000) g). intros g0.
  assert (pos (car (integrateControls (tickDt delta * 60) g0)) = pos (car g0)) as <-.
  { unfold integrateControls, upd_car. split_cases; reflexivity. }
  apply integratePose_move.
Qed.

(** X5.  In a live frame that does not end with a restart, the player
    moves along its new heading by exactly its new speed times the frame
    scale [dt * 60]; the move is never longer than 3.3 units, whatever the
    clock delta. *)
Theorem frame_displacement (delta : R) (g : Game) :
  0 <= delta -> _preview g = false -> _indDebug g = false ->
  let g' := (_update delta g).1 in
  let c' := car g' in
  (exists g3 : Game, g' = restart g3)
  \/ (Vector3.x (pos c')
      = Vector3.x (pos (car g)) + sin (heading c') * speed c' * (tickDt delta * 60)
      /\ Vector3.z (pos c')
         = Vector3.z (pos (car g)) - cos (heading c') * speed c' * (tickDt delta * 60)
      /\ dist2 (pos c') (pos (car g)) = sq (speed c' * (tickDt delta * 60))
      /\ dist2 (pos c') (pos (car g)) <= sq 3.3).
Proof.
  intros Hd Hp Hdb. cbv zeta.
  destruct (frame_car delta g) as [[[?|?] _]|[(_ & _ & g1 & Hcar & Hc)|[g3 H3]]];
    [congruence | congruence | | left; by exists g3].
  right. rewrite Hc.
  pose proof (_updateStateMachine_drive (tickDt delta) g1) as Hsd.
  rewrite (sd_pos _ _ Hsd), (sd_heading _ _ Hsd), (sd_speed _ _ Hsd), !Hcar.
  destruct (physics_move delta g) as [Hx Hz]. cbv zeta in Hx, Hz.
  destruct (physics_speed delta g) as [Hv _]. cbv zeta in Hv.
  pose proof (tickDt_nonneg delta Hd) as Hs.
  pose proof (tickDt_cap delta) as Hcap.
  revert Hx Hz Hv. generalize (car (physics delta g)). intros c Hx Hz Hv.
  split; [exact Hx|]. split; [rewrite Hz; lra|].
  assert (dist2 (pos c) (pos (car g)) = sq (speed c * (tickDt delta * 60))) as Hdist.
  { unfold dist2, sq. rewrite Hx, Hz.
    pose proof (sin2_cos2 (heading c)) as Hsc. unfold Rsqr in Hsc.
    set (sn := sin (heading c)) in *. set (cs := cos (heading c)) in *.
    replace (Vector3.x (pos (car g)) + sn * speed c * (tickDt delta * 60)
             - Vector3.x (pos (car g))) with (sn * (speed c * (tickDt delta * 60))) by ring.
    replace (Vector3.z (pos (car g)) + - cs * speed c * (tickDt delta * 60)
             - Vector3.z (pos (car g))) with (- cs * (speed c * (tickDt delta * 60))) by ring.
    generalize (speed c * (tickDt delta * 60)). intros m.
    transitivity ((sn * sn + cs * cs) * (m * m)); [ring | rewrite Hsc; ring]. }
  split; [exact Hdist|]. rewrite Hdist. unfold sq.
  assert (- 3.3 <= speed c * (tickDt delta * 60) <= 3.3) as Hm by nra.
  nra.
Qed.

Lemma frame_displacement_witness :
  let g := startGame (new_game (fun _ => 0)) in
  (exists g3 : Game, (_update 0.016 g).1 = restart g3)
  \/ dist2 (pos (car (_update 0.016 g).1)) (pos (car g)) <= sq 3.3.
Proof.
  intros g.
  destruct (frame_displacement 0.016 g) as [H|(_ & _ & _ & H)];
    [lra | reflexivity | reflexivity | by left | by right].
Defined.

(** ** The indicator debug mode freezes the scene *)

(** In the debug mode, frames and key events leave the pose of the player,
    the agents and the state of the rule engine as they are. *)
Lemma debug_frozen (cmds : list Command) :
  Forall frameOrKey cmds ->
  forall g : Game,
    _preview g = false -> _indDebug g = true ->
    let g' := fold_left perform cmds g in
    pos (car g') = pos (car g) /\ heading (car g') = heading (car g)
    /\ speed (car g') = speed (car g) /\ yawRate (car g') = yawRate (car g)
    /\ npcs g' = npcs g /\ ruleState g' = ruleState g.
Proof.
  induction 1 as [|cmd cmds Hcmd _ IH]; intros g Hp Hd; cbv zeta.
  - by repeat split.
  - cbn [fold_left].
    assert (_preview (perform g cmd) = false /\ _indDebug (perform g cmd) = true
            /\ pos (car (perform g cmd)) = pos (car g)
            /\ heading (car (perform g cmd)) = heading (car g)
            /\ speed (car (perform g cmd)) = speed (car g)
            /\ yawRate (car (perform g cmd)) = yawRate (car g)
            /\ npcs (perform g cmd) = npcs g
            /\ ruleState (perform g cmd) = ruleState g)
      as (Hp1 & Hd1 & <- & <- & <- & <- & <- & <-).
    { destruct cmd as [delta|code|code| | | |on]; try done; cbn [perform].
      - rewrite _update_debug by assumption. by repeat split.
      - unfold _onKeyDown, _toggleIndicator. rewrite Hp. cbv zeta.
        repeat case_decide; by repeat split.
      - unfold _onKeyUp. rewrite Hp. by repeat split. }
    by apply IH.
Qed.

(** X6.  Entering the indicator debug mode parks the player at the middle
    of the south arm and puts every agent in the [debug] state; from then
    on frames and key events never move the player or the agents, and the
    state of the rule engine stays as it was. *)
Theorem debug_mode_freezes (g : Game) (cmds : list Command) :
  _preview g = false -> Forall frameOrKey cmds ->
  let g' := fold_left perform cmds (setIndDebugMode true g) in
  pos (car g') = Vector3.mk 0 0 72
  /\ heading (car g') = 0 /\ speed (car g') = 0 /\ yawRate (car g') = 0
  /\ npcs g' = map (Npc.set_state Npc.debug) (npcs g)
  /\ Forall (fun npc => Npc.state npc = Npc.debug) (npcs g')
  /\ ruleState g' = ruleState g.
Proof.
  intros Hp Hcmds. cbv zeta.
  destruct (debug_frozen cmds Hcmds (setIndDebugMode true g) Hp eq_refl)
    as (-> & -> & -> & -> & -> & ->).
  repeat split.
  cbn. induction (npcs g) as [|npc l IH]; by constructor.
Qed.

Lemma debug_mode_freezes_witness :
  let g := startGame (new_game (fun _ => 0)) in
  let g' := fold_left perform [KeyDown "ArrowUp"; Frame 0.016; Frame 0.1]
              (setIndDebugMode true g) in
  pos (car g') = Vector3.mk 0 0 72 /\ speed (car g') = 0.
Proof.
  intros g g'.
  destruct (debug_mode_freezes g [KeyDown "ArrowUp"; Frame 0.016; Frame 0.1])
    as (H1 & _ & H2 & _); [reflexivity | repeat constructor |].
  by split.
Defined.

(** ** The rule engine on a tick that passes the road and collision checks *)

(** The tick of a running attempt, on the road and clear of the traffic:
    the grace countdown, then the logic of the phase. *)
Lemma _updateStateMachine_running (dt : R) (g : Game) :
  failed (car g) = false -> phase (car g) <> completed ->
  onRoad (pos (car g)) (distFromCenter (pos (car g))) = true ->
  collision (pos (car g)) (npcs g) = false ->
  _updateStateMachine dt g
  = let dist := distFromCenter (pos (car g)) in
    let cr := graceCountdown dt dist (car g) in
    let g1 := set_car cr.1 g in
    if cr.2 then g1
    else match phase cr.1 with
         | approaching => phaseApproaching dist g1
         | on_roundabout => phaseOnRoundabout dist g1
         | exiting => phaseExiting dist g1
         | completed => g1
         end.
Proof.
  intros Hf Hph Hroad Hcol. unfold _updateStateMachine. cbv zeta.
  rewrite Hf, Hroad, Hcol. cbn [orb negb].
  rewrite bool_decide_eq_false_2 by assumption.
  by destruct (graceCountdown dt (distFromCenter (pos (car g))) (car g)) as [c []].
Qed.

(** The logic of a phase never fails the player. *)
Lemma phase_logic_verdict (dist : R) (p : Phase) (g : Game) :
  failed (car match p with
              | approaching => phaseApproaching dist g
              | on_roundabout => phaseOnRoundabout dist g
              | exiting => phaseExiting dist g
              | completed => g
              end) = failed (car g).
Proof.
  destruct p.
  - by destruct (phaseApproaching_verdict dist g).
  - by destruct (phaseOnRoundabout_verdict dist g).
  - by destruct (phaseExiting_verdict dist g).
  - reflexivity.
Qed.

Lemma condOk_graceTimer (t dist : R) (c : Car) (req : option Req) :
  condOk (set_graceTimer t c) dist req = condOk c dist req.
Proof. reflexivity. Qed.

Lemma condOk_approachLane (l : LaneTag) (dist : R) (c : Car) (req : option Req) :
  condOk (set_approachLane l c) dist req = condOk c dist req.
Proof. reflexivity. Qed.

(** ** How a grace period ends *)

(** X7.  On a tick with a pending grace period (player on the road and
    clear of the traffic): if the required condition holds the player
    does not fail, even when the timer runs out on this very tick; if
    it does not hold and the timer runs out, the player fails, with the
    signal message for an indicator requirement and the lane message for
    any other; otherwise the attempt goes on. *)
Theorem grace_resolution (dt : R) (g : Game) :
  failed (car g) = false -> phase (car g) <> completed ->
  onRoad (pos (car g)) (distFromCenter (pos (car g))) = true ->
  collision (pos (car g)) (npcs g) = false ->
  graceActive (car g) = true ->
  let met := condOk (car g) (distFromCenter (pos (car g))) (graceRequired (car g)) in
  let g' := _updateStateMachine dt g in
  (met = true -> failed (car g') = false)
  /\ (met = false -> graceTimer (car g) - dt <= 0 ->
      failed (car g') = true /\ graceActive (car g') = false
      /\ failReason (car g')
         = Some (if isIndViolation (graceRequired (car g))
                 then REASON_SIGNAL else REASON_LANE)
      /\ phase (car g') = phase (car g))
  /\ (met = false -> 0 < graceTimer (car g) - dt -> failed (car g') = false).
Proof.
  intros Hf Hph Hroad Hcol Hact. cbv zeta.
  rewrite (_updateStateMachine_running dt g Hf Hph Hroad Hcol). cbv zeta.
  unfold graceCountdown. rewrite Hact. cbv zeta. rewrite condOk_graceTimer.
  cbn [graceRequired set_graceTimer graceTimer].
  split; [|split].
  - intros ->. cbn [fst snd]. rewrite phase_logic_verdict. exact Hf.
  - intros -> Hexp. rewrite decide_True by exact Hexp. cbn [fst snd]. by repeat split.
  - intros -> Hexp. rewrite decide_False by lra. cbn [fst snd].
    rewrite phase_logic_verdict. exact Hf.
Qed.

Lemma on_south_arm (p : Vector3.t) :
  Rabs (Vector3.x p) < ROAD_W / 2 ->
  RB_OUT - ARM_OVERLAP < Vector3.z p < RB_OUT + ROAD_L ->
  onRoad p (distFromCenter p) = true.
Proof. intros Hx Hz. apply onRoad_drivable. right. left. by split. Qed.

(** The start position, on the south arm. *)
Lemma start_on_road :
  let p := Vector3.mk (- LANE_W * 1.5) 0 (RB_OUT + ROAD_L * 0.55) in
  onRoad p (distFromCenter p) = true.
Proof.
  apply on_south_arm; cbn; unfold ROAD_W, LANE_W, RB_OUT, ARM_OVERLAP, ROAD_L.
  - apply Rabs_def1; lra.
  - lra.
Qed.

Lemma grace_resolution_witness :
  let g := upd_car (fun c => set_graceRequired (Some left)
                               (set_graceTimer 0.01 (set_graceActive true c)))
                   (new_game (fun _ => 0)) in
  failed (car (_updateStateMachine 0.016 g)) = true
  /\ failReason (car (_updateStateMachine 0.016 g)) = Some REASON_SIGNAL.
Proof.
  intros g.
  assert (onRoad (pos (car g)) (distFromCenter (pos (car g))) = true) as Hroad.
  { change (pos (car g)) with (Vector3.mk (- LANE_W * 1.5) 0 (RB_OUT + ROAD_L * 0.55)).
    apply start_on_road. }
  destruct (grace_resolution 0.016 g) as (_ & H & _);
    [reflexivity | discriminate | exact Hroad | reflexivity | reflexivity | ].
  destruct H as (H1 & _ & H3 & _); [reflexivity | cbn; lra |].
  split; [exact H1 | exact H3].
Defined.

(** ** Crashing into the traffic *)

(** The collision loop finds an agent exactly when an active agent is
    closer than 3.5 units. *)
Lemma collision_Exists (p : Vector3.t) (l : list Npc.t) :
  collision p l = true
  <-> Exists (fun npc => activeAgent npc /\ dist2 p (Npc.position npc) < 3.5 * 3.5) l.
Proof.
  induction l as [|npc l IH]; cbn [collision].
  - split; [discriminate | intros H; inversion H].
  - rewrite Exists_cons. unfold activeAgent at 1, dist2 at 1, sq.
    case_decide as Hs.
    + rewrite IH. intuition.
    + case_decide as Hd.
      * split; [intros _; by left | done].
      * rewrite IH. intuition.
Qed.

Lemma collision_Forall (p : Vector3.t) (l : list Npc.t) :
  collision p l = false
  <-> Forall (fun npc => ~ activeAgent npc \/ 3.5 * 3.5 <= dist2 p (Npc.position npc)) l.
Proof.
  induction l as [|npc l IH]; cbn [collision].
  - split; [constructor | done].
  - rewrite Forall_cons. unfold activeAgent at 1, dist2 at 1, sq.
    case_decide as Hs.
    + rewrite IH. intuition.
    + case_decide as Hd.
      * split; [discriminate | intros [[?|?] _]; [done | lra]].
      * rewrite IH. split; [intros H; split; [right; lra | done] | tauto].
Qed.

(** X8.  On a tick of a running attempt with the player on the road: an
    active agent closer than 3.5 units fails the player with the crash
    message, whatever the phase and the pending grace period; despawned
    agents never do.  With every active agent at 3.5 units or more and no
    grace period pending, the tick does not fail the player. *)
Theorem crash_failure (dt : R) (g : Game) :
  failed (car g) = false -> phase (car g) <> completed ->
  onRoad (pos (car g)) (distFromCenter (pos (car g))) = true ->
  let g' := _updateStateMachine dt g in
  (Exists (fun npc => activeAgent npc
                      /\ dist2 (pos (car g)) (Npc.position npc) < 3.5 * 3.5) (npcs g) ->
   failed (car g') = true /\ failReason (car g') = Some REASON_CRASH
   /\ phase (car g') = phase (car g) /\ graceOf (car g') = graceOf (car g))
  /\ (Forall (fun npc => ~ activeAgent npc
                         \/ 3.5 * 3.5 <= dist2 (pos (car g)) (Npc.position npc)) (npcs g) ->
      graceActive (car g) = false -> failed (car g') = false).
Proof.
  intros Hf Hph Hroad. cbv zeta. split.
  - intros Hex. apply collision_Exists in Hex.
    unfold _updateStateMachine. cbv zeta.
    rewrite Hf, Hroad, Hex. cbn [orb negb].
    rewrite bool_decide_eq_false_2 by assumption. by repeat split.
  - intros Hall Hact. apply collision_Forall in Hall.
    by apply _updateStateMachine_survives.
Qed.

Lemma crash_failure_witness :
  let g := set_npcs [Npc.set_position (Vector3.mk (-5.25) 0 80)
                       (Npc.set_state Npc.exiting (initial_npc 0))]
             (new_game (fun _ => 0)) in
  failed (car (_updateStateMachine 0.016 g)) = true
  /\ failReason (car (_updateStateMachine 0.016 g)) = Some REASON_CRASH.
Proof.
  intros g.
  assert (onRoad (pos (car g)) (distFromCenter (pos (car g))) = true) as Hroad.
  { change (pos (car g)) with (Vector3.mk (- LANE_W * 1.5) 0 (RB_OUT + ROAD_L * 0.55)).
    apply start_on_road. }
  destruct (crash_failure 0.016 g) as ((H1 & H2 & _) & _);
    [reflexivity | discriminate | exact Hroad | | by split].
  apply Exists_cons_hd. split; [discriminate|].
  cbn. unfold dist2, sq, LANE_W, RB_OUT, ROAD_L. cbn. lra.
Defined.

(** ** Entering the ring *)

(** With no grace period pending, the tick of an approaching player is the
    logic of the approach. *)
Lemma approaching_tick (dt : R) (g : Game) :
  failed (car g) = false -> phase (car g) = approaching ->
  onRoad (pos (car g)) (distFromCenter (pos (car g))) = true ->
  collision (pos (car g)) (npcs g) = false ->
  graceActive (car g) = false ->
  _updateStateMachine dt g
  = phaseApproaching (distFromCenter (pos (car g))) (set_car (car g) g).
Proof.
  intros Hf Hph Hroad Hcol Hact.
  rewrite (_updateStateMachine_running dt g Hf) by (assumption || congruence).
  cbv zeta. unfold graceCountdown. rewrite Hact. cbn [fst snd]. by rewrite Hph.
Qed.

(** X9.  An approaching player (on the road, clear of the traffic, no
    grace period pending) enters the ring on the first tick at a distance
    of at most [RB_OUT + 1] from the centre: the phase becomes
    [on_roundabout], the traveled angle restarts from 0 and the ring
    trackers are primed with the current angle and distance.  Check (a)
    fires on that tick: a wrong entry indicator starts a grace period of
    3 seconds for the indicator of the mission (left for exit 1, none for
    exit 2, right for exit 3).  Farther out the player stays
    approaching. *)
Theorem ring_entry (dt : R) (g : Game) :
  failed (car g) = false -> phase (car g) = approaching ->
  onRoad (pos (car g)) (distFromCenter (pos (car g))) = true ->
  collision (pos (car g)) (npcs g) = false ->
  graceActive (car g) = false ->
  let dist := distFromCenter (pos (car g)) in
  let req := ENTRY_IND (targetExitNum (car g)) in
  let g' := _updateStateMachine dt g in
  (dist <= RB_OUT + 1 ->
   phase (car g') = on_roundabout /\ traveledAngle (car g') = 0
   /\ _prevRingAngle g' = Some (playerRingAngle (pos (car g)))
   /\ _prevDistFromCenter g' = Some dist
   /\ _checkADone g' = true)
  /\ (dist <= RB_OUT + 1 -> _checkADone g = false -> _checkLaneApproachDone g = true ->
      graceOf (car g')
      = if condOk (car g) dist req then graceOf (car g) else (true, GRACE_DEFAULT, req))
  /\ (RB_OUT + 1 < dist ->
      phase (car g') = approaching /\ _checkADone g' = _checkADone g
      /\ traveledAngle (car g') = traveledAngle (car g)).
Proof.
  intros Hf Hph Hroad Hcol Hact. cbv zeta.
  rewrite (approaching_tick dt g Hf Hph Hroad Hcol Hact).
  generalize (distFromCenter (pos (car g))). intros dist.
  split; [|split].
  - intros Hd. unfold phaseApproaching. cbv zeta.
    rewrite decide_True by exact Hd.
    split; [reflexivity|]. split; [reflexivity|].
    split; [|split; [reflexivity|]].
    + unfold upd_car, startGrace. split_cases; reflexivity.
    + match goal with |- context [if negb (_checkADone ?g2) then _ else _] =>
        generalize g2 end.
      intros g2. unfold upd_car, startGrace.
      destruct (_checkADone g2) eqn:HA; cbn [negb]; [exact HA|].
      split_cases; reflexivity.
  - intros Hd HA HL. unfold phaseApproaching. cbv zeta.
    unfold upd_car, startGrace.
    cbn -[condOk ENTRY_IND playerRingAngle decide]. rewrite HL.
    cbn -[condOk ENTRY_IND playerRingAngle decide]. rewrite HA.
    cbn -[condOk ENTRY_IND playerRingAngle decide].
    rewrite condOk_approachLane, Hact, decide_True by exact Hd.
    destruct (condOk (car g) dist (ENTRY_IND (targetExitNum (car g)))); reflexivity.
  - intros Hd. unfold phaseApproaching. cbv zeta.
    rewrite decide_False by lra.
    unfold upd_car, startGrace. split_cases; by repeat split.
Qed.

Lemma ring_entry_witness :
  let g := upd_car (set_pos (Vector3.mk (-5.25) 0 22)) (new_game (fun _ => 0)) in
  phase (car (_updateStateMachine 0.016 g)) = on_roundabout
  /\ traveledAngle (car (_updateStateMachine 0.016 g)) = 0.
Proof.
  intros g.
  assert (onRoad (pos (car g)) (distFromCenter (pos (car g))) = true) as Hroad.
  { change (pos (car g)) with (Vector3.mk (-5.25) 0 22).
    apply on_south_arm; cbn; unfold ROAD_W, RB_OUT, ARM_OVERLAP, ROAD_L;
      [apply Rabs_def1; lra | lra]. }
  destruct (ring_entry 0.016 g) as ((H1 & H2 & _) & _);
    [reflexivity | reflexivity | exact Hroad | reflexivity | reflexivity | | by split].
  change (pos (car g)) with (Vector3.mk (-5.25) 0 22).
  left. apply distFromCenter_lt; unfold RB_OUT; cbn; lra.
Defined.

(** ** The approach-lane check *)

(** X10.  The approach-lane check fires once, on the first tick of the
    approach within 20 units of the kerb radius: a mission to exit 1 driven
    in the inner lane starts a grace period of 4 seconds to move to the
    outer lane, a mission to exit 3 driven in the outer lane one to move to
    the inner lane, and a mission to exit 2 is never checked.  Farther
    out, or once the check has fired, no grace period starts on the
    approach. *)
Theorem approach_lane_check (dt : R) (g : Game) :
  failed (car g) = false -> phase (car g) = approaching ->
  onRoad (pos (car g)) (distFromCenter (pos (car g))) = true ->
  collision (pos (car g)) (npcs g) = false ->
  graceActive (car g) = false ->
  let dist := distFromCenter (pos (car g)) in
  let inOuter := bool_decide (Vector3.x (pos (car g)) < - LANE_W) in
  let g' := _updateStateMachine dt g in
  RB_OUT + 1 < dist ->
  (_checkLaneApproachDone g = false -> dist < RB_OUT + 20 ->
   _checkLaneApproachDone g' = true
   /\ graceOf (car g')
      = if bool_decide (targetExitNum (car g) = Some 1%nat) && negb inOuter
        then (true, 4.0, Some approach_outer)
        else if bool_decide (targetExitNum (car g) = Some 3%nat) && inOuter
             then (true, 4.0, Some approach_inner)
             else graceOf (car g))
  /\ (_checkLaneApproachDone g = true \/ RB_OUT + 20 <= dist ->
      _checkLaneApproachDone g' = _checkLaneApproachDone g
      /\ graceOf (car g') = graceOf (car g))
  /\ approachLane (car g') = (if inOuter then outer else inner)
  /\ phase (car g') = approaching.
Proof.
  intros Hf Hph Hroad Hcol Hact. cbv zeta.
  rewrite (approaching_tick dt g Hf Hph Hroad Hcol Hact).
  generalize (distFromCenter (pos (car g))). intros dist Hfar.
  unfold phaseApproaching. cbv zeta. unfold upd_car, startGrace.
  rewrite (decide_False (P := dist <= RB_OUT + 1)) by lra.
  split; [|split; [|split]].
  - intros HL Hnear.
    cbn -[decide]. rewrite HL. cbn -[decide].
    rewrite bool_decide_eq_true_2 by exact Hnear. cbn -[decide].
    destruct (bool_decide (targetExitNum (car g) = Some 1%nat)) eqn:E1;
      destruct (bool_decide (targetExitNum (car g) = Some 3%nat)) eqn:E3;
      destruct (bool_decide (Vector3.x (pos (car g)) < - LANE_W)) eqn:Eo;
      try (apply bool_decide_eq_true in E1, E3; congruence);
      do 3 (cbn -[decide]; rewrite ?Hact, ?E3, ?andb_false_r); by split.
  - intros [HL|Hout].
    + cbn -[decide]. rewrite HL. by split.
    + cbn -[decide]. rewrite (bool_decide_eq_false_2 (dist < RB_OUT + 20)) by lra.
      rewrite andb_false_r. cbn -[decide]. by split.
  - cbn -[decide].
    destruct (decide (Vector3.x (pos (car g)) < - LANE_W)) as [Hx|Hx];
      [rewrite !(bool_decide_eq_true_2 _ Hx) | rewrite !(bool_decide_eq_false_2 _ Hx)];
      split_cases; reflexivity.
  - split_cases; exact Hph.
Qed.

Lemma approach_lane_check_witness :
  let g := upd_car (set_pos (Vector3.mk (-1.75) 0 40)) (new_game (fun _ => 0)) in
  graceOf (car (_updateStateMachine 0.016 g)) = (true, 4.0, Some approach_outer).
Proof.
  intros g.
  assert (onRoad (pos (car g)) (distFromCenter (pos (car g))) = true) as Hroad.
  { change (pos (car g)) with (Vector3.mk (-1.75) 0 40).
    apply on_south_arm; cbn; unfold ROAD_W, RB_OUT, ARM_OVERLAP, ROAD_L;
      [apply Rabs_def1; lra | lra]. }
  destruct (approach_lane_check 0.016 g) as ((_ & H) & _);
    [reflexivity | reflexivity | exact Hroad | reflexivity | reflexivity | | reflexivity | | ].
  - change (pos (car g)) with (Vector3.mk (-1.75) 0 40).
    apply distFromCenter_gt; unfold RB_OUT; cbn; lra.
  - change (pos (car g)) with (Vector3.mk (-1.75) 0 40).
    apply distFromCenter_lt; unfold RB_OUT; cbn; lra.
  - rewrite H. change (Vector3.x (pos (car g))) with (-1.75).
    rewrite (bool_decide_eq_false_2 (-1.75 < - LANE_W)) by (unfold LANE_W; lra).
    reflexivity.
Defined.

(** ** The phases of an attempt only advance *)

Ltac phase_block := intros; unfold_blocks; split_cases; reflexivity.

Lemma checkB_phase dist g : phase (car (checkB dist g)) = phase (car g).
Proof. phase_block. Qed.
Lemma checkD_phase dist g : phase (car (checkD dist g)) = phase (car g).
Proof. phase_block. Qed.
Lemma checkC_phase dist g : phase (car (checkC dist g)) = phase (car g).
Proof. phase_block. Qed.
Lemma ringLaneCheck_phase dist g : phase (car (ringLaneCheck dist g)) = phase (car g).
Proof. phase_block. Qed.
Lemma laneChangeCheck_phase dist g : phase (car (laneChangeCheck dist g)) = phase (car g).
Proof. phase_block. Qed.
Lemma trackRingAngle_phase g : phase (car (trackRingAngle g)) = phase (car g).
Proof. reflexivity. Qed.

Lemma exitTransition_phase g :
  phase (car (exitTransition g))
  = if bool_decide (traveledAngle (car g) >= exitTravelTarget (car g) - 0.15)
       || onExitArm (car g)
    then exiting else phase (car g).
Proof.
  unfold exitTransition, upd_car. cbv zeta.
  destruct (onExitArm (car g)); cbn.
  - by rewrite orb_true_r.
  - by destruct (bool_decide _).
Qed.

Lemma phaseOnRoundabout_phase dist g :
  phase (car (phaseOnRoundabout dist g)) = phase (car g)
  \/ phase (car (phaseOnRoundabout dist g)) = exiting.
Proof.
  unfold phaseOnRoundabout. cbv zeta. rewrite exitTransition_phase.
  match goal with |- context [if ?b then _ else _] => destruct b end; [by right|].
  left. by rewrite laneChangeCheck_phase, ringLaneCheck_phase, checkC_phase,
    checkD_phase, checkB_phase, trackRingAngle_phase.
Qed.

Lemma phaseApproaching_phase dist g :
  phase (car (phaseApproaching dist g)) = phase (car g)
  \/ phase (car (phaseApproaching dist g)) = on_roundabout.
Proof.
  unfold phaseApproaching. cbv zeta. case_decide; [by right | left].
  unfold upd_car, startGrace. split_cases; reflexivity.
Qed.

Lemma phaseExiting_phase dist g :
  phase (car (phaseExiting dist g)) = phase (car g)
  \/ phase (car (phaseExiting dist g)) = completed.
Proof. unfold phaseExiting. case_decide; [by right | by left]. Qed.

Lemma _updateStateMachine_rank (dt : R) (g : Game) :
  (phaseRank (phase (car g)) <= phaseRank (phase (car (_updateStateMachine dt g)))
   <= S (phaseRank (phase (car g))))%nat.
Proof.
  unfold _updateStateMachine. cbv zeta.
  destruct (failed (car g)) eqn:Hf; cbn [orb]; [lia|].
  case_bool_decide as Hc; [lia|].
  destruct (negb (onRoad _ _)); [cbn; lia|].
  destruct (collision _ _); [cbn; lia|].
  pose proof (graceCountdown_verdict dt (distFromCenter (pos (car g))) (car g) Hf) as Hgc.
  destruct (graceCountdown dt (distFromCenter (pos (car g))) (car g)) as [c returned].
  destruct Hgc as (_ & _ & Hph & _). rewrite <- Hph.
  destruct returned; [cbn; lia|].
  destruct (phase c) eqn:Hc'.
  - destruct (phaseApproaching_phase (distFromCenter (pos (car g))) (set_car c g))
      as [-> | ->]; cbn [car set_car]; rewrite ?Hc'; cbn; lia.
  - destruct (phaseOnRoundabout_phase (distFromCenter (pos (car g))) (set_car c g))
      as [-> | ->]; cbn [car set_car]; rewrite ?Hc'; cbn; lia.
  - destruct (phaseExiting_phase (distFromCenter (pos (car g))) (set_car c g))
      as [-> | ->]; cbn [car set_car]; rewrite ?Hc'; cbn; lia.
  - cbn [car set_car]. rewrite Hc'. cbn. lia.
Qed.

Lemma ruleState_phase (g g' : Game) :
  ruleState g' = ruleState g -> phase (car g') = phase (car g).
Proof. intros H. by apply (f_equal (fun s => s.1.1.1.1.1.1.1.1.1.1.1)) in H. Qed.

(** X11.  Inside an attempt the phase never goes back and never skips a
    step: a tick of the rule engine, and so a whole simulation step or a
    key event, leaves the phase where it is or moves it to the next one in
    the order approaching, on the ring, exiting, completed. *)
Theorem phases_only_advance :
  (forall (dt : R) (g : Game),
     (phaseRank (phase (car g)) <= phaseRank (phase (car (_updateStateMachine dt g)))
      <= S (phaseRank (phase (car g))))%nat)
  /\ (forall (g : Game) (ev : AttemptEvent),
        (phaseRank (phase (car g)) <= phaseRank (phase (car (attemptStep g ev)))
         <= S (phaseRank (phase (car g))))%nat).
Proof.
  split; [exact _updateStateMachine_rank|].
  intros g [delta|code|code]; cbn [attemptStep].
  - cbv zeta. rewrite simulate_stages. cbv zeta. cbn [fst].
    rewrite <- (ruleState_phase _ _ (traffic_rule delta g)).
    apply _updateStateMachine_rank.
  - unfold _onKeyDown, _toggleIndicator. destruct (_preview g); [lia|].
    cbv zeta. repeat case_decide; cbn; lia.
  - unfold _onKeyUp. destruct (negb (_preview g)); cbn; lia.
Qed.

(** ** Leaving the ring *)

Lemma graceCountdown_alive (dt dist : R) (c : Car) :
  (graceActive c = true -> dt < graceTimer c) ->
  (graceCountdown dt dist c).2 = false
  /\ failed (graceCountdown dt dist c).1 = failed c
  /\ phase (graceCountdown dt dist c).1 = phase c.
Proof.
  intros Halive. unfold graceCountdown.
  destruct (graceActive c); [|by repeat split].
  specialize (Halive eq_refl). cbv zeta.
  destruct (condOk _ _ _); [by repeat split|].
  rewrite decide_False by (cbn; lra). by repeat split.
Qed.

Lemma onExitArm_drive (c c' : Car) :
  targetExit c' = targetExit c -> pos c' = pos c -> onExitArm c' = onExitArm c.
Proof. intros Ht Hp. unfold onExitArm. by rewrite Ht, Hp. Qed.

Lemma exitTransition_arm (g : Game) :
  onExitArm (car g) = true -> graceActive (car (exitTransition g)) = false.
Proof.
  intros Harm. unfold exitTransition, upd_car. cbv zeta. rewrite Harm.
  by rewrite orb_true_r.
Qed.

(** The ring logic up to the exit transition. *)
Lemma ring_checks_drive (dist : R) (g : Game) :
  let g5 := laneChangeCheck dist (ringLaneCheck dist (checkC dist (checkD dist
              (checkB dist (trackRingAngle
                 (upd_car (set_ringLane (if decide (dist < RB_MID) then inner else outer))
                    g)))))) in
  SameDrive g g5 /\ phase (car g5) = phase (car g).
Proof.
  cbv zeta. split.
  - eapply SameDrive_trans; [|apply laneChangeCheck_drive].
    eapply SameDrive_trans; [|apply ringLaneCheck_drive].
    eapply SameDrive_trans; [|apply checkC_drive].
    eapply SameDrive_trans; [|apply checkD_drive].
    eapply SameDrive_trans; [|apply checkB_drive].
    eapply SameDrive_trans; [|apply trackRingAngle_drive].
    by constructor.
  - by rewrite laneChangeCheck_phase, ringLaneCheck_phase, checkC_phase,
      checkD_phase, checkB_phase, trackRingAngle_phase.
Qed.

(** X12.  On a tick of the ring phase that does not fail (on the road,
    clear of the traffic, no grace period running out), the player passes
    to the exiting phase exactly when the traveled angle has come within
    0.15 radians of the target of the mission or the car is physically on
    the arm of its target exit, beyond the kerb radius; in the second case
    any pending grace period is dropped. *)
Theorem ring_exit (dt : R) (g : Game) :
  failed (car g) = false -> phase (car g) = on_roundabout ->
  onRoad (pos (car g)) (distFromCenter (pos (car g))) = true ->
  collision (pos (car g)) (npcs g) = false ->
  (graceActive (car g) = true -> dt < graceTimer (car g)) ->
  let g' := _updateStateMachine dt g in
  failed (car g') = false
  /\ phase (car g')
     = (if bool_decide (traveledAngle (car g') >= exitTravelTarget (car g) - 0.15)
           || onExitArm (car g)
        then exiting else on_roundabout)
  /\ (onExitArm (car g) = true -> graceActive (car g') = false).
Proof.
  intros Hf Hph Hroad Hcol Halive. cbv zeta.
  rewrite (_updateStateMachine_running dt g Hf) by (assumption || congruence).
  cbv zeta.
  destruct (graceCountdown_alive dt (distFromCenter (pos (car g))) (car g) Halive)
    as (Hret & Hfc & Hpc).
  pose proof (graceCountdown_drive dt (distFromCenter (pos (car g))) g) as Hd0.
  revert Hret Hfc Hpc Hd0.
  generalize (graceCountdown dt (distFromCenter (pos (car g))) (car g)).
  intros [c ret]. cbn [fst snd]. intros -> Hfc Hpc Hd0.
  rewrite Hpc, Hph.
  generalize (distFromCenter (pos (car g))). intros dist.
  assert (failed (car (set_car c g)) = false) as Hf0 by (cbn; congruence).
  assert (phase (car (set_car c g)) = on_roundabout) as Hp0 by (cbn; congruence).
  revert Hd0 Hf0 Hp0. generalize (set_car c g). clear c Hfc Hpc. intros g0 Hd0 Hf0 Hp0.
  split; [|split].
  - destruct (phaseOnRoundabout_verdict dist g0) as [-> _]. exact Hf0.
  - unfold phaseOnRoundabout. cbv zeta.
    destruct (ring_checks_drive dist g0) as [Hd5 Hp5]. cbv zeta in Hd5, Hp5.
    revert Hd5 Hp5.
    match goal with |- context [exitTransition ?g5] => generalize g5 end.
    intros g5 Hd5 Hp5.
    rewrite exitTransition_phase.
    destruct (exitTransition_travel g5) as (_ & _ & ->).
    pose proof (SameDrive_trans _ _ _ Hd0 Hd5) as Hsd.
    rewrite (sd_exitTravelTarget _ _ Hsd).
    rewrite (onExitArm_drive (car g) (car g5) (sd_targetExit _ _ Hsd) (sd_pos _ _ Hsd)).
    by rewrite Hp5, Hp0.
  - intros Harm. unfold phaseOnRoundabout. cbv zeta.
    destruct (ring_checks_drive dist g0) as [Hd5 _]. cbv zeta in Hd5.
    revert Hd5.
    match goal with |- context [exitTransition ?g5] => generalize g5 end.
    intros g5 Hd5. apply exitTransition_arm.
    pose proof (SameDrive_trans _ _ _ Hd0 Hd5) as Hsd.
    by rewrite (onExitArm_drive (car g) (car g5) (sd_targetExit _ _ Hsd) (sd_pos _ _ Hsd)).
Qed.

Lemma ring_exit_witness :
  let g := upd_car (fun c => set_phase on_roundabout (set_pos (Vector3.mk (-30) 0 0) c))
             (new_game (fun _ => 0)) in
  phase (car (_updateStateMachine 0.016 g)) = exiting.
Proof.
  intros g.
  assert (onRoad (pos (car g)) (distFromCenter (pos (car g))) = true) as Hroad.
  { change (pos (car g)) with (Vector3.mk (-30) 0 0).
    apply onRoad_drivable. do 4 right. unfold inArm, ROAD_W, RB_OUT, ARM_OVERLAP, ROAD_L.
    cbn. split; [rewrite Rabs_R0; lra | lra]. }
  destruct (ring_exit 0.016 g) as (_ & H & _);
    [reflexivity | reflexivity | exact Hroad | reflexivity | discriminate |].
  rewrite H.
  assert (onExitArm (car g) = true) as ->; [|by rewrite orb_true_r].
  unfold onExitArm.
  change (pos (car g)) with (Vector3.mk (-30) 0 0).
  change (targetExit (car g)) with (Some west). cbn [Vector3.x Vector3.z].
  rewrite (bool_decide_eq_true_2 (Some west = Some west)) by reflexivity.
  rewrite (bool_decide_eq_true_2 (-30 < - RB_OUT)) by (unfold RB_OUT; lra).
  rewrite (bool_decide_eq_true_2 (Rabs 0 < ROAD_W / 2))
    by (rewrite Rabs_R0; unfold ROAD_W; lra).
  reflexivity.
Defined.

(** ** Completing the mission *)

(** X13.  An exiting player (on the road, clear of the traffic, no grace
    period running out) completes the mission on the first tick at a
    distance of at least [RB_OUT + 8] from the centre: the phase becomes
    [completed] and the completion countdown is set to 2 seconds.  Closer
    in, the player stays in the exiting phase and the countdown is not
    started. *)
Theorem mission_completion (dt : R) (g : Game) :
  failed (car g) = false -> phase (car g) = exiting ->
  onRoad (pos (car g)) (distFromCenter (pos (car g))) = true ->
  collision (pos (car g)) (npcs g) = false ->
  (graceActive (car g) = true -> dt < graceTimer (car g)) ->
  let dist := distFromCenter (pos (car g)) in
  let g' := _updateStateMachine dt g in
  failed (car g') = false
  /\ (RB_OUT + 8 <= dist -> phase (car g') = completed /\ _completeTimer g' = 2.0)
  /\ (dist < RB_OUT + 8 ->
      phase (car g') = exiting /\ _completeTimer g' = _completeTimer g).
Proof.
  intros Hf Hph Hroad Hcol Halive. cbv zeta.
  rewrite (_updateStateMachine_running dt g Hf) by (assumption || congruence).
  cbv zeta.
  destruct (graceCountdown_alive dt (distFromCenter (pos (car g))) (car g) Halive)
    as (Hret & Hfc & Hpc).
  revert Hret Hfc Hpc.
  generalize (graceCountdown dt (distFromCenter (pos (car g))) (car g)).
  intros [c ret]. cbn [fst snd]. intros -> Hfc Hpc.
  rewrite Hpc, Hph.
  generalize (distFromCenter (pos (car g))). intros dist.
  unfold phaseExiting, upd_car. case_decide as Hd; cbn.
  - split; [congruence|]. split; [done | intros; exfalso; lra].
  - apply Rnot_ge_lt in Hd.
    split; [congruence|]. split; [intros; exfalso; lra | intros _; split; congruence].
Qed.

Lemma mission_completion_witness :
  let g := upd_car (fun c => set_phase exiting (set_pos (Vector3.mk (-31) 0 0) c))
             (new_game (fun _ => 0)) in
  phase (car (_updateStateMachine 0.016 g)) = completed
  /\ _completeTimer (_updateStateMachine 0.016 g) = 2.0.
Proof.
  intros g.
  assert (onRoad (pos (car g)) (distFromCenter (pos (car g))) = true) as Hroad.
  { change (pos (car g)) with (Vector3.mk (-31) 0 0).
    apply onRoad_drivable. do 4 right. unfold inArm, ROAD_W, RB_OUT, ARM_OVERLAP, ROAD_L.
    cbn. split; [rewrite Rabs_R0; lra | lra]. }
  destruct (mission_completion 0.016 g) as (_ & H & _);
    [reflexivity | reflexivity | exact Hroad | reflexivity | discriminate |].
  apply H. change (pos (car g)) with (Vector3.mk (-31) 0 0).
  left. apply distFromCenter_gt; unfold RB_OUT; cbn; lra.
Defined.

(** ** Invariants of the rule engine over whole histories *)

(** X14.  After any history of frames, key events and commands, a
    completion countdown is running only for a player in the [completed]
    phase who has not failed. *)
Theorem countdown_only_after_completion (rnd : nat -> R) (cmds : list Command) :
  _completeTimer (run rnd cmds) <= 0
  \/ (phase (car (run rnd cmds)) = completed /\ failed (car (run rnd cmds)) = false).
Proof.
  pose proof (run_countdownSound rnd cmds) as Hs.
  destruct (Rle_dec (_completeTimer (run rnd cmds)) 0) as [|Hn]; [by left|].
  right. apply Hs. lra.
Qed.

(** X15.  After any history, the angle that the ring tracker remembers
    from the previous tick, when there is one, is normalised to
    [0, 2 PI): the unwrapping of the angle delta relies on it. *)
Theorem ring_tracker_normalised (rnd : nat -> R) (cmds : list Command) :
  match _prevRingAngle (run rnd cmds) with
  | Some p => 0 <= p < TWO_PI
  | None => True
  end.
Proof.
  pose proof (tracker_always_normalised rnd cmds) as H.
  destruct (_prevRingAngle (run rnd cmds)) as [p|] eqn:E; [|done].
  by apply H.
Qed.

Lemma graceCountdown_verdictSound (dt dist : R) (c : Car) :
  failed c = false -> failReason c = None ->
  verdictSound (graceCountdown dt dist c).1
  /\ failed (graceCountdown dt dist c).1 = (graceCountdown dt dist c).2.
Proof.
  intros Hf Hr. unfold graceCountdown.
  destruct (graceActive c); [|split; [by right | done]].
  cbv zeta. destruct (condOk _ _ _); [split; [by right | done]|].
  case_decide; [|split; [by right | done]].
  split; [|done]. left. split; [done|]. cbn.
  destruct (isIndViolation _); eexists; (split; [reflexivity|]);
    unfold failMessages; set_solver.
Qed.

Lemma _updateStateMachine_verdictSound (dt : R) (g : Game) :
  verdictSound (car g) -> verdictSound (car (_updateStateMachine dt g)).
Proof.
  intros Hs. unfold _updateStateMachine. cbv zeta.
  destruct (failed (car g)) eqn:Hf; cbn [orb]; [exact Hs|].
  case_bool_decide as Hc; [exact Hs|].
  destruct Hs as [[Hx _]|[_ Hr]]; [congruence|].
  destruct (negb (onRoad _ _)).
  { left. split; [done|]. cbn. case_decide; eexists; (split; [reflexivity|]);
      unfold failMessages; set_solver. }
  destruct (collision _ _).
  { left. split; [done|]. cbn. eexists. split; [reflexivity|].
    unfold failMessages; set_solver. }
  destruct (graceCountdown_verdictSound dt (distFromCenter (pos (car g))) (car g) Hf Hr)
    as [Hv Hret].
  revert Hv Hret.
  generalize (distFromCenter (pos (car g))). intros dist.
  generalize (graceCountdown dt dist (car g)). intros [c ret]. cbn [fst snd].
  intros Hv Hret. destruct ret; [exact Hv|].
  destruct Hv as [[Hx _]|[_ Hr']]; [congruence|].
  right. destruct (phase c).
  - destruct (phaseApproaching_verdict dist (set_car c g)) as [-> ->]. by split.
  - destruct (phaseOnRoundabout_verdict dist (set_car c g)) as [-> ->]. by split.
  - destruct (phaseExiting_verdict dist (set_car c g)) as [-> ->]. by split.
  - by split.
Qed.

Lemma ruleState_verdictSound (g g' : Game) :
  ruleState g' = ruleState g -> verdictSound (car g) -> verdictSound (car g').
Proof.
  intros H. destruct (ruleState_fields _ _ H) as (Hf & Hr & _).
  unfold verdictSound. by rewrite Hf, Hr.
Qed.

Lemma restart_verdictSound (g : Game) : verdictSound (car (restart g)).
Proof.
  destruct (activeMission_is_Some g) as [e He].
  rewrite (restart_car g e He). by right.
Qed.

Lemma _update_verdictSound (delta : R) (g : Game) :
  verdictSound (car g) -> verdictSound (car (_update delta g).1).
Proof.
  intros Hs.
  destruct (_preview g) eqn:Hp; [by rewrite _update_preview|].
  destruct (_indDebug g) eqn:Hd; [by rewrite _update_debug|].
  rewrite _update_live by assumption. cbv zeta. rewrite simulate_stages. cbv zeta.
  cbn [fst snd].
  pose proof (ruleState_verdictSound _ _ (traffic_rule delta g) Hs) as H1.
  revert H1.
  generalize (_updateNPCs (tickDt delta) (tickDt delta * 60)
                (blink (tickDt delta) (physics delta g))).
  intros g1 H1.
  apply (_updateStateMachine_verdictSound (tickDt delta)) in H1. revert H1.
  generalize (_updateStateMachine (tickDt delta) g1). intros g2 H2.
  generalize (Rabs (speed (car (integrateControls (tickDt delta * 60)
                (set_elapsed (elapsed g + tickDt delta * 1000) g))))). intros spd.
  unfold completeCountdown. case_decide as Hpos; [|exact H2].
  case_decide as Hend; cbn [fst]; [apply restart_verdictSound | exact H2].
Qed.

(** X16.  After any history, the verdict shown to the player is
    coherent: a failed player carries one of the five messages of the fail
    overlay, and a player who has not failed carries none. *)
Theorem fail_reason_iff_failed (rnd : nat -> R) (cmds : list Command) :
  let c := car (run rnd cmds) in
  (failed c = true
   /\ exists m : string,
        failReason c = Some m
        /\ m ∈ [REASON_ISLAND; REASON_GRASS; REASON_CRASH; REASON_SIGNAL; REASON_LANE])
  \/ (failed c = false /\ failReason c = None).
Proof.
  cbv zeta. change (verdictSound (car (run rnd cmds))). unfold run.
  assert (verdictSound (car (new_game rnd))) as H0 by (by right).
  revert H0. generalize (new_game rnd).
  induction cmds as [|cmd cmds IH]; intros g Hg; [exact Hg|].
  cbn [fold_left]. apply IH.
  destruct cmd as [delta|code|code| | | |on]; cbn [perform].
  - by apply _update_verdictSound.
  - unfold _onKeyDown, _toggleIndicator. destruct (_preview g); [exact Hg|].
    cbv zeta. repeat case_decide; exact Hg.
  - unfold _onKeyUp. by destruct (negb (_preview g)).
  - exact Hg.
  - apply restart_verdictSound.
  - apply restart_verdictSound.
  - unfold setIndDebugMode. destruct on.
    + exact Hg.
    + cbv zeta. destruct (fold_left _ _ _) as [l rnd']. exact Hg.
Qed.

(** ** The traffic geometry *)

(** The polar form of a point through [Math.atan2]: for a point (a, b)
    other than the origin, at distance rho from it, the angle
    atan2 (b, a) has cosine a / rho and sine b / rho. *)
Lemma hypot_scaled (a b : R) :
  a <> 0 -> sqrt (1 + (b / a)²) * Rabs a = sqrt (a * a + b * b).
Proof.
  intros Ha.
  rewrite <- (sqrt_Rsqr_abs a), <- sqrt_mult.
  - f_equal. unfold Rsqr. field. exact Ha.
  - unfold Rsqr. nra.
  - apply Rle_0_sqr.
Qed.

Lemma atan2_sin_cos (b a : R) :
  a <> 0 \/ b <> 0 ->
  sqrt (a * a + b * b) * cos (JS.atan2 b a) = a
  /\ sqrt (a * a + b * b) * sin (JS.atan2 b a) = b.
Proof.
  intros Hne. unfold JS.atan2.
  assert (forall t : R, 0 < sqrt (1 + t²)) as Hpos.
  { intros t. apply sqrt_lt_R0. unfold Rsqr. nra. }
  case_decide as Hp.
  { rewrite <- (hypot_scaled a b) by lra. rewrite Rabs_right by lra.
    rewrite cos_atan, sin_atan. specialize (Hpos (b / a)).
    split; field; lra. }
  case_decide as Hn.
  { rewrite <- (hypot_scaled a b) by lra. rewrite Rabs_left by lra.
    specialize (Hpos (b / a)).
    case_decide.
    - rewrite neg_cos, neg_sin, cos_atan, sin_atan. split; field; lra.
    - unfold Rminus. rewrite cos_plus, sin_plus, cos_neg, sin_neg, cos_PI, sin_PI.
      rewrite cos_atan, sin_atan. split; field; lra. }
  assert (a = 0) as -> by lra.
  destruct Hne as [?|Hb]; [done|].
  replace (0 * 0 + b * b) with (Rsqr b) by (unfold Rsqr; ring).
  rewrite sqrt_Rsqr_abs.
  case_decide.
  { rewrite cos_PI2, sin_PI2, Rabs_right by lra. lra. }
  case_decide; [|lra].
  rewrite cos_neg, sin_neg, cos_PI2, sin_PI2, Rabs_left by lra. lra.
Qed.

(** The normalisation of an angle keeps its sine and cosine. *)
Lemma normalise_trig (raw : R) :
  - PI < raw <= PI ->
  cos (((raw %% TWO_PI) + TWO_PI) %% TWO_PI) = cos raw
  /\ sin (((raw %% TWO_PI) + TWO_PI) %% TWO_PI) = sin raw.
Proof.
  intros Hraw. rewrite normalise_angle by exact Hraw.
  case_decide; [|done].
  destruct (trig_turns raw 1) as [Hc Hs].
  replace (raw + TWO_PI * 1) with (raw + TWO_PI) in Hc, Hs by ring. by split.
Qed.

(** The polar form in the convention of the traffic: x = rho sin(theta),
    z = - rho cos(theta). *)
Lemma trafficRingAngle_polar (x z : R) :
  x <> 0 \/ z <> 0 ->
  x = sqrt (x * x + z * z) * sin (trafficRingAngle x z)
  /\ z = - sqrt (x * x + z * z) * cos (trafficRingAngle x z).
Proof.
  intros Hne. unfold trafficRingAngle.
  destruct (normalise_trig (JS.atan2 x (- z)) (atan2_range x (- z))) as [-> ->].
  destruct (atan2_sin_cos x (- z)) as [Hc Hs]; [lra|].
  replace (- z * - z + x * x) with (x * x + z * z) in Hc, Hs by ring.
  split; lra.
Qed.

(** X17.  The point where a lane meets a ring lies on the circle of that
    ring, at the lateral offset of the lane centre from the axis of its
    arm (5.25 for the outer lane, 1.75 for the inner one); its ring angle
    is normalised to [0, 2 PI) and is the polar angle of the point in the
    convention of the traffic, x = r sin(theta), z = - r cos(theta). *)
Theorem ringIntersect_geometry (arm : Arm) (r : R) (isOuter isEntry : bool) :
  laneOffset isOuter <= r ->
  let p := _ringIntersect arm r isOuter isEntry in
  RingPoint.x p * RingPoint.x p + RingPoint.z p * RingPoint.z p = r * r
  /\ 0 <= RingPoint.ringAngle p < TWO_PI
  /\ RingPoint.x p = r * sin (RingPoint.ringAngle p)
  /\ RingPoint.z p = - r * cos (RingPoint.ringAngle p)
  /\ Rabs (match arm with
           | south | north => RingPoint.x p
           | east | west => RingPoint.z p
           end) = laneOffset isOuter.
Proof.
  intros Hr. cbv zeta.
  assert (0 < laneOffset isOuter) as Hw.
  { unfold laneOffset, LANE_W. destruct isOuter; lra. }
  set (w := laneOffset isOuter) in *.
  assert (0 <= r * r - w * w) as Hh by nra.
  pose proof (sqrt_sqrt _ Hh) as Hsq.
  pose proof (sqrt_pos (r * r - w * w)) as Hh0.
  assert (r = sqrt (r * r)) as Hrho.
  { replace (r * r) with (Rsqr r) by reflexivity. rewrite sqrt_Rsqr; lra. }
  unfold _ringIntersect. fold (laneOffset isOuter). fold w. cbv zeta.
  set (h := sqrt (r * r - w * w)) in *.
  assert (forall x z : R,
            x * x + z * z = r * r -> x <> 0 \/ z <> 0 ->
            x * x + z * z = r * r
            /\ 0 <= trafficRingAngle x z < TWO_PI
            /\ x = r * sin (trafficRingAngle x z)
            /\ z = - r * cos (trafficRingAngle x z)) as Hpt.
  { intros x z Hxz Hne. split; [exact Hxz|]. split; [apply trafficRingAngle_range|].
    destruct (trafficRingAngle_polar x z Hne) as [Hx Hz].
    rewrite Hxz, <- Hrho in Hx, Hz. by split. }
  destruct arm, isEntry; cbn [RingPoint.x RingPoint.z RingPoint.ringAngle].
  all: match goal with
       | |- ?x * ?x + ?z * ?z = _ /\ _ =>
         destruct (Hpt x z) as (H1 & H2 & H3 & H4); [nra | lra |]
       end.
  all: repeat (split; [assumption|]).
  all: first [ rewrite Rabs_Ropp; apply Rabs_right; lra | apply Rabs_right; lra ].
Qed.

Lemma ringIntersect_geometry_witness :
  let p := _ringIntersect south NPC_OUTER_R true true in
  RingPoint.x p * RingPoint.x p + RingPoint.z p * RingPoint.z p
  = NPC_OUTER_R * NPC_OUTER_R
  /\ 0 <= RingPoint.ringAngle p < TWO_PI.
Proof.
  intros p.
  destruct (ringIntersect_geometry south NPC_OUTER_R true true) as (H1 & H2 & _).
  - unfold laneOffset, NPC_OUTER_R, RB_MID, RB_OUT, LANE_W. lra.
  - by split.
Defined.

(** ** Spawning an agent *)

(** [Math.floor] of a real in [0, n). *)
Lemma floor_index (x : R) (n : nat) :
  0 <= x < INR n -> (Z.to_nat (JS.floor x) < n)%nat.
Proof.
  intros [H0 Hn]. unfold JS.floor.
  destruct (base_Int_part x) as [Hle Hgt].
  assert (0 <= Int_part x)%Z as Hz.
  { apply Z.lt_succ_r, lt_IZR. rewrite succ_IZR. lra. }
  assert (Int_part x < Z.of_nat n)%Z as Hlt.
  { apply lt_IZR. rewrite <- INR_IZR_INZ. lra. }
  lia.
Qed.

(** A random pick is an element of the array. *)
Lemma pick_elem (l : list Arm) (r : R) : l <> [] -> 0 <= r < 1 -> pick l r ∈ l.
Proof.
  intros Hl Hr. unfold pick.
  assert (0 < INR (length l)) as Hlen.
  { apply lt_0_INR. destruct l; [done | cbn; lia]. }
  assert (Z.to_nat (JS.floor (r * INR (length l))) < length l)%nat as Hi
    by (apply floor_index; nra).
  destruct (nth_lookup_or_length l (Z.to_nat (JS.floor (r * INR (length l)))) south)
    as [H|H]; [|lia].
  by eapply list_elem_of_lookup_2.
Qed.

Lemma exit_candidates (a : Arm) :
  filter (fun b => b <> a) ARM_NAMES <> []
  /\ forall b : Arm, b ∈ filter (fun b => b <> a) ARM_NAMES -> b <> a.
Proof.
  split.
  - by destruct a.
  - intros b Hb. by apply list_elem_of_filter in Hb as [Hb _].
Qed.

(** [a % m] for a non-negative dividend. *)
Lemma rem_range (a m : R) : 0 <= a -> 0 < m -> 0 <= a %% m < m.
Proof.
  intros Ha Hm. unfold JS.rem, JS.trunc.
  assert (0 <= a / m) as Hq.
  { unfold Rdiv. apply Rmult_le_pos; [lra | left; apply Rinv_0_lt_compat; lra]. }
  rewrite decide_True by exact Hq.
  destruct (base_Int_part (a / m)) as [Hle Hgt].
  assert (a = m * (a / m)) as Ham by (field; lra).
  split; nra.
Qed.

(** The angle to travel on the ring, between two normalised angles. *)
Lemma travel_range (e f : R) :
  0 <= e -> 0 <= f ->
  0 <= ((e %% TWO_PI) - (f %% TWO_PI) + TWO_PI) %% TWO_PI < TWO_PI.
Proof.
  intros He Hf. pose proof TWO_PI_bounds as H2.
  apply rem_range; [|lra].
  pose proof (rem_range e TWO_PI He ltac:(lra)).
  pose proof (rem_range f TWO_PI Hf ltac:(lra)). lra.
Qed.

(** What [_spawnNPC] writes, for the entry arm [a] and the exit arm [b]
    that it draws. *)
Lemma _spawnNPC_fields (npc : Npc.t) (rnd : nat -> R) :
  let a := pick ARM_NAMES (rnd 0%nat) in
  let b := pick (filter (fun x => x <> a) ARM_NAMES) (rnd 1%nat) in
  let npc' := (_spawnNPC npc rnd).1 in
  Npc.entryArm npc' = Some a /\ Npc.exitArm npc' = Some b
  /\ Npc.state npc' = Npc.approaching
  /\ Npc.heading npc' = ArmCfg.approachHeading (ARM_CFG a)
  /\ Npc.ringTravelDone npc' = 0 /\ Npc.nearExitSignaled npc' = false
  /\ Npc.speed npc' = Npc.speed npc
  /\ (Npc.ringRadius npc' = NPC_OUTER_R \/ Npc.ringRadius npc' = NPC_INNER_R)
  /\ (let lane := ArmCfg.approachLanePos (ARM_CFG a)
                    (bool_decide (Npc.ringRadius npc' = NPC_OUTER_R)) in
      Npc.position npc' = Vector3.mk lane.1 0 lane.2)
  /\ (Npc.leftIndicator npc' = true -> Npc.ringRadius npc' = NPC_OUTER_R)
  /\ (Npc.rightIndicator npc' = true -> Npc.ringRadius npc' = NPC_INNER_R)
  /\ Npc.leftIndicator npc' && Npc.rightIndicator npc' = false
  /\ 0.2 <= Npc.ringTravelNeeded npc' < TWO_PI + 0.2.
Proof.
  cbv zeta. unfold _spawnNPC, draw. cbv zeta.
  assert (NPC_OUTER_R <> NPC_INNER_R) as Hne
    by (unfold NPC_OUTER_R, NPC_INNER_R, RB_IN, RB_MID, RB_OUT; lra).
  pose proof PI_bounds as HPI. pose proof TWO_PI_bounds as H2PI.
  match goal with |- context [decide (?t < PI * 0.65)] => generalize t end.
  intros t.
  destruct (decide (t < PI * 0.65)) as [Hl|Hl];
    [|destruct (decide (t > PI * 1.35)) as [Hr|Hr];
      [|destruct (bool_decide (rnd 2%nat < 0.5))]];
    cbv beta iota.
  all: match goal with
       | |- context [Npc.set_ringTravelNeeded ?v _] =>
         assert (0 <= v < TWO_PI) as Hv;
           [ cbn [Npc.ringRadius Npc.set_ringRadius]; unfold ENTRY_ADVANCE, EXIT_ADVANCE;
             apply travel_range;
             match goal with
             | |- context [RingPoint.ringAngle (_ringIntersect ?x ?r ?o ?e)] =>
               pose proof (_ringIntersect_angle_range x r o e); lra
             end
           | revert Hv; generalize v ]
       end.
  all: intros v Hv.
  all: destruct (ArmCfg.approachLanePos _ _) as [sx sz] eqn:Hlane.
  all: match goal with |- context [if decide ?P then _ else _] => destruct (decide P) end.
  all: cbn [fst snd Npc.entryArm Npc.exitArm Npc.state Npc.heading Npc.ringTravelDone
         Npc.nearExitSignaled Npc.speed Npc.ringRadius Npc.position Npc.leftIndicator
         Npc.rightIndicator Npc.ringTravelNeeded
         Npc.set_entryArm Npc.set_exitArm Npc.set_heading
         Npc.set_ringRadius Npc.set_ringTravelNeeded Npc.set_ringTravelDone Npc.set_state
         Npc.set_leftIndicator Npc.set_rightIndicator Npc.set_nearExitSignaled
         Npc.set_position Vector3.set] in *.
  all: rewrite ?(bool_decide_eq_true_2 (NPC_OUTER_R = NPC_OUTER_R)) by reflexivity.
  all: rewrite ?(bool_decide_eq_false_2 (NPC_INNER_R = NPC_OUTER_R)) by congruence.
  all: rewrite Hlane.
  all: do 7 (split; [reflexivity|]).
  all: split; [by (left + right)|].
  all: split; [reflexivity|].
  all: split; [intros Hb; first [reflexivity | apply bool_decide_eq_true in Hb; lra]|].
  all: split; [intros Hb; first [reflexivity | apply bool_decide_eq_true in Hb; lra]|].
  all: split; [|lra].
  all: first [ rewrite (bool_decide_eq_false_2 (t < PI * 0.65)) by lra; reflexivity
             | rewrite (bool_decide_eq_false_2 (t > PI * 1.35)) by lra; apply andb_false_r ].
Qed.

(** X18.  With draws of [Math.random] in [0, 1), a spawned agent is put
    in the [approaching] state on an entry arm and given an exit arm that
    is never the arm it enters by; it stands at the spawn point of its
    lane, heading along the approach of its arm, and the angle it has to
    travel on the ring lies in [0.2, 2 PI + 0.2).  It follows the lane
    rules of the player: an agent that indicates left on the approach
    (first exit) takes the outer ring lane, one that indicates right (third
    exit) the inner ring lane, and none is spawned with both indicators
    on. *)
Theorem spawn_rules (npc : Npc.t) (rnd : nat -> R) :
  unitDraws rnd ->
  let npc' := (_spawnNPC npc rnd).1 in
  (exists a b : Arm,
     Npc.entryArm npc' = Some a /\ Npc.exitArm npc' = Some b /\ a <> b
     /\ Npc.heading npc' = ArmCfg.approachHeading (ARM_CFG a)
     /\ (let lane := ArmCfg.approachLanePos (ARM_CFG a)
                       (bool_decide (Npc.ringRadius npc' = NPC_OUTER_R)) in
         Npc.position npc' = Vector3.mk lane.1 0 lane.2))
  /\ Npc.state npc' = Npc.approaching
  /\ Npc.ringTravelDone npc' = 0
  /\ 0.2 <= Npc.ringTravelNeeded npc' < TWO_PI + 0.2
  /\ (Npc.ringRadius npc' = NPC_OUTER_R \/ Npc.ringRadius npc' = NPC_INNER_R)
  /\ (Npc.leftIndicator npc' = true -> Npc.ringRadius npc' = NPC_OUTER_R)
  /\ (Npc.rightIndicator npc' = true -> Npc.ringRadius npc' = NPC_INNER_R)
  /\ Npc.leftIndicator npc' && Npc.rightIndicator npc' = false
  /\ Npc.nearExitSignaled npc' = false.
Proof.
  intros Hrnd. cbv zeta.
  destruct (_spawnNPC_fields npc rnd)
    as (Ha & Hb & Hs & Hh & Hd & Hsig & _ & Hr & Hp & Hl & Hri & Hboth & Hn).
  cbv zeta in Ha, Hb, Hs, Hh, Hd, Hp, Hn.
  split;
    [|split; [exact Hs|]; split; [exact Hd|]; split; [exact Hn|]; split; [exact Hr|];
      split; [exact Hl|]; split; [exact Hri|]; split; [exact Hboth | exact Hsig]].
  exists (pick ARM_NAMES (rnd 0%nat)).
  exists (pick (filter (fun x => x <> pick ARM_NAMES (rnd 0%nat)) ARM_NAMES) (rnd 1%nat)).
  split; [exact Ha|]. split; [exact Hb|]. split; [|by split].
  destruct (exit_candidates (pick ARM_NAMES (rnd 0%nat))) as [Hne Hall].
  intros Heq. eapply Hall; [|symmetry; exact Heq].
  by apply pick_elem.
Qed.

Lemma spawn_rules_witness :
  exists a b : Arm,
    Npc.entryArm (_spawnNPC (initial_npc 0) (fun _ => 0)).1 = Some a
    /\ Npc.exitArm (_spawnNPC (initial_npc 0) (fun _ => 0)).1 = Some b /\ a <> b.
Proof.
  destruct (spawn_rules (initial_npc 0) (fun _ => 0)) as ((a & b & H1 & H2 & H3 & _) & _).
  - intros n. lra.
  - by exists a, b.
Defined.

(** ** Transition arcs *)

Lemma _arcSpeedScale_range (c : Car) (p : Vector3.t) : 0 <= _arcSpeedScale c p <= 1.
Proof.
  unfold _arcSpeedScale. destruct (failed c); [lra|]. cbv zeta.
  repeat case_decide; lra.
Qed.

(** X19.  On a transition arc (entering or leaving the ring) the progress
    of an agent never decreases and never exceeds 1; the agent advances at
    full rate when the player has failed or is at least 10 units away,
    and stands still while a player who has not failed is within 4
    units. *)
Theorem arc_progress (dt : R) (c : Car) (npc : Npc.t) :
  0 <= dt -> 0 < Npc.transDuration npc -> Npc.transProgress npc <= 1 ->
  let d := sqrt (dist2 (pos c) (Npc.position npc)) in
  let npc' := advanceArc dt c npc in
  Npc.transProgress npc <= Npc.transProgress npc' <= 1
  /\ (failed c = true \/ 10 <= d ->
      Npc.transProgress npc'
      = Rmin (Npc.transProgress npc + dt / Npc.transDuration npc) 1)
  /\ (failed c = false -> d <= 4 -> Npc.transProgress npc' = Npc.transProgress npc).
Proof.
  intros Hdt Hdur Hp. cbv zeta.
  assert (0 <= dt / Npc.transDuration npc) as Hrate.
  { unfold Rdiv. apply Rmult_le_pos; [lra | left; by apply Rinv_0_lt_compat]. }
  assert (Npc.transProgress (advanceArc dt c npc)
          = Rmin (Npc.transProgress npc
                  + dt / Npc.transDuration npc * _arcSpeedScale c (Npc.position npc)) 1)
    as -> by reflexivity.
  pose proof (_arcSpeedScale_range c (Npc.position npc)) as Hs.
  split; [|split].
  - split; [|apply Rmin_r]. apply Rmin_glb; [nra | lra].
  - intros Hfar. f_equal.
    assert (_arcSpeedScale c (Npc.position npc) = 1) as ->; [|ring].
    unfold _arcSpeedScale. destruct Hfar as [-> | Hfar]; [done|].
    destruct (failed c); [done|]. cbv zeta.
    unfold dist2, sq in Hfar. rewrite decide_True; [done | lra].
  - intros Hf Hnear.
    assert (_arcSpeedScale c (Npc.position npc) = 0) as ->.
    { unfold _arcSpeedScale. rewrite Hf. cbv zeta. unfold dist2, sq in Hnear.
      rewrite decide_False by lra. rewrite decide_True; [done | lra]. }
    rewrite Rmult_0_r, Rplus_0_r. by apply Rmin_left.
Qed.

Lemma arc_progress_witness :
  let npc := Npc.set_transProgress 0.5 (initial_npc 0) in
  Npc.transProgress npc <= Npc.transProgress (advanceArc 0.016 initial_car npc) <= 1.
Proof.
  intros npc. apply (arc_progress 0.016 initial_car npc); cbn; lra.
Defined.

(** ** Following and yielding *)

(** The scan for the closest obstacle returns a distance in (0, 12). *)
Lemma closestAhead_range (npc : Npc.t) (dirX dirZ : R) (obstacles : list Vector3.t) :
  match closestAhead npc dirX dirZ obstacles with
  | Some m => 0 < m < 12
  | None => True
  end.
Proof.
  unfold closestAhead. cbv zeta.
  assert (match @None R with Some m => 0 < m < 12 | None => True end) as H0 by done.
  revert H0. generalize (@None R).
  induction obstacles as [|obs l IH]; intros acc Hacc; [exact Hacc|].
  cbn [fold_left]. apply IH.
  repeat case_bool_decide; cbn [andb]; try exact Hacc.
  destruct acc as [m|]; [|lra].
  unfold Rmin. destruct (Rle_dec _ _); lra.
Qed.

Lemma _npcFollowSpeed_range (g : Game) (i : nat) (npc : Npc.t) :
  0 <= _npcFollowSpeed g i npc <= NPC_SPEED.
Proof.
  unfold _npcFollowSpeed, NPC_SPEED. cbv zeta.
  destruct (entryYield g i npc); [lra|].
  destruct (if decide (Npc.state npc = Npc.on_roundabout) then _ else _) as [dirX dirZ].
  match goal with
  | |- context [closestAhead npc dirX dirZ ?obs] =>
    pose proof (closestAhead_range npc dirX dirZ obs) as Hc;
      destruct (closestAhead npc dirX dirZ obs) as [m|]
  end; [|lra].
  case_decide; [lra|]. lra.
Qed.

(** ** The blend curve of the transition arcs *)

(** X20.  The blend curve starts at the pose it is given to leave and
    ends at the pose it is given to reach: at parameter 0 it returns the
    start point with the start heading, at parameter 1 the target point
    with the target heading (headings taken in (-PI, PI], as the engine
    has them).  So the snap to the target that ends a transition does not
    move the agent. *)
Theorem bezier_endpoints (fx fz fh tx tz th : R) :
  - PI < fh <= PI -> - PI < th <= PI ->
  bezierArc fx fz fh tx tz th 0 = ArcPoint.mk fx fz fh
  /\ bezierArc fx fz fh tx tz th 1 = ArcPoint.mk tx tz th.
Proof.
  intros Hfh Hth. unfold bezierArc. cbv zeta.
  pose proof (sqrt_pos (sq (tx - fx) + sq (tz - fz))) as Hd.
  set (d := sqrt (sq (tx - fx) + sq (tz - fz))) in *.
  pose proof (sin2_cos2 fh) as Hf. pose proof (sin2_cos2 th) as Ht.
  unfold Rsqr in Hf, Ht.
  split; f_equal; try ring.
  - case_decide as Hbig; [|by rewrite decide_True by lra].
    match goal with
    | |- JS.atan2 ?bx (- ?bz) = _ =>
      replace bx with (d * sin fh) in * by field;
        replace (- bz) with (d * cos fh) by field;
        replace bz with (- (d * cos fh)) in Hbig by field
    end.
    apply atan2_polar; [|exact Hfh].
    destruct Hd as [Hd|Hd]; [exact Hd|]. exfalso. rewrite <- Hd in Hbig. lra.
  - case_decide as Hbig; [|by rewrite decide_False by lra].
    match goal with
    | |- JS.atan2 ?bx (- ?bz) = _ =>
      replace bx with (d * sin th) in * by field;
        replace (- bz) with (d * cos th) by field;
        replace bz with (- (d * cos th)) in Hbig by field
    end.
    apply atan2_polar; [|exact Hth].
    destruct Hd as [Hd|Hd]; [exact Hd|]. exfalso. rewrite <- Hd in Hbig. lra.
Qed.

Lemma bezier_endpoints_witness :
  bezierArc 0 30 0 5 19 (PI / 2) 0 = ArcPoint.mk 0 30 0
  /\ bezierArc 0 30 0 5 19 (PI / 2) 1 = ArcPoint.mk 5 19 (PI / 2).
Proof. pose proof PI_bounds. apply bezier_endpoints; lra. Defined.

(** The length of a polyline is at least the distance between its ends. *)
Lemma polyline_fold (X Z : nat -> R) (l : list nat) :
  forall len px pz : R,
    let '(len', x', z') :=
      fold_left (fun '(len, px, pz) i =>
                   (len + sqrt (sq (X i - px) + sq (Z i - pz)), X i, Z i))
                l (len, px, pz) in
    len + sqrt (sq (x' - px) + sq (z' - pz)) <= len'.
Proof.
  induction l as [|i l IH]; intros len px pz; cbn [fold_left].
  - replace (sq (px - px) + sq (pz - pz)) with 0 by (unfold sq; ring).
    rewrite sqrt_0. lra.
  - specialize (IH (len + sqrt (sq (X i - px) + sq (Z i - pz))) (X i) (Z i)).
    destruct (fold_left _ l _) as [[len' x'] z'].
    pose proof (triangle x' z' px pz (X i) (Z i)) as Htri.
    unfold dist_euc, Rsqr in Htri. unfold sq in *.
    replace ((X i - px) * (X i - px) + (Z i - pz) * (Z i - pz))
      with ((px - X i) * (px - X i) + (pz - Z i) * (pz - Z i)) in Htri |- * by ring.
    replace ((X i - x') * (X i - x') + (Z i - z') * (Z i - z'))
      with ((x' - X i) * (x' - X i) + (z' - Z i) * (z' - Z i)) in Htri by ring.
    lra.
Qed.

Lemma polyline_last (X Z : nat -> R) (l : list nat) (n : nat) (len px pz : R) :
  let '(_, x', z') :=
    fold_left (fun '(len, px, pz) i =>
                 (len + sqrt (sq (X i - px) + sq (Z i - pz)), X i, Z i))
              (l ++ [n]) (len, px, pz) in
  x' = X n /\ z' = Z n.
Proof.
  rewrite fold_left_app. cbn [fold_left].
  by destruct (fold_left _ l _) as [[len' x'] z'].
Qed.

(** X21.  The length that [bezierArcLen] estimates for a transition arc,
    on 12 chords of the blend curve, is at least the straight distance
    between the two ends of the arc; the duration of a transition is
    therefore at least the time the straight line takes at cruising
    speed. *)
Theorem arc_length_at_least_chord (fx fz fh tx tz th : R) :
  sqrt (sq (tx - fx) + sq (tz - fz)) <= bezierArcLen fx fz fh tx tz th.
Proof.
  unfold bezierArcLen. cbv zeta.
  set (d := sqrt (sq (tx - fx) + sq (tz - fz))).
  set (X := fun i : nat =>
              (1 - INR i / 12) * (1 - INR i / 12) * (1 - INR i / 12) * fx
              + 3 * (1 - INR i / 12) * (1 - INR i / 12) * (INR i / 12)
                * (fx + sin fh * (d / 3))
              + 3 * (1 - INR i / 12) * (INR i / 12) * (INR i / 12) * (tx - sin th * (d / 3))
              + INR i / 12 * (INR i / 12) * (INR i / 12) * tx).
  set (Z := fun i : nat =>
              (1 - INR i / 12) * (1 - INR i / 12) * (1 - INR i / 12) * fz
              + 3 * (1 - INR i / 12) * (1 - INR i / 12) * (INR i / 12)
                * (fz - cos fh * (d / 3))
              + 3 * (1 - INR i / 12) * (INR i / 12) * (INR i / 12) * (tz + cos th * (d / 3))
              + INR i / 12 * (INR i / 12) * (INR i / 12) * tz).
  pose proof (polyline_fold X Z (seq 1 12) 0 fx fz) as Hlen.
  pose proof (polyline_last X Z (seq 1 11) 12 0 fx fz) as Hlast.
  change (seq 1 11 ++ [12%nat]) with (seq 1 12) in Hlast.
  change (fold_left
            (fun '(len, px, pz) i =>
               (len + sqrt (sq (X i - px) + sq (Z i - pz)), X i, Z i))
            (seq 1 12) (0, fx, fz))
    with (fold_left
            (fun '(len, px, pz) i =>
               let t := INR i / 12 in
               let mt := 1 - t in
               let x := mt*mt*mt*fx + 3*mt*mt*t*(fx + sin fh * (d / 3))
                        + 3*mt*t*t*(tx - sin th * (d / 3)) + t*t*t*tx in
               let z := mt*mt*mt*fz + 3*mt*mt*t*(fz - cos fh * (d / 3))
                        + 3*mt*t*t*(tz + cos th * (d / 3)) + t*t*t*tz in
               (len + sqrt (sq (x - px) + sq (z - pz)), x, z))
            (seq 1 12) (0, fx, fz)) in Hlen, Hlast.
  destruct (fold_left _ (seq 1 12) (0, fx, fz)) as [[len' x'] z'].
  destruct Hlast as [-> ->].
  assert (X 12%nat = tx) as HX.
  { unfold X. replace (INR 12 / 12) with 1 by (cbn; field). ring. }
  assert (Z 12%nat = tz) as HZ.
  { unfold Z. replace (INR 12 / 12) with 1 by (cbn; field). ring. }
  rewrite HX, HZ in Hlen. fold d in Hlen. lra.
Qed.

(** ** An agent on the ring *)

(** What a tick on the ring writes. *)
Lemma npcOnRoundabout_fields (dtScale : R) (npc : Npc.t) :
  let npc' := npcOnRoundabout dtScale npc in
  let r := Npc.ringRadius npc in
  Npc.ringRadius npc' = r
  /\ Vector3.x (Npc.position npc') = r * sin (Npc.ringAngle npc')
  /\ Vector3.z (Npc.position npc') = - r * cos (Npc.ringAngle npc')
  /\ Vector3.x (Npc.position npc') * Vector3.x (Npc.position npc')
     + Vector3.z (Npc.position npc') * Vector3.z (Npc.position npc') = r * r
  /\ Npc.ringTravelDone npc' = Npc.ringTravelDone npc + Npc.speed npc * dtScale / r
  /\ (Npc.state npc' = Npc.state npc
      \/ (Npc.state npc' = Npc.leaving_ring
          /\ Npc.ringTravelNeeded npc <= Npc.ringTravelDone npc'))
  /\ Npc.speed npc' = Npc.speed npc.
Proof.
  cbv zeta. unfold npcOnRoundabout. cbv zeta.
  match goal with
  | |- context [Npc.set_nearExitSignaled true ?n1] =>
    assert (Npc.ringRadius n1 = Npc.ringRadius npc
            /\ Vector3.x (Npc.position n1) = Npc.ringRadius npc * sin (Npc.ringAngle n1)
            /\ Vector3.z (Npc.position n1) = - Npc.ringRadius npc * cos (Npc.ringAngle n1)
            /\ Npc.ringTravelDone n1
               = Npc.ringTravelDone npc + Npc.speed npc * dtScale / Npc.ringRadius npc
            /\ Npc.state n1 = Npc.state npc
            /\ Npc.ringTravelNeeded n1 = Npc.ringTravelNeeded npc
            /\ Npc.speed n1 = Npc.speed npc) as H1
      by (by repeat split);
      revert H1; generalize n1
  end.
  intros n1 (Hr & Hx & Hz & Hd & Hs & Hn & Hv).
  assert (forall r t : R, r * sin t * (r * sin t) + - r * cos t * (- r * cos t) = r * r)
    as Hcirc.
  { intros r t. pose proof (sin2_cos2 t) as H. unfold Rsqr in H.
    transitivity (r * r * (sin t * sin t + cos t * cos t)); [ring | rewrite H; ring]. }
  destruct (negb (Npc.nearExitSignaled n1) && _).
  all: match goal with
       | |- context [if decide ?P then _ else _] => destruct (decide P) as [Hdone|Hdone]
       end.
  all: try destruct (Npc.exitArm _).
  all: cbn -[JS.rem] in *.
  all: rewrite ?Hr, ?Hx, ?Hz, ?Hd, ?Hs, ?Hn in *.
  all: repeat split; try apply Hcirc; try (by left); try assumption.
  all: right; split; [done | lra].
Qed.

(** X22.  A tick of an agent on the ring keeps it on the circle of its
    ring lane: the radius is not written, the position is the point of
    that circle at the new ring angle, and the travel done grows by the
    arc [speed * dtScale / radius].  The agent leaves the state only for
    [leaving_ring], and only once the travel done has reached the travel
    needed. *)
Theorem ring_travel_on_circle (dtScale : R) (npc : Npc.t) :
  let npc' := npcOnRoundabout dtScale npc in
  let r := Npc.ringRadius npc in
  Npc.ringRadius npc' = r
  /\ Vector3.x (Npc.position npc') = r * sin (Npc.ringAngle npc')
  /\ Vector3.z (Npc.position npc') = - r * cos (Npc.ringAngle npc')
  /\ Vector3.x (Npc.position npc') * Vector3.x (Npc.position npc')
     + Vector3.z (Npc.position npc') * Vector3.z (Npc.position npc') = r * r
  /\ Npc.ringTravelDone npc' = Npc.ringTravelDone npc + Npc.speed npc * dtScale / r
  /\ (Npc.state npc' = Npc.state npc
      \/ (Npc.state npc' = Npc.leaving_ring
          /\ Npc.ringTravelNeeded npc <= Npc.ringTravelDone npc')).
Proof.
  cbv zeta.
  destruct (npcOnRoundabout_fields dtScale npc) as (H1 & H2 & H3 & H4 & H5 & H6 & _).
  by repeat split.
Qed.

(** ** What the traffic keeps *)

Ltac agent_fields :=
  cbv zeta; unfold upd_position;
  repeat match goal with
         | |- context [if decide ?P then _ else _] => destruct (decide P)
         | |- context [match ?o with Some _ => _ | None => _ end] => destruct o
         end;
  by repeat split.

Lemma npcApproaching_kept (dtScale : R) (npc : Npc.t) :
  Npc.speed (npcApproaching dtScale npc) = Npc.speed npc
  /\ Npc.ringRadius (npcApproaching dtScale npc) = Npc.ringRadius npc.
Proof. unfold npcApproaching, moveStraight. agent_fields. Qed.

Lemma npcEnteringRing_kept (dt : R) (c : Car) (npc : Npc.t) :
  Npc.speed (npcEnteringRing dt c npc) = Npc.speed npc
  /\ Npc.ringRadius (npcEnteringRing dt c npc) = Npc.ringRadius npc.
Proof. unfold npcEnteringRing, advanceArc, snapToTarget. agent_fields. Qed.

Lemma npcLeavingRing_kept (dt : R) (c : Car) (npc : Npc.t) :
  Npc.speed (npcLeavingRing dt c npc) = Npc.speed npc
  /\ Npc.ringRadius (npcLeavingRing dt c npc) = Npc.ringRadius npc.
Proof. unfold npcLeavingRing, advanceArc, snapToTarget. agent_fields. Qed.

Lemma npcExiting_kept (dtScale : R) (npc : Npc.t) (rnd : nat -> R) :
  Npc.speed (npcExiting dtScale npc rnd).1 = Npc.speed npc
  /\ Npc.ringRadius (npcExiting dtScale npc rnd).1 = Npc.ringRadius npc.
Proof.
  unfold npcExiting, moveStraight, upd_position, draw. cbv zeta.
  destruct (Npc.exitArm _); [|by split].
  destruct (ArmCfg.despawnCheck _ _); by split.
Qed.

(** The update of one agent keeps every agent sound. *)
Lemma updateNPC_sound (dt dtScale : R) (g : Game) (i : nat) :
  Forall agentSound (npcs g) -> Forall agentSound (npcs (updateNPC dt dtScale g i)).
Proof.
  intros Hall. unfold updateNPC.
  destruct (npcs g !! i) as [npc|] eqn:Hi; [|exact Hall].
  pose proof (Forall_lookup_1 _ _ _ _ Hall Hi) as [Hv Hr].
  assert (forall npc' : Npc.t,
            Npc.speed npc' = Npc.speed npc -> Npc.ringRadius npc' = Npc.ringRadius npc ->
            agentSound npc') as Hkeep.
  { intros npc' Hv' Hr'. unfold agentSound. by rewrite Hv', Hr'. }
  case_decide as Hs.
  - assert (agentSound
              (if decide (Npc.respawnTimer
                            (Npc.set_respawnTimer (Npc.respawnTimer npc - dt) npc) <= 0)
               then _spawnNPC (Npc.set_respawnTimer (Npc.respawnTimer npc - dt) npc)
                      (random g)
               else (Npc.set_respawnTimer (Npc.respawnTimer npc - dt) npc, random g)).1)
      as Hnew.
    { case_decide; [|by apply Hkeep].
      destruct (_spawnNPC_fields (Npc.set_respawnTimer (Npc.respawnTimer npc - dt) npc)
                  (random g)) as (_ & _ & _ & _ & _ & _ & Hv' & Hr' & _).
      cbv zeta in Hv', Hr'. split; [by rewrite Hv' | exact Hr']. }
    revert Hnew.
    destruct (if decide _ then _ else _) as [npc' rnd']. cbn [fst]. intros Hnew.
    cbn [npcs set_npcs set_random]. by apply Forall_insert.
  - set (npc1 := if bool_decide (Npc.state npc = Npc.approaching)
                    || bool_decide (Npc.state npc = Npc.on_roundabout)
                    || bool_decide (Npc.state npc = Npc.exiting)
                 then Npc.set_speed (_npcFollowSpeed g i npc) npc else npc).
    assert (agentSound npc1) as [Hv1 Hr1].
    { unfold npc1. destruct (_ || _ || _); [|by split].
      split; [apply _npcFollowSpeed_range | exact Hr]. }
    clearbody npc1.
    assert (forall npc' : Npc.t,
              Npc.speed npc' = Npc.speed npc1 /\ Npc.ringRadius npc' = Npc.ringRadius npc1 ->
              agentSound npc') as Hkeep1.
    { intros npc' [Hv' Hr']. unfold agentSound. by rewrite Hv', Hr'. }
    assert (agentSound
              (match Npc.state npc1 with
               | Npc.approaching => (npcApproaching dtScale npc1, random g)
               | Npc.entering_ring => (npcEnteringRing dt (car g) npc1, random g)
               | Npc.on_roundabout => (npcOnRoundabout dtScale npc1, random g)
               | Npc.leaving_ring => (npcLeavingRing dt (car g) npc1, random g)
               | Npc.exiting => npcExiting dtScale npc1 (random g)
               | _ => (npc1, random g)
               end).1) as Hnew.
    { destruct (Npc.state npc1); cbn [fst]; apply Hkeep1; try done.
      - apply npcApproaching_kept.
      - apply npcEnteringRing_kept.
      - destruct (npcOnRoundabout_fields dtScale npc1) as (H1 & _ & _ & _ & _ & _ & H7).
        by split.
      - apply npcLeavingRing_kept.
      - apply npcExiting_kept. }
    revert Hnew.
    destruct (match Npc.state npc1 with Npc.despawned => _ | _ => _ end) as [npc' rnd'].
    cbn [fst]. intros Hnew.
    cbn [npcs set_npcs set_random]. by apply Forall_insert.
Qed.

Lemma _updateNPCs_sound (dt dtScale : R) (g : Game) :
  Forall agentSound (npcs g) -> Forall agentSound (npcs (_updateNPCs dt dtScale g)).
Proof.
  unfold _updateNPCs. generalize (seq 0 (length (npcs g))). intros ixs. revert g.
  induction ixs as [|i ixs IH]; intros g Hg; [exact Hg|].
  cbn [fold_left]. by apply IH, updateNPC_sound.
Qed.

Lemma _updateNPCs_length (dt dtScale : R) (g : Game) :
  length (npcs (_updateNPCs dt dtScale g)) = length (npcs g).
Proof.
  unfold _updateNPCs. generalize (seq 0 (length (npcs g))). intros ixs. revert g.
  induction ixs as [|i ixs IH]; intros g; [reflexivity|].
  cbn [fold_left]. rewrite IH.
  destruct (updateNPC_npcs dt dtScale g i) as [x ->]. apply length_insert.
Qed.

(** X23.  The speed that an agent is given by the following model lies
    between 0 and the cruising speed [NPC_SPEED]: an agent never reverses
    and never drives faster than 0.22 units per frame, whatever the
    obstacles and the traffic it yields to. *)
Theorem follow_speed_bounded (g : Game) (i : nat) (npc : Npc.t) :
  0 <= _npcFollowSpeed g i npc <= NPC_SPEED.
Proof. apply _npcFollowSpeed_range. Qed.

(** The agents after a frame: as they were, or as the traffic update leaves
    them. *)
Lemma frame_npcs (delta : R) (g : Game) :
  npcs (_update delta g).1 = npcs g
  \/ exists g0 : Game,
       npcs g0 = npcs g
       /\ npcs (_update delta g).1
          = npcs (_updateNPCs (tickDt delta) (tickDt delta * 60) g0).
Proof.
  destruct (_preview g) eqn:Hp; [left; by rewrite _update_preview|].
  destruct (_indDebug g) eqn:Hd; [left; by rewrite _update_debug|].
  right. exists (blink (tickDt delta) (physics delta g)).
  split; [apply physics_npcs|].
  rewrite _update_live by assumption. cbv zeta. rewrite simulate_stages. cbv zeta.
  cbn [fst snd].
  generalize (_updateNPCs (tickDt delta) (tickDt delta * 60)
                (blink (tickDt delta) (physics delta g))).
  intros g1.
  rewrite <- (sd_npcs _ _ (_updateStateMachine_drive (tickDt delta) g1)).
  generalize (_updateStateMachine (tickDt delta) g1). intros g2.
  generalize (Rabs (speed (car (integrateControls (tickDt delta * 60)
                (set_elapsed (elapsed g + tickDt delta * 1000) g))))). intros spd.
  unfold completeCountdown. case_decide as Hpos; [|reflexivity].
  case_decide as Hend; cbn [fst]; [|reflexivity].
  match goal with |- npcs (restart ?g3) = _ =>
    destruct (restart_world g3) as (-> & _) end.
  reflexivity.
Qed.

Lemma debug_off_sound (l : list Npc.t) :
  forall (acc : list Npc.t) (rnd : nat -> R),
    Forall agentSound acc -> Forall agentSound l ->
    let '(l', _) :=
      fold_left
        (fun '(acc, rnd) npc =>
           let npc := Npc.set_state Npc.despawned npc in
           let '(r, rnd) := draw rnd in
           (acc ++ [Npc.set_respawnTimer (2 + r * 3) npc], rnd))
        l (acc, rnd) in
    Forall agentSound l' /\ length l' = (length acc + length l)%nat.
Proof.
  induction l as [|npc l IH]; intros acc rnd Hacc Hl; cbn [fold_left].
  - split; [exact Hacc | cbn; lia].
  - apply Forall_cons in Hl as [Hn Hl]. cbv zeta. cbn [draw].
    specialize (IH (acc ++ [Npc.set_respawnTimer (2 + rnd 0%nat * 3)
                              (Npc.set_state Npc.despawned npc)])
                   (fun n => rnd (S n))).
    destruct (fold_left _ l _) as [l' rnd'].
    destruct IH as [H1 H2]; [apply Forall_app; split; [exact Hacc | by constructor] | exact Hl |].
    split; [exact H1|]. rewrite H2, length_app. cbn. lia.
Qed.

(** X24.  After any history of frames, key events and commands there are
    exactly five agents, each with a speed between 0 and the cruising
    speed and the radius of one of the two ring lanes (the value that the
    yield logic tests to tell the lane). *)
Theorem traffic_invariant (rnd : nat -> R) (cmds : list Command) :
  length (npcs (run rnd cmds)) = 5%nat
  /\ Forall (fun npc =>
               0 <= Npc.speed npc <= NPC_SPEED
               /\ (Npc.ringRadius npc = NPC_OUTER_R \/ Npc.ringRadius npc = NPC_INNER_R))
            (npcs (run rnd cmds)).
Proof.
  change (length (npcs (run rnd cmds)) = 5%nat /\ Forall agentSound (npcs (run rnd cmds))).
  unfold run.
  assert (length (npcs (new_game rnd)) = 5%nat /\ Forall agentSound (npcs (new_game rnd)))
    as H0.
  { split; [reflexivity|].
    change (npcs (new_game rnd)) with (map initial_npc (seq 0 5)).
    induction (seq 0 5) as [|i l IHl]; constructor; [|exact IHl].
    split; [cbn; unfold NPC_SPEED; lra | by left]. }
  revert H0. generalize (new_game rnd).
  induction cmds as [|cmd cmds IH]; intros g Hg; [exact Hg|].
  cbn [fold_left]. apply IH. destruct Hg as [Hlen Hall].
  destruct cmd as [delta|code|code| | | |on]; cbn [perform].
  - destruct (frame_npcs delta g) as [-> | (g0 & H0 & ->)]; [by split|].
    rewrite _updateNPCs_length, H0. split; [exact Hlen|].
    apply _updateNPCs_sound. by rewrite H0.
  - unfold _onKeyDown, _toggleIndicator. destruct (_preview g); [by split|].
    cbv zeta. repeat case_decide; by split.
  - unfold _onKeyUp. destruct (negb (_preview g)); by split.
  - by split.
  - destruct (restart_world g) as (-> & _). by split.
  - unfold nextMission.
    destruct (restart_world (set__missionIndex (S (_missionIndex g)) g)) as (-> & _).
    by split.
  - unfold setIndDebugMode. destruct on.
    + cbn [npcs set_npcs].
      change (npcs (upd_car _ (set__indDebug true g))) with (npcs g).
      split; [by rewrite length_map|].
      clear Hlen. induction Hall as [|npc l Hn _ IHl]; by constructor.
    + cbv zeta.
      pose proof (debug_off_sound (npcs (set__indDebug false g)) [] (random (set__indDebug false g))
                    (Forall_nil_2 _) Hall) as Hoff.
      destruct (fold_left _ _ _) as [l' rnd']. destruct Hoff as [H1 H2].
      cbn [npcs set_npcs set_random]. split; [|exact H1].
      rewrite H2. exact Hlen.
Qed.

(** ** Respawn cooldowns *)

Lemma debug_off_cooldowns (l : list Npc.t) :
  forall (acc : list Npc.t) (rnd : nat -> R),
    unitDraws rnd ->
    Forall (fun npc => Npc.state npc = Npc.despawned /\ 2 <= Npc.respawnTimer npc < 5) acc ->
    let '(l', rnd') :=
      fold_left
        (fun '(acc, rnd) npc =>
           let npc := Npc.set_state Npc.despawned npc in
           let '(r, rnd) := draw rnd in
           (acc ++ [Npc.set_respawnTimer (2 + r * 3) npc], rnd))
        l (acc, rnd) in
    Forall (fun npc => Npc.state npc = Npc.despawned /\ 2 <= Npc.respawnTimer npc < 5) l'
    /\ unitDraws rnd'.
Proof.
  induction l as [|npc l IH]; intros acc rnd Hrnd Hacc; cbn [fold_left].
  - by split.
  - cbv zeta. cbn [draw]. apply IH.
    + intros n. apply Hrnd.
    + apply Forall_app. split; [exact Hacc|]. constructor; [|constructor].
      split; [reflexivity|]. cbn. pose proof (Hrnd 0%nat). lra.
Qed.

(** X25.  With draws of [Math.random] in [0, 1): leaving the indicator
    debug mode despawns every agent with a respawn cooldown in [2, 5)
    seconds and leaves the player as it is.  An exiting agent moves straight
    on; its despawn test is that of its exit arm, which holds when the moved
    position is more than RB_OUT + 0.6 ROAD_L out along that arm.  While the
    test fails the agent is the moved agent, still exiting, and no draw is
    made; when it holds the agent is despawned where it stands, with the
    cooldown 3 + 3 * (the next draw), in [3, 6) seconds. *)
Theorem respawn_cooldowns (g : Game) :
  unitDraws (random g) ->
  (let g' := setIndDebugMode false g in
   _indDebug g' = false /\ car g' = car g
   /\ Forall (fun npc => Npc.state npc = Npc.despawned /\ 2 <= Npc.respawnTimer npc < 5)
             (npcs g')
   /\ unitDraws (random g'))
  /\ (forall (dtScale : R) (npc : Npc.t) (arm : Arm),
        Npc.state npc = Npc.exiting -> Npc.exitArm npc = Some arm ->
        let moved := moveStraight dtScale npc in
        let gone := ArmCfg.despawnCheck (ARM_CFG arm) (Npc.position moved) in
        let out := npcExiting dtScale npc (random g) in
        gone = bool_decide (alongArm arm (Npc.position moved) > RB_OUT + ROAD_L * 0.6)
        /\ (gone = false ->
            out = (moved, random g) /\ Npc.state out.1 = Npc.exiting)
        /\ (gone = true ->
            Npc.state out.1 = Npc.despawned
            /\ Npc.respawnTimer out.1 = 3 + random g 0%nat * 3
            /\ 3 <= Npc.respawnTimer out.1 < 6
            /\ Npc.position out.1 = Npc.position moved
            /\ out.2 = (fun n => random g (S n))
            /\ unitDraws out.2)).
Proof.
  intros Hrnd. split.
  - cbv zeta. unfold setIndDebugMode. cbv zeta.
    pose proof (debug_off_cooldowns (npcs (set__indDebug false g)) []
                  (random (set__indDebug false g)) Hrnd (Forall_nil_2 _)) as Hoff.
    destruct (fold_left _ _ _) as [l' rnd']. destruct Hoff as [H1 H2].
    split; [reflexivity|]. split; [reflexivity|]. split; [exact H1 | exact H2].
  - intros dtScale npc arm Hs Harm. cbv zeta.
    assert (Npc.exitArm (moveStraight dtScale npc) = Some arm) as Hm by exact Harm.
    assert (Npc.state (moveStraight dtScale npc) = Npc.exiting) as Hst by exact Hs.
    unfold npcExiting. cbv zeta. rewrite Hm.
    revert Hst. generalize (moveStraight dtScale npc). intros m Hst.
    split; [|split].
    + destruct arm; cbn [ARM_CFG ArmCfg.despawnCheck alongArm];
        apply bool_decide_ext; lra.
    + intros ->. by split.
    + intros ->. unfold draw. cbn. pose proof (Hrnd 0%nat).
      split; [reflexivity|]. split; [reflexivity|]. split; [lra|].
      split; [reflexivity|]. split; [reflexivity|]. intros n. apply Hrnd.
Qed.

Lemma respawn_cooldowns_witness :
  let g := setIndDebugMode false (new_game (fun _ => 0)) in
  let leaving :=
    Npc.set_speed 0
      (Npc.set_position (Vector3.mk 5.25 0 (-90))
         (Npc.set_exitArm (Some north) (Npc.set_state Npc.exiting (initial_npc 0)))) in
  Forall (fun npc => Npc.state npc = Npc.despawned /\ 2 <= Npc.respawnTimer npc < 5)
         (npcs g)
  /\ Npc.state (npcExiting 1 leaving (fun _ => 0)).1 = Npc.despawned
  /\ Npc.respawnTimer (npcExiting 1 leaving (fun _ => 0)).1 = 3.
Proof.
  intros g leaving.
  destruct (respawn_cooldowns (new_game (fun _ => 0))) as ((_ & _ & H & _) & Hex).
  - intros n. cbn. lra.
  - split; [exact H|].
    destruct (Hex 1 leaving north eq_refl eq_refl) as (Hgone & _ & Hyes).
    cbv zeta in Hgone, Hyes.
    rewrite bool_decide_eq_true_2 in Hgone.
    + destruct (Hyes Hgone) as (Hs & Ht & _).
      change (random (new_game (fun _ => 0))) with (fun _ : nat => 0) in Hs, Ht.
      split; [exact Hs|]. rewrite Ht. lra.
    + unfold moveStraight, upd_position, leaving, RB_OUT, ROAD_L. cbn. lra.
Defined.

(** ** The stationary horn *)

(** The time that must still pass before the horn may sound. *)
Lemma _updateHornCheck_step (dt : R) (g : Game) (h : Horn.t) :
  0 <= dt -> Horn._hornCooldown h <= 3 -> 0 <= Horn._stationaryTimer h ->
  let out := _updateHornCheck dt g h in
  Horn._hornCooldown out.1 <= 3 /\ 0 <= Horn._stationaryTimer out.1
  /\ Rmax (Horn._hornCooldown h) (3 - Horn._stationaryTimer h) - dt
     <= Rmax (Horn._hornCooldown out.1) (3 - Horn._stationaryTimer out.1).
Proof.
  intros Hdt Hc Hs. cbv zeta. unfold _updateHornCheck. cbv zeta.
  destruct (failed (car g) || bool_decide (phase (car g) = completed)).
  { cbn [fst]. repeat split; try assumption. lra. }
  destruct (bool_decide (Rabs (speed (car g)) > 0.02)).
  { cbn [fst Horn._hornCooldown Horn._stationaryTimer]. repeat split; try lra.
    unfold Rmax. repeat destruct (Rle_dec _ _); lra. }
  cbn [Horn._hornCooldown Horn._stationaryTimer].
  repeat match goal with
         | |- context [if decide ?P then _ else _] => destruct (decide P)
         | |- context [if negb ?b then _ else _] => destruct b; cbn [negb]
         end;
    cbn [fst Horn._hornCooldown Horn._stationaryTimer];
    (split; [lra|]); (split; [lra|]);
    unfold Rmax; repeat destruct (Rle_dec _ _); lra.
Qed.

(** What a honk requires of the timers, and what it leaves. *)
Lemma _updateHornCheck_honk (dt : R) (g : Game) (h : Horn.t) :
  (_updateHornCheck dt g h).2 = true ->
  failed (car g) = false /\ phase (car g) <> completed
  /\ Rabs (speed (car g)) <= 0.02
  /\ Horn._hornCooldown h <= 0 /\ 3 <= Horn._stationaryTimer h + dt
  /\ existsb (npcBehind (car g)) (npcs g) = true
  /\ existsb (npcAhead (car g)) (npcs g) = false
  /\ (_updateHornCheck dt g h).1 = Horn.mk (Horn._stationaryTimer h + dt) 3.
Proof.
  unfold _updateHornCheck. cbv zeta.
  destruct (failed (car g)) eqn:Hf; cbn [orb]; [discriminate|].
  case_bool_decide as Hph; [discriminate|].
  case_bool_decide as Hmv; [discriminate|].
  cbn [Horn._hornCooldown Horn._stationaryTimer].
  case_decide as Hc; [discriminate|].
  case_decide as Hs; [discriminate|].
  destruct (existsb (npcBehind (car g)) (npcs g)) eqn:Hb; cbn [negb]; [|discriminate].
  destruct (existsb (npcAhead (car g)) (npcs g)) eqn:Ha; cbn [negb]; [discriminate|].
  intros _. cbn [fst]. repeat split; try done; lra.
Qed.

Lemma hornRun_potential (frames : list (R * Game)) :
  forall h : Horn.t,
    Forall (fun f => 0 <= f.1) frames ->
    Horn._hornCooldown h <= 3 -> 0 <= Horn._stationaryTimer h ->
    Horn._hornCooldown (hornRun h frames) <= 3
    /\ 0 <= Horn._stationaryTimer (hornRun h frames)
    /\ Rmax (Horn._hornCooldown h) (3 - Horn._stationaryTimer h) - duration frames
       <= Rmax (Horn._hornCooldown (hornRun h frames))
               (3 - Horn._stationaryTimer (hornRun h frames)).
Proof.
  induction frames as [|[dt g] frames IH]; intros h Hpos Hc Hs.
  - cbn. repeat split; try assumption. lra.
  - apply Forall_cons in Hpos as [Hdt Hpos]. cbn [fst] in Hdt.
    unfold hornRun. cbn [fold_left]. fold (hornRun (_updateHornCheck dt g h).1 frames).
    destruct (_updateHornCheck_step dt g h Hdt Hc Hs) as (Hc1 & Hs1 & Hstep).
    cbv zeta in Hc1, Hs1, Hstep.
    destruct (IH (_updateHornCheck dt g h).1 Hpos Hc1 Hs1) as (Hc2 & Hs2 & Hrun).
    cbn [duration fold_right]. fold (duration frames).
    repeat split; try assumption. lra.
Qed.

(** The agent singled out by [npcBehind] is active and between 1 and 35
    units from the player. *)
Lemma npcBehind_near (c : Car) (npc : Npc.t) :
  npcBehind c npc = true ->
  activeAgent npc /\ 1 <= sqrt (dist2 (Npc.position npc) (pos c)) <= 35.
Proof.
  unfold npcBehind, activeAgent, dist2, sq. cbv zeta.
  case_decide as Hs; [discriminate|].
  case_bool_decide as Hfar; cbn [orb]; [discriminate|].
  case_bool_decide as Hnear; [discriminate|].
  intros _. split; [exact Hs | lra].
Qed.

(** The horn check in the scene of the tailgater depends on the timers
    only. *)
Lemma hornScene_step (dt : R) (h : Horn.t) :
  _updateHornCheck dt hornScene h
  = if decide (Horn._hornCooldown h > 0)
    then (Horn.mk (Horn._stationaryTimer h + dt) (Horn._hornCooldown h - dt), false)
    else if decide (Horn._stationaryTimer h + dt < 3)
         then (Horn.mk (Horn._stationaryTimer h + dt) (Horn._hornCooldown h), false)
         else (Horn.mk (Horn._stationaryTimer h + dt) 3, true).
Proof.
  assert (sqrt (0 * 0 + 10 * 10) = 10) as Hsqrt.
  { replace (0 * 0 + 10 * 10) with (10 * 10) by ring. apply sqrt_square. lra. }
  assert (JS.atan2 0 1 = 0) as Hatan.
  { unfold JS.atan2. rewrite decide_True by lra.
    replace (0 / 1) with 0 by field. apply atan_0. }
  assert (npcBehind (car hornScene) tailgater = true) as Hb.
  { unfold npcBehind. cbv zeta.
    change (heading (car hornScene)) with 0.
    change (Npc.heading tailgater) with 0.
    change (Vector3.x (Npc.position tailgater)) with (-5.25).
    change (Vector3.z (Npc.position tailgater)) with 92.5.
    change (Vector3.x (pos (car hornScene))) with (- LANE_W * 1.5).
    change (Vector3.z (pos (car hornScene))) with (RB_OUT + ROAD_L * 0.55).
    change (phase (car hornScene)) with approaching.
    replace (-5.25 - - LANE_W * 1.5) with 0 by (unfold LANE_W; lra).
    replace (92.5 - (RB_OUT + ROAD_L * 0.55)) with 10 by (unfold RB_OUT, ROAD_L; lra).
    replace (0 - 0) with 0 by ring.
    rewrite sin_0, cos_0, Hsqrt, Hatan.
    rewrite decide_False by discriminate.
    rewrite (bool_decide_eq_false_2 (10 > 35)) by lra.
    rewrite (bool_decide_eq_false_2 (10 < 1)) by lra. cbn [orb].
    rewrite decide_False by lra.
    rewrite (bool_decide_eq_false_2 (approaching = on_roundabout)) by discriminate.
    cbn [negb].
    replace (0 * - (1) - 10 * 0) with 0 by ring. rewrite Rabs_R0.
    rewrite decide_False by lra. by rewrite decide_False by lra. }
  assert (npcAhead (car hornScene) tailgater = false) as Ha.
  { unfold npcAhead. cbv zeta.
    change (heading (car hornScene)) with 0.
    change (Vector3.x (Npc.position tailgater)) with (-5.25).
    change (Vector3.z (Npc.position tailgater)) with 92.5.
    change (Vector3.x (pos (car hornScene))) with (- LANE_W * 1.5).
    change (Vector3.z (pos (car hornScene))) with (RB_OUT + ROAD_L * 0.55).
    replace (-5.25 - - LANE_W * 1.5) with 0 by (unfold LANE_W; lra).
    replace (92.5 - (RB_OUT + ROAD_L * 0.55)) with 10 by (unfold RB_OUT, ROAD_L; lra).
    rewrite sin_0, cos_0, Hsqrt.
    rewrite decide_False by discriminate. rewrite decide_False by lra.
    apply bool_decide_eq_false. lra. }
  unfold _updateHornCheck. cbv zeta.
  change (failed (car hornScene)) with false.
  change (phase (car hornScene)) with approaching.
  change (speed (car hornScene)) with 0.
  change (npcs hornScene) with [tailgater].
  cbn [orb existsb Horn._hornCooldown Horn._stationaryTimer].
  rewrite (bool_decide_eq_false_2 (approaching = completed)) by discriminate.
  rewrite Rabs_R0. rewrite (bool_decide_eq_false_2 (0 > 0.02)) by lra.
  by rewrite Hb, Ha.
Qed.

(** The horn sounds in the scene of the tailgater. *)
Lemma hornScene_honks : (_updateHornCheck 0.016 hornScene waited).2 = true.
Proof.
  rewrite hornScene_step. cbn [waited Horn._hornCooldown Horn._stationaryTimer].
  rewrite decide_False by lra. by rewrite decide_False by lra.
Qed.


(** X26.  The horn of the traffic sounds only at a player who is neither
    failed nor done, has stood still (speed at most 0.02) for at least 3
    seconds, with the cooldown elapsed, an active agent behind at a
    distance between 1 and 35 units and no active agent within 20 units
    ahead; the honk arms a cooldown of 3 seconds. *)
Theorem horn_conditions (dt : R) (g : Game) (h : Horn.t) :
  (_updateHornCheck dt g h).2 = true ->
  failed (car g) = false /\ phase (car g) <> completed
  /\ Rabs (speed (car g)) <= 0.02
  /\ Horn._hornCooldown h <= 0 /\ 3 <= Horn._stationaryTimer h + dt
  /\ (exists npc : Npc.t,
        npc ∈ npcs g /\ npcBehind (car g) npc = true /\ activeAgent npc
        /\ 1 <= sqrt (dist2 (Npc.position npc) (pos (car g))) <= 35)
  /\ (forall npc : Npc.t, npc ∈ npcs g -> npcAhead (car g) npc = false)
  /\ (_updateHornCheck dt g h).1 = Horn.mk (Horn._stationaryTimer h + dt) 3.
Proof.
  intros Hhonk.
  destruct (_updateHornCheck_honk dt g h Hhonk)
    as (Hf & Hph & Hv & Hc & Hs & Hb & Ha & Hout).
  repeat (split; [assumption|]). split; [|split; [|exact Hout]].
  - apply existsb_exists in Hb as (npc & Hin & Hb).
    exists npc. split; [by apply list_elem_of_In|]. split; [exact Hb|].
    by apply npcBehind_near.
  - intros npc Hin. destruct (npcAhead (car g) npc) eqn:E; [|done].
    assert (existsb (npcAhead (car g)) (npcs g) = true) as Hex; [|congruence].
    apply existsb_exists. exists npc. split; [by apply list_elem_of_In | exact E].
Qed.

Lemma horn_conditions_witness :
  Rabs (speed (car hornScene)) <= 0.02
  /\ (_updateHornCheck 0.016 hornScene waited).1 = Horn.mk (3 + 0.016) 3.
Proof.
  destruct (horn_conditions 0.016 hornScene waited hornScene_honks)
    as (_ & _ & H1 & _ & _ & _ & _ & H2).
  split; [exact H1 | exact H2].
Defined.

(** X27.  Two honks are at least 3 seconds apart: after a honk, whatever
    the simulation does on the frames in between (the player may move off
    and stop again), the next honk comes only when the tick durations
    since the first one add up to 3 seconds or more. *)
Theorem horn_spacing (dt dt' : R) (g g' : Game) (h : Horn.t) (frames : list (R * Game)) :
  Forall (fun f => 0 <= f.1) frames -> 0 <= dt' ->
  (_updateHornCheck dt g h).2 = true ->
  (_updateHornCheck dt' g' (hornRun (_updateHornCheck dt g h).1 frames)).2 = true ->
  3 <= duration frames + dt'.
Proof.
  intros Hpos Hdt' Hfirst Hnext.
  destruct (_updateHornCheck_honk dt g h Hfirst) as (_ & _ & _ & _ & Hs & _ & _ & Hout).
  rewrite Hout in Hnext.
  destruct (hornRun_potential frames (Horn.mk (Horn._stationaryTimer h + dt) 3) Hpos)
    as (_ & _ & Hrun); [cbn; lra | cbn; lra |].
  cbn [Horn._hornCooldown Horn._stationaryTimer] in Hrun.
  destruct (_updateHornCheck_honk dt' g' _ Hnext) as (_ & _ & _ & Hc' & Hs' & _).
  revert Hrun Hc' Hs'.
  generalize (hornRun (Horn.mk (Horn._stationaryTimer h + dt) 3) frames). intros h2.
  unfold Rmax. repeat destruct (Rle_dec _ _); lra.
Qed.

Lemma horn_spacing_witness :
  3 <= duration [(1.5, hornScene); (1.5, hornScene)] + 0.1.
Proof.
  apply (horn_spacing 0.016 0.1 hornScene hornScene waited
           [(1.5, hornScene); (1.5, hornScene)]).
  - repeat constructor; cbn; lra.
  - lra.
  - exact hornScene_honks.
  - unfold hornRun. cbn [fold_left].
    rewrite !hornScene_step. cbn [waited Horn._hornCooldown Horn._stationaryTimer].
    rewrite (decide_False (P := 0 > 0)) by lra.
    rewrite (decide_False (P := 3 + 0.016 < 3)) by lra.
    cbn [fst Horn._hornCooldown Horn._stationaryTimer].
    rewrite (decide_True (P := 3 > 0)) by lra.
    cbn [fst Horn._hornCooldown Horn._stationaryTimer].
    rewrite (decide_True (P := 3 - 1.5 > 0)) by lra.
    cbn [fst Horn._hornCooldown Horn._stationaryTimer].
    rewrite (decide_False (P := 3 - 1.5 - 1.5 > 0)) by lra.
    by rewrite decide_False by lra.
Defined.

(** ** The chase camera *)

(** The lag position after an update, coordinate by coordinate. *)
Lemma _updateCamera_lag (s : R) (c : Car) (cfg : CamCfg.t) (cam : Camera.t) :
  let tx := Vector3.x (pos c) - sin (heading c) * CamCfg.back cfg in
  let tz := Vector3.z (pos c) + cos (heading c) * CamCfg.back cfg in
  let lag := Camera._camLag cam in
  Camera._camLag (_updateCamera s c cfg cam)
  = Vector3.mk (tx + JS.pow 0.9 s * (Vector3.x lag - tx)) (Vector3.y lag)
               (tz + JS.pow 0.9 s * (Vector3.z lag - tz)).
Proof.
  cbv zeta. unfold _updateCamera. cbv zeta.
  cbn [Camera._camLag Camera.set__camLag Camera.set_position Camera.set_lookAt
       Camera.set_fov].
  unfold Vector3.set_z, Vector3.set_x. cbn [Vector3.x Vector3.y Vector3.z].
  f_equal; ring.
Qed.

(** X28.  The chase camera closes in on the point [back] units behind
    the car without overshooting: an update multiplies the offset of the
    lag position from that point by [0.9 ^ dtScale], a factor in (0, 1].
    The smoothing does not depend on the frame rate: for a car that stands
    still, two updates of scales [a] and [b] leave the lag position where
    one update of scale [a + b] does.  Starting the game puts the lag
    position exactly on the point that the camera aims for, so the first
    update after the start does not move it (no snap).  The field of view
    widens with the speed, by at most 8 degrees at full speed. *)
Theorem chase_camera (a b : R) (c : Car) (cfg : CamCfg.t) (cam : Camera.t) :
  0 <= a ->
  let tx := Vector3.x (pos c) - sin (heading c) * CamCfg.back cfg in
  let tz := Vector3.z (pos c) + cos (heading c) * CamCfg.back cfg in
  let lag := Camera._camLag cam in
  let lag' := Camera._camLag (_updateCamera a c cfg cam) in
  0 < JS.pow 0.9 a <= 1
  /\ Vector3.x lag' - tx = JS.pow 0.9 a * (Vector3.x lag - tx)
  /\ Vector3.z lag' - tz = JS.pow 0.9 a * (Vector3.z lag - tz)
  /\ Camera._camLag (_updateCamera b c cfg (_updateCamera a c cfg cam))
     = Camera._camLag (_updateCamera (a + b) c cfg cam)
  /\ Camera.position (_updateCamera a c cfg cam)
     = Vector3.mk (Vector3.x lag') (CamCfg.h cfg) (Vector3.z lag')
  /\ Camera._camLag (_updateCamera a c cfg (startGame_camLag c cfg cam))
     = Camera._camLag (startGame_camLag c cfg cam)
  /\ Camera.fov (_updateCamera a c cfg cam)
     = CamCfg.fov cfg + Rabs (speed c) / MAX_SPEED * 8
  /\ (- MAX_REV <= speed c <= MAX_SPEED ->
      CamCfg.fov cfg <= Camera.fov (_updateCamera a c cfg cam) <= CamCfg.fov cfg + 8).
Proof.
  intros Ha. cbv zeta.
  split; [apply pow_decay; lra|].
  split; [|split; [|split; [|split; [reflexivity|split; [|split; [reflexivity|]]]]]].
  - rewrite !_updateCamera_lag; cbv zeta; cbn [Vector3.x Vector3.y Vector3.z]. ring.
  - rewrite !_updateCamera_lag; cbv zeta; cbn [Vector3.x Vector3.y Vector3.z]. ring.
  - rewrite !_updateCamera_lag; cbv zeta; cbn [Vector3.x Vector3.y Vector3.z].
    unfold JS.pow. rewrite Rpower_plus. f_equal; ring.
  - rewrite _updateCamera_lag. cbv zeta.
    unfold startGame_camLag, Vector3.set.
    cbn [Camera._camLag Camera.set__camLag Vector3.x Vector3.y Vector3.z].
    f_equal; ring.
  - intros Hv.
    change (Camera.fov (_updateCamera a c cfg cam))
      with (CamCfg.fov cfg + Rabs (speed c) / MAX_SPEED * 8).
    assert (0 <= Rabs (speed c) <= MAX_SPEED) as Habs.
    { split; [apply Rabs_pos|]. unfold MAX_REV, MAX_SPEED in *.
      unfold Rabs. destruct (Rcase_abs _); lra. }
    unfold MAX_SPEED in *. lra.
Qed.

Lemma chase_camera_witness :
  let cam := Camera.mk (Vector3.mk 0 0 0) (Vector3.mk 0 0 0) (Vector3.mk 0 0 0) 65 in
  0 < JS.pow 0.9 1 <= 1
  /\ Camera._camLag (_updateCamera 2 initial_car CamCfg.initial
                       (_updateCamera 1 initial_car CamCfg.initial cam))
     = Camera._camLag (_updateCamera (1 + 2) initial_car CamCfg.initial cam).
Proof.
  intros cam.
  destruct (chase_camera 1 2 initial_car CamCfg.initial cam) as (H1 & _ & _ & H2 & _);
    [lra|].
  split; [exact H1 | exact H2].
Defined.

(** ** The snapshot for the interface *)

(** [Math.round] of a real between 0 and an integer. *)
Lemma round_range (x : R) (n : Z) : 0 <= x <= IZR n -> (0 <= JS.round x <= n)%Z.
Proof.
  intros [H0 Hn]. unfold JS.round.
  destruct (base_Int_part (x + 0.5)) as [Hle Hgt].
  split.
  - apply Z.lt_succ_r, lt_IZR. rewrite succ_IZR. lra.
  - apply Z.lt_succ_r, lt_IZR. rewrite succ_IZR. lra.
Qed.

(** The speed that the snapshot reads is that of the controls, clamped. *)
Lemma hudSnapshot_speed (spd : R) (g : Game) :
  0 <= spd <= MAX_SPEED ->
  (0 <= Hud.speed (hudSnapshot spd g) <= 80)%Z
  /\ (0 <= speedoLit (hudSnapshot spd g) <= speedoSegments)%Z.
Proof.
  intros Hs. unfold speedoLit, speedoSegments, MAX_SPEED in *.
  cbn [Hud.speed Hud.speedRatio hudSnapshot]. unfold MAX_SPEED.
  split; apply round_range; lra.
Qed.

(** X29.  A frame hands the interface a snapshot unless the engine is in
    the preview or the debug mode, or the frame ends with the restart that
    follows a completed mission.  The snapshot mirrors the state that the
    frame leaves: phase, verdict, grace period, indicators, mission and
    the completion flag; the speed shown is between 0 and 80 km/h, and
    the dial of the interface lights between 0 and 20 segments. *)
Theorem hud_snapshot (delta : R) (g : Game) :
  let g' := (_update delta g).1 in
  match (_update delta g).2 with
  | None =>
    _preview g = true \/ _indDebug g = true \/ exists g3 : Game, g' = restart g3
  | Some hud =>
    (0 <= Hud.speed hud <= 80)%Z
    /\ (0 <= speedoLit hud <= speedoSegments)%Z
    /\ Hud.phase hud = phase (car g')
    /\ Hud.failed hud = failed (car g') /\ Hud.failReason hud = failReason (car g')
    /\ Hud.graceActive hud = graceActive (car g')
    /\ Hud.graceTimer hud = graceTimer (car g')
    /\ Hud.graceRequired hud = graceRequired (car g')
    /\ Hud.leftIndicator hud = leftIndicator (car g')
    /\ Hud.rightIndicator hud = rightIndicator (car g')
    /\ Hud.targetExitNum hud = targetExitNum (car g')
    /\ Hud.missionIndex hud = _missionIndex g'
    /\ Hud.showComplete hud = bool_decide (_completeTimer g' > 0)
    /\ Hud.gear hud = (if decide (speed (car g') >= 0) then "D" else "R")
  end.
Proof.
  cbv zeta.
  destruct (_preview g) eqn:Hp; [rewrite _update_preview by assumption; by left|].
  destruct (_indDebug g) eqn:Hd; [rewrite _update_debug by assumption; right; by left|].
  rewrite _update_live by assumption. cbv zeta. rewrite simulate_stages. cbv zeta.
  cbn [fst snd].
  destruct (integrateControls_speed (tickDt delta * 60)
              (set_elapsed (elapsed g + tickDt delta * 1000) g)) as [Hv _].
  cbv zeta in Hv.
  assert (0 <= Rabs (speed (car (integrateControls (tickDt delta * 60)
                                   (set_elapsed (elapsed g + tickDt delta * 1000) g))))
          <= MAX_SPEED) as Hspd.
  { split; [apply Rabs_pos|]. unfold MAX_SPEED. unfold Rabs.
    destruct (Rcase_abs _); lra. }
  revert Hspd.
  generalize (Rabs (speed (car (integrateControls (tickDt delta * 60)
                (set_elapsed (elapsed g + tickDt delta * 1000) g))))). intros spd Hspd.
  generalize (_updateStateMachine (tickDt delta)
                (_updateNPCs (tickDt delta) (tickDt delta * 60)
                   (blink (tickDt delta) (physics delta g)))). intros g2.
  unfold completeCountdown. case_decide as Hpos.
  - case_decide as Hend; cbn [fst snd].
    + right. right. eexists. reflexivity.
    + destruct (hudSnapshot_speed spd (set__completeTimer (_completeTimer g2 - tickDt delta) g2)
                  Hspd) as [H1 H2].
      split; [exact H1|]. split; [exact H2|]. by repeat split.
  - cbn [fst snd]. destruct (hudSnapshot_speed spd g2 Hspd) as [H1 H2].
    split; [exact H1|]. split; [exact H2|]. by repeat split.
Qed.

(** ** The indicator blink *)

Lemma rem_2_even (n : Z) : Z.rem n 2 = 0%Z <-> exists k : Z, n = (2 * k)%Z.
Proof.
  split.
  - intros H. exists (Z.quot n 2).
    pose proof (Z.quot_rem' n 2) as Hq. lia.
  - intros [k ->]. rewrite Z.mul_comm. apply Z.rem_mul. lia.
Qed.

(** X30.  The indicators blink at 1.5 Hz on the blink timer: after a
    tick the blink is on exactly when the timer lies in a third of a second
    that starts at an even multiple of 1/3, on for [2k/3, (2k+1)/3) and
    off for the next third; the previous value is kept for the click on
    each edge. *)
Theorem blink_cycle (dt : R) (g : Game) :
  let t := _blinkTimer g + dt in
  _blinkTimer (blink dt g) = t
  /\ _prevBlinkOn (blink dt g) = _blinkOn g
  /\ (_blinkOn (blink dt g) = true
      <-> exists k : Z, IZR (2 * k) <= 3 * t < IZR (2 * k + 1)).
Proof.
  cbv zeta. split; [reflexivity|]. split; [reflexivity|].
  change (_blinkOn (blink dt g))
    with (bool_decide (Z.rem (JS.floor ((_blinkTimer g + dt) * 3)) 2 = 0%Z)).
  rewrite bool_decide_eq_true, rem_2_even. unfold JS.floor.
  destruct (base_Int_part ((_blinkTimer g + dt) * 3)) as [Hle Hgt].
  split.
  - intros [k Hk]. exists k. rewrite Hk in Hle, Hgt.
    rewrite plus_IZR. lra.
  - intros [k [H1 H2]]. exists k. symmetry. apply Int_part_spec.
    rewrite plus_IZR in H2. lra.
Qed.

